(** * PrepareForEmission: the IR prepass of ExportVerilog

    A shallow embedding of [lib/Conversion/ExportVerilog/PrepareForEmission.cpp].
    The MLIR graph is an arena of operations with stable indices; blocks are
    ordered lists of operation indices; the use list of a value is recomputed
    from the operand lists.  Every function of the source file is a function
    of the same name on the arena. *)

From Stdlib Require Import ZArith List String Ascii Bool Lia DecimalString.
From stdpp Require Import base option list.
Import ListNotations.

(** ** Results of partial computations

    [OutOfFuel] only arises from the fuel that bounds the loops and the
    recursion of the model; [Abort] is a failed [assert] or a dereference of a
    null pointer or of an end iterator in the source. *)

Inductive Res (A : Type) : Type :=
  | Ok (a : A)
  | OutOfFuel
  | Abort.
Arguments Ok {A} a.
Arguments OutOfFuel {A}.
Arguments Abort {A}.

#[global] Instance Res_ret : MRet Res := fun A a => Ok a.
#[global] Instance Res_bind : MBind Res := fun A B f m =>
  match m with
  | Ok a => f a
  | OutOfFuel => OutOfFuel
  | Abort => Abort
  end.

Definition fromOption {A} (o : option A) : Res A :=
  match o with
  | Some a => Ok a
  | None => Abort
  end.

(** ** The data model *)

Abbreviation OpId := nat (only parsing).
Abbreviation BlockId := nat (only parsing).

Inductive Dialect : Type :=
  | CombDialect
  | SVDialect
  | HWDialect
  | OtherDialect (name : string).

(** The operations the pass names, and a catch-all for every other one. *)
Inductive OpName : Type :=
  | HWModuleOp
  | InstanceOp
  | OutputOp
  | ConstantOp
  | StructExplodeOp
  | StructExtractOp
  | BitcastOp
  | AddOp
  | SubOp
  | WireOp
  | RegOp
  | LogicOp
  | XMROp
  | XMRRefOp
  | ReadInOutOp
  | AssignOp
  | BPAssignOp
  | AlwaysOp
  | AlwaysFFOp
  | IfDefProceduralOp
  | OtherOp (d : Dialect) (mnemonic : string).

Definition getDialect (n : OpName) : Dialect :=
  match n with
  | HWModuleOp | InstanceOp | OutputOp | ConstantOp | StructExplodeOp
  | StructExtractOp | BitcastOp => HWDialect
  | AddOp | SubOp => CombDialect
  | WireOp | RegOp | LogicOp | XMROp | XMRRefOp | ReadInOutOp | AssignOp
  | BPAssignOp | AlwaysOp | AlwaysFFOp | IfDefProceduralOp => SVDialect
  | OtherOp d _ => d
  end.

#[global] Instance Dialect_eq_dec : EqDecision Dialect.
Proof. unfold EqDecision, Decision. decide equality. apply string_dec. Defined.

#[global] Instance OpName_eq_dec : EqDecision OpName.
Proof.
  unfold EqDecision, Decision. decide equality.
  - apply string_dec.
  - apply Dialect_eq_dec.
Defined.

#[warnings="-register-all"]
Inductive Ty : Type :=
  | IntegerType (width : nat)
  | InOutType (element : Ty)
  | InterfaceType
  | StructType (names : list string) (types : list Ty)
  | OtherType.

Definition isInOutType (t : Ty) : bool :=
  match t with InOutType _ => true | _ => false end.

Inductive Attr : Type :=
  | StringAttr (s : string)
  | UnitAttr
  | IntegerAttr (width : nat) (value : Z)
  | FieldNameAttr (s : string).

Inductive Value : Type :=
  | BlockArgument (b : BlockId) (i : nat)
  | OpResult (o : OpId) (i : nat).

#[global] Instance Value_eq_dec : EqDecision Value.
Proof. unfold EqDecision, Decision. decide equality; apply Nat.eq_dec. Defined.

Record Operation : Type := mkOperation {
  opName : OpName;
  opOperands : list Value;
  opResultTypes : list Ty;
  opAttrs : list (string * Attr);
  (** the front block of each region, [None] for an empty region *)
  opRegions : list (option BlockId);
  (** the block that holds the operation *)
  opBlock : option BlockId;
}.

Record Block : Type := mkBlock {
  blockOps : list OpId;
  blockParentOp : option OpId;
  blockArgTypes : list Ty;
}.

(** The arena.  An erased operation leaves [None] in its slot, so indices are
    never reused. *)
Record IR : Type := mkIR {
  irOps : list (option Operation);
  irBlocks : list Block;
}.

Definition getOp (st : IR) (o : OpId) : option Operation :=
  match irOps st !! o with
  | Some (Some op) => Some op
  | _ => None
  end.

Definition setOp (st : IR) (o : OpId) (op : Operation) : IR :=
  mkIR (<[o := Some op]> (irOps st)) (irBlocks st).

Definition getBlockOps (st : IR) (b : BlockId) : list OpId :=
  match irBlocks st !! b with
  | Some blk => blockOps blk
  | None => []
  end.

Definition setBlockOps (st : IR) (b : BlockId) (l : list OpId) : IR :=
  match irBlocks st !! b with
  | Some blk => mkIR (irOps st) (<[b := mkBlock l (blockParentOp blk) (blockArgTypes blk)]> (irBlocks st))
  | None => st
  end.

Definition isa (st : IR) (o : OpId) (names : list OpName) : bool :=
  match getOp st o with
  | Some op => bool_decide (opName op ∈ names)
  | None => false
  end.

Definition getDefiningOp (v : Value) : option OpId :=
  match v with
  | OpResult o _ => Some o
  | BlockArgument _ _ => None
  end.

Definition getBlock (st : IR) (o : OpId) : option BlockId :=
  op ← getOp st o; opBlock op.

Definition getParentOp (st : IR) (o : OpId) : option OpId :=
  b ← getBlock st o; blk ← irBlocks st !! b; blockParentOp blk.

Definition getOperands (st : IR) (o : OpId) : list Value :=
  match getOp st o with Some op => opOperands op | None => [] end.

Definition getNumOperands (st : IR) (o : OpId) : nat := length (getOperands st o).

Definition getNumResults (st : IR) (o : OpId) : nat :=
  match getOp st o with Some op => length (opResultTypes op) | None => 0 end.

Definition getResultType (st : IR) (o : OpId) (i : nat) : Ty :=
  match getOp st o with
  | Some op => default OtherType (opResultTypes op !! i)
  | None => OtherType
  end.

Definition getType (st : IR) (v : Value) : Ty :=
  match v with
  | OpResult o i => getResultType st o i
  | BlockArgument b i =>
      match irBlocks st !! b with
      | Some blk => default OtherType (blockArgTypes blk !! i)
      | None => OtherType
      end
  end.

(** *** Attributes *)

Fixpoint lookupAttr (name : string) (l : list (string * Attr)) : option Attr :=
  match l with
  | [] => None
  | (n, a) :: l' => if String.eqb n name then Some a else lookupAttr name l'
  end.

Fixpoint dropAttr (name : string) (l : list (string * Attr)) : list (string * Attr) :=
  match l with
  | [] => []
  | (n, a) :: l' => if String.eqb n name then dropAttr name l' else (n, a) :: dropAttr name l'
  end.

Definition getAttr (st : IR) (o : OpId) (name : string) : option Attr :=
  op ← getOp st o; lookupAttr name (opAttrs op).

Definition withAttrs (op : Operation) (l : list (string * Attr)) : Operation :=
  mkOperation (opName op) (opOperands op) (opResultTypes op) l (opRegions op) (opBlock op).

Definition removeAttr (st : IR) (o : OpId) (name : string) : IR :=
  match getOp st o with
  | Some op => setOp st o (withAttrs op (dropAttr name (opAttrs op)))
  | None => st
  end.

Definition setAttr (st : IR) (o : OpId) (name : string) (a : Attr) : IR :=
  match getOp st o with
  | Some op => setOp st o (withAttrs op (dropAttr name (opAttrs op) ++ [(name, a)]))
  | None => st
  end.

(** *** Uses

    A use is an operand slot: the owner and the operand number.  The uses of a
    value are enumerated in arena order. *)

Definition Use : Type := (OpId * nat)%type.

Fixpoint operandUses (v : Value) (owner : OpId) (i : nat) (l : list Value) : list Use :=
  match l with
  | [] => []
  | x :: l' =>
      if bool_decide (x = v) then (owner, i) :: operandUses v owner (S i) l'
      else operandUses v owner (S i) l'
  end.

Fixpoint usesFrom (v : Value) (o : OpId) (l : list (option Operation)) : list Use :=
  match l with
  | [] => []
  | Some op :: l' => operandUses v o 0 (opOperands op) ++ usesFrom v (S o) l'
  | None :: l' => usesFrom v (S o) l'
  end.

Definition getUses (st : IR) (v : Value) : list Use := usesFrom v 0 (irOps st).

Definition use_empty (st : IR) (v : Value) : bool :=
  match getUses st v with [] => true | _ => false end.

Definition hasOneUse (st : IR) (v : Value) : bool :=
  match getUses st v with [_] => true | _ => false end.

(** [Operation::getUses]: the uses of all the results. *)
Definition getOpUses (st : IR) (o : OpId) : list Use :=
  flat_map (fun i => getUses st (OpResult o i)) (seq 0 (getNumResults st o)).

Definition opUseEmpty (st : IR) (o : OpId) : bool :=
  match getOpUses st o with [] => true | _ => false end.

Definition opHasOneUse (st : IR) (o : OpId) : bool :=
  match getOpUses st o with [_] => true | _ => false end.

Definition getUsers (st : IR) (o : OpId) : list OpId := map fst (getOpUses st o).

Definition withOperands (op : Operation) (l : list Value) : Operation :=
  mkOperation (opName op) l (opResultTypes op) (opAttrs op) (opRegions op) (opBlock op).

(** [OpOperand::set] *)
Definition setOperand (st : IR) (u : Use) (v : Value) : IR :=
  match getOp st (fst u) with
  | Some op => setOp st (fst u) (withOperands op (<[snd u := v]> (opOperands op)))
  | None => st
  end.

Definition replaceIn (v w : Value) (l : list Value) : list Value :=
  map (fun x => if bool_decide (x = v) then w else x) l.

(** [Value::replaceAllUsesWith] *)
Definition replaceAllUsesWith (st : IR) (v w : Value) : IR :=
  mkIR (map (option_map (fun op => withOperands op (replaceIn v w (opOperands op)))) (irOps st))
       (irBlocks st).

(** *** Positions in blocks *)

Definition withBlock (op : Operation) (b : option BlockId) : Operation :=
  mkOperation (opName op) (opOperands op) (opResultTypes op) (opAttrs op) (opRegions op) b.

Definition removeId (o : OpId) (l : list OpId) : list OpId :=
  filter (fun x => x ≠ o) l.

Fixpoint insertBeforeId (o target : OpId) (l : list OpId) : list OpId :=
  match l with
  | [] => [o]
  | x :: l' => if bool_decide (x = target) then o :: x :: l' else x :: insertBeforeId o target l'
  end.

Fixpoint insertAfterId (o target : OpId) (l : list OpId) : list OpId :=
  match l with
  | [] => [o]
  | x :: l' => if bool_decide (x = target) then x :: o :: l' else x :: insertAfterId o target l'
  end.

(** A position: a block and an iterator into it ([None] is [end()]).  The
    insertion point of a builder is a position, or [None] when the builder has
    no block; an operation created there stays detached. *)
Definition Position : Type := (BlockId * option OpId)%type.
Definition InsertPoint : Type := option Position.

Definition pointBefore (st : IR) (o : OpId) : InsertPoint :=
  b ← getBlock st o; Some (b, Some o).

Fixpoint nextInList (o : OpId) (l : list OpId) : option OpId :=
  match l with
  | [] => None
  | x :: l' => if bool_decide (x = o) then head l' else nextInList o l'
  end.

(** [++Block::iterator(op)] *)
Definition getNextNode (st : IR) (o : OpId) : option OpId :=
  match getBlock st o with
  | Some b => nextInList o (getBlockOps st b)
  | None => None
  end.

Definition pointAfter (st : IR) (o : OpId) : InsertPoint :=
  b ← getBlock st o; Some (b, getNextNode st o).

Definition blockBegin (st : IR) (b : BlockId) : Position :=
  (b, head (getBlockOps st b)).

Definition atBlockBegin (st : IR) (b : BlockId) : InsertPoint :=
  Some (blockBegin st b).

(** Unlink an operation from the block that holds it. *)
Definition unlinkOp (st : IR) (o : OpId) : IR :=
  match getOp st o with
  | Some op =>
      match opBlock op with
      | Some b => setOp (setBlockOps st b (removeId o (getBlockOps st b))) o (withBlock op None)
      | None => st
      end
  | None => st
  end.

(** Link a detached operation at a position. *)
Definition linkOp (st : IR) (o : OpId) (ip : Position) : IR :=
  match getOp st o with
  | Some op =>
      let l := getBlockOps st (fst ip) in
      let l' := match snd ip with
                | Some target => insertBeforeId o target l
                | None => l ++ [o]
                end in
      setOp (setBlockOps st (fst ip) l') o (withBlock op (Some (fst ip)))
  | None => st
  end.

(** [Operation::moveBefore] with a block and an iterator *)
Definition moveToPoint (st : IR) (o : OpId) (ip : Position) : IR :=
  if bool_decide (snd ip = Some o) then st else linkOp (unlinkOp st o) o ip.

(** [Operation::moveBefore] with an operation *)
Definition moveBefore (st : IR) (o target : OpId) : IR :=
  match pointBefore st target with
  | Some ip => moveToPoint st o ip
  | None => st
  end.

(** [Operation::moveAfter] with an operation *)
Definition moveAfter (st : IR) (o target : OpId) : IR :=
  match pointAfter st target with
  | Some ip => moveToPoint st o ip
  | None => st
  end.

(** [Operation::erase] *)
Definition eraseOp (st : IR) (o : OpId) : IR :=
  let st' := unlinkOp st o in
  mkIR (<[o := None]> (irOps st')) (irBlocks st').

(** [OpBuilder::create]: the new operation takes the next free index. *)
Definition createOp (st : IR) (ip : InsertPoint) (name : OpName) (operands : list Value)
    (types : list Ty) (attrs : list (string * Attr)) : IR * OpId :=
  let o := length (irOps st) in
  let op := mkOperation name operands types attrs [] None in
  let st := mkIR (irOps st ++ [Some op]) (irBlocks st) in
  (match ip with Some pos => linkOp st o pos | None => st end, o).

#[global] Arguments getOp : simpl never.
#[global] Arguments setOp : simpl never.
#[global] Arguments getAttr : simpl never.
#[global] Arguments setAttr : simpl never.
#[global] Arguments removeAttr : simpl never.
#[global] Arguments getUses : simpl never.
#[global] Arguments getOpUses : simpl never.
#[global] Arguments setOperand : simpl never.
#[global] Arguments replaceAllUsesWith : simpl never.
#[global] Arguments pointBefore : simpl never.
#[global] Arguments pointAfter : simpl never.
#[global] Arguments linkOp : simpl never.
#[global] Arguments unlinkOp : simpl never.
#[global] Arguments moveToPoint : simpl never.
#[global] Arguments moveBefore : simpl never.
#[global] Arguments moveAfter : simpl never.
#[global] Arguments eraseOp : simpl never.
#[global] Arguments createOp : simpl never.

(** [Operation::clone]: same name, operands, types and attributes. *)
Definition cloneOp (st : IR) (ip : InsertPoint) (o : OpId) : IR * OpId :=
  match getOp st o with
  | Some op => createOp st ip (opName op) (opOperands op) (opResultTypes op) (opAttrs op)
  | None => (st, o)
  end.

(** Loops over the operations of a block follow the intrusive list: the
    iterator is an operation ([None] is [end()]) and its successor is read
    from the block that holds the operation at that moment. *)
Fixpoint foldRes {A B} (f : A -> B -> Res A) (a : A) (l : list B) : Res A :=
  match l with
  | [] => Ok a
  | x :: l' => a' ← f a x; foldRes f a' l'
  end.

(** ** What the pass consumes from the rest of ExportVerilog

    The lowering options and the classification of operations are declared
    outside of this file; the pass only consults them. *)

Record LoweringOptions : Type := mkLoweringOptions {
  disallowLocalVariables : bool;
  disallowExpressionInliningInPorts : bool;
  allowExprInEventControl : bool;
  maximumNumberOfTermsPerExpression : nat;
  (** [isWireSpillingHeuristicEnabled(SpillLargeTermsWithNamehints)] *)
  spillLargeTermsWithNamehints : bool;
  wireSpillingNamehintTermLimit : nat;
}.

Record Oracle : Type := mkOracle {
  isVerilogExpression : Operation -> bool;
  isExpressionAlwaysInline : Operation -> bool;
  isExpressionEmittedInline : IR -> OpId -> LoweringOptions -> bool;
  isConstantExpression : Operation -> bool;
  isMemoryEffectFree : Operation -> bool;
  (** the traits [ProceduralRegion] and [IsCommutative] *)
  hasProceduralRegion : OpName -> bool;
  isCommutative : OpName -> bool;
  inferStructuralNameForTemporary : IR -> Value -> option string;
  (** names of the input and of the output ports of an instance *)
  getModulePortInfo : Operation -> list (option string) * list (option string);
  instanceName : Operation -> string;
  (** dialects loaded in the context, by name *)
  isLoadedDialect : string -> bool;
  (** operations the comb, hw and sv expression visitors dispatch on *)
  isVisitedExpr : OpName -> bool;
  pruneZeroValuedLogic : IR -> OpId -> IR;
}.

Inductive LogicalResult : Type := success | failure.

Definition optAttr (name : string) (v : option string) : list (string * Attr) :=
  match v with
  | Some s => [(name, StringAttr s)]
  | None => []
  end.

Section Pass.

Context (O : Oracle).

Definition opIs (P : Operation -> bool) (st : IR) (o : OpId) : bool :=
  match getOp st o with
  | Some op => P op
  | None => false
  end.

Definition hasProceduralRegionTrait (st : IR) (o : OpId) : bool :=
  opIs (fun op => hasProceduralRegion O (opName op)) st o.

(** Check if the value is from read of a wire or reg or is a port. *)
Definition isSimpleReadOrPort (st : IR) (v : Value) : bool :=
  match v with
  | BlockArgument _ _ => true
  | OpResult vOp _ =>
      if isa st vOp [ReadInOutOp] then
        match getOperands st vOp !! 0 with
        | Some (OpResult readSrc _) => isa st readSrc [WireOp; RegOp; LogicOp; XMROp; XMRRefOp]
        | _ => false
        end
      else false
  end.

(** Check if the value is deemed worth spilling into a wire. *)
Definition shouldSpillWire (st : IR) (op : OpId) (options : LoweringOptions) : bool :=
  if negb (opIs (isVerilogExpression O) st op) then false
  else negb (isExpressionEmittedInline O st op options).

(** [getParentOfType<HWModuleOp>] *)
Fixpoint getParentOfTypeModule (fuel : nat) (st : IR) (o : OpId) : option OpId :=
  match fuel with
  | 0 => None
  | S f =>
      p ← getParentOp st o;
      if isa st p [HWModuleOp] then Some p else getParentOfTypeModule f st p
  end.

(** The body block of the enclosing module. *)
Definition getModuleBodyBlock (st : IR) (o : OpId) : option BlockId :=
  m ← getParentOfTypeModule (length (irOps st)) st o;
  op ← getOp st m;
  r ← opRegions op !! 0;
  r.

Definition natToString (n : nat) : string :=
  NilEmpty.string_of_uint (Nat.to_uint n).

Definition portWireName (prefix : string) (name : option string) (i : nat) : string :=
  String.append prefix (match name with Some s => s | None => natToString i end).

Definition instancePrefix (st : IR) (op : OpId) : string :=
  match getOp st op with
  | Some o => String.append "_" (String.append (instanceName O o) "_")
  | None => "_"%string
  end.

(** Given an instance, make sure all inputs are driven from wires or ports. *)
Definition spillWiresForInstanceInputs (st : IR) (op : OpId) : Res IR :=
  block ← fromOption (getModuleBodyBlock st op);
  let builder := atBlockBegin st block in
  let nameTmp := instancePrefix st op in
  inst ← fromOption (getOp st op);
  foldRes (fun st '(nextOpNo, port) =>
      src ← fromOption (getOperands st op !! nextOpNo);
      if isSimpleReadOrPort st src then Ok st
      else
        let name := portWireName nameTmp port nextOpNo in
        let '(st, newWire) := createOp st builder WireOp [] [InOutType (getType st src)]
                                [("name"%string, StringAttr name)] in
        let '(st, newWireRead) := createOp st builder ReadInOutOp [OpResult newWire 0]
                                    [getType st src] [] in
        let '(st, connect) := createOp st builder AssignOp [OpResult newWire 0; src] [] [] in
        let st := moveBefore st newWireRead op in
        let st := moveBefore st connect op in
        Ok (setOperand st (op, nextOpNo) (OpResult newWireRead 0)))
    st (imap (fun i p => (i, p)) (fst (getModulePortInfo O inst))).

(** [while (!result.use_empty())]: every round creates a read at the builder,
    points the first remaining use at it and moves it before the user.  A
    round removes one use of [result] and adds none, so the rounds are the
    uses of [result] in order. *)
Definition replaceUsesWithReads (st : IR) (builder : InsertPoint) (newWire result : Value) : IR :=
  fold_left (fun st use =>
      let '(st, newWireRead) := createOp st builder ReadInOutOp [newWire] [getType st result] [] in
      let st := setOperand st use (OpResult newWireRead 0) in
      moveBefore st newWireRead (fst use))
    (getUses st result) st.

(** The insertion point of a builder whose iterator was set to [ip]: the
    iterator stands on an operation and follows it when the operation is
    moved; an operation created by the builder goes before that operation,
    in the block that holds it by then. *)
Definition builderAt (st : IR) (ip : Position) : InsertPoint :=
  match snd ip with
  | Some o =>
      match pointBefore st o with
      | Some p => Some p
      | None => Some ip
      end
  | None => Some ip
  end.

(** Ensure that each output of an instance are used only by a wire *)
Definition lowerInstanceResults (st : IR) (op : OpId) : Res IR :=
  block ← fromOption (getModuleBodyBlock st op);
  let begin := blockBegin st block in
  let nameTmp := instancePrefix st op in
  inst ← fromOption (getOp st op);
  foldRes (fun st '(nextResultNo, port) =>
      (* The first operation of the body may have been moved after the
         instance by an earlier round. *)
      let builder := builderAt st begin in
      let result := OpResult op nextResultNo in
      let handled :=
        match getUses st result with
        | [use] =>
            if isa st (fst use) [OutputOp] then Some st
            else if isa st (fst use) [AssignOp] then
              (* Move assign op after instance to resolve cyclic dependencies. *)
              Some (moveAfter st (fst use) op)
            else None
        | _ => None
        end in
      match handled with
      | Some st => Ok st
      | None =>
          let name := portWireName nameTmp port nextResultNo in
          let '(st, newWire) := createOp st builder WireOp [] [InOutType (getType st result)]
                                  [("name"%string, StringAttr name)] in
          let st := replaceUsesWithReads st builder (OpResult newWire 0) result in
          let '(st, connect) := createOp st builder AssignOp [OpResult newWire 0; result] [] [] in
          Ok (moveAfter st connect op)
      end)
    st (imap (fun i p => (i, p)) (snd (getModulePortInfo O inst))).

(** Given a side effect free "always inline" operation, make sure that it
    exists in the same block as its users and that it has one use for each
    one.  The [while] loop of the source is the recursive call on [op]. *)
Fixpoint lowerAlwaysInlineOperation (fuel : nat) (st : IR) (op : OpId) : Res IR :=
  match fuel with
  | 0 => OutOfFuel
  | S f =>
      if negb (getNumResults st op =? 1) then Abort
      else
        let recursivelyHandleOperands (st : IR) (o : OpId) : Res IR :=
          foldRes (fun st i =>
              match getOperands st o !! i with
              | Some (OpResult operandOp _) =>
                  if opIs (isExpressionAlwaysInline O) st operandOp
                  then lowerAlwaysInlineOperation f st operandOp
                  else Ok st
              | _ => Ok st
              end)
            st (seq 0 (getNumOperands st o)) in
        if opHasOneUse st op then
          (* Finally, ensures the op is in the same block as its user so it
             can be inlined. *)
          user ← fromOption (head (getUsers st op));
          let st := moveBefore st op user in
          recursivelyHandleOperands st op
        else
          (* If this operation has multiple uses, duplicate it into N-1 of
             them in turn. *)
          use ← fromOption (head (getOpUses st op));
          let user := fst use in
          let '(st, newOp) := cloneOp st (pointBefore st user) op in
          let st := setOperand st use (OpResult newOp 0) in
          st ← recursivelyHandleOperands st newOp;
          lowerAlwaysInlineOperation f st op
  end.

(** Find a nearest insertion point where logic op can be declared. *)
Fixpoint findLogicOpInsertionPoint (fuel : nat) (st : IR) (op : OpId) : Res Position :=
  match fuel with
  | 0 => OutOfFuel
  | S f =>
      parent ← fromOption (getParentOp st op);
      (* We have to skip `ifdef.procedural` because it is a just macro. *)
      if isa st parent [IfDefProceduralOp] then findLogicOpInsertionPoint f st parent
      else
        b ← fromOption (getBlock st op);
        Ok (blockBegin st b)
  end.

(** Emit an explicit wire or logic to assign operation's result. *)
Definition createWireForResult (st : IR) (op : OpId) (builder : InsertPoint)
    (isProceduralRegion emitWireAtBlockBegin : bool) (result : Value) (name : option string) : IR :=
  (* If the op is in a procedural region, use logic op. *)
  let '(st, newWire) :=
    createOp st builder (if isProceduralRegion then LogicOp else WireOp) []
      [InOutType (getType st result)] (optAttr "name" name) in
  let st := replaceUsesWithReads st builder (OpResult newWire 0) result in
  let '(st, connect) :=
    createOp st builder (if isProceduralRegion then BPAssignOp else AssignOp)
      [OpResult newWire 0; result] [] [] in
  let st := moveAfter st connect op in
  (* Move the temporary to the appropriate place. *)
  if negb emitWireAtBlockBegin then moveAfter st newWire op else st.

Definition lowerUsersToTemporaryWire (st : IR) (op : OpId) (emitWireAtBlockBegin : bool) : Res IR :=
  block ← fromOption (getBlock st op);
  let builder := atBlockBegin st block in
  parent ← fromOption (getParentOp st op);
  let isProceduralRegion := hasProceduralRegionTrait st parent in
  (* If the op has a single result, infer a meaningful name from the value. *)
  if getNumResults st op =? 1 then
    let namehint := inferStructuralNameForTemporary O st (OpResult op 0) in
    let st := removeAttr st op "sv.namehint" in
    Ok (createWireForResult st op builder isProceduralRegion emitWireAtBlockBegin
          (OpResult op 0) namehint)
  else
    (* If the op has multiple results, create wires for each result. *)
    Ok (fold_left (fun st i =>
            createWireForResult st op builder isProceduralRegion emitWireAtBlockBegin
              (OpResult op i) None)
          (seq 0 (getNumResults st op)) st).

(** The end of [lowerFullyAssociativeOp]: the new operation has the name and
    the result type of [op], is inserted before [op] and recorded in
    [newOps]; it takes the saved name and the "twoState" attribute of [op]. *)
Definition createTreeNode (st : IR) (op : OpId) (name : option Attr) (lhs rhs : Value)
    (newOps : list OpId) : Res (IR * Value * list OpId) :=
  o ← fromOption (getOp st op);
  let '(st, newOp) := createOp st (pointBefore st op) (opName o) [lhs; rhs]
                        [getResultType st op 0] [] in
  let newOps := newOps ++ [newOp] in
  let st := match name with
            | Some a => setAttr st newOp "sv.namehint" a
            | None => st
            end in
  let st := match getAttr st op "twoState" with
            | Some twoState => setAttr st newOp "twoState" twoState
            | None => st
            end in
  Ok (st, OpResult newOp 0, newOps).

(** Lower a variadic fully-associative operation into an expression tree.
    This enables long-line splitting to work with them. *)
Fixpoint lowerFullyAssociativeOp (fuel : nat) (st : IR) (op : OpId) (operands : list Value)
    (newOps : list OpId) : Res (IR * Value * list OpId) :=
  (* save the top level name *)
  let name := getAttr st op "sv.namehint" in
  let st := match name with
            | Some _ => removeAttr st op "sv.namehint"
            | None => st
            end in
  match operands with
  | [] => Abort
  | [x] => Ok (st, x, newOps)
  | [lhs; rhs] => createTreeNode st op name lhs rhs newOps
  | _ =>
      match fuel with
      | 0 => OutOfFuel
      | S f =>
          let firstHalf := length operands / 2 in
          '(st, lhs, newOps) ← lowerFullyAssociativeOp f st op (take firstHalf operands) newOps;
          '(st, rhs, newOps) ← lowerFullyAssociativeOp f st op (drop firstHalf operands) newOps;
          createTreeNode st op name lhs rhs newOps
      end
  end.

(** *** Constants: an [APInt] is a width and the unsigned value below [2^width] *)

Definition apIsNegative (width : nat) (value : Z) : bool :=
  Z.testbit value (Z.of_nat width - 1).

Definition apNeg (width : nat) (value : Z) : Z :=
  (- value) mod 2 ^ Z.of_nat width.

(** [hw::ConstantOp::getValue] *)
Definition getConstantValue (st : IR) (cst : OpId) : option (nat * Z) :=
  match getAttr st cst "value" with
  | Some (IntegerAttr w v) => Some (w, v)
  | _ => None
  end.

(** Transform "a + -cst" ==> "a - cst" for prettier output.  This returns the
    first operation emitted. *)
Definition rewriteAddWithNegativeConstant (st : IR) (add rhsCst : OpId) : Res (IR * OpId) :=
  let builder := pointBefore st add in
  '(w, v) ← fromOption (getConstantValue st rhsCst);
  (* Get the positive constant. *)
  let '(st, negCst) := createOp st builder ConstantOp [] [IntegerType w]
                         [("value"%string, IntegerAttr w (apNeg w v))] in
  lhs ← fromOption (getOperands st add !! 0);
  let twoState := match getAttr st add "twoState" with
                  | Some a => [("twoState"%string, a)]
                  | None => []
                  end in
  let '(st, sub) := createOp st builder SubOp [lhs; OpResult negCst 0]
                      [getResultType st add 0] twoState in
  let st := replaceAllUsesWith st (OpResult add 0) (OpResult sub 0) in
  let st := eraseOp st add in
  let st := if opUseEmpty st rhsCst then eraseOp st rhsCst else st in
  Ok (st, negCst).

(** Transforms a hw.struct_explode operation into a set of hw.struct_extract
    operations, and returns the first op generated. *)
Definition lowerStructExplodeOp (st : IR) (op : OpId) : Res (IR * option OpId) :=
  let builder := pointBefore st op in
  input ← fromOption (getOperands st op !! 0);
  match getType st input with
  | StructType names types =>
      let '(st, firstOp) :=
        fold_left (fun '(st, firstOp) '(res, (name, ty)) =>
            let '(st, extract) := createOp st builder StructExtractOp [input] [ty]
                                    [("field"%string, FieldNameAttr name)] in
            let firstOp := match firstOp with
                           | None => Some extract
                           | Some _ => firstOp
                           end in
            (replaceAllUsesWith st (OpResult op res) (OpResult extract 0), firstOp))
          (zip (seq 0 (getNumResults st op)) (zip names types)) (st, None) in
      Ok (eraseOp st op, firstOp)
  | _ => Abort
  end.

(** Given an operation in a procedural region, scan up the region tree to find
    the first operation in a graph region (typically an always or initial op). *)
Fixpoint scanUpProcedural (fuel : nat) (st : IR) (parentOp : OpId) : Res OpId :=
  match fuel with
  | 0 => OutOfFuel
  | S f =>
      grandParent ← fromOption (getParentOp st parentOp);
      if hasProceduralRegionTrait st grandParent then scanUpProcedural f st grandParent
      else Ok parentOp
  end.

Definition findParentInNonProceduralRegion (st : IR) (op : OpId) : Res OpId :=
  parentOp ← fromOption (getParentOp st op);
  if negb (hasProceduralRegionTrait st parentOp) then Abort
  else scanUpProcedural (length (irOps st)) st parentOp.

(** Check to see if this is already rewritten. *)
Definition isAlreadyRewritten (st : IR) (op : OpId) : bool :=
  match getOpUses st op with
  | [use] =>
      let assign := fst use in
      if isa st assign [BPAssignOp] then
        match getOperands st assign !! 0 with
        | Some (OpResult dest _) => isa st dest [RegOp; LogicOp]
        | _ => false
        end
      else false
  | _ => false
  end.

(** This ensures that any side effecting expressions are only used by a single
    BPAssign to a sv.reg or sv.logic operation.  This returns true if the op
    was rewritten, false otherwise. *)
Definition rewriteSideEffectingExpr (st : IR) (op : OpId) : Res (IR * bool) :=
  if negb (getNumResults st op =? 1) then Abort
  else if isAlreadyRewritten st op then Ok (st, false)
  else
    (* Otherwise, we have to transform it.  Insert a reg at the top level,
       make everything using the side effecting expression read the reg, then
       assign to it after the side effecting operation. *)
    let opValue := OpResult op 0 in
    (* Scan to the top of the region tree to find out where to insert the reg. *)
    parentOp ← findParentInNonProceduralRegion st op;
    let builder := pointBefore st parentOp in
    let '(st, reg) := createOp st builder RegOp [] [InOutType (getType st opValue)] [] in
    (* Everything using the expr now uses a read_inout of the reg. *)
    let '(st, value) := createOp st builder ReadInOutOp [OpResult reg 0] [getType st opValue] [] in
    let st := replaceAllUsesWith st opValue (OpResult value 0) in
    (* We assign the side effect expr to the reg immediately after that
       expression is computed. *)
    let builder := pointAfter st op in
    let '(st, _) := createOp st builder BPAssignOp [OpResult reg 0; opValue] [] [] in
    Ok (st, true).

(** [llvm::any_of] over the operands: the scan stops at the first operand
    defined in a procedural region; [cantHoist] is only updated there. *)
Fixpoint anyOperandInProcedural (st : IR) (op : OpId) (operands : list Value)
    : Res (bool * bool) :=
  match operands with
  | [] => Ok (false, false)
  | operand :: rest =>
      match getDefiningOp operand with
      | None => anyOperandInProcedural st op rest (* References to ports are always ok. *)
      | Some operandOp =>
          p ← fromOption (getParentOp st operandOp);
          if hasProceduralRegionTrait st p then
            Ok (true, bool_decide (getBlock st operandOp = getBlock st op))
          else anyOperandInProcedural st op rest
      end
  end.

(** It hoists non-constant expressions out to the top level so they don't
    turn into local variable declarations. *)
Definition hoistNonSideEffectExpr (st : IR) (op : OpId) : Res (IR * bool) :=
  (* Never hoist "always inline" expressions except for inout stuffs - they
     will never generate a temporary and in fact must always be emitted
     inline. *)
  if opIs (isExpressionAlwaysInline O) st op &&
     negb (isa st op [ReadInOutOp] || isInOutType (getResultType st op 0))
  then Ok (st, false)
  else
    (* Scan to the top of the region tree to find out where to move the op. *)
    parentOp ← findParentInNonProceduralRegion st op;
    '(anyProcedural, cantHoist) ← anyOperandInProcedural st op (getOperands st op);
    if (anyProcedural : bool) then
      (* If the operand is in the same block as the expression then we can't
         hoist this out at all. *)
      if (cantHoist : bool) then Ok (st, false)
      else
        (* Otherwise, we can hoist it, but not all the way out in one step.
           Just hoist one level out. *)
        parentOp ← fromOption (getParentOp st op);
        Ok (moveBefore st op parentOp, true)
    else Ok (moveBefore st op parentOp, true).

(** Check whether an op is a declaration that can be moved. *)
Definition isMovableDeclaration (st : IR) (op : OpId) : bool :=
  (getNumResults st op =? 1) &&
  match getResultType st op 0 with
  | InOutType _ | InterfaceType => true
  | _ => false
  end &&
  (getNumOperands st op =? 0).

(** ** EmittedExpressionStateManager *)

(** [EmittedExpressionState]: the size of the expression tree, a [size_t]
    (64 bits): a number below [2^64]; [mergeState] adds with wrap-around. *)
Definition EmittedExpressionState : Type := N.

Definition getBaseState : EmittedExpressionState := 1%N.

Definition mergeState (state s : EmittedExpressionState) : EmittedExpressionState :=
  ((state + s) mod 2 ^ 64)%N.

(** [DenseMap<Value, EmittedExpressionState> expressionStates] *)
Definition ExpressionStates : Type := list (Value * EmittedExpressionState).

Fixpoint findState (v : Value) (m : ExpressionStates) : option EmittedExpressionState :=
  match m with
  | [] => None
  | (k, s) :: m' => if bool_decide (k = v) then Some s else findState v m'
  end.

(** [DenseMap::insert] keeps an entry that is already there. *)
Definition insertState (v : Value) (s : EmittedExpressionState) (m : ExpressionStates)
    : ExpressionStates :=
  match findState v m with
  | Some _ => m
  | None => (v, s) :: m
  end.

(** Get or calculate an emitted expression state.  Every visitor falls back
    to [visitUnhandledExpr]: the base state for an operation without
    operands, the merge of the states of the operands otherwise. *)
Fixpoint getExpressionState (fuel : nat) (st : IR) (m : ExpressionStates) (v : Value)
    : Res (ExpressionStates * EmittedExpressionState) :=
  match fuel with
  | 0 => OutOfFuel
  | S f =>
      match findState v m with
      | Some s => Ok (m, s)
      | None =>
          match v with
          | BlockArgument _ _ => Ok (m, getBaseState)   (* Ports. *)
          | OpResult op _ =>
              o ← fromOption (getOp st op);
              if negb (isVisitedExpr O (opName o)) then Abort
              else
                '(m, state) ←
                  (if length (opOperands o) =? 0 then Ok (m, getBaseState)
                   else
                     (* mergeOperandsStates *)
                     foldRes (fun '(m, state) operand =>
                         '(m, s) ← getExpressionState f st m operand;
                         Ok (m, mergeState state s))
                       (m, 0%N) (opOperands o));
                Ok (insertState v state m, state)
          end
      end
  end.

(** [getAttrOfType<StringAttr>("sv.namehint")] *)
Definition getNamehint (st : IR) (op : OpId) : option string :=
  match getAttr st op "sv.namehint" with
  | Some (StringAttr hint) => Some hint
  | _ => None
  end.

(** If exactly one use of this op is an assign, replace the other uses with a
    read from the assigned wire or reg.  [collectUses] is the loop over the
    uses: [None] when it bails out, the saved assign and the other uses
    otherwise. *)
Fixpoint collectUses (st : IR) (l : list Use) (assign : option OpId) (uses : list Use)
    : option (option OpId * list Use) :=
  match l with
  | [] => Some (assign, uses)
  | use :: l' =>
      (* If it's an assign, try to save it. *)
      if isa st (fst use) [AssignOp] then
        match assign with
        | Some _ => None   (* If there are multiple assigns, bail out. *)
        | None =>
            (* If the assign is not at the top level, it might be
               conditionally executed.  So bail out. *)
            match getParentOp st (fst use) with
            | Some p =>
                if isa st p [HWModuleOp] then collectUses st l' (Some (fst use)) uses
                else None
            | None => None
            end
        end
      else
        (* If not an assign, remember this use for later. *)
        collectUses st l' assign (uses ++ [use])
  end.

(** [assign.getSrc()] is defined by a constant. *)
Definition srcIsConstant (st : IR) (assign : OpId) : bool :=
  match getOperands st assign !! 1 with
  | Some src =>
      match getDefiningOp src with
      | Some cop => isa st cop [ConstantOp]
      | None => false
      end
  | None => false
  end.

(** The assign and the uses to redirect when the rewrite fires. *)
Definition reusePlan (st : IR) (op : OpId) : option (OpId * list Use) :=
  match collectUses st (getOpUses st op) None [] with
  | Some (Some assign, use :: uses) =>
      if srcIsConstant st assign then None else Some (assign, use :: uses)
  | _ => None   (* If we didn't find anything, bail out. *)
  end.

(** Replace all saved uses with a read from the assigned destination. *)
Definition redirectUses (st : IR) (dest : Value) (uses : list Use) : IR :=
  fold_left (fun st use =>
      let builder := pointBefore st (fst use) in
      let '(st, read) := createOp st builder ReadInOutOp [dest]
                           [match getType st dest with InOutType t => t | t => t end] [] in
      setOperand st use (OpResult read 0))
    uses st.

Definition reuseExistingInOut (fuel : nat) (st : IR) (op : OpId) : Res (IR * bool) :=
  match reusePlan st op with
  | None => Ok (st, false)
  | Some (assign, uses) =>
      dest ← fromOption (getOperands st assign !! 0);
      let st := redirectUses st dest uses in
      st ← match getDefiningOp dest with
           | Some destOp =>
               if opIs (isExpressionAlwaysInline O) st destOp
               then lowerAlwaysInlineOperation fuel st destOp
               else Ok st
           | None => Ok st
           end;
      Ok (st, true)
  end.

Definition dispatchHeuristic (fuel : nat) (options : LoweringOptions) (st : IR)
    (m : ExpressionStates) (op : OpId) : Res (ExpressionStates * bool) :=
  if spillLargeTermsWithNamehints options then
    match getNamehint st op with
    | Some hint =>
        (* Spill wires if the name doesn't have a prefix "_". *)
        if negb (String.prefix "_" hint) then Ok (m, true)
        else
          (* If the name has prefix "_", spill if the size is greater than the
             threshould. *)
          '(m, size) ← getExpressionState fuel st m (OpResult op 0);
          if (N.of_nat (wireSpillingNamehintTermLimit options) <=? size)%N then Ok (m, true)
          else Ok (m, false)
    | None => Ok (m, false)
    end
  else Ok (m, false).

(** The single user already stands for a wire. *)
Definition usedOnlyByAssignment (st : IR) (op : OpId) : bool :=
  match getUsers st op with
  | [singleUser] =>
      isa st singleUser [OutputOp; AssignOp; BPAssignOp; InstanceOp] ||
      (* If the single user is bitcast, we check the same property for the
         bitcast op since bitcast op is no-op in system verilog. *)
      (opHasOneUse st singleUser && isa st singleUser [BitcastOp] &&
       match getUsers st singleUser with
       | u :: _ => isa st u [OutputOp; AssignOp; BPAssignOp]
       | [] => false
       end)
  | _ => false
  end.

(** Return true if it is beneficial to spill the operation under the
    specified spilling heuristic. *)
Definition shouldSpillWireBasedOnState (fuel : nat) (options : LoweringOptions) (st : IR)
    (m : ExpressionStates) (op : OpId) : Res (ExpressionStates * bool) :=
  (* Don't spill wires for inout operations and simple expressions such as
     read or constant. *)
  if (getNumResults st op =? 0) || isInOutType (getResultType st op 0) ||
     isa st op [ReadInOutOp; ConstantOp]
  then Ok (m, false)
  (* If the operation is only used by an assignment, the op is already
     spilled to a wire. *)
  else if usedOnlyByAssignment st op then Ok (m, false)
  else
    (* If the term size is greater than `maximumNumberOfTermsPerExpression`,
       we have to spill the wire. *)
    '(m, size) ← getExpressionState fuel st m (OpResult op 0);
    if (N.of_nat (maximumNumberOfTermsPerExpression options) <? size)%N then Ok (m, true)
    else dispatchHeuristic fuel options st m op.

(** The iterator after [op]; running off the end of a block other than the
    one being walked never meets the end iterator of the loop. *)
Definition advance (st : IR) (block : BlockId) (op : OpId) : Res (option OpId) :=
  match getNextNode st op with
  | Some n => Ok (Some n)
  | None => if bool_decide (getBlock st op = Some block) then Ok None else Abort
  end.

(** The front blocks of the regions of an operation. *)
Definition regionBlocks (st : IR) (op : OpId) : list BlockId :=
  match getOp st op with
  | Some o => omap id (opRegions o)
  | None => []
  end.

(** After the legalization, we are able to know accurate verilog AST
    structures.  So this function walks and prettifies verilog IR with a
    heuristic method specified by `options.wireSpillingHeuristic` based on the
    structures. *)
Fixpoint spillScan (fuel : nat) (options : LoweringOptions) (block : BlockId) (st : IR)
    (m : ExpressionStates) (it : option OpId) : Res (IR * ExpressionStates) :=
  match it with
  | None => Ok (st, m)
  | Some op =>
      match fuel with
      | 0 => OutOfFuel
      | S f =>
          next ← advance st block op;
          if negb (opIs (isVerilogExpression O) st op) then spillScan f options block st m next
          else
            '(m, spill) ← shouldSpillWireBasedOnState fuel options st m op;
            if (spill : bool) then
              st ← lowerUsersToTemporaryWire st op false;
              spillScan f options block st m next
            else spillScan f options block st m next
      end
  end.

Fixpoint prettifyRegions (rec : IR -> ExpressionStates -> BlockId -> Res (IR * ExpressionStates))
    (fuel : nat) (block : BlockId) (st : IR) (m : ExpressionStates) (it : option OpId)
    : Res (IR * ExpressionStates) :=
  match it with
  | None => Ok (st, m)
  | Some op =>
      match fuel with
      | 0 => OutOfFuel
      | S f =>
          (* If the operations has regions, visit each of the region bodies. *)
          '(st, m) ← foldRes (fun '(st, m) b => rec st m b) (st, m) (regionBlocks st op);
          next ← advance st block op;
          prettifyRegions rec f block st m next
      end
  end.

Fixpoint prettifyAfterLegalization (fuel : nat) (options : LoweringOptions) (st : IR)
    (m : ExpressionStates) (block : BlockId) : Res (IR * ExpressionStates) :=
  match fuel with
  | 0 => OutOfFuel
  | S f =>
      parent ← fromOption (blk ← irBlocks st !! block; blockParentOp blk);
      (* TODO: Handle procedural regions as well. *)
      if hasProceduralRegionTrait st parent then Ok (st, m)
      else
        '(st, m) ← spillScan f options block st m (head (getBlockOps st block));
        prettifyRegions (prettifyAfterLegalization f options) f block st m
          (head (getBlockOps st block))
  end.

(** ** The legalization driver *)

(** [NamedAttribute::getNameDialect]: the prefix before the first dot, when it
    names a loaded dialect. *)
Definition getNameDialect (name : string) : bool :=
  match String.index 0 "." name with
  | Some i =>
      negb (i =? 0) && (i + 1 <? String.length name) &&
      isLoadedDialect O (String.substring 0 i name)
  | None => false
  end.

(** Force any expression used in the event control of an always process to be
    a trivial wire. *)
Definition enforceWire (fuel : nat) (st : IR) (op : OpId) (expr : Value) : Res IR :=
  (* Direct port uses are fine. *)
  if isSimpleReadOrPort st expr then Ok st
  else if match getDefiningOp expr with
          | Some inst => isa st inst [InstanceOp]
          | None => false
          end then Ok st
  else
    block ← fromOption (getModuleBodyBlock st op);
    let '(st, newWire) := createOp st (atBlockBegin st block) WireOp []
                            [InOutType (getType st expr)] [] in
    let '(st, newWireRead) := createOp st (pointBefore st op) ReadInOutOp
                                [OpResult newWire 0] [getType st expr] [] in
    (* For simplicity, replace all uses with the read first.  This lets us
       recursive root out all uses of the expression. *)
    let st := replaceAllUsesWith st expr (OpResult newWireRead 0) in
    let '(st, _) := createOp st (pointBefore st op) AssignOp [OpResult newWire 0; expr] [] [] in
    (* To get the output correct, given that reads are always inline,
       duplicate them for each use. *)
    lowerAlwaysInlineOperation fuel st newWireRead.

(** The test that guards the lowering of a variadic operation into a balanced
    tree. *)
Definition isFullyAssociativeCandidate (st : IR) (op : OpId) : bool :=
  match getOp st op with
  | Some o =>
      (2 <? length (opOperands o)) && (length (opResultTypes o) =? 1) &&
      isCommutative O (opName o) && isMemoryEffectFree O o &&
      (length (opRegions o) =? 0) &&
      forallb (fun attr => getNameDialect (fst attr) || String.eqb (fst attr) "twoState")
        (opAttrs o)
  | None => false
  end.

(** If this expression is deemed worth spilling into a wire, do it here.  The
    boolean is the [continue] of the source. *)
Definition spillStage (fuel : nat) (options : LoweringOptions) (isProceduralRegion : bool)
    (st : IR) (op : OpId) : Res (IR * bool) :=
  if shouldSpillWire st op options then
    (* We first check that it is possible to reuse existing wires as a
       spilled wire.  Otherwise, create a new wire op. *)
    '(st, reused) ← (if isProceduralRegion then Ok (st, false)
                     else reuseExistingInOut fuel st op);
    if (reused : bool) then Ok (st, false)
    else if disallowLocalVariables options then
      (* If we're not in a procedural region, or we are, but we can hoist out
         of it, we are good to generate a wire. *)
      '(st, good) ← (if negb isProceduralRegion then Ok (st, true)
                     else hoistNonSideEffectExpr st op);
      if (good : bool) then
        parent ← fromOption (getParentOp st op);
        (* If op is moved to a non-procedural region, create a temporary
           wire. *)
        st ← (if negb (hasProceduralRegionTrait st parent)
              then lowerUsersToTemporaryWire st op false
              else Ok st);
        Ok (st, isProceduralRegion)
      else Ok (st, false)
    else
      (* If `disallowLocalVariables` is not enabled, we can spill the
         expression to automatic logic declarations even when the op is in a
         procedural region. *)
      st ← lowerUsersToTemporaryWire st op false;
      Ok (st, false)
  else Ok (st, false).

(** The rewrites that follow the spilling decision. *)
Definition rewriteStage (fuel : nat) (isProceduralRegion : bool) (st : IR) (op : OpId)
    (opIterator : option OpId) : Res (IR * option OpId) :=
  (* Lower variadic fully-associative operations with more than two operands
     into balanced operand trees so we can split long lines across multiple
     statements. *)
  if isFullyAssociativeCandidate st op then
    let operands := getOperands st op in
    '(st, result, newOps) ← lowerFullyAssociativeOp (length operands) st op operands [];
    let st := replaceAllUsesWith st (OpResult op 0) result in
    let st := eraseOp st op in
    (* Make sure we revisit the newly inserted operations. *)
    front ← fromOption (head newOps);
    Ok (st, Some front)
  else
    (* Turn a + -cst  ==> a - cst *)
    let negativeCst :=
      if isa st op [AddOp] then
        rhs ← fromOption (getOperands st op !! 1);
        match getDefiningOp rhs with
        | Some cst =>
            if isa st cst [ConstantOp] then
              if negb (getNumOperands st op =? 2) then Abort
              else
                '(w, v) ← fromOption (getConstantValue st cst);
                Ok (if apIsNegative w v then Some cst else None)
            else Ok None
        | None => Ok None
        end
      else Ok None in
    negativeCst ← negativeCst;
    match negativeCst with
    | Some cst =>
        '(st, firstOp) ← rewriteAddWithNegativeConstant st op cst;
        Ok (st, Some firstOp)
    | None =>
        (* Lower hw.struct_explode ops into a set of hw.struct_extract ops
           which have well-defined SV emission semantics. *)
        if isa st op [StructExplodeOp] then
          '(st, firstOp) ← lowerStructExplodeOp st op;
          firstOp ← fromOption firstOp;
          Ok (st, Some firstOp)
        else if negb isProceduralRegion && opIs (isVerilogExpression O) st op then
          (* Try to anticipate expressions that ExportVerilog may spill to a
             temporary inout, and re-use an existing inout when possible. *)
          '(st, _) ← reuseExistingInOut fuel st op;
          Ok (st, opIterator)
        else Ok (st, opIterator)
    end.

(** One round of the walk over the operations of a block, after the check of
    the dialect: the state, the iterator and the set of the "always inline"
    operations already visited. *)
Definition legalizeOp (fuel : nat) (options : LoweringOptions) (isProceduralRegion : bool)
    (st : IR) (visited : list OpId) (op : OpId) (opIterator : option OpId)
    : Res (IR * option OpId * list OpId) :=
  st ← (if isa st op [InstanceOp] then
          (* Anchor return values to wires early *)
          st ← lowerInstanceResults st op;
          (* Anchor ports of instances when `disallowExpressionInliningInPorts`
             is enabled. *)
          if disallowExpressionInliningInPorts options
          then spillWiresForInstanceInputs st op
          else Ok st
        else Ok st);
  (* If logic op is located in a procedural region, we have to move the logic
     op declaration to a valid program point. *)
  st ← (if isProceduralRegion && isa st op [LogicOp] && disallowLocalVariables options then
          parentOp ← findParentInNonProceduralRegion st op;
          Ok (moveBefore st op parentOp)
        else Ok st);
  if negb (allowExprInEventControl options) && isa st op [AlwaysOp] then
    st ← foldRes (fun st i =>
             match getOperands st op !! i with
             | Some clock => enforceWire fuel st op clock
             | None => Ok st
             end)
           st (seq 0 (getNumOperands st op));
    Ok (st, opIterator, visited)
  else if negb (allowExprInEventControl options) && isa st op [AlwaysFFOp] then
    clock ← fromOption (getOperands st op !! 0);
    st ← enforceWire fuel st op clock;
    st ← match getOperands st op !! 1 with
         | Some reset => enforceWire fuel st op reset
         | None => Ok st
         end;
    Ok (st, opIterator, visited)
  else
    (* If the target doesn't support local variables, hoist all the
       expressions out to the nearest non-procedural region. *)
    '(st, hoisted) ←
      (if disallowLocalVariables options && opIs (isVerilogExpression O) st op &&
          isProceduralRegion then
         (* Force any side-effecting expressions in nested regions into a
            sv.reg if we aren't allowing local variable declarations. *)
         '(st, rewritten) ← (if negb (opIs (isMemoryEffectFree O) st op)
                             then rewriteSideEffectingExpr st op
                             else Ok (st, false));
         if (rewritten : bool) then Ok (st, true)
         else
           (* Hoist other expressions out to the parent region. *)
           hoistNonSideEffectExpr st op
       else Ok (st, false));
    if (hoisted : bool) then Ok (st, opIterator, visited)
    else if opIs (isExpressionAlwaysInline O) st op then
      (* Duplicate "always inline" expression for each of their users and
         move them to be next to their users. *)
      if opUseEmpty st op then
        (* Nuke use-less operations. *)
        Ok (eraseOp st op, opIterator, visited)
      else if bool_decide (op ∈ visited) then Ok (st, opIterator, visited)
      else
        st ← lowerAlwaysInlineOperation fuel st op;
        Ok (st, opIterator, op :: visited)
    else
      '(st, continue) ← spillStage fuel options isProceduralRegion st op;
      if (continue : bool) then Ok (st, opIterator, visited)
      else
        '(st, opIterator) ← rewriteStage fuel isProceduralRegion st op opIterator;
        Ok (st, opIterator, visited).

Definition isKnownDialect (n : OpName) : bool :=
  bool_decide (getDialect n ∈ [CombDialect; SVDialect; HWDialect]).

(** [op.getDialect()] is not null: the dialect of the operation is loaded in
    the context. *)
Definition hasLoadedDialect (n : OpName) : bool :=
  match getDialect n with
  | OtherDialect name => isLoadedDialect O name
  | _ => true
  end.

(** The walk over the operations of a block.  [encountered] lists the names
    of the operations the walk has looked at, the latest first. *)
Fixpoint walkOperations (fuel : nat) (options : LoweringOptions) (block : BlockId)
    (isProceduralRegion : bool) (st : IR) (visited : list OpId) (encountered : list OpName)
    (opIterator : option OpId) : Res (LogicalResult * IR * list OpName) :=
  match opIterator with
  | None => Ok (success, st, encountered)
  | Some op =>
      match fuel with
      | 0 => OutOfFuel
      | S f =>
          o ← fromOption (getOp st op);
          opIterator ← advance st block op;
          (* [isa<>] asserts on the null dialect of an operation whose dialect
             is not loaded. *)
          if negb (hasLoadedDialect (opName o)) then Abort
          else
          let encountered := opName o :: encountered in
          if negb (isKnownDialect (opName o)) then Ok (failure, st, encountered)
          else
            '(st, opIterator, visited) ←
              legalizeOp fuel options isProceduralRegion st visited op opIterator;
            walkOperations f options block isProceduralRegion st visited encountered opIterator
      end
  end.

(** In a procedural region, logic operations needs to be top of blocks so
    move logic operations to valid program points. *)
Fixpoint moveLogicOps (fuel : nat) (st : IR) (block : BlockId)
    (logicOpInsertionPoint : Position) (it : option OpId) : Res IR :=
  match it with
  | None => Ok st
  | Some op =>
      match fuel with
      | 0 => OutOfFuel
      | S f =>
          next ← advance st block op;
          if isa st op [LogicOp] then
            (* If the logic op is already located at the given point,
               increment the iterator to keep the order of logic operations
               in the block. *)
            if bool_decide (snd logicOpInsertionPoint = Some op) then
              moveLogicOps f st block (fst logicOpInsertionPoint, getNextNode st op) next
            else
              (* Otherwise, move the op to the insertion point. *)
              moveLogicOps f (moveToPoint st op logicOpInsertionPoint) block
                logicOpInsertionPoint next
          else moveLogicOps f st block logicOpInsertionPoint next
      end
  end.

(** If the user is in a suboperation like an always block, then zip up to the
    operation that uses it. *)
Fixpoint zipUp (fuel : nat) (st : IR) (block : BlockId) (userOp : OpId) : Res OpId :=
  match fuel with
  | 0 => OutOfFuel
  | S f =>
      b ← fromOption (getBlock st userOp);
      if b =? block then Ok userOp
      else
        parent ← fromOption (getParentOp st userOp);
        zipUp f st block parent
  end.

Fixpoint haveAnyOutOfOrderUses (st : IR) (block : BlockId) (seenOperations : list OpId)
    (users : list OpId) : Res bool :=
  match users with
  | [] => Ok false
  | userOp :: rest =>
      userOp ← zipUp (length (irOps st)) st block userOp;
      if bool_decide (userOp ∈ seenOperations) then Ok true
      else haveAnyOutOfOrderUses st block seenOperations rest
  end.

(** Check for any use-before def issues in graph regions.  Lower these into
    explicit wires to keep the emitter simple. *)
Fixpoint resolveUseBeforeDef (fuel : nat) (st : IR) (block : BlockId)
    (seenOperations : list OpId) (it : option OpId) : Res IR :=
  match it with
  | None => Ok st
  | Some op =>
      match fuel with
      | 0 => OutOfFuel
      | S f =>
          next ← advance st block op;
          outOfOrder ← haveAnyOutOfOrderUses st block seenOperations (getUsers st op);
          (* Remember that we've seen this operation. *)
          let seenOperations := op :: seenOperations in
          (* If all the uses of the operation are below this, then we're ok. *)
          if negb outOfOrder then resolveUseBeforeDef f st block seenOperations next
          else
            front ← fromOption (head (getBlockOps st block));
            (* If this is a reg/wire declaration, then we move it to the top
               of the block.  We can't abstract the inout result. *)
            if isMovableDeclaration st op then
              resolveUseBeforeDef f (moveBefore st op front) block seenOperations next
            (* If this is a constant, then we move it to the top of the block. *)
            else if opIs (isConstantExpression O) st op then
              resolveUseBeforeDef f (moveBefore st op front) block seenOperations next
            else
              (* If this is a an operation reading from a declaration, move it
                 up, along with the corresponding declaration. *)
              movedRead ←
                (if isa st op [ReadInOutOp] then
                   input ← fromOption (getOperands st op !! 0);
                   def ← fromOption (getDefiningOp input);
                   if isMovableDeclaration st def then
                     let st := moveBefore st op front in
                     front ← fromOption (head (getBlockOps st block));
                     Ok (Some (moveBefore st def front))
                   else Ok None
                 else Ok None);
              match movedRead with
              | Some st => resolveUseBeforeDef f st block seenOperations next
              | None =>
                  (* Otherwise, we need to lower this to a wire to resolve
                     this. *)
                  st ← lowerUsersToTemporaryWire st op true;
                  resolveUseBeforeDef f st block seenOperations next
              end
      end
  end.

(** The regions of one operation, then the walk over the nested blocks of the
    operations of a block; [rec] legalizes a nested block. *)
Fixpoint legalizeRegions (rec : IR -> list OpName -> BlockId -> Res (LogicalResult * IR * list OpName))
    (st : IR) (encountered : list OpName) (l : list BlockId)
    : Res (LogicalResult * IR * list OpName) :=
  match l with
  | [] => Ok (success, st, encountered)
  | b :: l' =>
      '(r, st, encountered) ← rec st encountered b;
      match r with
      | failure => Ok (failure, st, encountered)
      | success => legalizeRegions rec st encountered l'
      end
  end.

Fixpoint legalizeNested (rec : IR -> list OpName -> BlockId -> Res (LogicalResult * IR * list OpName))
    (fuel : nat) (block : BlockId) (st : IR) (encountered : list OpName) (it : option OpId)
    : Res (LogicalResult * IR * list OpName) :=
  match it with
  | None => Ok (success, st, encountered)
  | Some op =>
      match fuel with
      | 0 => OutOfFuel
      | S f =>
          (* If the operations has regions, prepare each of the region
             bodies. *)
          '(r, st, encountered) ← legalizeRegions rec st encountered (regionBlocks st op);
          match r with
          | failure => Ok (failure, st, encountered)
          | success =>
              next ← advance st block op;
              legalizeNested rec f block st encountered next
          end
      end
  end.

(** For each module we emit, do a prepass over the structure, pre-lowering and
    otherwise rewriting operations we don't want to emit. *)
Fixpoint legalizeHWModule (fuel : nat) (options : LoweringOptions) (st : IR)
    (encountered : list OpName) (block : BlockId) : Res (LogicalResult * IR * list OpName) :=
  match fuel with
  | 0 => OutOfFuel
  | S f =>
      (* First step, check any nested blocks that exist in this region.  This
         walk can pull things out to our level of the hierarchy. *)
      nested ← legalizeNested (legalizeHWModule f options) f block st encountered
                 (head (getBlockOps st block));
      let '(r, st, encountered) := nested in
      match r with
      | failure => Ok (failure, st, encountered)
      | success =>
          (* True if these operations are in a procedural region. *)
          parent ← fromOption (blk ← irBlocks st !! block; blockParentOp blk);
          let isProceduralRegion := hasProceduralRegionTrait st parent in
          '(r, st, encountered) ←
            walkOperations f options block isProceduralRegion st [] encountered
              (head (getBlockOps st block));
          match r with
          | failure => Ok (failure, st, encountered)
          | success =>
              if isProceduralRegion then
                match head (getBlockOps st block) with
                | None => Ok (success, st, encountered)
                | Some front =>
                    logicOpInsertionPoint ← findLogicOpInsertionPoint (length (irOps st)) st front;
                    st ← moveLogicOps f st block logicOpInsertionPoint (Some front);
                    Ok (success, st, encountered)
                end
              else
                st ← resolveUseBeforeDef f st block [] (head (getBlockOps st block));
                Ok (success, st, encountered)
          end
      end
  end.

Definition prepareHWModule (fuel : nat) (options : LoweringOptions) (st : IR) (module : OpId)
    : Res (LogicalResult * IR) :=
  (* Zero-valued logic pruning. *)
  let st := pruneZeroValuedLogic O st module in
  body ← fromOption (o ← getOp st module; r ← opRegions o !! 0; r);
  (* Legalization. *)
  '(r, st, _) ← legalizeHWModule fuel options st [] body;
  match r with
  | failure => Ok (failure, st)
  | success =>
      (* Spill wires to prettify verilog outputs. *)
      '(st, _) ← prettifyAfterLegalization fuel options st [] body;
      Ok (success, st)
  end.

End Pass.

(** ** The value of a tree of operations

    The binary operator an operation name stands for is a parameter [f]; a
    variadic operation folds it over its operands.  [evalValue] computes the
    value of [v] through the operations created from index [n0] on, and reads
    every other value from the assignment [env]. *)

Section Evaluation.

Context (f : Z -> Z -> Z).

Definition evalVariadic (vals : list Z) : option Z :=
  match vals with
  | [] => None
  | x :: xs => Some (fold_left f xs x)
  end.

Fixpoint evalValue (fuel : nat) (st : IR) (n0 : nat) (env : Value -> Z) (v : Value) : option Z :=
  match v with
  | OpResult o _ =>
      if n0 <=? o then
        match fuel with
        | 0 => None
        | S k =>
            op ← getOp st o;
            vals ← mapM (evalValue k st n0 env) (opOperands op);
            evalVariadic vals
        end
      else Some (env v)
  | BlockArgument _ _ => Some (env v)
  end.

End Evaluation.

(** ** The conditions of the reuse of a declaration, in the words of the
    specification *)

Definition isAssignUse (st : IR) (u : Use) : bool := isa st (fst u) [AssignOp].

(** The uses of the node by a continuous assign, and the other uses. *)
Definition assignUses (st : IR) (op : OpId) : list Use :=
  List.filter (isAssignUse st) (getOpUses st op).

Definition otherUses (st : IR) (op : OpId) : list Use :=
  List.filter (fun u => negb (isAssignUse st u)) (getOpUses st op).

(** The assign sits directly in the body of the module. *)
Definition atTopLevel (st : IR) (assign : OpId) : bool :=
  match getParentOp st assign with
  | Some p => isa st p [HWModuleOp]
  | None => false
  end.

(** Exactly one use by an assign, that assign at the top level, at least one
    other use, and the source of the assign not a constant. *)
Definition reuseFires (st : IR) (op : OpId) : bool :=
  match assignUses st op with
  | [u] =>
      atTopLevel st (fst u) &&
      match otherUses st op with [] => false | _ => true end &&
      negb (srcIsConstant st (fst u))
  | _ => false
  end.

Definition isDeclaration (st : IR) (o : OpId) : bool := isa st o [WireOp; RegOp; LogicOp].

(** ** The worth of a spill, in the words of the specification *)

(** The sole user is an output, an assign, a blocking assign or an instance,
    directly or through one bitcast. *)
Definition soleUseIsTemporary (st : IR) (op : OpId) : bool :=
  match getUsers st op with
  | [singleUser] =>
      isa st singleUser [OutputOp; AssignOp; BPAssignOp; InstanceOp] ||
      (isa st singleUser [BitcastOp] &&
       match getUsers st singleUser with
       | [u] => isa st u [OutputOp; AssignOp; BPAssignOp; InstanceOp]
       | _ => false
       end)
  | _ => false
  end.

(** The predicate in the words of section 4.3 of the specification, for a
    node whose estimated cost is [size]: the cost exceeds the maximum, or the
    name hint lacks the prefix "_", or it has the prefix and the cost exceeds
    the limit for name hints. *)
Definition worthSpillingAsSpecified (options : LoweringOptions) (st : IR) (op : OpId)
    (size : nat) : bool :=
  negb ((getNumResults st op =? 0) || isInOutType (getResultType st op 0) ||
        isa st op [ReadInOutOp; ConstantOp]) &&
  negb (soleUseIsTemporary st op) &&
  ((maximumNumberOfTermsPerExpression options <? size) ||
   (spillLargeTermsWithNamehints options &&
    match getNamehint st op with
    | Some hint =>
        negb (String.prefix "_" hint) || (wireSpillingNamehintTermLimit options <? size)
    | None => false
    end)).

(** ** Hoisting, in the words of the specification *)

(** The operand is defined by an operation of a procedural region. *)
Definition operandInProcedural (O : Oracle) (st : IR) (v : Value) : bool :=
  match getDefiningOp v with
  | Some d =>
      match getParentOp st d with
      | Some p => hasProceduralRegionTrait O st p
      | None => false
      end
  | None => false
  end.

(** The operand is defined in the block of [op]. *)
Definition operandInBlockOf (st : IR) (op : OpId) (v : Value) : bool :=
  match getDefiningOp v with
  | Some d => bool_decide (getBlock st d = getBlock st op)
  | None => false
  end.

(** The hoisting of section 4.2, step 5, as the specification words it: all
    the way out when every operand dominates the nearest enclosing
    non-procedural region, out by one level otherwise. *)
Definition hoistAsSpecified (O : Oracle) (st : IR) (op : OpId) : Res (IR * bool) :=
  top ← findParentInNonProceduralRegion O st op;
  if forallb (fun v => negb (operandInProcedural O st v)) (getOperands st op)
  then Ok (moveBefore st op top, true)
  else
    parent ← fromOption (getParentOp st op);
    Ok (moveBefore st op parent, true).

(** ** Side effects in procedural regions, in the words of the specification

    Every side-effecting expression that sits in a procedural region has
    exactly one use, a blocking assign whose destination is a reg or a logic;
    this is the test [isAlreadyRewritten] of the source. *)
Definition sideEffectsAnchored (O : Oracle) (st : IR) : bool :=
  forallb (fun op =>
      match getOp st op, getParentOp st op with
      | Some o, Some parent =>
          if isVerilogExpression O o && negb (isMemoryEffectFree O o) &&
             hasProceduralRegionTrait O st parent
          then isAlreadyRewritten st op
          else true
      | _, _ => true
      end)
    (seq 0 (length (irOps st))).

(** A value of the graph before index [n0]: a block argument or the result of
    an operation below [n0]. *)
Definition isOldValue (n0 : nat) (v : Value) : Prop :=
  match v with
  | OpResult o _ => o < n0
  | BlockArgument _ _ => True
  end.

(** ** Sample inputs

    A classification of the operations that the samples use, after
    ExportVerilog: reads and inout projections are always inline, an
    expression with several uses is not emitted inline unless it can be
    duplicated, [sv.verbatim.expr.se] has side effects. *)

Definition inStrings (s : string) (l : list string) : bool := existsb (String.eqb s) l.

Definition sampleOracle : Oracle := {|
  isVerilogExpression op :=
    match opName op with
    | ConstantOp | StructExtractOp | BitcastOp | AddOp | SubOp | ReadInOutOp
    | XMROp | XMRRefOp => true
    | OtherOp CombDialect _ => true
    | OtherOp SVDialect m =>
        inStrings m ["array_index_inout"; "verbatim.expr.se"; "system.sampled"]%string
    | _ => false
    end;
  isExpressionAlwaysInline op :=
    match opName op with
    | ReadInOutOp | XMROp | XMRRefOp => true
    | OtherOp SVDialect m => inStrings m ["array_index_inout"; "system.sampled"]%string
    | _ => false
    end;
  isExpressionEmittedInline st o _ :=
    match getOpUses st o with
    | [] => true
    | [u] => true
    | _ => isa st o [ConstantOp; ReadInOutOp]
    end;
  isConstantExpression op := bool_decide (opName op = ConstantOp);
  isMemoryEffectFree op :=
    match opName op with
    | OtherOp SVDialect m => negb (inStrings m ["verbatim.expr.se"]%string)
    | _ => true
    end;
  hasProceduralRegion n :=
    match n with
    | AlwaysOp | AlwaysFFOp | IfDefProceduralOp => true
    | OtherOp SVDialect m => inStrings m ["initial"; "if"]%string
    | _ => false
    end;
  isCommutative n :=
    match n with
    | AddOp => true
    | OtherOp CombDialect m => inStrings m ["mul"; "and"; "or"; "xor"]%string
    | _ => false
    end;
  inferStructuralNameForTemporary st v :=
    match v with
    | OpResult o _ => getNamehint st o
    | BlockArgument _ _ => None
    end;
  getModulePortInfo op := ([], []);
  instanceName op := "inst"%string;
  isLoadedDialect d := inStrings d ["hw"; "sv"; "comb"]%string;
  isVisitedExpr n := true;
  pruneZeroValuedLogic st _ := st;
|}.

Definition sampleOptions : LoweringOptions := {|
  disallowLocalVariables := false;
  disallowExpressionInliningInPorts := false;
  allowExprInEventControl := true;
  maximumNumberOfTermsPerExpression := 8;
  spillLargeTermsWithNamehints := true;
  wireSpillingNamehintTermLimit := 3;
|}.

Definition i8 : Ty := IntegerType 8.

(** A module whose body adds its five ports: [%1 = comb.add %a0, ..., %a4]
    with a name hint and the two-state marker, then [hw.output %1]. *)
Definition sampleAdd5 : IR := {|
  irOps :=
    [ Some (mkOperation HWModuleOp [] [] [] [Some 0] None);
      Some (mkOperation AddOp
              [BlockArgument 0 0; BlockArgument 0 1; BlockArgument 0 2;
               BlockArgument 0 3; BlockArgument 0 4]
              [i8] [("sv.namehint"%string, StringAttr "sum"); ("twoState"%string, UnitAttr)]
              [] (Some 0));
      Some (mkOperation OutputOp [OpResult 1 0] [] [] [] (Some 0)) ];
  irBlocks := [ mkBlock [1; 2] (Some 0) [i8; i8; i8; i8; i8] ];
|}.

(** The sum of three ports with an attribute of no dialect:
    [%1 = comb.add %a, %b, %c {foo}; hw.output %1]. *)
Definition sampleAddAttr : IR := {|
  irOps :=
    [ Some (mkOperation HWModuleOp [] [] [] [Some 0] None);
      Some (mkOperation AddOp [BlockArgument 0 0; BlockArgument 0 1; BlockArgument 0 2]
              [i8] [("foo"%string, UnitAttr)] [] (Some 0));
      Some (mkOperation OutputOp [OpResult 1 0] [] [] [] (Some 0)) ];
  irBlocks := [ mkBlock [1; 2] (Some 0) [i8; i8; i8] ];
|}.

(** The addition of 8-bit values. *)
Definition add8 (a b : Z) : Z := (a + b) mod 256.

(** The variadic commutative operations of the comb dialect, on values of
    [w] bits taken as unsigned integers below [2^w]; the operations
    themselves are defined with the dialect, outside of this pass. *)
Inductive CommutativeOp : Type :=
  | CombAdd | CombMul | CombAnd | CombOr | CombXor.

Definition combSem (k : CommutativeOp) (w : nat) (a b : Z) : Z :=
  match k with
  | CombAdd => (a + b) mod 2 ^ Z.of_nat w
  | CombMul => (a * b) mod 2 ^ Z.of_nat w
  | CombAnd => Z.land a b
  | CombOr => Z.lor a b
  | CombXor => Z.lxor a b
  end.

(** A module body where the sum [%2] is assigned to the wire [%1] and also
    used by a subtraction:
    [%1 = sv.wire; %2 = comb.add %a, %b; sv.assign %1, %2;
     %4 = comb.sub %2, %a; hw.output %4]. *)
Definition sampleReuse : IR := {|
  irOps :=
    [ Some (mkOperation HWModuleOp [] [] [] [Some 0] None);
      Some (mkOperation WireOp [] [InOutType i8] [] [] (Some 0));
      Some (mkOperation AddOp [BlockArgument 0 0; BlockArgument 0 1] [i8] [] [] (Some 0));
      Some (mkOperation AssignOp [OpResult 1 0; OpResult 2 0] [] [] [] (Some 0));
      Some (mkOperation SubOp [OpResult 2 0; BlockArgument 0 0] [i8] [] [] (Some 0));
      Some (mkOperation OutputOp [OpResult 4 0] [] [] [] (Some 0)) ];
  irBlocks := [ mkBlock [1; 2; 3; 4; 5] (Some 0) [i8; i8] ];
|}.

(** An [sv.initial] block that computes a side-effecting expression and
    prints it: [sv.initial { %2 = sv.verbatim.expr.se; sv.fwrite %2 }]. *)
Definition sampleSideEffect : IR := {|
  irOps :=
    [ Some (mkOperation HWModuleOp [] [] [] [Some 0] None);
      Some (mkOperation (OtherOp SVDialect "initial") [] [] [] [Some 1] (Some 0));
      Some (mkOperation (OtherOp SVDialect "verbatim.expr.se") [] [i8] [] [] (Some 1));
      Some (mkOperation (OtherOp SVDialect "fwrite") [OpResult 2 0] [] [] [] (Some 1)) ];
  irBlocks := [ mkBlock [1] (Some 0) []; mkBlock [2; 3] (Some 1) [] ];
|}.

(** A module body with a read that nobody uses:
    [%1 = sv.wire; %2 = sv.array_index_inout %1[%a]; %3 = sv.read_inout %2]. *)
Definition sampleDeadRead : IR := {|
  irOps :=
    [ Some (mkOperation HWModuleOp [] [] [] [Some 0] None);
      Some (mkOperation WireOp [] [InOutType OtherType] [] [] (Some 0));
      Some (mkOperation (OtherOp SVDialect "array_index_inout")
              [OpResult 1 0; BlockArgument 0 0] [InOutType i8] [] [] (Some 0));
      Some (mkOperation ReadInOutOp [OpResult 2 0] [i8] [] [] (Some 0)) ];
  irBlocks := [ mkBlock [1; 2; 3] (Some 0) [i8] ];
|}.

(** A process that samples a port and adds to the sample:
    [sv.always posedge %clk { %2 = sv.system.sampled %b; %3 = comb.add %2, %b;
     sv.fwrite %3 }]. *)
Definition sampleHoist : IR := {|
  irOps :=
    [ Some (mkOperation HWModuleOp [] [] [] [Some 0] None);
      Some (mkOperation AlwaysOp [BlockArgument 0 0] [] [] [Some 1] (Some 0));
      Some (mkOperation (OtherOp SVDialect "system.sampled") [BlockArgument 0 1] [i8] []
              [] (Some 1));
      Some (mkOperation AddOp [OpResult 2 0; BlockArgument 0 1] [i8] [] [] (Some 1));
      Some (mkOperation (OtherOp SVDialect "fwrite") [OpResult 3 0] [] [] [] (Some 1)) ];
  irBlocks := [ mkBlock [1] (Some 0) [IntegerType 1; i8]; mkBlock [2; 3; 4] (Some 1) [] ];
|}.

(** The same process nested in an [sv.if] of the process, with an addition of
    two ports in the inner block:
    [sv.always { sv.if %c { %3 = comb.add %a, %b; sv.fwrite %3 } }]. *)
Definition sampleHoistNested : IR := {|
  irOps :=
    [ Some (mkOperation HWModuleOp [] [] [] [Some 0] None);
      Some (mkOperation AlwaysOp [BlockArgument 0 0] [] [] [Some 1] (Some 0));
      Some (mkOperation (OtherOp SVDialect "if") [BlockArgument 0 0] [] [] [Some 2] (Some 1));
      Some (mkOperation AddOp [BlockArgument 0 1; BlockArgument 0 1] [i8] [] [] (Some 2));
      Some (mkOperation (OtherOp SVDialect "fwrite") [OpResult 3 0] [] [] [] (Some 2)) ];
  irBlocks := [ mkBlock [1] (Some 0) [IntegerType 1; i8]; mkBlock [2] (Some 1) [];
                mkBlock [3; 4] (Some 2) [] ];
|}.

(** A process whose sample is used by an addition in a nested [sv.if]:
    [sv.always { %2 = sv.system.sampled %b;
                 sv.if %c { %4 = comb.add %2, %b; sv.fwrite %4 } }]. *)
Definition sampleHoistOuter : IR := {|
  irOps :=
    [ Some (mkOperation HWModuleOp [] [] [] [Some 0] None);
      Some (mkOperation AlwaysOp [BlockArgument 0 0] [] [] [Some 1] (Some 0));
      Some (mkOperation (OtherOp SVDialect "system.sampled") [BlockArgument 0 1] [i8] []
              [] (Some 1));
      Some (mkOperation (OtherOp SVDialect "if") [BlockArgument 0 0] [] [] [Some 2] (Some 1));
      Some (mkOperation AddOp [OpResult 2 0; BlockArgument 0 1] [i8] [] [] (Some 2));
      Some (mkOperation (OtherOp SVDialect "fwrite") [OpResult 4 0] [] [] [] (Some 2)) ];
  irBlocks := [ mkBlock [1] (Some 0) [IntegerType 1; i8]; mkBlock [2; 3] (Some 1) [];
                mkBlock [4; 5] (Some 3) [] ];
|}.

(** The same where the addition also uses a sample taken in the [sv.if]:
    [sv.always { %2 = sv.system.sampled %b;
                 sv.if %c { %4 = sv.system.sampled %b; %5 = comb.add %2, %4;
                            sv.fwrite %5 } }]. *)
Definition sampleHoistMixed : IR := {|
  irOps :=
    [ Some (mkOperation HWModuleOp [] [] [] [Some 0] None);
      Some (mkOperation AlwaysOp [BlockArgument 0 0] [] [] [Some 1] (Some 0));
      Some (mkOperation (OtherOp SVDialect "system.sampled") [BlockArgument 0 1] [i8] []
              [] (Some 1));
      Some (mkOperation (OtherOp SVDialect "if") [BlockArgument 0 0] [] [] [Some 2] (Some 1));
      Some (mkOperation (OtherOp SVDialect "system.sampled") [BlockArgument 0 1] [i8] []
              [] (Some 2));
      Some (mkOperation AddOp [OpResult 2 0; OpResult 4 0] [i8] [] [] (Some 2));
      Some (mkOperation (OtherOp SVDialect "fwrite") [OpResult 5 0] [] [] [] (Some 2)) ];
  irBlocks := [ mkBlock [1] (Some 0) [IntegerType 1; i8]; mkBlock [2; 3] (Some 1) [];
                mkBlock [4; 5; 6] (Some 3) [] ];
|}.

(** A module body with an operation of a dialect the emitter does not know:
    [%1 = "foo.bar"(%a); hw.output %1]. *)
Definition sampleForeign : IR := {|
  irOps :=
    [ Some (mkOperation HWModuleOp [] [] [] [Some 0] None);
      Some (mkOperation (OtherOp (OtherDialect "foo") "bar") [BlockArgument 0 0] [i8] []
              [] (Some 0));
      Some (mkOperation OutputOp [OpResult 1 0] [] [] [] (Some 0)) ];
  irBlocks := [ mkBlock [1; 2] (Some 0) [i8] ];
|}.

(** A sum of three ports with an internal name, used twice:
    [%1 = comb.add %a, %b; %2 = comb.add %1, %c {sv.namehint = "_t"};
     %3 = comb.sub %2, %a; %4 = comb.sub %2, %b; hw.output %3, %4]. *)
Definition samplePretty : IR := {|
  irOps :=
    [ Some (mkOperation HWModuleOp [] [] [] [Some 0] None);
      Some (mkOperation AddOp [BlockArgument 0 0; BlockArgument 0 1] [i8] [] [] (Some 0));
      Some (mkOperation AddOp [OpResult 1 0; BlockArgument 0 2] [i8]
              [("sv.namehint"%string, StringAttr "_t")] [] (Some 0));
      Some (mkOperation SubOp [OpResult 2 0; BlockArgument 0 0] [i8] [] [] (Some 0));
      Some (mkOperation SubOp [OpResult 2 0; BlockArgument 0 1] [i8] [] [] (Some 0));
      Some (mkOperation OutputOp [OpResult 3 0; OpResult 4 0] [] [] [] (Some 0)) ];
  irBlocks := [ mkBlock [1; 2; 3; 4; 5] (Some 0) [i8; i8; i8] ];
|}.

(** A named sum that reaches an instance through a bitcast:
    [%1 = comb.add %a, %b {sv.namehint = "x"}; %2 = hw.bitcast %1;
     hw.instance "inst" (%2)]. *)
Definition sampleBitcast : IR := {|
  irOps :=
    [ Some (mkOperation HWModuleOp [] [] [] [Some 0] None);
      Some (mkOperation AddOp [BlockArgument 0 0; BlockArgument 0 1] [i8]
              [("sv.namehint"%string, StringAttr "x")] [] (Some 0));
      Some (mkOperation BitcastOp [OpResult 1 0] [i8] [] [] (Some 0));
      Some (mkOperation InstanceOp [OpResult 2 0] [] [] [] (Some 0)) ];
  irBlocks := [ mkBlock [1; 2; 3] (Some 0) [i8; i8] ];
|}.

(** The sum of a port and of the least 8-bit constant:
    [%1 = hw.constant -128 : i8; %2 = comb.add %a, %1; hw.output %2]. *)
Definition sampleAddMin : IR := {|
  irOps :=
    [ Some (mkOperation HWModuleOp [] [] [] [Some 0] None);
      Some (mkOperation ConstantOp [] [i8] [("value"%string, IntegerAttr 8 128)] [] (Some 0));
      Some (mkOperation AddOp [BlockArgument 0 0; OpResult 1 0] [i8] [] [] (Some 0));
      Some (mkOperation OutputOp [OpResult 2 0] [] [] [] (Some 0)) ];
  irBlocks := [ mkBlock [1; 2; 3] (Some 0) [i8] ];
|}.

(** The same with the constant -3, [253] as an unsigned 8-bit value. *)
Definition sampleAddNeg3 : IR := {|
  irOps :=
    [ Some (mkOperation HWModuleOp [] [] [] [Some 0] None);
      Some (mkOperation ConstantOp [] [i8] [("value"%string, IntegerAttr 8 253)] [] (Some 0));
      Some (mkOperation AddOp [BlockArgument 0 0; OpResult 1 0] [i8] [] [] (Some 0));
      Some (mkOperation OutputOp [OpResult 2 0] [] [] [] (Some 0)) ];
  irBlocks := [ mkBlock [1; 2; 3] (Some 0) [i8] ];
|}.

(** ** Statements about the rewrites *)

Section BalancingPost.

Context (f : Z -> Z -> Z) (op : OpId) (n0 : nat).

(** What a call of [lowerFullyAssociativeOp] on [operands] leaves behind. *)
Record LfaPost (o : Operation) (st : IR) (operands : list Value)
    (st' : IR) (result : Value) (added : list OpId) : Prop := mkLfaPost {
  lfa_len : length added = length operands - 1;
  lfa_ids : added = seq (length (irOps st)) (length added);
  lfa_size : length (irOps st') = length (irOps st) + length added;
  lfa_op : exists o', getOp st' op = Some o' /\ opName o' = opName o /\
             opResultTypes o' = opResultTypes o /\ opBlock o' = opBlock o /\
             lookupAttr "twoState" (opAttrs o') = lookupAttr "twoState" (opAttrs o) /\
             lookupAttr "sv.namehint" (opAttrs o') = None;
  lfa_old : forall n, n0 <= n -> n < length (irOps st) -> getOp st' n = getOp st n;
  lfa_new : forall n, n ∈ added ->
             exists x, getOp st' n = Some x /\ opName x = opName o /\
               length (opOperands x) = 2 /\
               lookupAttr "twoState" (opAttrs x) = lookupAttr "twoState" (opAttrs o) /\
               lookupAttr "sv.namehint" (opAttrs x) =
                 (if bool_decide (last added = Some n)
                  then lookupAttr "sv.namehint" (opAttrs o) else None);
  lfa_result : result = match last added with
                        | Some r => OpResult r 0
                        | None => default result (head operands)
                        end;
  lfa_eval : Forall (isOldValue n0) operands -> forall env, exists k,
      evalValue f k st' n0 env result = evalVariadic f (map env operands);
}.

End BalancingPost.

(** The graph once [lowerFullyAssociativeOp] has saved the name of [op]. *)
Definition nameRemoved (op : OpId) (st : IR) : IR :=
  match getAttr st op "sv.namehint" with
  | Some _ => removeAttr st op "sv.namehint"
  | None => st
  end.

(** Among the new nodes, only the root carries the name hint or the
    "twoState" attribute. *)
Definition markersOnRootOnly (st' : IR) (result : Value) (newOps : list OpId) : Prop :=
  forall n, n ∈ newOps -> OpResult n 0 <> result ->
    getAttr st' n "sv.namehint" = None /\ getAttr st' n "twoState" = None.

(** The type of a read of [dest]. *)
Definition readType (st : IR) (dest : Value) : Ty :=
  match getType st dest with InOutType t => t | t => t end.

(** The graph [st] comes from [st0] by steps of [redirectUses]: the old
    operations keep their names and the sizes of their operand lists, the new
    ones are reads of [dest]. *)
Record Redirected (dest : Value) (st0 st : IR) : Prop := mkRedirected {
  rd_len : length (irOps st0) <= length (irOps st);
  rd_old : forall n x, getOp st0 n = Some x ->
             exists y, getOp st n = Some y /\ opName y = opName x /\
               length (opOperands y) = length (opOperands x);
  rd_none : forall n, n < length (irOps st0) -> getOp st0 n = None -> getOp st n = None;
  rd_new : forall n, length (irOps st0) <= n -> n < length (irOps st) ->
             exists x, getOp st n = Some x /\ opName x = ReadInOutOp /\
               opOperands x = [dest];
}.

Definition RedirectedUse (st0 st : IR) (u : Use) : Prop :=
  exists r, length (irOps st0) <= r /\ r < length (irOps st) /\
    getOperands st (fst u) !! snd u = Some (OpResult r 0).

(** ** Statements about the other functions of the pass *)

(** An operation without the block that holds it. *)
Definition detached (x : Operation) : Operation := withBlock x None.

Definition shapeOf (st : IR) (n : OpId) : option Operation := detached <$> getOp st n.

(** Two graphs with the same operations, up to the places of the operations
    in the blocks. *)
Definition sameOperations (st st' : IR) : Prop :=
  length (irOps st) = length (irOps st') /\ forall n, shapeOf st n = shapeOf st' n.

(** The value held by an operand slot. *)
Definition slot (st : IR) (u : Use) : option Value :=
  x ← getOp st (fst u); opOperands x !! snd u.

(** [top] is reached from [n] by steps to the parent operation, every parent
    on the way having procedural regions. *)
Inductive ProceduralChain (O : Oracle) (st : IR) : OpId -> OpId -> Prop :=
  | chain_parent n p :
      getParentOp st n = Some p -> hasProceduralRegionTrait O st p = true ->
      ProceduralChain O st n p
  | chain_step n p top :
      getParentOp st n = Some p -> hasProceduralRegionTrait O st p = true ->
      ProceduralChain O st p top -> ProceduralChain O st n top.

(** [a] is [n] or is reached from [n] by steps to the parent operation, every
    parent on the way being an [sv.ifdef.procedural]. *)
Inductive MacroChain (st : IR) : OpId -> OpId -> Prop :=
  | macro_here n : MacroChain st n n
  | macro_step n p a :
      getParentOp st n = Some p -> isa st p [IfDefProceduralOp] = true ->
      MacroChain st p a -> MacroChain st n a.

(** A process whose body sits in an [sv.ifdef.procedural]:
    [sv.always posedge %clk { sv.ifdef.procedural { sv.fwrite %b } }]. *)
Definition sampleIfDef : IR := {|
  irOps :=
    [ Some (mkOperation HWModuleOp [] [] [] [Some 0] None);
      Some (mkOperation AlwaysOp [BlockArgument 0 0] [] [] [Some 1] (Some 0));
      Some (mkOperation IfDefProceduralOp [] [] [] [Some 2] (Some 1));
      Some (mkOperation (OtherOp SVDialect "fwrite") [BlockArgument 0 1] [] [] [] (Some 2)) ];
  irBlocks := [ mkBlock [1] (Some 0) [IntegerType 1; i8]; mkBlock [2] (Some 1) [];
                mkBlock [3] (Some 2) [] ];
|}.

(** The number of terms of the expression tree of a value, without the
    cache: 1 for a port and for an operation without operands, the sum over
    the operands otherwise. *)
Fixpoint termCount (fuel : nat) (st : IR) (v : Value) : option nat :=
  match fuel with
  | 0 => None
  | S f =>
      match v with
      | BlockArgument _ _ => Some 1
      | OpResult op _ =>
          o ← getOp st op;
          if length (opOperands o) =? 0 then Some 1
          else foldr Nat.add 0 <$> mapM (termCount f st) (opOperands o)
      end
  end.

(** The [size_t] that holds a number of terms: the number modulo [2^64]. *)
Definition sizeOf (terms : nat) : EmittedExpressionState :=
  (N.of_nat terms mod 2 ^ 64)%N.

(** Every entry of the cache is the number of terms of its value, as a
    [size_t]. *)
Definition cacheSound (st : IR) (m : ExpressionStates) : Prop :=
  forall w s, findState w m = Some s ->
    exists k terms, termCount k st w = Some terms /\ s = sizeOf terms.

(** What a call of [getExpressionState] leaves: the cache keeps its entries
    and stays sound, and the state returned is the number of terms, as a
    [size_t]. *)
Definition StatePost (st : IR) (m : ExpressionStates) (v : Value) (m' : ExpressionStates)
    (s : EmittedExpressionState) : Prop :=
  (forall w s0, findState w m = Some s0 -> findState w m' = Some s0) /\
  cacheSound st m' /\ exists k terms, termCount k st v = Some terms /\ s = sizeOf terms.

(** The depth of a tree of operations: its value when every operation stands
    for [1 + max] and every leaf for 0. *)
Definition depthStep (a b : Z) : Z := (1 + Z.max a b)%Z.

Definition treeDepth (fuel : nat) (st : IR) (n0 : nat) (v : Value) : option Z :=
  evalValue depthStep fuel st n0 (fun _ => 0%Z) v.

(** One round of the loop of [replaceUsesWithReads]. *)
Definition readStep (builder : InsertPoint) (newWire result : Value) (st : IR) (use : Use) : IR :=
  let '(st, newWireRead) := createOp st builder ReadInOutOp [newWire] [getType st result] [] in
  let st := setOperand st use (OpResult newWireRead 0) in
  moveBefore st newWireRead (fst use).

(** The graph [st] comes from [st0] by rounds of [replaceUsesWithReads] on
    the slots [uses]: the operations of [st0] are there, with the same
    operands but for the slots of [uses], which hold the results of the new
    operations, reads of [newWire] of type [ty]. *)
Record ReadsPost (newWire : Value) (ty : Ty) (st0 : IR) (uses : list Use) (st : IR) : Prop :=
  mkReadsPost {
  rp_len : length (irOps st) = length (irOps st0) + length uses;
  rp_old : forall n x, getOp st0 n = Some x ->
             exists y, getOp st n = Some y /\ withOperands y [] = withOperands x [] /\
               length (opOperands y) = length (opOperands x);
  rp_none : forall n, n < length (irOps st0) -> getOp st0 n = None -> getOp st n = None;
  rp_kept : forall u, fst u < length (irOps st0) -> u ∉ uses -> slot st u = slot st0 u;
  rp_valid : forall u, u ∈ uses -> fst u < length (irOps st0);
  rp_set : forall k u, uses !! k = Some u ->
             slot st u = Some (OpResult (length (irOps st0) + k) 0);
  rp_reads : forall k, k < length uses ->
             exists y, getOp st (length (irOps st0) + k) = Some y /\
               opName y = ReadInOutOp /\ opOperands y = [newWire] /\
               opResultTypes y = [ty] /\ opAttrs y = [];
}.

(** The spilling of [result] shared by [lowerUsersToTemporaryWire] and
    [lowerInstanceResults]: a declaration, a read of it for every use of
    [result], and an assign of [result] to it placed after [op]. *)
Definition spillToWire (st : IR) (builder : InsertPoint) (decl : OpName)
    (attrs : list (string * Attr)) (assign : OpName) (result : Value) (op : OpId)
    (moveDecl : bool) : IR :=
  let '(st, newWire) := createOp st builder decl [] [InOutType (getType st result)] attrs in
  let st := replaceUsesWithReads st builder (OpResult newWire 0) result in
  let '(st, connect) := createOp st builder assign [OpResult newWire 0; result] [] [] in
  let st := moveAfter st connect op in
  if moveDecl then moveAfter st newWire op else st.

(** The graph [st'] after the spilling of the result [i] of [o] in [st]. *)
Record SpillPost (decl : OpName) (attrs : list (string * Attr)) (assign : OpName)
    (o : OpId) (i : nat) (st st' : IR) : Prop := mkSpillPost {
  sp_len : length (irOps st') = length (irOps st) + length (getUses st (OpResult o i)) + 2;
  sp_old : forall n x, getOp st n = Some x ->
             exists y, getOp st' n = Some y /\ withOperands y [] = withOperands x [] /\
               length (opOperands y) = length (opOperands x);
  sp_none : forall n, n < length (irOps st) -> getOp st n = None -> getOp st' n = None;
  sp_kept : forall u, fst u < length (irOps st) -> u ∉ getUses st (OpResult o i) ->
              slot st' u = slot st u;
  sp_set : forall k u, getUses st (OpResult o i) !! k = Some u ->
             slot st' u = Some (OpResult (length (irOps st) + 1 + k) 0);
  sp_decl : exists w, getOp st' (length (irOps st)) = Some w /\ opName w = decl /\
              opOperands w = [] /\ opResultTypes w = [InOutType (getResultType st o i)] /\
              opAttrs w = attrs;
  sp_reads : forall k, k < length (getUses st (OpResult o i)) ->
               exists y, getOp st' (length (irOps st) + 1 + k) = Some y /\
                 opName y = ReadInOutOp /\ opOperands y = [OpResult (length (irOps st)) 0] /\
                 opResultTypes y = [getResultType st o i];
  sp_assign : exists a,
      getOp st' (length (irOps st) + length (getUses st (OpResult o i)) + 1) = Some a /\
      opName a = assign /\
      opOperands a = [OpResult (length (irOps st)) 0; OpResult o i] /\
      opResultTypes a = [];
}.

(** An instance with two results: the first goes to the output and to a
    subtraction, the second to the output only:
    [%1:2 = hw.instance "u" (%a); %2 = comb.sub %1#0, %a; hw.output %1#0, %1#1, %2]. *)
Definition sampleInstance : IR := {|
  irOps :=
    [ Some (mkOperation HWModuleOp [] [] [] [Some 0] None);
      Some (mkOperation InstanceOp [BlockArgument 0 0] [i8; i8] [] [] (Some 0));
      Some (mkOperation SubOp [OpResult 1 0; BlockArgument 0 0] [i8] [] [] (Some 0));
      Some (mkOperation OutputOp [OpResult 1 0; OpResult 1 1; OpResult 2 0] [] [] [] (Some 0)) ];
  irBlocks := [ mkBlock [1; 2; 3] (Some 0) [i8] ];
|}.

(** The classification of [sampleOracle] with an instance of two inputs and
    two outputs. *)
Definition instanceOracle : Oracle := {|
  isVerilogExpression := isVerilogExpression sampleOracle;
  isExpressionAlwaysInline := isExpressionAlwaysInline sampleOracle;
  isExpressionEmittedInline := isExpressionEmittedInline sampleOracle;
  isConstantExpression := isConstantExpression sampleOracle;
  isMemoryEffectFree := isMemoryEffectFree sampleOracle;
  hasProceduralRegion := hasProceduralRegion sampleOracle;
  isCommutative := isCommutative sampleOracle;
  inferStructuralNameForTemporary := inferStructuralNameForTemporary sampleOracle;
  getModulePortInfo _ := ([Some "in"%string], [Some "x"%string; None]);
  instanceName _ := "u"%string;
  isLoadedDialect := isLoadedDialect sampleOracle;
  isVisitedExpr := isVisitedExpr sampleOracle;
  pruneZeroValuedLogic := pruneZeroValuedLogic sampleOracle;
|}.

(** An instance whose input is a sum:
    [%1 = comb.add %a, %a; hw.instance "u" (%1)]. *)
Definition sampleInstanceInput : IR := {|
  irOps :=
    [ Some (mkOperation HWModuleOp [] [] [] [Some 0] None);
      Some (mkOperation AddOp [BlockArgument 0 0; BlockArgument 0 0] [i8] [] [] (Some 0));
      Some (mkOperation InstanceOp [OpResult 1 0] [] [] [] (Some 0)) ];
  irBlocks := [ mkBlock [1; 2] (Some 0) [i8] ];
|}.

(** The graph [s] keeps the operations of [st] other than [op], up to their
    places in the blocks. *)
Definition keepsOthers (op : OpId) (st s : IR) : Prop :=
  forall n x, n <> op -> getOp st n = Some x ->
    exists y, getOp s n = Some y /\ detached y = detached x.

(** The explosion of a structure of two fields:
    [%1:2 = hw.struct_explode %s; %2 = comb.add %1#0, %1#1; hw.output %2]. *)
Definition sampleExplode : IR := {|
  irOps :=
    [ Some (mkOperation HWModuleOp [] [] [] [Some 0] None);
      Some (mkOperation StructExplodeOp [BlockArgument 0 0] [i8; i8] [] [] (Some 0));
      Some (mkOperation AddOp [OpResult 1 0; OpResult 1 1] [i8] [] [] (Some 0));
      Some (mkOperation OutputOp [OpResult 2 0] [] [] [] (Some 0)) ];
  irBlocks := [ mkBlock [1; 2; 3] (Some 0) [StructType ["a"; "b"]%string [i8; i8]] ];
|}.

(** The value that stands for [x] once the first [k] results of [op] have
    been replaced by the results of the operations created from [m] on. *)
Definition explodeRename (op : OpId) (m k : nat) (x : Value) : Value :=
  match x with
  | OpResult o j => if bool_decide (o = op /\ j < k) then OpResult (m + j) 0 else x
  | BlockArgument _ _ => x
  end.

(** One round of the loop of [lowerStructExplodeOp]. *)
Definition explodeStep (builder : InsertPoint) (op : OpId) (input : Value)
    : IR * option OpId -> nat * (string * Ty) -> IR * option OpId :=
  fun '(st, firstOp) '(res, (name, ty)) =>
    let '(st, extract) := createOp st builder StructExtractOp [input] [ty]
                            [("field"%string, FieldNameAttr name)] in
    let firstOp := match firstOp with
                   | None => Some extract
                   | Some _ => firstOp
                   end in
    (replaceAllUsesWith st (OpResult op res) (OpResult extract 0), firstOp).

(** The graph and the first operation after [k] rounds. *)
Record ExplodePost (op : OpId) (input : Value) (names : list string) (types : list Ty)
    (st : IR) (k : nat) (acc : IR * option OpId) : Prop := mkExplodePost {
  ep_len : length (irOps (fst acc)) = length (irOps st) + k;
  ep_first : snd acc = if k =? 0 then None else Some (length (irOps st));
  ep_old : forall n x, getOp st n = Some x ->
             exists y, getOp (fst acc) n = Some y /\ withOperands y [] = withOperands x [];
  ep_slot : forall u, fst u < length (irOps st) ->
             slot (fst acc) u = explodeRename op (length (irOps st)) k <$> slot st u;
  ep_new : forall j name ty, j < k -> names !! j = Some name -> types !! j = Some ty ->
             exists e, getOp (fst acc) (length (irOps st) + j) = Some e /\
               opName e = StructExtractOp /\ opOperands e = [input] /\
               opResultTypes e = [ty] /\ opAttrs e = [("field"%string, FieldNameAttr name)];
}.

(** [recursivelyHandleOperands] of [lowerAlwaysInlineOperation], with the
    recursive call as a parameter. *)
Definition handleOperands (O : Oracle) (rec : IR -> OpId -> Res IR) (st : IR) (o : OpId)
    : Res IR :=
  foldRes (fun st i =>
      match getOperands st o !! i with
      | Some (OpResult operandOp _) =>
          if opIs (isExpressionAlwaysInline O) st operandOp
          then rec st operandOp
          else Ok st
      | _ => Ok st
      end)
    st (seq 0 (getNumOperands st o)).

(** A read with three uses, one of them in a process:
    [%1 = sv.wire; %2 = sv.read_inout %1; %3 = comb.add %2, %2;
     sv.always posedge %clk { sv.fwrite %2 }; hw.output %3]. *)
Definition sampleSharedRead : IR := {|
  irOps :=
    [ Some (mkOperation HWModuleOp [] [] [] [Some 0] None);
      Some (mkOperation WireOp [] [InOutType i8] [] [] (Some 0));
      Some (mkOperation ReadInOutOp [OpResult 1 0] [i8] [] [] (Some 0));
      Some (mkOperation AddOp [OpResult 2 0; OpResult 2 0] [i8] [] [] (Some 0));
      Some (mkOperation AlwaysOp [BlockArgument 0 0] [] [] [Some 1] (Some 0));
      Some (mkOperation (OtherOp SVDialect "fwrite") [OpResult 2 0] [] [] [] (Some 1));
      Some (mkOperation OutputOp [OpResult 3 0] [] [] [] (Some 0)) ];
  irBlocks := [ mkBlock [1; 2; 3; 4; 6] (Some 0) [IntegerType 1];
                mkBlock [5] (Some 4) [] ];
|}.

(** The graph [s] comes from [st] by rounds of the loop of
    [lowerAlwaysInlineOperation] on [op]: the operations of [st] are there
    with their operands but for the uses of [op] already served, each of
    which holds the result of a copy of [op] of its own; the operations
    created are these copies. *)
Record ClonesPost (st : IR) (op : OpId) (o : Operation) (s : IR) : Prop := mkClonesPost {
  cp_len : length (irOps st) <= length (irOps s);
  cp_count : length (irOps s) + length (getUses s (OpResult op 0)) =
             length (irOps st) + length (getUses st (OpResult op 0));
  cp_old : forall n x, getOp st n = Some x ->
             exists y, getOp s n = Some y /\ withOperands y [] = withOperands x [] /\
               length (opOperands y) = length (opOperands x);
  cp_none : forall n, n < length (irOps st) -> getOp st n = None -> getOp s n = None;
  cp_op : getOp s op = Some o;
  cp_wf : forall u v, slot s u = Some v -> isOldValue (length (irOps s)) v;
  cp_rest : forall u, slot s u = Some (OpResult op 0) -> slot st u = Some (OpResult op 0);
  cp_kept : forall u, fst u < length (irOps st) -> slot st u <> Some (OpResult op 0) ->
              slot s u = slot st u;
  cp_served : forall u, slot st u = Some (OpResult op 0) ->
                slot s u <> Some (OpResult op 0) ->
                exists c y, length (irOps st) <= c /\ slot s u = Some (OpResult c 0) /\
                  (forall u', slot s u' = Some (OpResult c 0) <-> u' = u) /\
                  getOp s c = Some y /\ opName y = opName o /\
                  opOperands y = opOperands o /\ opResultTypes y = opResultTypes o /\
                  opAttrs y = opAttrs o /\ opBlock y = getBlock st (fst u);
  cp_new : forall c, length (irOps st) <= c -> c < length (irOps s) ->
             exists y, getOp s c = Some y /\ opOperands y = opOperands o;
}.

(** The options of [sampleOptions] with the heuristic of the name hints
    off. *)
Definition quietOptions : LoweringOptions := {|
  disallowLocalVariables := false;
  disallowExpressionInliningInPorts := false;
  allowExprInEventControl := true;
  maximumNumberOfTermsPerExpression := 8;
  spillLargeTermsWithNamehints := false;
  wireSpillingNamehintTermLimit := 3;
|}.

(** A process clocked by an expression that the output uses too:
    [%1 = comb.xor %a, %b; sv.always posedge %1 { }; hw.output %1]. *)
Definition sampleClock : IR := {|
  irOps :=
    [ Some (mkOperation HWModuleOp [] [] [] [Some 0] None);
      Some (mkOperation (OtherOp CombDialect "xor") [BlockArgument 0 0; BlockArgument 0 1]
              [IntegerType 1] [] [] (Some 0));
      Some (mkOperation AlwaysOp [OpResult 1 0] [] [] [Some 1] (Some 0));
      Some (mkOperation OutputOp [OpResult 1 0] [] [] [] (Some 0)) ];
  irBlocks := [ mkBlock [1; 2; 3] (Some 0) [IntegerType 1; IntegerType 1];
                mkBlock [] (Some 2) [] ];
|}.

(** A process with two local declarations among its statements:
    [sv.always posedge %clk { sv.fwrite %a; %3 = sv.logic; sv.fwrite %a;
     %5 = sv.logic }]. *)
Definition sampleLogic : IR := {|
  irOps :=
    [ Some (mkOperation HWModuleOp [] [] [] [Some 0] None);
      Some (mkOperation AlwaysOp [BlockArgument 0 0] [] [] [Some 1] (Some 0));
      Some (mkOperation (OtherOp SVDialect "fwrite") [BlockArgument 0 1] [] [] [] (Some 1));
      Some (mkOperation LogicOp [] [InOutType i8] [] [] (Some 1));
      Some (mkOperation (OtherOp SVDialect "fwrite") [BlockArgument 0 1] [] [] [] (Some 1));
      Some (mkOperation LogicOp [] [InOutType i8] [] [] (Some 1)) ];
  irBlocks := [ mkBlock [1] (Some 0) [IntegerType 1; i8]; mkBlock [2; 3; 4; 5] (Some 1) [] ];
|}.

(** ** The region tree of a block *)

(** The blocks of the region tree under [root]. *)
Inductive blockIn (st : IR) (root : BlockId) : BlockId -> Prop :=
  | blockIn_root : blockIn st root root
  | blockIn_region b op b' :
      blockIn st root b -> op ∈ getBlockOps st b -> b' ∈ regionBlocks st op ->
      blockIn st root b'.

(** The operations of the region tree under [root]. *)
Definition opIn (st : IR) (root : BlockId) (op : OpId) : Prop :=
  exists b, blockIn st root b /\ op ∈ getBlockOps st b.

(** [block.getParentOp()] *)
Definition blockParent (st : IR) (b : BlockId) : option OpId :=
  blk ← irBlocks st !! b; blockParentOp blk.

(** An operation of a dialect other than comb, sv and hw. *)
Definition isForeign (st : IR) (op : OpId) : Prop :=
  exists o, getOp st op = Some o /\ isKnownDialect (opName o) = false.

(** The lists of the blocks of the tree are consistent: no operation twice,
    every operation knows its block, every block its parent operation; nested
    blocks have a smaller [rank], and no block is longer than [len]. *)
Record TreeOk (st : IR) (root : BlockId) (rank : BlockId -> nat) (len : nat) : Prop := {
  tree_nodup : forall b, blockIn st root b -> NoDup (getBlockOps st b);
  tree_block : forall b op,
    blockIn st root b -> op ∈ getBlockOps st b -> getBlock st op = Some b;
  tree_parent : forall b, blockIn st root b -> is_Some (blockParent st b);
  tree_rank : forall b op b',
    blockIn st root b -> op ∈ getBlockOps st b -> b' ∈ regionBlocks st op -> rank b' < rank b;
  tree_len : forall b, blockIn st root b -> length (getBlockOps st b) <= len;
}.

(** A module that needs no rewrite: the round of the walk on each operation
    of a known dialect leaves the graph and the iterator as they are; the
    procedural blocks hold no [sv.logic] to move, and have an insertion
    point; in the other blocks no user stands above the operation it
    uses. *)
Record Settled (O : Oracle) (options : LoweringOptions) (st : IR) (root : BlockId) : Prop := {
  settled_step : forall b p op o fuel visited opIterator,
    blockIn st root b -> blockParent st b = Some p -> op ∈ getBlockOps st b ->
    getOp st op = Some o -> isKnownDialect (opName o) = true ->
    exists visited',
      legalizeOp O (S fuel) options (hasProceduralRegionTrait O st p) st visited op opIterator =
        Ok (st, opIterator, visited');
  settled_logic : forall b p front,
    blockIn st root b -> blockParent st b = Some p ->
    hasProceduralRegionTrait O st p = true ->
    head (getBlockOps st b) = Some front ->
    (exists ip, findLogicOpInsertionPoint (length (irOps st)) st front = Ok ip) /\
    Forall (fun op => isa st op [LogicOp] = false) (getBlockOps st b);
  settled_order : forall b p i op user,
    blockIn st root b -> blockParent st b = Some p ->
    hasProceduralRegionTrait O st p = false ->
    getBlockOps st b !! i = Some op -> user ∈ getUsers st op ->
    exists w, zipUp (length (irOps st)) st b user = Ok w /\ w ∉ take i (getBlockOps st b);
}.

(** [sampleOracle] in a context that has also loaded the dialect "seq". *)
Definition sampleOracleSeq : Oracle := {|
  isVerilogExpression := isVerilogExpression sampleOracle;
  isExpressionAlwaysInline := isExpressionAlwaysInline sampleOracle;
  isExpressionEmittedInline := isExpressionEmittedInline sampleOracle;
  isConstantExpression := isConstantExpression sampleOracle;
  isMemoryEffectFree := isMemoryEffectFree sampleOracle;
  hasProceduralRegion := hasProceduralRegion sampleOracle;
  isCommutative := isCommutative sampleOracle;
  inferStructuralNameForTemporary := inferStructuralNameForTemporary sampleOracle;
  getModulePortInfo := getModulePortInfo sampleOracle;
  instanceName := instanceName sampleOracle;
  isLoadedDialect d := inStrings d ["hw"; "sv"; "comb"; "seq"]%string;
  isVisitedExpr := isVisitedExpr sampleOracle;
  pruneZeroValuedLogic := pruneZeroValuedLogic sampleOracle;
|}.

(** An operation of the dialect "seq" in the body of a process:
    [sv.initial { "seq.tick"() }; hw.output]. *)
Definition sampleNestedForeign : IR := {|
  irOps :=
    [ Some (mkOperation HWModuleOp [] [] [] [Some 0] None);
      Some (mkOperation (OtherOp SVDialect "initial") [] [] [] [Some 1] (Some 0));
      Some (mkOperation (OtherOp (OtherDialect "seq") "tick") [] [] [] [] (Some 1));
      Some (mkOperation OutputOp [] [] [] [] (Some 0)) ];
  irBlocks := [ mkBlock [1; 3] (Some 0) []; mkBlock [2] (Some 1) [] ];
|}.

(** The explosion of a structure without fields:
    [hw.struct_explode %s : !hw.struct<>; hw.output]. *)
Definition sampleEmptyExplode : IR := {|
  irOps :=
    [ Some (mkOperation HWModuleOp [] [] [] [Some 0] None);
      Some (mkOperation StructExplodeOp [BlockArgument 0 0] [] [] [] (Some 0));
      Some (mkOperation OutputOp [] [] [] [] (Some 0)) ];
  irBlocks := [ mkBlock [1; 2] (Some 0) [StructType [] []] ];
|}.

(** A sum of three operands, the second a constant, with an attribute of no
    dialect: [%1 = hw.constant -1 : i8; %2 = comb.add %a, %1, %b {foo};
    hw.output %2]. *)
Definition sampleAddAttrCst : IR := {|
  irOps :=
    [ Some (mkOperation HWModuleOp [] [] [] [Some 0] None);
      Some (mkOperation ConstantOp [] [i8] [("value"%string, IntegerAttr 8 255)] [] (Some 0));
      Some (mkOperation AddOp [BlockArgument 0 0; OpResult 1 0; BlockArgument 0 1]
              [i8] [("foo"%string, UnitAttr)] [] (Some 0));
      Some (mkOperation OutputOp [OpResult 2 0] [] [] [] (Some 0)) ];
  irBlocks := [ mkBlock [1; 2; 3] (Some 0) [i8; i8] ];
|}.

(** A read listed before the projection it reads, and an operation of the
    dialect "seq" between the projection and the user of the read:
    [%1 = sv.read_inout %2; %2 = sv.array_index_inout %a[%i]; "seq.tick"();
     hw.output %1]. *)
Definition sampleSkipped : IR := {|
  irOps :=
    [ Some (mkOperation HWModuleOp [] [] [] [Some 0] None);
      Some (mkOperation ReadInOutOp [OpResult 2 0] [i8] [] [] (Some 0));
      Some (mkOperation (OtherOp SVDialect "array_index_inout")
              [BlockArgument 0 0; BlockArgument 0 1] [InOutType i8] [] [] (Some 0));
      Some (mkOperation (OtherOp (OtherDialect "seq") "tick") [] [] [] [] (Some 0));
      Some (mkOperation OutputOp [OpResult 1 0] [] [] [] (Some 0)) ];
  irBlocks := [ mkBlock [1; 2; 3; 4] (Some 0) [InOutType OtherType; i8] ];
|}.

(** ** Copies of "always inline" operations *)

Definition mapValue (h : OpId -> OpId) (v : Value) : Value :=
  match v with
  | OpResult d j => OpResult (h d) j
  | BlockArgument b i => BlockArgument b i
  end.

(** The graph [s] unfolds the graph [st] along [h]: every operation of [s]
    stands for the operation [h n] of [st], with its name and with operands
    that stand for the operands of [h n]; the operations of [st] stand for
    themselves, and the others stand for "always inline" operations. *)
Record Unfolds (O : Oracle) (st : IR) (h : OpId -> OpId) (s : IR) : Prop := mkUnfolds {
  uf_len : length (irOps st) <= length (irOps s);
  uf_id : forall n, n < length (irOps st) -> h n = n;
  uf_op : forall n, n < length (irOps s) ->
            match getOp s n, getOp st (h n) with
            | Some y, Some x =>
                opName y = opName x /\ length (opOperands y) = length (opOperands x)
            | None, None => True
            | _, _ => False
            end;
  uf_slot : forall n k v, slot s (n, k) = Some v -> slot st (h n, k) = Some (mapValue h v);
  uf_wf : forall u v, slot s u = Some v -> isOldValue (length (irOps s)) v;
  uf_new : forall n, length (irOps st) <= n -> n < length (irOps s) ->
             opIs (isExpressionAlwaysInline O) st (h n) = true;
}.

(** The value [w] of the graph [st'] is the value [v] of the graph [st], or
    the same result of an operation with the name of the operation that
    defines [v], created since. *)
Definition isCopyOf (st st' : IR) (v w : Value) : Prop :=
  match v, w with
  | OpResult d j, OpResult c j' =>
      j' = j /\ (c = d \/ length (irOps st) <= c) /\
      opName <$> getOp st' c = opName <$> getOp st d
  | BlockArgument _ _, _ => w = v
  | _, _ => False
  end.

(** A use by a connection, in the words of the specification: a continuous
    assign or a procedural one. *)
Definition isConnectionUse (st : IR) (u : Use) : bool :=
  isa st (fst u) [AssignOp; BPAssignOp; OtherOp SVDialect "passign"].

(** The sum [%2] is assigned to the wire [%1] and, in a process, to the reg
    [%4]: [%1 = sv.wire; %2 = comb.add %a, %b; sv.assign %1, %2; %4 = sv.reg;
    sv.initial { sv.bpassign %4, %2 }]. *)
Definition sampleReuseBlocking : IR := {|
  irOps :=
    [ Some (mkOperation HWModuleOp [] [] [] [Some 0] None);
      Some (mkOperation WireOp [] [InOutType i8] [] [] (Some 0));
      Some (mkOperation AddOp [BlockArgument 0 0; BlockArgument 0 1] [i8] [] [] (Some 0));
      Some (mkOperation AssignOp [OpResult 1 0; OpResult 2 0] [] [] [] (Some 0));
      Some (mkOperation RegOp [] [InOutType i8] [] [] (Some 0));
      Some (mkOperation (OtherOp SVDialect "initial") [] [] [] [Some 1] (Some 0));
      Some (mkOperation BPAssignOp [OpResult 4 0; OpResult 2 0] [] [] [] (Some 1)) ];
  irBlocks := [ mkBlock [1; 2; 3; 4; 5] (Some 0) [i8; i8]; mkBlock [6] (Some 5) [] ];
|}.

(** The sum [%3] is assigned to an element of the wire [%1] and is the
    output of the module: [%1 = sv.wire; %2 = sv.array_index_inout %1[%a];
    %3 = comb.add %a, %b; sv.assign %2, %3; hw.output %3]. *)
Definition sampleReuseIndex : IR := {|
  irOps :=
    [ Some (mkOperation HWModuleOp [] [] [] [Some 0] None);
      Some (mkOperation WireOp [] [InOutType OtherType] [] [] (Some 0));
      Some (mkOperation (OtherOp SVDialect "array_index_inout")
              [OpResult 1 0; BlockArgument 0 0] [InOutType i8] [] [] (Some 0));
      Some (mkOperation AddOp [BlockArgument 0 0; BlockArgument 0 1] [i8] [] [] (Some 0));
      Some (mkOperation AssignOp [OpResult 2 0; OpResult 3 0] [] [] [] (Some 0));
      Some (mkOperation OutputOp [OpResult 3 0] [] [] [] (Some 0)) ];
  irBlocks := [ mkBlock [1; 2; 3; 4; 5] (Some 0) [i8; i8] ];
|}.

(** * Proofs *)

(** ** Basic facts about the arena *)

Lemma getOp_lt st o x : getOp st o = Some x -> o < length (irOps st).
Proof.
  unfold getOp. destruct (irOps st !! o) eqn:E; [|discriminate].
  intros _. by apply lookup_lt_Some in E.
Qed.

Lemma getOp_setOp st o x n :
  getOp (setOp st o x) n =
    if bool_decide (n = o ∧ o < length (irOps st)) then Some x else getOp st n.
Proof.
  unfold getOp, setOp; simpl. case_bool_decide as H.
  - destruct H as [-> H]. by rewrite list_lookup_insert_eq.
  - destruct (decide (n = o)) as [->|Hne].
    + rewrite list_insert_ge; [done|]. lia.
    + by rewrite list_lookup_insert_ne.
Qed.

Lemma irOps_setBlockOps st b l : irOps (setBlockOps st b l) = irOps st.
Proof. unfold setBlockOps. by destruct (irBlocks st !! b). Qed.

Lemma getOp_setBlockOps st b l n : getOp (setBlockOps st b l) n = getOp st n.
Proof. unfold getOp. by rewrite irOps_setBlockOps. Qed.

Lemma irOps_linkOp st o pos :
  irOps (linkOp st o pos) =
    match getOp st o with
    | Some op => <[o := Some (withBlock op (Some (fst pos)))]> (irOps st)
    | None => irOps st
    end.
Proof.
  unfold linkOp. destruct (getOp st o); [|done].
  simpl. by rewrite irOps_setBlockOps.
Qed.

Lemma createOp_snd st ip name operands types attrs :
  snd (createOp st ip name operands types attrs) = length (irOps st).
Proof. unfold createOp. reflexivity. Qed.

Lemma createOp_irOps st ip name operands types attrs :
  irOps (fst (createOp st ip name operands types attrs)) =
    irOps st ++ [Some (mkOperation name operands types attrs [] (fst <$> ip))].
Proof.
  unfold createOp. simpl. destruct ip as [pos|]; simpl; [|done].
  rewrite irOps_linkOp. unfold getOp. simpl.
  rewrite lookup_app_r by lia. rewrite Nat.sub_diag. simpl.
  rewrite insert_app_r_alt by lia. rewrite Nat.sub_diag. done.
Qed.

Lemma getOp_app_l ops blocks ops' n :
  n < length ops -> getOp (mkIR (ops ++ ops') blocks) n = getOp (mkIR ops blocks) n.
Proof. intros H. unfold getOp. simpl. by rewrite lookup_app_l. Qed.

Lemma getOp_createOp_old st ip name operands types attrs n :
  n < length (irOps st) ->
  getOp (fst (createOp st ip name operands types attrs)) n = getOp st n.
Proof.
  intros H. unfold getOp. rewrite createOp_irOps. by rewrite lookup_app_l.
Qed.

Lemma getOp_createOp_new st ip name operands types attrs :
  getOp (fst (createOp st ip name operands types attrs)) (length (irOps st)) =
    Some (mkOperation name operands types attrs [] (fst <$> ip)).
Proof.
  unfold getOp. rewrite createOp_irOps.
  rewrite lookup_app_r by lia. by rewrite Nat.sub_diag.
Qed.

Lemma length_createOp st ip name operands types attrs :
  length (irOps (fst (createOp st ip name operands types attrs))) = S (length (irOps st)).
Proof. rewrite createOp_irOps. rewrite length_app. simpl. lia. Qed.

Lemma length_setOp st o x : length (irOps (setOp st o x)) = length (irOps st).
Proof. unfold setOp. simpl. apply length_insert. Qed.

Lemma length_setAttr st o name a : length (irOps (setAttr st o name a)) = length (irOps st).
Proof. unfold setAttr. destruct (getOp st o); [apply length_setOp|done]. Qed.

Lemma length_removeAttr st o name : length (irOps (removeAttr st o name)) = length (irOps st).
Proof. unfold removeAttr. destruct (getOp st o); [apply length_setOp|done]. Qed.

Lemma getOp_setAttr st o name a n :
  getOp (setAttr st o name a) n =
    if bool_decide (n = o)
    then (fun x => withAttrs x (dropAttr name (opAttrs x) ++ [(name, a)])) <$> getOp st o
    else getOp st n.
Proof.
  unfold setAttr. destruct (getOp st o) as [x|] eqn:E.
  - rewrite getOp_setOp. pose proof (getOp_lt _ _ _ E) as Hlt.
    destruct (decide (n = o)) as [->|Hne].
    + by rewrite !bool_decide_eq_true_2.
    + rewrite !bool_decide_eq_false_2; [done|done|]. by intros [? _].
  - case_bool_decide; [by subst|done].
Qed.

Lemma getOp_removeAttr st o name n :
  getOp (removeAttr st o name) n =
    if bool_decide (n = o)
    then (fun x => withAttrs x (dropAttr name (opAttrs x))) <$> getOp st o
    else getOp st n.
Proof.
  unfold removeAttr. destruct (getOp st o) as [x|] eqn:E.
  - rewrite getOp_setOp. pose proof (getOp_lt _ _ _ E) as Hlt.
    destruct (decide (n = o)) as [->|Hne].
    + by rewrite !bool_decide_eq_true_2.
    + rewrite !bool_decide_eq_false_2; [done|done|]. by intros [? _].
  - case_bool_decide; [by subst|done].
Qed.

Lemma lookupAttr_dropAttr_eq name l : lookupAttr name (dropAttr name l) = None.
Proof.
  induction l as [|[n a] l IH]; simpl; [done|].
  destruct (String.eqb n name) eqn:E; [done|]. simpl. by rewrite E.
Qed.

Lemma lookupAttr_dropAttr_ne name name' l :
  name <> name' -> lookupAttr name' (dropAttr name l) = lookupAttr name' l.
Proof.
  intros Hne. induction l as [|[n a] l IH]; simpl; [done|].
  destruct (String.eqb n name) eqn:E.
  - apply String.eqb_eq in E. subst n.
    destruct (String.eqb name name') eqn:E'; [apply String.eqb_eq in E'; done|done].
  - simpl. by rewrite IH.
Qed.

Lemma lookupAttr_app name l l' :
  lookupAttr name (l ++ l') =
    match lookupAttr name l with Some a => Some a | None => lookupAttr name l' end.
Proof.
  induction l as [|[n a] l IH]; simpl; [done|].
  by destruct (String.eqb n name).
Qed.

Section EvaluationFacts.
Context (f : Z -> Z -> Z).

Lemma evalValue_old k st n0 env v : isOldValue n0 v -> evalValue f k st n0 env v = Some (env v).
Proof.
  destruct v as [b i|o i]; simpl; [by destruct k|].
  intros H. destruct k; simpl; by rewrite (proj2 (Nat.leb_gt n0 o)).
Qed.

Lemma evalValue_ext k st1 st2 n0 env v z :
  (forall n x, n0 <= n -> getOp st1 n = Some x -> getOp st2 n = Some x) ->
  evalValue f k st1 n0 env v = Some z -> evalValue f k st2 n0 env v = Some z.
Proof.
  intros Hext. revert v z. induction k as [|k IH]; intros v z.
  - destruct v; simpl; [done|]. by destruct (n0 <=? o).
  - destruct v as [b i|o i]; simpl; [done|].
    destruct (n0 <=? o) eqn:E; [|done].
    apply Nat.leb_le in E.
    destruct (getOp st1 o) as [x|] eqn:Ex; simpl; [|done].
    rewrite (Hext _ _ E Ex). simpl.
    destruct (mapM (evalValue f k st1 n0 env) (opOperands x)) as [vals|] eqn:Em; simpl; [|done].
    intros Hz. apply mapM_Some in Em.
    assert (mapM (evalValue f k st2 n0 env) (opOperands x) = Some vals) as ->.
    { apply mapM_Some. eapply Forall2_impl; [exact Em|]. intros a b. apply IH. }
    done.
Qed.

Lemma evalValue_mono k k' st n0 env v z :
  k <= k' -> evalValue f k st n0 env v = Some z -> evalValue f k' st n0 env v = Some z.
Proof.
  revert k' v z. induction k as [|k IH]; intros k' v z Hle.
  - destruct v; simpl; [by destruct k'|]. destruct (n0 <=? o) eqn:E; [done|].
    destruct k'; simpl; by rewrite E.
  - destruct k' as [|k']; [lia|].
    destruct v as [b i|o i]; simpl; [done|].
    destruct (n0 <=? o) eqn:E; [|done].
    destruct (getOp st o) as [x|] eqn:Ex; simpl; [|done].
    destruct (mapM (evalValue f k st n0 env) (opOperands x)) as [vals|] eqn:Em; simpl; [|done].
    intros Hz. apply mapM_Some in Em.
    assert (mapM (evalValue f k' st n0 env) (opOperands x) = Some vals) as ->.
    { apply mapM_Some. eapply Forall2_impl; [exact Em|]. intros a b. apply IH. lia. }
    done.
Qed.

Lemma evalValue_binary k st n0 env o i x lhs rhs z1 z2 :
  n0 <= o -> getOp st o = Some x -> opOperands x = [lhs; rhs] ->
  evalValue f k st n0 env lhs = Some z1 -> evalValue f k st n0 env rhs = Some z2 ->
  evalValue f (S k) st n0 env (OpResult o i) = Some (f z1 z2).
Proof.
  intros Hle Hx Ho H1 H2. cbn [evalValue].
  rewrite (proj2 (Nat.leb_le n0 o)) by done.
  rewrite Hx. cbn. rewrite Ho. cbn [mapM]. rewrite H1, H2. done.
Qed.

Hypothesis f_assoc : forall a b c, f a (f b c) = f (f a b) c.

Lemma fold_left_assoc a b l : fold_left f l (f a b) = f a (fold_left f l b).
Proof.
  revert b. induction l as [|x l IH]; intros b; simpl; [done|].
  by rewrite <- f_assoc, IH.
Qed.

Lemma evalVariadic_app l1 l2 z1 z2 :
  evalVariadic f l1 = Some z1 -> evalVariadic f l2 = Some z2 ->
  evalVariadic f (l1 ++ l2) = Some (f z1 z2).
Proof.
  destruct l1 as [|a l1]; [done|]. destruct l2 as [|b l2]; [done|].
  simpl. intros [= <-] [= <-]. f_equal.
  rewrite fold_left_app. simpl. apply fold_left_assoc.
Qed.

End EvaluationFacts.

Section Balancing.
Context (f : Z -> Z -> Z) (f_assoc : forall a b c, f a (f b c) = f (f a b) c).
Context (op : OpId) (n0 : nat).

Lemma removeName_post st o :
  getOp st op = Some o -> op < n0 ->
  let st1 := match getAttr st op "sv.namehint" with
             | Some _ => removeAttr st op "sv.namehint"
             | None => st
             end in
  length (irOps st1) = length (irOps st) /\
  (exists o', getOp st1 op = Some o' /\ opName o' = opName o /\
     opResultTypes o' = opResultTypes o /\ opBlock o' = opBlock o /\
     lookupAttr "twoState" (opAttrs o') = lookupAttr "twoState" (opAttrs o) /\
     lookupAttr "sv.namehint" (opAttrs o') = None) /\
  (forall n, n0 <= n -> getOp st1 n = getOp st n).
Proof.
  intros Ho Hlt. unfold getAttr. rewrite Ho. simpl.
  destruct (lookupAttr "sv.namehint" (opAttrs o)) as [a|] eqn:E; simpl.
  - split; [apply length_removeAttr|]. split.
    + eexists. rewrite getOp_removeAttr, bool_decide_eq_true_2 by done.
      rewrite Ho. simpl. split; [done|]. simpl.
      repeat split; [by apply lookupAttr_dropAttr_ne|apply lookupAttr_dropAttr_eq].
    + intros n Hn. rewrite getOp_removeAttr, bool_decide_eq_false_2; [done|lia].
  - split; [done|]. split; [|done]. exists o. by repeat split.
Qed.

Lemma createTreeNode_post st o name lhs rhs newOps :
  getOp st op = Some o -> op < n0 -> n0 <= length (irOps st) ->
  exists st',
    createTreeNode st op name lhs rhs newOps =
      Ok (st', OpResult (length (irOps st)) 0, newOps ++ [length (irOps st)]) /\
    length (irOps st') = S (length (irOps st)) /\
    getOp st' op = Some o /\
    (forall n, n < length (irOps st) -> getOp st' n = getOp st n) /\
    exists x, getOp st' (length (irOps st)) = Some x /\ opName x = opName o /\
      opOperands x = [lhs; rhs] /\
      lookupAttr "twoState" (opAttrs x) = lookupAttr "twoState" (opAttrs o) /\
      lookupAttr "sv.namehint" (opAttrs x) = name.
Proof.
  intros Ho Hlt Hn0. unfold createTreeNode. rewrite Ho. cbn.
  destruct (createOp st (pointBefore st op) (opName o) [lhs; rhs] [getResultType st op 0] [])
    as [st1 newOp] eqn:Ec.
  pose proof (createOp_snd st (pointBefore st op) (opName o) [lhs; rhs] [getResultType st op 0] []) as Hs.
  pose proof (getOp_createOp_new st (pointBefore st op) (opName o) [lhs; rhs] [getResultType st op 0] []) as Hnew.
  pose proof (length_createOp st (pointBefore st op) (opName o) [lhs; rhs] [getResultType st op 0] []) as Hlen.
  assert (Hold : forall n, n < length (irOps st) -> getOp st1 n = getOp st n).
  { intros n Hn. pose proof (getOp_createOp_old st (pointBefore st op) (opName o) [lhs; rhs] [getResultType st op 0] [] n Hn) as H.
    by rewrite Ec in H. }
  rewrite Ec in Hs, Hnew, Hlen. simpl in Hs, Hnew, Hlen. subst newOp.
  set (m := length (irOps st)) in *. simpl.
  set (st2 := match name with Some a => setAttr st1 m "sv.namehint" a | None => st1 end).
  assert (H2 : length (irOps st2) = S m /\ (forall n, n < m -> getOp st2 n = getOp st n) /\
            exists x, getOp st2 m = Some x /\ opName x = opName o /\ opOperands x = [lhs; rhs] /\
              lookupAttr "twoState" (opAttrs x) = None /\
              lookupAttr "sv.namehint" (opAttrs x) = name).
  { subst st2. destruct name as [a|].
    - split; [by rewrite length_setAttr|]. split.
      + intros n Hn. rewrite getOp_setAttr, bool_decide_eq_false_2 by lia. by apply Hold.
      + eexists. rewrite getOp_setAttr, bool_decide_eq_true_2 by done. rewrite Hnew. simpl.
        split; [done|]. simpl. by repeat split.
    - split; [done|]. split; [done|]. eexists. split; [exact Hnew|]. by repeat split. }
  destruct H2 as (Hlen2 & Hold2 & x & Hx & Hxn & Hxo & Hxt & Hxh).
  assert (Hop2 : getOp st2 op = Some o) by (rewrite Hold2; [done|unfold m; lia]).
  unfold getAttr. rewrite Hop2. simpl.
  destruct (lookupAttr "twoState" (opAttrs o)) as [t|] eqn:Et.
  - eexists. split; [done|]. split; [by rewrite length_setAttr|]. split.
    { rewrite getOp_setAttr, bool_decide_eq_false_2; [done|unfold m; lia]. } split.
    { intros n Hn. rewrite getOp_setAttr, bool_decide_eq_false_2 by (unfold m in *; lia). by apply Hold2. }
    eexists. rewrite getOp_setAttr, bool_decide_eq_true_2 by done. rewrite Hx. simpl.
    split; [done|]. simpl. repeat split; [done..| |].
    + rewrite lookupAttr_app, lookupAttr_dropAttr_eq. simpl. done.
    + rewrite lookupAttr_app, lookupAttr_dropAttr_ne by done. rewrite Hxh.
      by destruct name.
  - eexists. split; [done|]. split; [done|]. split; [done|]. split; [done|].
    exists x. by repeat split.
Qed.

Lemma lfa_one fuel st x newOps :
  lowerFullyAssociativeOp fuel st op [x] newOps = Ok (nameRemoved op st, x, newOps).
Proof. by destruct fuel. Qed.

Lemma lfa_two fuel st lhs rhs newOps :
  lowerFullyAssociativeOp fuel st op [lhs; rhs] newOps =
    createTreeNode (nameRemoved op st) op (getAttr st op "sv.namehint") lhs rhs newOps.
Proof. by destruct fuel. Qed.

Lemma lfa_many k st operands newOps :
  2 < length operands ->
  lowerFullyAssociativeOp (S k) st op operands newOps =
    '(st1, lhs, newOps1) ← lowerFullyAssociativeOp k (nameRemoved op st) op
                              (take (length operands / 2) operands) newOps;
    '(st2, rhs, newOps2) ← lowerFullyAssociativeOp k st1 op
                              (drop (length operands / 2) operands) newOps1;
    createTreeNode st2 op (getAttr st op "sv.namehint") lhs rhs newOps2.
Proof.
  intros H. destruct operands as [|a [|b [|c rest]]]; simpl in H; try lia.
  reflexivity.
Qed.

Lemma last_snoc_seq a n : last (seq a (S n)) = Some (a + n).
Proof. rewrite seq_S. by rewrite last_snoc. Qed.

Lemma lowerFullyAssociativeOp_post fuel : forall st operands newOps o,
  getOp st op = Some o -> op < n0 -> n0 <= length (irOps st) ->
  operands <> [] -> length operands <= fuel + 2 ->
  exists st' result added,
    lowerFullyAssociativeOp fuel st op operands newOps = Ok (st', result, newOps ++ added) /\
    LfaPost f op n0 o st operands st' result added.
Proof.
  induction fuel as [|k IH]; intros st operands newOps o Ho Hlt Hn0 Hne Hlen.
  all: destruct (removeName_post st o Ho Hlt) as (Hl1 & (o1 & Ho1 & Hn1 & Ht1 & Hb1 & Htw1 & Hnh1) & Hold1).
  all: fold (nameRemoved op st) in Hl1, Ho1, Hold1.
  all: destruct operands as [|a [|b [|c rest]]]; [done| | |].
  all: try (simpl in Hlen; lia).
  (* one operand *)
  1,3: rewrite lfa_one; exists (nameRemoved op st), a, []; rewrite app_nil_r; split; [done|];
    constructor; simpl; [done|done|lia|by exists o1|by intros; apply Hold1|
      by intros n Hn; apply elem_of_nil in Hn|done|];
    intros Hold env; exists 0; apply Forall_cons in Hold as [Ha _];
    by rewrite evalValue_old.
  (* two operands *)
  1,2: rewrite lfa_two;
    destruct (createTreeNode_post (nameRemoved op st) o1 (getAttr st op "sv.namehint") a b newOps Ho1 Hlt)
      as (st' & Hc & Hlen' & Hop' & Hold' & x & Hx & Hxn & Hxo & Hxt & Hxh); [lia|];
    rewrite Hl1 in *; exists st', (OpResult (length (irOps st)) 0), [length (irOps st)];
    (split; [done|]); constructor; simpl;
    [done|done|lia|by exists o1; rewrite Hop'|
     by intros n Hn Hn'; rewrite Hold', Hold1|
     | done | ].
  1,3: intros n ->%list_elem_of_singleton; exists x; rewrite Hx, Hxn, Hxo, Hxt, Hxh;
    rewrite bool_decide_eq_true_2 by done; unfold getAttr; rewrite Ho; by repeat split.
  1,2: intros Hold env; exists 1;
    apply Forall_cons in Hold as [Ha Hold]; apply Forall_cons in Hold as [Hb _];
    by apply evalValue_binary with x a b; [| | |apply evalValue_old|apply evalValue_old].
  (* more operands *)
  set (operands := a :: b :: c :: rest) in *.
  assert (Hlen3 : 2 < length operands) by (simpl; lia).
  rewrite lfa_many by done.
  set (h := length operands / 2).
  assert (Hh : 1 <= h /\ h < length operands).
  { unfold h. split.
    - apply Nat.div_le_lower_bound; lia.
    - apply Nat.div_lt; lia. }
  destruct (IH (nameRemoved op st) (take h operands) newOps o1) as (st1 & lhs & add1 & E1 & P1);
    [done|done|lia| | |].
  { intros E. assert (length (take h operands) = 0) as E' by (by rewrite E).
    rewrite length_take in E'. lia. }
  { rewrite length_take. lia. }
  rewrite E1. cbv beta iota delta [mbind Res_bind].
  destruct (lfa_op _ _ _ _ _ _ _ _ _ P1) as (o2 & Ho2 & Hn2 & Ht2 & Hb2 & Htw2 & Hnh2).
  pose proof (lfa_size _ _ _ _ _ _ _ _ _ P1) as Hs1.
  destruct (IH st1 (drop h operands) (newOps ++ add1) o2) as (st2 & rhs & add2 & E2 & P2);
    [done|done|lia| | |].
  { intros E. assert (length (drop h operands) = 0) as E' by (by rewrite E).
    rewrite length_drop in E'. lia. }
  { rewrite length_drop. lia. }
  rewrite E2. cbv beta iota delta [mbind Res_bind].
  destruct (lfa_op _ _ _ _ _ _ _ _ _ P2) as (o3 & Ho3 & Hn3 & Ht3 & Hb3 & Htw3 & Hnh3).
  pose proof (lfa_size _ _ _ _ _ _ _ _ _ P2) as Hs2.
  destruct (createTreeNode_post st2 o3 (getAttr st op "sv.namehint") lhs rhs
              ((newOps ++ add1) ++ add2) Ho3 Hlt)
    as (st' & Hc & Hlen' & Hop' & Hold' & x & Hx & Hxn & Hxo & Hxt & Hxh); [lia|].
  rewrite Hc.
  pose proof (lfa_len _ _ _ _ _ _ _ _ _ P1) as Hl_1. pose proof (lfa_len _ _ _ _ _ _ _ _ _ P2) as Hl_2.
  pose proof (lfa_ids _ _ _ _ _ _ _ _ _ P1) as Hi_1. pose proof (lfa_ids _ _ _ _ _ _ _ _ _ P2) as Hi_2.
  rewrite length_take in Hl_1. rewrite length_drop in Hl_2.
  set (m := length (irOps st)) in *.
  assert (Hadd : add1 ++ add2 ++ [length (irOps st2)] = seq m (length operands - 1)).
  { rewrite Hi_1, Hi_2, Hs2, Hs1, Hl1.
    replace (length operands - 1) with (length add1 + (length add2 + 1)) by lia.
    rewrite !seq_app. simpl. repeat f_equal; lia. }
  exists st', (OpResult (length (irOps st2)) 0), (add1 ++ add2 ++ [length (irOps st2)]).
  split; [by rewrite <- !app_assoc|].
  assert (Hlast : last (add1 ++ add2 ++ [length (irOps st2)]) = Some (length (irOps st2))).
  { by rewrite !app_assoc, last_snoc. }
  constructor.
  - rewrite Hadd. rewrite length_seq. done.
  - rewrite Hadd. by rewrite length_seq.
  - rewrite Hlen', Hs2, Hs1, Hl1, !length_app. simpl. lia.
  - exists o3. rewrite Hop'. repeat split; congruence.
  - intros n Hn Hn'. rewrite Hold' by lia.
    rewrite (lfa_old _ _ _ _ _ _ _ _ _ P2) by lia.
    rewrite (lfa_old _ _ _ _ _ _ _ _ _ P1) by lia. by apply Hold1.
  - intros n Hn. rewrite Hlast.
    rewrite !elem_of_app, list_elem_of_singleton in Hn. destruct Hn as [Hn|[Hn| ->]].
    + destruct (lfa_new _ _ _ _ _ _ _ _ _ P1 n Hn) as (y & Hy & Hyn & Hyo & Hyt & Hyh).
      assert (Hnlt : n < length (irOps st1)).
      { rewrite Hi_1 in Hn. apply elem_of_seq in Hn. lia. }
      assert (n0 <= n) by (rewrite Hi_1 in Hn; apply elem_of_seq in Hn; lia).
      exists y. rewrite Hold' by lia. rewrite (lfa_old _ _ _ _ _ _ _ _ _ P2) by lia.
      rewrite Hy. rewrite bool_decide_eq_false_2 by (intros [= E]; lia).
      repeat split; [congruence..|].
      rewrite Hyh, Hnh1. by case_bool_decide.
    + destruct (lfa_new _ _ _ _ _ _ _ _ _ P2 n Hn) as (y & Hy & Hyn & Hyo & Hyt & Hyh).
      assert (Hnlt : n < length (irOps st2)).
      { rewrite Hi_2 in Hn. apply elem_of_seq in Hn. lia. }
      exists y. rewrite Hold' by lia.
      rewrite Hy. rewrite bool_decide_eq_false_2 by (intros [= E]; lia).
      repeat split; [congruence..|].
      rewrite Hyh, Hnh2. by case_bool_decide.
    + exists x. rewrite bool_decide_eq_true_2 by done.
      rewrite Hx. unfold getAttr in Hxh. rewrite Ho in Hxh. simpl in Hxh.
      repeat split; try congruence. by rewrite Hxo.
  - by rewrite Hlast.
  - intros Hold env.
    destruct (lfa_eval _ _ _ _ _ _ _ _ _ P1 (Forall_take _ _ _ Hold) env) as [k1 Hk1].
    destruct (lfa_eval _ _ _ _ _ _ _ _ _ P2 (Forall_drop _ _ _ Hold) env) as [k2 Hk2].
    assert (exists z1, evalVariadic f (map env (take h operands)) = Some z1) as [z1 Hz1].
    { destruct (take h operands) eqn:E; [|simpl; eauto].
      assert (length (take h operands) = 0) as E' by (by rewrite E).
      rewrite length_take in E'. lia. }
    assert (exists z2, evalVariadic f (map env (drop h operands)) = Some z2) as [z2 Hz2].
    { destruct (drop h operands) eqn:E; [|simpl; eauto].
      assert (length (drop h operands) = 0) as E' by (by rewrite E).
      rewrite length_drop in E'. lia. }
    rewrite Hz1 in Hk1. rewrite Hz2 in Hk2.
    exists (S (k1 `max` k2)).
    assert (H1 : evalValue f (k1 `max` k2) st' n0 env lhs = Some z1).
    { apply evalValue_mono with k1; [lia|].
      apply evalValue_ext with st2.
      { intros n y Hn Hy. rewrite Hold'; [done|]. by apply getOp_lt in Hy. }
      apply evalValue_ext with st1; [|done].
      intros n y Hn Hy. rewrite (lfa_old _ _ _ _ _ _ _ _ _ P2); [done|done|].
      by apply getOp_lt in Hy. }
    assert (H2 : evalValue f (k1 `max` k2) st' n0 env rhs = Some z2).
    { apply evalValue_mono with k2; [lia|].
      apply evalValue_ext with st2; [|done].
      intros n y Hn Hy. rewrite Hold'; [done|]. by apply getOp_lt in Hy. }
    rewrite <- (take_drop h operands) at 1. rewrite map_app.
    rewrite (evalVariadic_app f f_assoc _ _ z1 z2) by done.
    apply evalValue_binary with x lhs rhs; [lia|done..].
Qed.

End Balancing.

Lemma candidate_operands O st op o :
  getOp st op = Some o -> isFullyAssociativeCandidate O st op = true ->
  2 < length (opOperands o).
Proof.
  intros Ho. unfold isFullyAssociativeCandidate. rewrite Ho.
  rewrite !andb_true_iff. intros (((((H & _) & _) & _) & _) & _).
  by apply Nat.ltb_lt in H.
Qed.

Lemma add8_assoc a b c : add8 a (add8 b c) = add8 (add8 a b) c.
Proof.
  unfold add8. rewrite Zplus_mod_idemp_r, Zplus_mod_idemp_l. f_equal. lia.
Qed.

(** Each commutative operation of comb is fully associative, on every
    width: the balancing applies to all of them. *)
Lemma combSem_assoc (k : CommutativeOp) (w : nat) (a b c : Z) :
  combSem k w a (combSem k w b c) = combSem k w (combSem k w a b) c.
Proof.
  destruct k; cbn [combSem].
  - rewrite Zplus_mod_idemp_r, Zplus_mod_idemp_l. f_equal. lia.
  - rewrite Zmult_mod_idemp_r, Zmult_mod_idemp_l. f_equal. lia.
  - apply Z.land_assoc.
  - apply Z.lor_assoc.
  - symmetry. apply Z.lxor_assoc.
Qed.

Lemma combSem_add8 (a b : Z) : combSem CombAdd 8 a b = add8 a b.
Proof. reflexivity. Qed.




(** C6, as stated, fails: the first node created for the five-operand
    addition of [sampleAdd5] is not the root and carries "twoState". *)
Lemma markers_on_root_only_fails :
  exists st' result newOps,
    lowerFullyAssociativeOp 5 sampleAdd5 1 (getOperands sampleAdd5 1) [] =
      Ok (st', result, newOps) /\
    ~ markersOnRootOnly st' result newOps.
Proof.
  eexists _, _, _. split; [vm_compute; reflexivity|].
  intros H. destruct (H 3) as [_ H2].
  - repeat constructor.
  - discriminate.
  - vm_compute in H2. discriminate.
Qed.

(** C6, amended.  The name hint of the original node moves to the root of the
    new tree and to no other new node; the "twoState" attribute of the
    original node is copied to every node of the new tree. *)
Theorem balancing_markers (st : IR) (op : OpId) (o : Operation) :
  getOp st op = Some o ->
  2 < length (opOperands o) ->
  exists st' root newOps,
    lowerFullyAssociativeOp (length (opOperands o)) st op (opOperands o) [] =
      Ok (st', OpResult root 0, newOps) /\
    last newOps = Some root /\
    getAttr st' root "sv.namehint" = lookupAttr "sv.namehint" (opAttrs o) /\
    (forall n, n ∈ newOps -> n <> root -> getAttr st' n "sv.namehint" = None) /\
    (forall n, n ∈ newOps ->
       getAttr st' n "twoState" = lookupAttr "twoState" (opAttrs o)).
Proof.
  intros Ho Hlen.
  pose proof (getOp_lt _ _ _ Ho) as Hlt.
  destruct (lowerFullyAssociativeOp_post Z.add Z.add_assoc op (length (irOps st))
              (length (opOperands o)) st (opOperands o) [] o Ho Hlt)
    as (st' & result & added & E & P); [lia| |lia|].
  { intros E. rewrite E in Hlen. simpl in Hlen. lia. }
  simpl in E.
  pose proof (lfa_len _ _ _ _ _ _ _ _ _ P) as Hl.
  pose proof (lfa_result _ _ _ _ _ _ _ _ _ P) as Hr.
  destruct (last added) as [root|] eqn:Elast.
  2: { apply last_None in Elast. subst added. simpl in Hl. lia. }
  subst result. exists st', root, added. split; [done|]. split; [done|].
  assert (Hroot : root ∈ added).
  { apply last_Some in Elast as [l' ->]. apply elem_of_app. right. by left. }
  split; [|split].
  - destruct (lfa_new _ _ _ _ _ _ _ _ _ P root Hroot) as (x & Hx & _ & _ & _ & Hh).
    unfold getAttr. rewrite Hx. simpl. rewrite Hh.
    by rewrite bool_decide_eq_true_2.
  - intros n Hn Hne.
    destruct (lfa_new _ _ _ _ _ _ _ _ _ P n Hn) as (x & Hx & _ & _ & _ & Hh).
    unfold getAttr. rewrite Hx. simpl. rewrite Hh.
    rewrite bool_decide_eq_false_2; [done|]. congruence.
  - intros n Hn.
    destruct (lfa_new _ _ _ _ _ _ _ _ _ P n Hn) as (x & Hx & _ & _ & Ht & _).
    unfold getAttr. rewrite Hx. simpl. exact Ht.
Qed.

Lemma balancing_markers_witness :
  exists st' root newOps,
    lowerFullyAssociativeOp 5 sampleAdd5 1
      [BlockArgument 0 0; BlockArgument 0 1; BlockArgument 0 2;
       BlockArgument 0 3; BlockArgument 0 4] [] = Ok (st', OpResult root 0, newOps) /\
    last newOps = Some root /\
    getAttr st' root "sv.namehint" = Some (StringAttr "sum") /\
    (forall n, n ∈ newOps -> n <> root -> getAttr st' n "sv.namehint" = None) /\
    (forall n, n ∈ newOps -> getAttr st' n "twoState" = Some UnitAttr).
Proof.
  refine (balancing_markers sampleAdd5 1 _ eq_refl _).
  simpl. lia.
Defined.

(** ** The reuse of an existing declaration *)

Lemma collectUses_spec st l : forall assign uses,
  collectUses st l assign uses =
    match assign, List.filter (isAssignUse st) l with
    | _, [] => Some (assign, uses ++ List.filter (fun u => negb (isAssignUse st u)) l)
    | None, [u] =>
        if atTopLevel st (fst u)
        then Some (Some (fst u), uses ++ List.filter (fun u => negb (isAssignUse st u)) l)
        else None
    | _, _ => None
    end.
Proof.
  induction l as [|u l IH]; intros assign uses; simpl.
  - rewrite app_nil_r. by destruct assign.
  - change (isa st (fst u) [AssignOp]) with (isAssignUse st u).
    destruct (isAssignUse st u) eqn:Eu; simpl.
    + destruct assign as [a|]; [done|].
      change (match getParentOp st (fst u) with
              | Some p => isa st p [HWModuleOp]
              | None => false
              end) with (atTopLevel st (fst u)).
      assert (match getParentOp st (fst u) with
              | Some p => if isa st p [HWModuleOp]
                          then collectUses st l (Some (fst u)) uses else None
              | None => None
              end = if atTopLevel st (fst u)
                    then collectUses st l (Some (fst u)) uses else None) as ->.
      { unfold atTopLevel. by destruct (getParentOp st (fst u)). }
      rewrite IH.
      destruct (List.filter (isAssignUse st) l); by destruct (atTopLevel st (fst u)).
    + rewrite IH. rewrite <- app_assoc. simpl. done.
Qed.

Lemma reusePlan_spec st op :
  reusePlan st op =
    if reuseFires st op
    then match assignUses st op with
         | [u] => Some (fst u, otherUses st op)
         | _ => None
         end
    else None.
Proof.
  unfold reusePlan, reuseFires. rewrite collectUses_spec. simpl.
  fold (assignUses st op). fold (otherUses st op).
  destruct (assignUses st op) as [|u [|u' l]]; [|simpl|done].
  - by destruct (otherUses st op).
  - destruct (atTopLevel st (fst u)); simpl; [|done].
    destruct (otherUses st op); simpl; [done|].
    by destruct (srcIsConstant st (fst u)).
Qed.

Lemma getOp_setOperand st u v n :
  getOp (setOperand st u v) n =
    if bool_decide (n = fst u)
    then (fun x => withOperands x (<[snd u := v]> (opOperands x))) <$> getOp st (fst u)
    else getOp st n.
Proof.
  unfold setOperand. destruct (getOp st (fst u)) as [x|] eqn:E.
  - rewrite getOp_setOp. pose proof (getOp_lt _ _ _ E) as Hlt.
    destruct (decide (n = fst u)) as [->|Hne].
    + by rewrite !bool_decide_eq_true_2.
    + rewrite !bool_decide_eq_false_2; [done|done|]. by intros [? _].
  - case_bool_decide; [by subst|done].
Qed.

Lemma length_setOperand st u v : length (irOps (setOperand st u v)) = length (irOps st).
Proof. unfold setOperand. destruct (getOp st (fst u)); [apply length_setOp|done]. Qed.

(** A use names an operand slot that holds the value. *)
Lemma operandUses_elem v owner l u : forall i,
  u ∈ operandUses v owner i l ->
  fst u = owner /\ i <= snd u /\ l !! (snd u - i) = Some v.
Proof.
  induction l as [|x l IH]; intros i; simpl; [by intros ?%elem_of_nil|].
  case_bool_decide as Hx.
  - intros [->|H]%elem_of_cons.
    + simpl. rewrite Nat.sub_diag. subst x. done.
    + destruct (IH _ H) as (? & ? & ?). split; [done|]. split; [lia|].
      replace (snd u - i) with (S (snd u - S i)) by lia. done.
  - intros H. destruct (IH _ H) as (? & ? & ?). split; [done|]. split; [lia|].
    replace (snd u - i) with (S (snd u - S i)) by lia. done.
Qed.

Lemma usesFrom_elem v l u : forall o,
  u ∈ usesFrom v o l ->
  o <= fst u /\ exists x, l !! (fst u - o) = Some (Some x) /\ opOperands x !! snd u = Some v.
Proof.
  induction l as [|[x|] l IH]; intros o; simpl; [by intros ?%elem_of_nil| |].
  - intros [H|H]%elem_of_app.
    + apply operandUses_elem in H as (H1 & _ & H3). rewrite Nat.sub_0_r in H3.
      split; [lia|]. exists x. rewrite H1, Nat.sub_diag. done.
    + destruct (IH _ H) as (H1 & y & H2 & H3). split; [lia|]. exists y.
      replace (fst u - o) with (S (fst u - S o)) by lia. done.
  - intros H. destruct (IH _ H) as (H1 & y & H2 & H3). split; [lia|]. exists y.
    replace (fst u - o) with (S (fst u - S o)) by lia. done.
Qed.

Lemma getUses_elem st v u :
  u ∈ getUses st v ->
  exists x, getOp st (fst u) = Some x /\ opOperands x !! snd u = Some v.
Proof.
  unfold getUses. intros H. apply usesFrom_elem in H as (_ & x & H1 & H2).
  rewrite Nat.sub_0_r in H1. exists x. unfold getOp. by rewrite H1.
Qed.

Lemma getOpUses_elem st op u :
  u ∈ getOpUses st op ->
  exists x i, getOp st (fst u) = Some x /\ opOperands x !! snd u = Some (OpResult op i).
Proof.
  unfold getOpUses. rewrite list_elem_of_In, in_flat_map.
  intros (i & _ & H). apply list_elem_of_In, getUses_elem in H as (x & H1 & H2).
  by exists x, i.
Qed.

Lemma otherUses_elem st op u :
  u ∈ otherUses st op ->
  exists x, getOp st (fst u) = Some x /\ snd u < length (opOperands x).
Proof.
  unfold otherUses. rewrite list_elem_of_In, filter_In. intros [H _].
  apply list_elem_of_In, getOpUses_elem in H as (x & i & H1 & H2).
  exists x. split; [done|]. by apply lookup_lt_Some in H2.
Qed.

Lemma redirectUses_cons st dest u us :
  redirectUses st dest (u :: us) =
    redirectUses
      (setOperand (fst (createOp st (pointBefore st (fst u)) ReadInOutOp [dest]
                          [readType st dest] []))
         u (OpResult (length (irOps st)) 0))
      dest us.
Proof. reflexivity. Qed.

Lemma redirectUses_nil st dest : redirectUses st dest [] = st.
Proof. reflexivity. Qed.

Lemma Redirected_refl dest st : Redirected dest st st.
Proof.
  constructor; [done|by eauto|done|]. intros n ??. lia.
Qed.

Lemma redirect_step dest st0 st u :
  Redirected dest st0 st ->
  (exists x, getOp st0 (fst u) = Some x /\ snd u < length (opOperands x)) ->
  let st1 := setOperand (fst (createOp st (pointBefore st (fst u)) ReadInOutOp [dest]
                                [readType st dest] []))
               u (OpResult (length (irOps st)) 0) in
  Redirected dest st0 st1 /\ RedirectedUse st0 st1 u /\
  (forall u', RedirectedUse st0 st u' -> RedirectedUse st0 st1 u').
Proof.
  intros R (x & Hx & Hslot). intros st1.
  pose proof (getOp_lt _ _ _ Hx) as Hlt.
  pose proof (rd_len _ _ _ R) as Hlen.
  destruct (rd_old _ _ _ R _ _ Hx) as (y & Hy & Hyn & Hyl).
  set (c := createOp st (pointBefore st (fst u)) ReadInOutOp [dest] [readType st dest] []) in *.
  assert (Hc_len : length (irOps (fst c)) = S (length (irOps st))) by apply length_createOp.
  assert (Hc_old : forall n, n < length (irOps st) -> getOp (fst c) n = getOp st n)
    by (intros; by apply getOp_createOp_old).
  assert (Hc_new : getOp (fst c) (length (irOps st)) =
            Some (mkOperation ReadInOutOp [dest] [readType st dest] []
                    [] (fst <$> pointBefore st (fst u)))) by apply getOp_createOp_new.
  assert (H1_len : length (irOps st1) = S (length (irOps st))).
  { unfold st1. by rewrite length_setOperand. }
  assert (H1 : forall n, getOp st1 n =
            if bool_decide (n = fst u)
            then Some (withOperands y (<[snd u := OpResult (length (irOps st)) 0]> (opOperands y)))
            else getOp (fst c) n).
  { intros n. unfold st1. rewrite getOp_setOperand. case_bool_decide; [|done].
    rewrite Hc_old by lia. by rewrite Hy. }
  assert (Hu : RedirectedUse st0 st1 u).
  { exists (length (irOps st)). split; [lia|]. split; [lia|].
    unfold getOperands. rewrite H1, bool_decide_eq_true_2 by done. simpl.
    apply list_lookup_insert_eq. lia. }
  split; [|split; [done|]].
  - constructor.
    + lia.
    + intros n z Hz. pose proof (getOp_lt _ _ _ Hz).
      rewrite H1. case_bool_decide as Hn.
      * subst n. eexists. split; [done|]. simpl. rewrite length_insert.
        rewrite Hx in Hz. injection Hz as <-. done.
      * rewrite Hc_old by lia. by apply (rd_old _ _ _ R).
    + intros n Hn Hz. rewrite H1. case_bool_decide as Hn'; [congruence|].
      rewrite Hc_old by lia. by apply (rd_none _ _ _ R).
    + intros n Hn Hn'. rewrite H1. rewrite bool_decide_eq_false_2 by lia.
      destruct (decide (n = length (irOps st))) as [->|Hne].
      * rewrite Hc_new. eexists. by repeat split.
      * rewrite Hc_old by lia. apply (rd_new _ _ _ R); lia.
  - intros u' (r & Hr1 & Hr2 & Hr3).
    destruct (decide (u' = u)) as [->|Hne]; [done|].
    exists r. split; [done|]. split; [lia|].
    unfold getOperands in *. rewrite H1. case_bool_decide as Hn.
    + rewrite Hn, Hy in Hr3. simpl.
      rewrite list_lookup_insert_ne; [done|].
      intros E. apply Hne. destruct u, u'. simpl in *. congruence.
    + destruct (getOp st (fst u')) as [z|] eqn:Ez; [|done].
      pose proof (getOp_lt _ _ _ Ez). rewrite Hc_old by done. by rewrite Ez.
Qed.

Lemma redirectUses_spec dest st0 uses : forall st,
  Redirected dest st0 st ->
  (forall u, u ∈ uses -> exists x, getOp st0 (fst u) = Some x /\ snd u < length (opOperands x)) ->
  Redirected dest st0 (redirectUses st dest uses) /\
  (forall u, u ∈ uses -> RedirectedUse st0 (redirectUses st dest uses) u) /\
  (forall u, RedirectedUse st0 st u -> RedirectedUse st0 (redirectUses st dest uses) u).
Proof.
  induction uses as [|u uses IH]; intros st R Hvalid.
  - rewrite redirectUses_nil. split; [done|]. split; [|done].
    by intros u ?%elem_of_nil.
  - rewrite redirectUses_cons.
    destruct (redirect_step dest st0 st u R) as (R1 & Hu & Hkeep).
    { apply Hvalid. by left. }
    destruct (IH _ R1) as (R2 & Huses & Hkeep2).
    { intros u' Hu'. apply Hvalid. by right. }
    split; [done|]. split.
    + intros u' [->|Hu']%elem_of_cons; [by apply Hkeep2|by apply Huses].
    + intros u' Hu'. by apply Hkeep2, Hkeep.
Qed.

Lemma isDeclaration_Redirected dest st0 st n :
  Redirected dest st0 st -> isDeclaration st n = true -> isDeclaration st0 n = true.
Proof.
  intros R. unfold isDeclaration, isa.
  destruct (getOp st n) as [y|] eqn:Ey; [|done].
  pose proof (getOp_lt _ _ _ Ey) as Hlt.
  destruct (decide (n < length (irOps st0))) as [Hn|Hn].
  - destruct (getOp st0 n) as [x|] eqn:Ex.
    + destruct (rd_old _ _ _ R _ _ Ex) as (y' & Hy' & Hname & _).
      rewrite Ey in Hy'. injection Hy' as <-. by rewrite Hname.
    + rewrite (rd_none _ _ _ R n Hn Ex) in Ey. done.
  - destruct (rd_new _ _ _ R n) as (x & Hx & Hname & _); [lia|done|].
    rewrite Ey in Hx. injection Hx as <-. rewrite Hname.
    intros H. apply bool_decide_eq_true in H.
    repeat (apply elem_of_cons in H as [H|H]; [discriminate|]). by apply elem_of_nil in H.
Qed.

Lemma reuseExistingInOut_declines O fuel st op :
  reuseFires st op = false -> reuseExistingInOut O fuel st op = Ok (st, false).
Proof.
  intros H. unfold reuseExistingInOut. rewrite reusePlan_spec, H. done.
Qed.

Lemma reuseExistingInOut_true O fuel st op st' :
  reuseExistingInOut O fuel st op = Ok (st', true) -> reuseFires st op = true.
Proof.
  destruct (reuseFires st op) eqn:E; [done|].
  rewrite reuseExistingInOut_declines by done. discriminate.
Qed.

Lemma sampleOracle_declarations x :
  opName x ∈ [WireOp; RegOp; LogicOp] -> isExpressionAlwaysInline sampleOracle x = false.
Proof.
  intros H. simpl.
  repeat (apply elem_of_cons in H as [->|H]; [done|]). by apply elem_of_nil in H.
Qed.

Lemma declines_not_fires st op :
  assignUses st op = [] \/
  1 < length (assignUses st op) \/
  (exists u, u ∈ assignUses st op /\ atTopLevel st (fst u) = false) \/
  otherUses st op = [] \/
  (exists u, u ∈ assignUses st op /\ srcIsConstant st (fst u) = true) ->
  reuseFires st op = false.
Proof.
  unfold reuseFires.
  intros [H|[H|[(u & Hu & H)|[H|(u & Hu & H)]]]].
  - by rewrite H.
  - destruct (assignUses st op) as [|u [|u' l]]; simpl in H; [done|lia|done].
  - destruct (assignUses st op) as [|u0 [|u' l]]; [done| |done].
    apply list_elem_of_singleton in Hu. subst u0. by rewrite H.
  - rewrite H. destruct (assignUses st op) as [|u0 [|u' l]]; [done| |done].
    by rewrite andb_false_r.
  - destruct (assignUses st op) as [|u0 [|u' l]]; [done| |done].
    apply list_elem_of_singleton in Hu. subst u0. rewrite H. by rewrite andb_false_r.
Qed.

Lemma reuseExistingInOut_false O fuel st op st' :
  reuseExistingInOut O fuel st op = Ok (st', false) -> st' = st.
Proof.
  unfold reuseExistingInOut.
  destruct (reusePlan st op) as [[assign uses]|]; [|by intros [= <-]].
  destruct (getOperands st assign !! 0) as [dest|]; [|discriminate].
  cbv beta iota delta [mbind Res_bind fromOption].
  match goal with |- context [match ?m with Ok _ => _ | OutOfFuel => _ | Abort => _ end] =>
    destruct m end; discriminate.
Qed.



(** ** Uses after a replacement and after the creation of an operation *)

Lemma getOp_replaceAllUsesWith st v w n :
  getOp (replaceAllUsesWith st v w) n =
    (fun op => withOperands op (replaceIn v w (opOperands op))) <$> getOp st n.
Proof.
  unfold getOp, replaceAllUsesWith. simpl. rewrite list_lookup_fmap.
  by destruct (irOps st !! n) as [[x|]|].
Qed.

Lemma length_replaceAllUsesWith st v w :
  length (irOps (replaceAllUsesWith st v w)) = length (irOps st).
Proof. unfold replaceAllUsesWith. simpl. by rewrite length_map. Qed.

Lemma operandUses_replaceIn v w owner l : forall i,
  w <> v -> operandUses v owner i (replaceIn v w l) = [].
Proof.
  intros i Hne. revert i. induction l as [|x l IH]; intros i; simpl; [done|].
  destruct (decide (x = v)) as [Hx|Hx].
  - rewrite (bool_decide_eq_true_2 (x = v)) by done.
    rewrite bool_decide_eq_false_2 by done. apply IH.
  - rewrite (bool_decide_eq_false_2 (x = v)) by done.
    rewrite bool_decide_eq_false_2 by done. apply IH.
Qed.

Lemma getUses_replaceAllUsesWith st v w :
  w <> v -> getUses (replaceAllUsesWith st v w) v = [].
Proof.
  intros Hne. unfold getUses, replaceAllUsesWith. simpl.
  generalize 0. induction (irOps st) as [|[x|] l IH]; intros o; simpl; [done| |].
  - rewrite operandUses_replaceIn by done. apply IH.
  - apply IH.
Qed.

Lemma usesFrom_app v l l' : forall o,
  usesFrom v o (l ++ l') = usesFrom v o l ++ usesFrom v (o + length l) l'.
Proof.
  induction l as [|[x|] l IH]; intros o; simpl.
  - by rewrite Nat.add_0_r.
  - rewrite IH, <- app_assoc.
    by replace (S o + length l) with (o + S (length l)) by lia.
  - rewrite IH.
    by replace (S o + length l) with (o + S (length l)) by lia.
Qed.

Lemma getUses_createOp st ip name operands types attrs v :
  getUses (fst (createOp st ip name operands types attrs)) v =
    getUses st v ++ operandUses v (length (irOps st)) 0 operands.
Proof.
  unfold getUses. rewrite createOp_irOps, usesFrom_app. simpl.
  by rewrite app_nil_r.
Qed.

Lemma getNumResults_createOp st ip name operands types attrs n :
  n < length (irOps st) ->
  getNumResults (fst (createOp st ip name operands types attrs)) n = getNumResults st n.
Proof. intros H. unfold getNumResults. by rewrite getOp_createOp_old. Qed.

Lemma getNumResults_replaceAllUsesWith st v w n :
  getNumResults (replaceAllUsesWith st v w) n = getNumResults st n.
Proof.
  unfold getNumResults. rewrite getOp_replaceAllUsesWith. by destruct (getOp st n).
Qed.

Lemma getOpUses_one st op :
  getNumResults st op = 1 -> getOpUses st op = getUses st (OpResult op 0).
Proof.
  intros H. unfold getOpUses. rewrite H. simpl. by rewrite app_nil_r.
Qed.

Lemma getNumResults_lt st op n : getNumResults st op = S n -> op < length (irOps st).
Proof.
  unfold getNumResults. destruct (getOp st op) eqn:E; [|done].
  intros _. by apply getOp_lt in E.
Qed.

(** The graph after the three operations of [rewriteSideEffectingExpr]. *)
Lemma rewriteSideEffectingExpr_rewrites O st op top :
  getNumResults st op = 1 ->
  isAlreadyRewritten st op = false ->
  findParentInNonProceduralRegion O st op = Ok top ->
  exists st', rewriteSideEffectingExpr O st op = Ok (st', true) /\
    isAlreadyRewritten st' op = true /\ getNumResults st' op = 1.
Proof.
  intros Hres Hnot Htop. unfold rewriteSideEffectingExpr.
  rewrite Hres, Hnot, Htop. cbn [Nat.eqb negb]. cbv beta iota delta [mbind Res_bind].
  pose proof (getNumResults_lt _ _ _ Hres) as Hlt.
  set (m := length (irOps st)) in *.
  set (c1 := createOp st (pointBefore st top) RegOp [] [InOutType (getType st (OpResult op 0))] []).
  assert (E1 : c1 = (fst c1, m)) by (by rewrite (surjective_pairing c1)).
  rewrite E1. cbv beta iota.
  set (st1 := fst c1) in *.
  assert (Hl1 : length (irOps st1) = S m) by apply length_createOp.
  set (c2 := createOp st1 (pointBefore st top) ReadInOutOp [OpResult m 0]
               [getType st1 (OpResult op 0)] []).
  assert (E2 : c2 = (fst c2, S m)).
  { rewrite (surjective_pairing c2). f_equal. unfold c2. by rewrite createOp_snd. }
  rewrite E2. cbv beta iota.
  set (st2 := fst c2) in *.
  assert (Hl2 : length (irOps st2) = S (S m)).
  { unfold st2, c2. by rewrite length_createOp, Hl1. }
  set (st3 := replaceAllUsesWith st2 (OpResult op 0) (OpResult (S m) 0)) in *.
  assert (Hl3 : length (irOps st3) = S (S m)).
  { unfold st3. by rewrite length_replaceAllUsesWith. }
  set (c4 := createOp st3 (pointAfter st3 op) BPAssignOp [OpResult m 0; OpResult op 0] [] []).
  assert (E4 : c4 = (fst c4, S (S m))).
  { rewrite (surjective_pairing c4). f_equal. unfold c4. by rewrite createOp_snd. }
  rewrite E4. cbv beta iota.
  set (st4 := fst c4) in *.
  exists st4. split; [done|].
  assert (Hn4 : getNumResults st4 op = 1).
  { unfold st4, c4. rewrite getNumResults_createOp by lia.
    unfold st3. rewrite getNumResults_replaceAllUsesWith.
    unfold st2, c2. rewrite getNumResults_createOp by lia.
    unfold st1, c1. by rewrite getNumResults_createOp. }
  split; [|done].
  unfold isAlreadyRewritten. rewrite getOpUses_one by done.
  unfold st4, c4. rewrite getUses_createOp.
  unfold st3 at 1. rewrite getUses_replaceAllUsesWith by (intros [= E]; lia).
  rewrite Hl3. cbn [operandUses app].
  rewrite bool_decide_eq_false_2 by (intros [= E]; lia).
  rewrite bool_decide_eq_true_2 by done. cbn [fst].
  fold c4. fold st4.
  assert (H4new : getOp st4 (S (S m)) =
            Some (mkOperation BPAssignOp [OpResult m 0; OpResult op 0] [] [] []
                    (fst <$> pointAfter st3 op))).
  { unfold st4, c4. rewrite <- Hl3. apply getOp_createOp_new. }
  assert (H4reg : exists x, getOp st4 m = Some x /\ opName x = RegOp).
  { unfold st4, c4. rewrite getOp_createOp_old by lia.
    unfold st3. rewrite getOp_replaceAllUsesWith.
    unfold st2, c2. rewrite getOp_createOp_old by lia.
    unfold st1, c1, m. rewrite getOp_createOp_new. simpl. eauto. }
  unfold isa, getOperands. rewrite H4new. simpl.
  destruct H4reg as (x & -> & ->). done.
Qed.

Lemma rewriteSideEffectingExpr_fixed O st op :
  getNumResults st op = 1 -> isAlreadyRewritten st op = true ->
  rewriteSideEffectingExpr O st op = Ok (st, false).
Proof. intros H1 H2. unfold rewriteSideEffectingExpr. by rewrite H1, H2. Qed.

Lemma isa_false_subset st o l l' :
  isa st o l = false -> (forall n, n ∈ l' -> n ∈ l) -> isa st o l' = false.
Proof.
  unfold isa. destruct (getOp st o) as [x|]; [|done].
  intros H Hsub. apply bool_decide_eq_false in H. apply bool_decide_eq_false.
  intros Hin. by apply H, Hsub.
Qed.




(** C3, as stated, fails: the first legalization of [sampleDeadRead] deletes
    the unused read and keeps the inout projection that the read was the only
    user of; the second legalization deletes that projection. *)
Lemma legalization_not_idempotent :
  exists st1 st2 e1 e2,
    legalizeHWModule sampleOracle 20 sampleOptions sampleDeadRead [] 0 = Ok (success, st1, e1) /\
    legalizeHWModule sampleOracle 20 sampleOptions st1 [] 0 = Ok (success, st2, e2) /\
    st2 <> st1.
Proof.
  eexists _, _, _, _. split; [vm_compute; reflexivity|].
  split; [vm_compute; reflexivity|].
  intros E. apply (f_equal (fun st => getBlockOps st 0)) in E.
  vm_compute in E. discriminate.
Qed.

Lemma rewriteSideEffectingExpr_true O st op st' :
  rewriteSideEffectingExpr O st op = Ok (st', true) ->
  getNumResults st op = 1 /\ isAlreadyRewritten st op = false /\
  exists top, findParentInNonProceduralRegion O st op = Ok top.
Proof.
  unfold rewriteSideEffectingExpr.
  destruct (getNumResults st op =? 1) eqn:E1; [|discriminate]. apply Nat.eqb_eq in E1.
  cbn [negb]. destruct (isAlreadyRewritten st op); [discriminate|].
  destruct (findParentInNonProceduralRegion O st op) as [top| |]; [|discriminate..].
  intros _. eauto.
Qed.

Lemma getOp_unlinkOp_ne st o n : n <> o -> getOp (unlinkOp st o) n = getOp st n.
Proof.
  intros Hne. unfold unlinkOp. destruct (getOp st o) as [x|] eqn:E; [|done].
  destruct (opBlock x); [|done].
  rewrite getOp_setOp, bool_decide_eq_false_2 by (by intros [? _]).
  apply getOp_setBlockOps.
Qed.

Lemma getOp_eraseOp_ne st o n : n <> o -> getOp (eraseOp st o) n = getOp st n.
Proof.
  intros Hne. unfold eraseOp, getOp at 1. simpl.
  rewrite list_lookup_insert_ne by done. by apply getOp_unlinkOp_ne.
Qed.

Lemma getOp_eraseOp_eq st o : getOp (eraseOp st o) o = None.
Proof.
  unfold eraseOp, getOp. simpl.
  destruct (decide (o < length (irOps (unlinkOp st o)))).
  - by rewrite list_lookup_insert_eq.
  - rewrite list_insert_ge by lia. by rewrite lookup_ge_None_2 by lia.
Qed.

Lemma length_unlinkOp st o : length (irOps (unlinkOp st o)) = length (irOps st).
Proof.
  unfold unlinkOp. destruct (getOp st o) as [x|]; [|done].
  destruct (opBlock x); [|done]. by rewrite length_setOp, irOps_setBlockOps.
Qed.

Lemma length_eraseOp st o : length (irOps (eraseOp st o)) = length (irOps st).
Proof. unfold eraseOp. simpl. by rewrite length_insert, length_unlinkOp. Qed.

(** C3, amended.  A second legalization can still change the graph, but two
    rewrites do not fire on their own output: side-effect extraction returns
    false and changes nothing on an expression it has rewritten, and no node
    created by the balancing rewrite passes the test of that rewrite again. *)
Theorem rewrites_do_not_refire (O : Oracle) (st : IR) (op : OpId) :
  (forall st', rewriteSideEffectingExpr O st op = Ok (st', true) ->
     rewriteSideEffectingExpr O st' op = Ok (st', false)) /\
  (forall o fuel isProceduralRegion opIterator,
     getOp st op = Some o ->
     isFullyAssociativeCandidate O st op = true ->
     exists st' front,
       rewriteStage O fuel isProceduralRegion st op opIterator = Ok (st', Some front) /\
       getOp st' op = None /\
       forall n, length (irOps st) <= n -> isFullyAssociativeCandidate O st' n = false).
Proof.
  split.
  - intros st' Hrw.
    destruct (rewriteSideEffectingExpr_true O st op st' Hrw) as (Hres & Hnot & top & Htop).
    destruct (rewriteSideEffectingExpr_rewrites O st op top Hres Hnot Htop)
      as (st'' & Hrw' & Hdone & Hres').
    rewrite Hrw' in Hrw. injection Hrw as <-.
    by apply rewriteSideEffectingExpr_fixed.
  - intros o fuel isProceduralRegion opIterator Ho Hcand.
    pose proof (candidate_operands O st op o Ho Hcand) as Hlen.
    pose proof (getOp_lt _ _ _ Ho) as Hlt.
    destruct (lowerFullyAssociativeOp_post Z.add Z.add_assoc op (length (irOps st))
                (length (opOperands o)) st (opOperands o) [] o Ho Hlt)
      as (st1 & result & added & E & P); [lia| |lia|].
    { intros E. rewrite E in Hlen. simpl in Hlen. lia. }
    simpl in E.
    pose proof (lfa_len _ _ _ _ _ _ _ _ _ P) as Hl.
    pose proof (lfa_ids _ _ _ _ _ _ _ _ _ P) as Hi.
    pose proof (lfa_size _ _ _ _ _ _ _ _ _ P) as Hs.
    destruct added as [|front added'] eqn:Ea; [simpl in Hl; lia|].
    rewrite <- Ea in *.
    eexists _, front. split.
    { unfold rewriteStage. rewrite Hcand. unfold getOperands. rewrite Ho.
      rewrite E. cbv beta iota delta [mbind Res_bind]. by rewrite Ea. }
    split; [apply getOp_eraseOp_eq|].
    intros n Hn. unfold isFullyAssociativeCandidate.
    rewrite getOp_eraseOp_ne by lia. rewrite getOp_replaceAllUsesWith.
    destruct (getOp st1 n) as [x|] eqn:Ex; [|done]. simpl.
    pose proof (getOp_lt _ _ _ Ex) as Hnlt.
    destruct (lfa_new _ _ _ _ _ _ _ _ _ P n) as (y & Hy & _ & Hyo & _).
    { rewrite Hi. apply elem_of_seq. lia. }
    rewrite Ex in Hy. injection Hy as <-.
    unfold replaceIn. rewrite length_map, Hyo. done.
Qed.

Lemma rewrites_do_not_refire_witness :
  exists st',
    rewriteSideEffectingExpr sampleOracle sampleSideEffect 2 = Ok (st', true) /\
    rewriteSideEffectingExpr sampleOracle st' 2 = Ok (st', false).
Proof.
  eexists. split; [vm_compute; reflexivity|].
  apply (proj1 (rewrites_do_not_refire sampleOracle sampleSideEffect 2)).
  vm_compute. reflexivity.
Defined.

(** ** Moving an operation *)

Lemma getBlockOps_setOp st o x b : getBlockOps (setOp st o x) b = getBlockOps st b.
Proof. reflexivity. Qed.

Lemma getBlockOps_setBlockOps_eq st b l :
  is_Some (irBlocks st !! b) -> getBlockOps (setBlockOps st b l) b = l.
Proof.
  intros [blk Hb]. unfold setBlockOps, getBlockOps. rewrite Hb. simpl.
  rewrite list_lookup_insert_eq; [done|]. by apply lookup_lt_Some in Hb.
Qed.

Lemma getBlockOps_setBlockOps_ne st b b' l :
  b' <> b -> getBlockOps (setBlockOps st b l) b' = getBlockOps st b'.
Proof.
  intros Hne. unfold setBlockOps, getBlockOps.
  destruct (irBlocks st !! b); [|done]. simpl. by rewrite list_lookup_insert_ne.
Qed.

Lemma irBlocks_setBlockOps_is_Some st b b' l :
  is_Some (irBlocks st !! b') -> is_Some (irBlocks (setBlockOps st b l) !! b').
Proof.
  intros H. unfold setBlockOps. destruct (irBlocks st !! b) eqn:E; [|done]. simpl.
  destruct (decide (b = b')) as [->|Hne].
  - rewrite list_lookup_insert_eq; [done|]. by apply lookup_lt_Some in E.
  - by rewrite list_lookup_insert_ne.
Qed.

Lemma insertBeforeId_app o target l1 l2 :
  target ∉ l1 -> insertBeforeId o target (l1 ++ target :: l2) = l1 ++ o :: target :: l2.
Proof.
  induction l1 as [|x l1 IH]; intros Hnot; simpl.
  - by rewrite bool_decide_eq_true_2.
  - apply not_elem_of_cons in Hnot as [Hne Hnot].
    rewrite bool_decide_eq_false_2 by done. by rewrite IH.
Qed.

(** [moveBefore] puts the operation immediately before the target. *)
Lemma moveBefore_position st op target b b' l1 l2 :
  op <> target ->
  getBlock st op = Some b' -> getBlock st target = Some b -> b' <> b ->
  is_Some (irBlocks st !! b) ->
  getBlockOps st b = l1 ++ target :: l2 -> target ∉ l1 ->
  getBlockOps (moveBefore st op target) b = l1 ++ op :: target :: l2 /\
  getBlock (moveBefore st op target) op = Some b.
Proof.
  intros Hne Hop Htarget Hb Hblk Hl Hnot.
  unfold moveBefore, pointBefore. rewrite Htarget. simpl.
  unfold moveToPoint. simpl. rewrite bool_decide_eq_false_2 by congruence.
  unfold getBlock in Hop. destruct (getOp st op) as [x|] eqn:Ex; [|done]. simpl in Hop.
  pose proof (getOp_lt _ _ _ Ex) as Hlt.
  unfold unlinkOp. rewrite Ex, Hop.
  set (st1 := setOp (setBlockOps st b' (removeId op (getBlockOps st b'))) op (withBlock x None)).
  assert (H1 : getOp st1 op = Some (withBlock x None)).
  { unfold st1. rewrite getOp_setOp, bool_decide_eq_true_2; [done|].
    by rewrite irOps_setBlockOps. }
  assert (H1b : getBlockOps st1 b = l1 ++ target :: l2).
  { unfold st1. rewrite getBlockOps_setOp, getBlockOps_setBlockOps_ne by done. done. }
  assert (H1s : is_Some (irBlocks st1 !! b)).
  { unfold st1. simpl. by apply irBlocks_setBlockOps_is_Some. }
  unfold linkOp. rewrite H1. simpl. rewrite H1b, insertBeforeId_app by done.
  split.
  - rewrite getBlockOps_setOp. by apply getBlockOps_setBlockOps_eq.
  - unfold getBlock. rewrite getOp_setOp, bool_decide_eq_true_2; [done|].
    rewrite irOps_setBlockOps. unfold st1. by rewrite length_setOp, irOps_setBlockOps.
Qed.

(** ** Hoisting *)

Lemma anyOperandInProcedural_spec O st op operands :
  (forall v d, v ∈ operands -> getDefiningOp v = Some d -> is_Some (getParentOp st d)) ->
  anyOperandInProcedural O st op operands =
    Ok (match List.find (operandInProcedural O st) operands with
        | Some v => (true, operandInBlockOf st op v)
        | None => (false, false)
        end).
Proof.
  induction operands as [|v l IH]; intros Hattached; [done|].
  assert (IH' := IH (fun v' d' Hv' => Hattached v' d' (proj2 (elem_of_cons _ _ _) (or_intror Hv')))).
  cbn [anyOperandInProcedural List.find].
  unfold operandInProcedural at 1, operandInBlockOf at 1.
  destruct (getDefiningOp v) as [d|] eqn:Ed; [|exact IH'].
  destruct (Hattached v d) as [p Hp]; [by left|done|].
  rewrite Hp. cbv beta iota delta [mbind Res_bind fromOption].
  destruct (hasProceduralRegionTrait O st p); [|exact IH'].
  by rewrite Ed.
Qed.

Lemma find_filter_nil {A} (P : A -> bool) l : List.filter P l = [] -> List.find P l = None.
Proof.
  induction l as [|x l IH]; simpl; [done|]. destruct (P x); [done|]. exact IH.
Qed.

Lemma find_filter_Forall {A} (P Q : A -> bool) l b :
  List.filter P l <> [] -> Forall (fun v => Q v = b) (List.filter P l) ->
  exists v, List.find P l = Some v /\ Q v = b.
Proof.
  induction l as [|x l IH]; simpl; [done|]. destruct (P x).
  - intros _ H. apply Forall_cons in H as [H _]. eauto.
  - exact IH.
Qed.

(** C5, as stated, fails: the addition of [sampleHoist] is a pure expression
    that is not always inline, and its first operand is defined in its own
    block; the specification moves it before the [sv.always], the code leaves
    it where it is and returns false. *)
Lemma hoist_not_as_specified :
  opIs (isVerilogExpression sampleOracle) sampleHoist 3 = true /\
  opIs (isMemoryEffectFree sampleOracle) sampleHoist 3 = true /\
  opIs (isExpressionAlwaysInline sampleOracle) sampleHoist 3 = false /\
  hoistNonSideEffectExpr sampleOracle sampleHoist 3 = Ok (sampleHoist, false) /\
  getBlock sampleHoist 3 = Some 1 /\
  (exists st', hoistAsSpecified sampleOracle sampleHoist 3 = Ok (st', true) /\
     getBlock st' 3 = Some 0) /\
  hoistNonSideEffectExpr sampleOracle sampleHoist 3 <>
    hoistAsSpecified sampleOracle sampleHoist 3.
Proof.
  repeat split; try reflexivity.
  - eexists. split; vm_compute; reflexivity.
  - vm_compute. discriminate.
Qed.

(** C5, amended.  For an expression that is not always inline, in a
    procedural region: when no operand is defined in a procedural region, the
    expression is moved before its ancestor in the nearest enclosing
    non-procedural region, in one step; when the operands defined in
    procedural regions are all defined in the block of the expression, it is
    not moved and the rewrite returns false; when they are all defined
    outside of that block, it is moved before its parent operation.  A move
    puts the expression immediately before the target. *)
Theorem hoisting_steps (O : Oracle) (st : IR) (op top parent : OpId) :
  opIs (isExpressionAlwaysInline O) st op = false ->
  findParentInNonProceduralRegion O st op = Ok top ->
  getParentOp st op = Some parent ->
  (forall v d, v ∈ getOperands st op -> getDefiningOp v = Some d ->
     is_Some (getParentOp st d)) ->
  let inside := List.filter (operandInProcedural O st) (getOperands st op) in
  (inside = [] ->
   hoistNonSideEffectExpr O st op = Ok (moveBefore st op top, true)) /\
  (inside <> [] -> Forall (fun v => operandInBlockOf st op v = true) inside ->
   hoistNonSideEffectExpr O st op = Ok (st, false)) /\
  (inside <> [] -> Forall (fun v => operandInBlockOf st op v = false) inside ->
   hoistNonSideEffectExpr O st op = Ok (moveBefore st op parent, true)) /\
  (forall target b b' l1 l2,
     op <> target ->
     getBlock st op = Some b' -> getBlock st target = Some b -> b' <> b ->
     is_Some (irBlocks st !! b) ->
     getBlockOps st b = l1 ++ target :: l2 -> target ∉ l1 ->
     getBlockOps (moveBefore st op target) b = l1 ++ op :: target :: l2 /\
     getBlock (moveBefore st op target) op = Some b).
Proof.
  intros Hinline Htop Hparent Hattached inside.
  assert (Hunf : hoistNonSideEffectExpr O st op =
            match List.find (operandInProcedural O st) (getOperands st op) with
            | Some v => if operandInBlockOf st op v then Ok (st, false)
                        else Ok (moveBefore st op parent, true)
            | None => Ok (moveBefore st op top, true)
            end).
  { unfold hoistNonSideEffectExpr. rewrite Hinline, Htop. cbn [andb].
    cbv beta iota delta [mbind Res_bind].
    rewrite anyOperandInProcedural_spec by done.
    destruct (List.find (operandInProcedural O st) (getOperands st op)) as [v|]; [|done].
    cbv beta iota. destruct (operandInBlockOf st op v); [done|].
    by rewrite Hparent. }
  split; [|split; [|split]].
  - intros Hnil. rewrite Hunf. by rewrite (find_filter_nil _ _ Hnil).
  - intros Hne Hall. rewrite Hunf.
    destruct (find_filter_Forall _ (operandInBlockOf st op) _ true Hne Hall) as (v & -> & ->).
    done.
  - intros Hne Hall. rewrite Hunf.
    destruct (find_filter_Forall _ (operandInBlockOf st op) _ false Hne Hall) as (v & -> & ->).
    done.
  - intros target b b' l1 l2. apply moveBefore_position.
Qed.

Lemma hoisting_steps_witness :
  hoistNonSideEffectExpr sampleOracle sampleHoistNested 3 =
    Ok (moveBefore sampleHoistNested 3 1, true) /\
  hoistNonSideEffectExpr sampleOracle sampleHoist 3 = Ok (sampleHoist, false) /\
  hoistNonSideEffectExpr sampleOracle sampleHoistOuter 4 =
    Ok (moveBefore sampleHoistOuter 4 3, true) /\
  getBlockOps (moveBefore sampleHoistOuter 4 3) 1 = [2; 4; 3].
Proof.
  assert (Hnested : forall v d, v ∈ getOperands sampleHoistNested 3 ->
            getDefiningOp v = Some d -> is_Some (getParentOp sampleHoistNested d)).
  { intros v d Hv Hd. vm_compute in Hv.
    repeat (apply elem_of_cons in Hv as [->|Hv]; [discriminate|]).
    by apply elem_of_nil in Hv. }
  assert (Hsame : forall v d, v ∈ getOperands sampleHoist 3 ->
            getDefiningOp v = Some d -> is_Some (getParentOp sampleHoist d)).
  { intros v d Hv Hd. vm_compute in Hv.
    apply elem_of_cons in Hv as [->|Hv]; [injection Hd as <-; by eexists|].
    apply elem_of_cons in Hv as [->|Hv]; [discriminate|].
    by apply elem_of_nil in Hv. }
  assert (Houter : forall v d, v ∈ getOperands sampleHoistOuter 4 ->
            getDefiningOp v = Some d -> is_Some (getParentOp sampleHoistOuter d)).
  { intros v d Hv Hd. vm_compute in Hv.
    apply elem_of_cons in Hv as [->|Hv]; [injection Hd as <-; by eexists|].
    apply elem_of_cons in Hv as [->|Hv]; [discriminate|].
    by apply elem_of_nil in Hv. }
  split; [|split; [|split]].
  - apply (proj1 (hoisting_steps sampleOracle sampleHoistNested 3 1 2
                    eq_refl eq_refl eq_refl Hnested)).
    reflexivity.
  - apply (proj1 (proj2 (hoisting_steps sampleOracle sampleHoist 3 1 1
                           eq_refl eq_refl eq_refl Hsame))).
    + discriminate.
    + repeat constructor.
  - apply (proj1 (proj2 (proj2 (hoisting_steps sampleOracle sampleHoistOuter 4 1 3
                                  eq_refl eq_refl eq_refl Houter)))).
    + discriminate.
    + repeat constructor.
  - reflexivity.
Defined.

(** Where an operand defined in an enclosing procedural block comes before
    an operand defined in the block of the expression, the scan of the
    operands stops at the first and the expression is moved out by one
    level, above the definition of the second: in [sampleHoistMixed] the
    addition lands before the [sv.if] whose block defines its operand. *)
Lemma hoist_above_local_operand :
  exists st',
    hoistNonSideEffectExpr sampleOracle sampleHoistMixed 5 = Ok (st', true) /\
    getOperands st' 5 = [OpResult 2 0; OpResult 4 0] /\
    getBlockOps st' 1 = [2; 5; 3] /\
    getBlockOps st' 2 = [4; 6] /\
    getParentOp st' 4 = Some 3.
Proof. eexists. repeat split; vm_compute; reflexivity. Qed.

(** ** The result of the legalization *)

Lemma bind_Ok_inv {A B} (m : Res A) (k : A -> Res B) (y : B) :
  (m ≫= k) = Ok y -> exists a, m = Ok a /\ k a = Ok y.
Proof. destruct m as [a| |]; [|discriminate..]. intros H. by exists a. Qed.

(** ** The worth of a spill *)

(** C7.  The code departs from the predicate of the specification at two
    places, each against the comment of the source next to it.  The second
    sum of [samplePretty] has the hint "_t" and a cost of 3, the limit for
    name hints is 3, and the code answers true where a cost greater than the
    limit is asked for.  The sum of [sampleBitcast] has one use, a bitcast
    whose one use is an instance, and the code answers true, the list of
    users tested behind a bitcast having no instance. *)
Theorem spill_predicate_slips :
  (exists m,
     shouldSpillWireBasedOnState sampleOracle 10 sampleOptions samplePretty [] 2 = Ok (m, true) /\
     getExpressionState sampleOracle 10 samplePretty [] (OpResult 2 0) =
       Ok ([(OpResult 2 0, 3%N); (OpResult 1 0, 2%N)], 3%N) /\
     getNamehint samplePretty 2 = Some "_t"%string /\
     wireSpillingNamehintTermLimit sampleOptions = 3 /\
     maximumNumberOfTermsPerExpression sampleOptions = 8 /\
     worthSpillingAsSpecified sampleOptions samplePretty 2 3 = false) /\
  (exists m,
     shouldSpillWireBasedOnState sampleOracle 10 sampleOptions sampleBitcast [] 1 = Ok (m, true) /\
     getUsers sampleBitcast 1 = [2] /\
     isa sampleBitcast 2 [BitcastOp] = true /\
     getUsers sampleBitcast 2 = [3] /\
     isa sampleBitcast 3 [InstanceOp] = true /\
     soleUseIsTemporary sampleBitcast 1 = true /\
     worthSpillingAsSpecified sampleOptions sampleBitcast 1 2 = false).
Proof. split; eexists; repeat split; vm_compute; reflexivity. Qed.

(** ** The sum with a negative constant *)

Lemma apIsNegative_range (w : nat) (v : Z) :
  (0 < w)%nat -> (0 <= v < 2 ^ Z.of_nat w)%Z ->
  apIsNegative w v = true <-> (2 ^ (Z.of_nat w - 1) <= v)%Z.
Proof.
  intros Hw Hv. unfold apIsNegative.
  assert (Hp : (2 ^ Z.of_nat w = 2 * 2 ^ (Z.of_nat w - 1))%Z).
  { rewrite <- Z.pow_succ_r by lia. f_equal. lia. }
  assert (Hpos : (0 < 2 ^ (Z.of_nat w - 1))%Z) by (apply Z.pow_pos_nonneg; lia).
  rewrite Z.testbit_true by lia.
  split.
  - intros H. destruct (Z_lt_le_dec v (2 ^ (Z.of_nat w - 1))) as [Hlt|Hle]; [|done].
    rewrite Z.div_small in H by lia. discriminate.
  - intros H.
    assert (v / 2 ^ (Z.of_nat w - 1) = 1)%Z as ->; [|done].
    symmetry. apply Z.div_unique with (v - 2 ^ (Z.of_nat w - 1))%Z; lia.
Qed.

(** The constant of the subtraction is positive unless the constant of the
    sum is the least value of its width. *)
Lemma apNeg_positive (w : nat) (v : Z) :
  (0 < w)%nat -> (0 <= v < 2 ^ Z.of_nat w)%Z ->
  apIsNegative w v = true -> v <> (2 ^ (Z.of_nat w - 1))%Z ->
  apIsNegative w (apNeg w v) = false /\ (0 < apNeg w v)%Z.
Proof.
  intros Hw Hv Hneg Hmin.
  apply apIsNegative_range in Hneg; [|done..].
  assert (Hp : (2 ^ Z.of_nat w = 2 * 2 ^ (Z.of_nat w - 1))%Z).
  { rewrite <- Z.pow_succ_r by lia. f_equal. lia. }
  assert (Hpos : (0 < 2 ^ (Z.of_nat w - 1))%Z) by (apply Z.pow_pos_nonneg; lia).
  assert (E : apNeg w v = (2 ^ Z.of_nat w - v)%Z).
  { unfold apNeg. symmetry. apply Z.mod_unique with (-1)%Z; lia. }
  split; [|lia].
  destruct (apIsNegative w (apNeg w v)) eqn:E'; [|done].
  apply apIsNegative_range in E'; [lia|done|lia].
Qed.

(** At the least value the negation gives the same constant back. *)
Lemma apNeg_min (w : nat) :
  (0 < w)%nat -> apNeg w (2 ^ (Z.of_nat w - 1)) = (2 ^ (Z.of_nat w - 1))%Z.
Proof.
  intros Hw. unfold apNeg.
  assert (Hp : (2 ^ Z.of_nat w = 2 * 2 ^ (Z.of_nat w - 1))%Z).
  { rewrite <- Z.pow_succ_r by lia. f_equal. lia. }
  assert (Hpos : (0 < 2 ^ (Z.of_nat w - 1))%Z) by (apply Z.pow_pos_nonneg; lia).
  symmetry. apply Z.mod_unique with (-1)%Z; lia.
Qed.

(** The subtraction of the negated constant is the sum, modulo [2^w]. *)
Lemma sub_apNeg (w : nat) (a v : Z) :
  ((a - apNeg w v) mod 2 ^ Z.of_nat w = (a + v) mod 2 ^ Z.of_nat w)%Z.
Proof.
  unfold apNeg. rewrite Zminus_mod_idemp_r. f_equal. lia.
Qed.

(** C9.  On the sum of a port and of the least 8-bit constant the rewrite
    builds the subtraction of a constant that is the same constant again,
    still negative: the source announces "the positive constant" and misses
    this value. *)
Theorem negated_min_constant_is_negative :
  exists st' negCst,
    rewriteAddWithNegativeConstant sampleAddMin 2 1 = Ok (st', negCst) /\
    getConstantValue sampleAddMin 1 = Some (8, 128%Z) /\
    apIsNegative 8 128 = true /\
    getConstantValue st' negCst = Some (8, 128%Z) /\
    getOperands st' 5 = [BlockArgument 0 0; OpResult negCst 0] /\
    isa st' 5 [SubOp] = true /\
    getUses st' (OpResult 5 0) = [(3, 0)].
Proof. eexists _, _. repeat split; vm_compute; reflexivity. Qed.

(** For another negative constant the rewrite does what is announced: the
    sum with -3 becomes the subtraction of 3 and the constant -3, unused, is
    erased. *)
Lemma negated_constant_on_sample :
  exists st' negCst,
    rewriteAddWithNegativeConstant sampleAddNeg3 2 1 = Ok (st', negCst) /\
    getConstantValue st' negCst = Some (8, 3%Z) /\
    getOp st' 1 = None /\ getOp st' 2 = None /\
    getOperands st' 5 = [BlockArgument 0 0; OpResult negCst 0].
Proof. eexists _, _. repeat split; vm_compute; reflexivity. Qed.

(** * The other functions of the pass *)

Lemma sameOperations_refl st : sameOperations st st.
Proof. by split. Qed.

Lemma sameOperations_trans st1 st2 st3 :
  sameOperations st1 st2 -> sameOperations st2 st3 -> sameOperations st1 st3.
Proof. intros [H1 H2] [H3 H4]. split; [congruence|]. intros n. by rewrite H2. Qed.

Lemma shapeOf_setOp_detached st o x y :
  getOp st o = Some x -> detached y = detached x -> forall n, shapeOf (setOp st o y) n = shapeOf st n.
Proof.
  intros Hx Hy n. unfold shapeOf. rewrite getOp_setOp.
  case_bool_decide as H; [|done]. destruct H as [-> _]. rewrite Hx. simpl. by rewrite Hy.
Qed.

Lemma shapeOf_setBlockOps st b l n : shapeOf (setBlockOps st b l) n = shapeOf st n.
Proof. unfold shapeOf. by rewrite getOp_setBlockOps. Qed.

Lemma length_setBlockOps st b l : length (irOps (setBlockOps st b l)) = length (irOps st).
Proof. by rewrite irOps_setBlockOps. Qed.

Lemma sameOperations_unlinkOp st o : sameOperations st (unlinkOp st o).
Proof.
  split; [by rewrite length_unlinkOp|]. intros n. unfold unlinkOp.
  destruct (getOp st o) as [x|] eqn:Ex; [|done].
  destruct (opBlock x) as [b|]; [|done].
  erewrite shapeOf_setOp_detached;
    [by rewrite shapeOf_setBlockOps|by rewrite getOp_setBlockOps|done].
Qed.

Lemma length_linkOp st o pos : length (irOps (linkOp st o pos)) = length (irOps st).
Proof.
  rewrite irOps_linkOp. destruct (getOp st o); [apply length_insert|done].
Qed.

Lemma sameOperations_linkOp st o pos : sameOperations st (linkOp st o pos).
Proof.
  split; [by rewrite length_linkOp|]. intros n. unfold linkOp.
  destruct (getOp st o) as [x|] eqn:Ex; [|done].
  erewrite shapeOf_setOp_detached;
    [by rewrite shapeOf_setBlockOps|by rewrite getOp_setBlockOps|done].
Qed.

Lemma sameOperations_moveToPoint st o ip : sameOperations st (moveToPoint st o ip).
Proof.
  unfold moveToPoint. case_bool_decide; [apply sameOperations_refl|].
  eapply sameOperations_trans; [apply sameOperations_unlinkOp|apply sameOperations_linkOp].
Qed.

Lemma sameOperations_moveBefore st o target : sameOperations st (moveBefore st o target).
Proof.
  unfold moveBefore. destruct (pointBefore st target);
    [apply sameOperations_moveToPoint|apply sameOperations_refl].
Qed.

Lemma sameOperations_moveAfter st o target : sameOperations st (moveAfter st o target).
Proof.
  unfold moveAfter. destruct (pointAfter st target);
    [apply sameOperations_moveToPoint|apply sameOperations_refl].
Qed.

Lemma sameOperations_sym st st' : sameOperations st st' -> sameOperations st' st.
Proof. intros [H1 H2]. split; [done|]. intros n. by rewrite H2. Qed.

(** What depends on the operations only. *)
Lemma sameOperations_getOp st st' n x :
  sameOperations st st' -> getOp st n = Some x ->
  exists y, getOp st' n = Some y /\ detached y = detached x.
Proof.
  intros [_ H] Hx. specialize (H n). unfold shapeOf in H. rewrite Hx in H.
  destruct (getOp st' n) as [y|]; [|done]. exists y. split; [done|].
  simpl in H. congruence.
Qed.

Lemma sameOperations_getOp_None st st' n :
  sameOperations st st' -> getOp st n = None -> getOp st' n = None.
Proof.
  intros [_ H] Hx. specialize (H n). unfold shapeOf in H. rewrite Hx in H.
  by destruct (getOp st' n).
Qed.

Lemma detached_fields x y :
  detached y = detached x ->
  opName y = opName x /\ opOperands y = opOperands x /\ opResultTypes y = opResultTypes x /\
  opAttrs y = opAttrs x /\ opRegions y = opRegions x.
Proof. destruct x, y. unfold detached, withBlock. simpl. intros [= -> -> -> -> ->]. done. Qed.

Lemma sameOperations_getOperands st st' n :
  sameOperations st st' -> getOperands st' n = getOperands st n.
Proof.
  intros H. unfold getOperands. destruct (getOp st n) as [x|] eqn:Ex.
  - destruct (sameOperations_getOp _ _ _ _ H Ex) as (y & -> & Hy).
    by apply detached_fields in Hy as (_ & -> & _).
  - by rewrite (sameOperations_getOp_None _ _ _ H Ex).
Qed.

Lemma sameOperations_isa st st' n l :
  sameOperations st st' -> isa st' n l = isa st n l.
Proof.
  intros H. unfold isa. destruct (getOp st n) as [x|] eqn:Ex.
  - destruct (sameOperations_getOp _ _ _ _ H Ex) as (y & -> & Hy).
    by apply detached_fields in Hy as (-> & _).
  - by rewrite (sameOperations_getOp_None _ _ _ H Ex).
Qed.

Lemma sameOperations_getNumResults st st' n :
  sameOperations st st' -> getNumResults st' n = getNumResults st n.
Proof.
  intros H. unfold getNumResults. destruct (getOp st n) as [x|] eqn:Ex.
  - destruct (sameOperations_getOp _ _ _ _ H Ex) as (y & -> & Hy).
    by apply detached_fields in Hy as (_ & _ & -> & _).
  - by rewrite (sameOperations_getOp_None _ _ _ H Ex).
Qed.

Lemma sameOperations_getAttr st st' n name :
  sameOperations st st' -> getAttr st' n name = getAttr st n name.
Proof.
  intros H. unfold getAttr. destruct (getOp st n) as [x|] eqn:Ex.
  - destruct (sameOperations_getOp _ _ _ _ H Ex) as (y & -> & Hy). simpl.
    by apply detached_fields in Hy as (_ & _ & _ & -> & _).
  - by rewrite (sameOperations_getOp_None _ _ _ H Ex).
Qed.

Lemma sameOperations_opIs st st' n (P : Operation -> bool) :
  (forall x y, detached y = detached x -> P y = P x) ->
  sameOperations st st' -> opIs P st' n = opIs P st n.
Proof.
  intros HP H. unfold opIs. destruct (getOp st n) as [x|] eqn:Ex.
  - destruct (sameOperations_getOp _ _ _ _ H Ex) as (y & -> & Hy). by apply HP.
  - by rewrite (sameOperations_getOp_None _ _ _ H Ex).
Qed.

Lemma usesFrom_ext v l l' : forall o,
  Forall2 (fun a b => opOperands <$> a = opOperands <$> b) l l' ->
  usesFrom v o l = usesFrom v o l'.
Proof.
  intros o H. revert o. induction H as [|a b l l' Hab H IH]; intros o; [done|].
  destruct a as [x|], b as [y|]; simpl in *; try discriminate.
  - injection Hab as ->. by rewrite IH.
  - apply IH.
Qed.

Lemma sameOperations_getUses st st' v :
  sameOperations st st' -> getUses st' v = getUses st v.
Proof.
  intros [Hlen H]. unfold getUses. symmetry. apply usesFrom_ext.
  apply Forall2_same_length_lookup. split; [done|].
  intros n a b Ha Hb. specialize (H n). unfold shapeOf, getOp in H.
  rewrite Ha, Hb in H.
  destruct a as [x|], b as [y|]; cbn [fmap option_fmap option_map] in *; try discriminate; [|done].
  assert (Hd : detached y = detached x) by congruence.
  f_equal. by apply detached_fields in Hd as (_ & -> & _).
Qed.

Lemma sameOperations_getOpUses st st' n :
  sameOperations st st' -> getOpUses st' n = getOpUses st n.
Proof.
  intros H. unfold getOpUses. rewrite (sameOperations_getNumResults _ _ _ H).
  induction (seq 0 (getNumResults st n)) as [|i l IH]; simpl; [done|].
  by rewrite IH, (sameOperations_getUses _ _ _ H).
Qed.

(** ** Operand slots and uses *)

Lemma operandUses_intro v owner l : forall i k,
  l !! k = Some v -> (owner, i + k) ∈ operandUses v owner i l.
Proof.
  induction l as [|x l IH]; intros i k H; [done|].
  destruct k as [|k]; simpl in *.
  - injection H as ->. rewrite bool_decide_eq_true_2 by done.
    rewrite Nat.add_0_r. by left.
  - replace (i + S k) with (S i + k) by lia.
    case_bool_decide; [right|]; by apply IH.
Qed.

Lemma usesFrom_intro v l x : forall o n k,
  l !! n = Some (Some x) -> opOperands x !! k = Some v -> (o + n, k) ∈ usesFrom v o l.
Proof.
  induction l as [|a l IH]; intros o n k Hn Hk; [done|].
  destruct n as [|n]; simpl in *.
  - injection Hn as ->. rewrite Nat.add_0_r. apply elem_of_app. left.
    by apply (operandUses_intro v o (opOperands x) 0 k).
  - replace (o + S n) with (S o + n) by lia.
    destruct a; [apply elem_of_app; right|]; by apply IH.
Qed.

Lemma getUses_slot st v u : u ∈ getUses st v <-> slot st u = Some v.
Proof.
  split.
  - intros H. apply getUses_elem in H as (x & H1 & H2). unfold slot. by rewrite H1.
  - unfold slot. destruct (getOp st (fst u)) as [x|] eqn:Ex; [|done]. simpl. intros H.
    unfold getOp in Ex. destruct (irOps st !! fst u) as [[y|]|] eqn:E; try discriminate.
    injection Ex as ->. destruct u as [n k]. apply (usesFrom_intro v _ x 0 n k); done.
Qed.

Lemma operandUses_lt v owner l u : forall i,
  u ∈ operandUses v owner i l -> fst u = owner /\ i <= snd u.
Proof. intros i H. apply operandUses_elem in H as (H1 & H2 & _). done. Qed.

Lemma NoDup_operandUses v owner l : forall i, NoDup (operandUses v owner i l).
Proof.
  induction l as [|x l IH]; intros i; simpl; [constructor|].
  case_bool_decide as Hx; [|apply IH]. constructor; [|apply IH].
  intros Hin. apply operandUses_lt in Hin. simpl in Hin. lia.
Qed.

Lemma usesFrom_lt v l u : forall o, u ∈ usesFrom v o l -> o <= fst u.
Proof. intros o H. by apply usesFrom_elem in H as (H1 & _). Qed.

Lemma NoDup_usesFrom v l : forall o, NoDup (usesFrom v o l).
Proof.
  induction l as [|[x|] l IH]; intros o; simpl; [constructor| |apply IH].
  apply NoDup_app. split; [apply NoDup_operandUses|]. split; [|apply IH].
  intros u H1 H2. apply operandUses_lt in H1. apply usesFrom_lt in H2. lia.
Qed.

Lemma NoDup_getUses st v : NoDup (getUses st v).
Proof. apply NoDup_usesFrom. Qed.

(** A value whose only slot is [u] has exactly the use [u]. *)
Lemma getUses_singleton st v u :
  (forall u', slot st u' = Some v <-> u' = u) -> getUses st v = [u].
Proof.
  intros H. pose proof (NoDup_getUses st v) as Hnd.
  assert (Hin : forall u', u' ∈ getUses st v <-> u' = u).
  { intros u'. by rewrite getUses_slot. }
  destruct (getUses st v) as [|a [|b l]].
  - exfalso. by apply (elem_of_nil u), Hin.
  - f_equal. apply Hin. by left.
  - exfalso. apply NoDup_cons in Hnd as [Hnd _]. apply Hnd.
    assert (a = u) as -> by (apply Hin; by left).
    assert (b = u) as -> by (apply Hin; right; by left). by left.
Qed.

Lemma getUses_nil st v : (forall u, slot st u <> Some v) -> getUses st v = [].
Proof.
  intros H. destruct (getUses st v) as [|a l] eqn:E; [done|].
  exfalso. apply (H a), getUses_slot. rewrite E. by left.
Qed.

Lemma getUses_nil_inv st v u : getUses st v = [] -> slot st u <> Some v.
Proof. intros E H. apply getUses_slot in H. rewrite E in H. by apply elem_of_nil in H. Qed.

(** Two graphs where the same slots hold [v]: the uses of [v] have the same
    number. *)
Lemma getUses_length_ext st st' v :
  (forall u, slot st' u = Some v <-> slot st u = Some v) ->
  getUses st' v ≡ₚ getUses st v.
Proof.
  intros H. apply NoDup_Permutation; [apply NoDup_getUses..|].
  intros u. by rewrite !getUses_slot.
Qed.

Lemma getUses_singleton_ext st st' v u :
  (forall u', slot st' u' = Some v <-> slot st u' = Some v) ->
  getUses st v = [u] -> getUses st' v = [u].
Proof.
  intros H E. apply getUses_singleton. intros u'. rewrite H, <- getUses_slot, E.
  apply list_elem_of_singleton.
Qed.

(** *** Slots after the primitive operations *)

Lemma slot_sameOperations st st' u : sameOperations st st' -> slot st' u = slot st u.
Proof.
  intros H. unfold slot. destruct (getOp st (fst u)) as [x|] eqn:Ex.
  - destruct (sameOperations_getOp _ _ _ _ H Ex) as (y & -> & Hy). simpl.
    by apply detached_fields in Hy as (_ & -> & _).
  - by rewrite (sameOperations_getOp_None _ _ _ H Ex).
Qed.

Lemma slot_lt st u v : slot st u = Some v -> fst u < length (irOps st).
Proof.
  unfold slot. destruct (getOp st (fst u)) eqn:E; [|done]. intros _. by apply getOp_lt in E.
Qed.

Lemma slot_createOp_old st ip name operands types attrs u :
  fst u < length (irOps st) ->
  slot (fst (createOp st ip name operands types attrs)) u = slot st u.
Proof. intros H. unfold slot. by rewrite getOp_createOp_old. Qed.

Lemma slot_createOp_new st ip name operands types attrs k :
  slot (fst (createOp st ip name operands types attrs)) (length (irOps st), k) = operands !! k.
Proof. unfold slot. cbn [fst snd]. by rewrite getOp_createOp_new. Qed.

Lemma slot_createOp st ip name operands types attrs u :
  slot (fst (createOp st ip name operands types attrs)) u =
    if bool_decide (fst u = length (irOps st)) then operands !! snd u else slot st u.
Proof.
  case_bool_decide as H.
  - destruct u as [n k]. simpl in H. subst n. apply slot_createOp_new.
  - destruct (decide (fst u < length (irOps st))) as [Hlt|Hge]; [by apply slot_createOp_old|].
    unfold slot. assert (getOp st (fst u) = None) as ->.
    { destruct (getOp st (fst u)) eqn:E; [|done]. apply getOp_lt in E. lia. }
    destruct (getOp _ (fst u)) eqn:E; [|done]. apply getOp_lt in E.
    rewrite length_createOp in E. lia.
Qed.

Lemma slot_setOperand st u v u' :
  slot (setOperand st u v) u' =
    if bool_decide (u' = u) then (fun _ => v) <$> slot st u else slot st u'.
Proof.
  unfold slot. rewrite getOp_setOperand. destruct u as [n k], u' as [n' k']. simpl.
  destruct (decide (n' = n)) as [->|Hn].
  - rewrite bool_decide_eq_true_2 by done.
    destruct (getOp st n) as [x|]; simpl; [|by case_bool_decide].
    destruct (decide (k' = k)) as [->|Hk].
    + rewrite bool_decide_eq_true_2 by done.
      destruct (opOperands x !! k) eqn:E; simpl.
      * apply list_lookup_insert_eq. by apply lookup_lt_Some in E.
      * apply lookup_ge_None. rewrite length_insert. by apply lookup_ge_None.
    + rewrite bool_decide_eq_false_2 by congruence.
      by rewrite list_lookup_insert_ne.
  - rewrite !bool_decide_eq_false_2 by congruence. done.
Qed.

Lemma slot_replaceAllUsesWith st v w u :
  slot (replaceAllUsesWith st v w) u =
    (fun x => if bool_decide (x = v) then w else x) <$> slot st u.
Proof.
  unfold slot. rewrite getOp_replaceAllUsesWith.
  destruct (getOp st (fst u)) as [x|]; simpl; [|done].
  unfold replaceIn. by rewrite list_lookup_fmap.
Qed.

Lemma slot_eraseOp st o u :
  slot (eraseOp st o) u = if bool_decide (fst u = o) then None else slot st u.
Proof.
  unfold slot. case_bool_decide as H.
  - rewrite H. by rewrite getOp_eraseOp_eq.
  - by rewrite getOp_eraseOp_ne.
Qed.

Lemma slot_removeAttr st o name u : slot (removeAttr st o name) u = slot st u.
Proof.
  unfold slot. rewrite getOp_removeAttr. case_bool_decide as H; [|done].
  rewrite H. by destruct (getOp st o).
Qed.

Lemma slot_setAttr st o name a u : slot (setAttr st o name a) u = slot st u.
Proof.
  unfold slot. rewrite getOp_setAttr. case_bool_decide as H; [|done].
  rewrite H. by destruct (getOp st o).
Qed.

Lemma slot_moveBefore st o t u : slot (moveBefore st o t) u = slot st u.
Proof. apply slot_sameOperations, sameOperations_moveBefore. Qed.

Lemma slot_moveAfter st o t u : slot (moveAfter st o t) u = slot st u.
Proof. apply slot_sameOperations, sameOperations_moveAfter. Qed.

(** *** Operations after a move *)

Lemma getOp_moveToPoint_ne st o ip n : n <> o -> getOp (moveToPoint st o ip) n = getOp st n.
Proof.
  intros Hne. unfold moveToPoint. case_bool_decide; [done|].
  unfold linkOp. destruct (getOp (unlinkOp st o) o) as [x|] eqn:Ex.
  - rewrite getOp_setOp, bool_decide_eq_false_2 by (intros [? _]; done).
    rewrite getOp_setBlockOps. by apply getOp_unlinkOp_ne.
  - by apply getOp_unlinkOp_ne.
Qed.

Lemma getOp_moveBefore_ne st o t n : n <> o -> getOp (moveBefore st o t) n = getOp st n.
Proof.
  intros Hne. unfold moveBefore. destruct (pointBefore st t); [|done].
  by apply getOp_moveToPoint_ne.
Qed.

Lemma getOp_moveAfter_ne st o t n : n <> o -> getOp (moveAfter st o t) n = getOp st n.
Proof.
  intros Hne. unfold moveAfter. destruct (pointAfter st t); [|done].
  by apply getOp_moveToPoint_ne.
Qed.

Lemma length_moveBefore st o t : length (irOps (moveBefore st o t)) = length (irOps st).
Proof. symmetry. apply sameOperations_moveBefore. Qed.

Lemma length_moveAfter st o t : length (irOps (moveAfter st o t)) = length (irOps st).
Proof. symmetry. apply sameOperations_moveAfter. Qed.

Lemma getOp_moveBefore st o t n x :
  getOp st n = Some x -> exists y, getOp (moveBefore st o t) n = Some y /\ detached y = detached x.
Proof. apply sameOperations_getOp, sameOperations_moveBefore. Qed.

Lemma getOp_moveAfter st o t n x :
  getOp st n = Some x -> exists y, getOp (moveAfter st o t) n = Some y /\ detached y = detached x.
Proof. apply sameOperations_getOp, sameOperations_moveAfter. Qed.

(** X1.  [hoistNonSideEffectExpr] only moves [op]: whatever it returns, no
    operation is created or erased, every other operation is as it was, [op]
    keeps its name, operands, results and attributes, and every value keeps
    its uses; when it returns false the graph is the one it was given.  An
    "always inline" expression that is neither a read nor of an inout type is
    never moved. *)
Theorem hoisting_only_moves (O : Oracle) (st : IR) (op : OpId) (st' : IR) (moved : bool) :
  hoistNonSideEffectExpr O st op = Ok (st', moved) ->
  length (irOps st') = length (irOps st) /\
  (forall n, n <> op -> getOp st' n = getOp st n) /\
  (forall x, getOp st op = Some x ->
     exists y, getOp st' op = Some y /\ withBlock y None = withBlock x None) /\
  (forall v, getUses st' v = getUses st v) /\
  (moved = false -> st' = st) /\
  (opIs (isExpressionAlwaysInline O) st op = true ->
   isa st op [ReadInOutOp] = false -> isInOutType (getResultType st op 0) = false ->
   moved = false).
Proof.
  intros H.
  assert (Hcases : (st' = st /\ moved = false /\
                    (opIs (isExpressionAlwaysInline O) st op &&
                     negb (isa st op [ReadInOutOp] || isInOutType (getResultType st op 0)) = false
                     -> True)) \/
                   ((exists t, st' = moveBefore st op t) /\ moved = true /\
                    opIs (isExpressionAlwaysInline O) st op &&
                     negb (isa st op [ReadInOutOp] || isInOutType (getResultType st op 0)) = false)).
  { unfold hoistNonSideEffectExpr in H.
    destruct (opIs (isExpressionAlwaysInline O) st op &&
              negb (isa st op [ReadInOutOp] || isInOutType (getResultType st op 0))) eqn:E.
    - injection H as <- <-. left. done.
    - apply bind_Ok_inv in H as (top & Htop & H).
      apply bind_Ok_inv in H as ([anyProcedural cantHoist] & Hany & H).
      destruct anyProcedural.
      + destruct cantHoist.
        * injection H as <- <-. left. done.
        * apply bind_Ok_inv in H as (parent & Hparent & H). injection H as <- <-.
          right. eauto.
      + injection H as <- <-. right. eauto. }
  destruct Hcases as [(-> & -> & _)|((t & ->) & -> & Hinl)].
  - split; [done|]. split; [done|]. split; [by eauto|]. split; [done|]. split; [done|]. done.
  - split; [apply length_moveBefore|]. split; [by intros n Hn; apply getOp_moveBefore_ne|].
    split; [by apply getOp_moveBefore|].
    split; [by intros v; apply sameOperations_getUses, sameOperations_moveBefore|].
    split; [done|]. intros H1 H2 H3. rewrite H1, H2, H3 in Hinl. done.
Qed.

Lemma hoisting_only_moves_witness :
  length (irOps (moveBefore sampleHoistOuter 4 3)) = length (irOps sampleHoistOuter) /\
  (forall n, n <> 4 -> getOp (moveBefore sampleHoistOuter 4 3) n = getOp sampleHoistOuter n) /\
  (forall x, getOp sampleHoistOuter 4 = Some x ->
     exists y, getOp (moveBefore sampleHoistOuter 4 3) 4 = Some y /\
       withBlock y None = withBlock x None) /\
  (forall v, getUses (moveBefore sampleHoistOuter 4 3) v = getUses sampleHoistOuter v) /\
  (true = false -> moveBefore sampleHoistOuter 4 3 = sampleHoistOuter) /\
  (opIs (isExpressionAlwaysInline sampleOracle) sampleHoistOuter 4 = true ->
   isa sampleHoistOuter 4 [ReadInOutOp] = false ->
   isInOutType (getResultType sampleHoistOuter 4 0) = false ->
   true = false).
Proof.
  apply (hoisting_only_moves sampleOracle sampleHoistOuter 4).
  vm_compute. reflexivity.
Defined.

(** ** The scan to the enclosing non-procedural region *)

Section RegionTree.

Context (O : Oracle) (st : IR) (rank : OpId -> nat).
Context (rank_parent : forall n p, getParentOp st n = Some p -> rank p < rank n).

Lemma scanUpProcedural_spec fuel : forall p,
  rank p < fuel ->
  (forall n, hasProceduralRegionTrait O st n = true -> is_Some (getParentOp st n)) ->
  hasProceduralRegionTrait O st p = true ->
  exists top g, scanUpProcedural O fuel st p = Ok top /\
    (top = p \/ ProceduralChain O st p top) /\
    hasProceduralRegionTrait O st top = true /\
    getParentOp st top = Some g /\ hasProceduralRegionTrait O st g = false.
Proof.
  induction fuel as [|f IH]; intros p Hrank Hnested Hp; [lia|].
  destruct (Hnested p Hp) as [g Hg]. cbn [scanUpProcedural]. rewrite Hg.
  cbv beta iota delta [mbind Res_bind fromOption].
  destruct (hasProceduralRegionTrait O st g) eqn:Eg.
  - destruct (IH g) as (top & g' & Hscan & Hchain & Htop & Hg' & Hg'n); [|done|done|].
    { pose proof (rank_parent _ _ Hg). lia. }
    exists top, g'. split; [done|]. split; [|done]. right.
    destruct Hchain as [->|Hchain]; [by apply chain_parent|by eapply chain_step].
  - exists p, g. split; [done|]. split; [by left|]. done.
Qed.

End RegionTree.

(** X2.  [findParentInNonProceduralRegion] returns the outermost operation
    of the chain of procedural parents of [op]: every step from [op] to it
    goes to a parent with procedural regions, and its own parent has none.
    The region tree is well founded ([rank], bounded by the number of
    operations), every procedural operation has a parent, and the parent of
    [op] is procedural, which the source asserts. *)
Theorem findParent_outermost_procedural (O : Oracle) (st : IR) (op : OpId) (rank : OpId -> nat)
    (p : OpId) :
  (forall n q, getParentOp st n = Some q -> rank q < rank n) ->
  (forall n, is_Some (getOp st n) -> rank n < length (irOps st)) ->
  (forall n, hasProceduralRegionTrait O st n = true -> is_Some (getParentOp st n)) ->
  getParentOp st op = Some p ->
  hasProceduralRegionTrait O st p = true ->
  exists top g, findParentInNonProceduralRegion O st op = Ok top /\
    ProceduralChain O st op top /\
    hasProceduralRegionTrait O st top = true /\
    getParentOp st top = Some g /\ hasProceduralRegionTrait O st g = false.
Proof.
  intros Hrank Hbound Hnested Hp Htrait.
  unfold findParentInNonProceduralRegion. rewrite Hp.
  cbv beta iota delta [mbind Res_bind fromOption]. rewrite Htrait. cbn [negb].
  destruct (scanUpProcedural_spec O st rank Hrank (length (irOps st)) p)
    as (top & g & Hscan & Hchain & Htop & Hg & Hgn); [|done|done|].
  { apply Hbound. unfold hasProceduralRegionTrait, opIs in Htrait.
    destruct (getOp st p); [by eauto|done]. }
  exists top, g. split; [done|]. split; [|done].
  destruct Hchain as [->|Hchain]; [by apply chain_parent|by eapply chain_step].
Qed.

Lemma sampleHoistOuter_parents n q :
  getParentOp sampleHoistOuter n = Some q -> q < n.
Proof.
  intros H. do 6 (destruct n as [|n]; [vm_compute in H; try discriminate; injection H as <-; lia|]).
  vm_compute in H. discriminate.
Qed.

Lemma sampleHoistOuter_bound n : is_Some (getOp sampleHoistOuter n) -> n < length (irOps sampleHoistOuter).
Proof. intros [x Hx]. by apply getOp_lt in Hx. Qed.

Lemma sampleHoistOuter_nested n :
  hasProceduralRegionTrait sampleOracle sampleHoistOuter n = true ->
  is_Some (getParentOp sampleHoistOuter n).
Proof.
  intros H. do 6 (destruct n as [|n]; [vm_compute in H; try discriminate; by eexists|]).
  vm_compute in H. discriminate.
Qed.

Lemma findParent_outermost_procedural_witness :
  exists top g, findParentInNonProceduralRegion sampleOracle sampleHoistOuter 4 = Ok top /\
    ProceduralChain sampleOracle sampleHoistOuter 4 top /\
    hasProceduralRegionTrait sampleOracle sampleHoistOuter top = true /\
    getParentOp sampleHoistOuter top = Some g /\
    hasProceduralRegionTrait sampleOracle sampleHoistOuter g = false.
Proof.
  exact (findParent_outermost_procedural sampleOracle sampleHoistOuter 4 (fun n => n) 3
           sampleHoistOuter_parents sampleHoistOuter_bound sampleHoistOuter_nested
           eq_refl eq_refl).
Defined.

(** X3.  The insertion point of the logic declarations of a procedural
    block: [findLogicOpInsertionPoint] climbs from [op] through the
    enclosing [sv.ifdef.procedural] operations and returns the beginning of
    the block of the first operation [a] whose parent is not one.  The region
    tree is well founded ([rank]) and the fuel exceeds the rank of [op]. *)
Theorem logic_insertion_point_skips_macros (st : IR) (rank : OpId -> nat) (fuel : nat) (op : OpId) :
  (forall n q, getParentOp st n = Some q -> rank q < rank n) ->
  rank op < fuel ->
  (forall a, MacroChain st op a -> is_Some (getParentOp st a)) ->
  exists a b g, findLogicOpInsertionPoint fuel st op = Ok (b, head (getBlockOps st b)) /\
    MacroChain st op a /\ getBlock st a = Some b /\
    getParentOp st a = Some g /\ isa st g [IfDefProceduralOp] = false.
Proof.
  intros rank_parent. revert op.
  induction fuel as [|f IH]; intros op Hrank Hparents; [lia|].
  destruct (Hparents op (macro_here st op)) as [g Hg].
  cbn [findLogicOpInsertionPoint]. rewrite Hg.
  cbv beta iota delta [mbind Res_bind fromOption].
  destruct (isa st g [IfDefProceduralOp]) eqn:Eg.
  - destruct (IH g) as (a & b & g' & Hfind & Hchain & Hb & Hg' & Hg'n).
    { pose proof (rank_parent _ _ Hg). lia. }
    { intros a Ha. apply Hparents. by eapply macro_step. }
    exists a, b, g'. split; [done|]. split; [by eapply macro_step|]. done.
  - assert (exists b, getBlock st op = Some b) as [b Hb].
    { unfold getParentOp in Hg. destruct (getBlock st op) as [b|]; [by eauto|done]. }
    rewrite Hb. exists op, b, g. split; [done|]. split; [constructor|]. done.
Qed.

Lemma sampleIfDef_parents n q : getParentOp sampleIfDef n = Some q -> q < n.
Proof.
  intros H. do 4 (destruct n as [|n]; [vm_compute in H; try discriminate; injection H as <-; lia|]).
  vm_compute in H. discriminate.
Qed.

Lemma sampleIfDef_chain a : MacroChain sampleIfDef 3 a -> is_Some (getParentOp sampleIfDef a).
Proof.
  intros H. inversion H as [|n p a' Hp Hisa Hrest]; subst; [by eexists|].
  vm_compute in Hp. injection Hp as <-.
  inversion Hrest as [|n p a' Hp Hisa' Hrest']; subst; [by eexists|].
  vm_compute in Hp. injection Hp as <-. vm_compute in Hisa'. discriminate.
Qed.

Lemma logic_insertion_point_skips_macros_witness :
  exists a b g, findLogicOpInsertionPoint 4 sampleIfDef 3 = Ok (b, head (getBlockOps sampleIfDef b)) /\
    MacroChain sampleIfDef 3 a /\ getBlock sampleIfDef a = Some b /\
    getParentOp sampleIfDef a = Some g /\ isa sampleIfDef g [IfDefProceduralOp] = false.
Proof.
  apply (logic_insertion_point_skips_macros sampleIfDef (fun n => n) 4 3
           sampleIfDef_parents).
  - lia.
  - exact sampleIfDef_chain.
Defined.

(** ** The number of terms *)

Lemma termCount_mono k : forall k' st v s,
  k <= k' -> termCount k st v = Some s -> termCount k' st v = Some s.
Proof.
  induction k as [|k IH]; intros k' st v s Hle H; [done|].
  destruct k' as [|k']; [lia|]. destruct v as [b i|op i]; [done|].
  cbn [termCount] in *. destruct (getOp st op) as [o|]; [|done]. simpl in *.
  destruct (length (opOperands o) =? 0); [done|].
  destruct (mapM (termCount k st) (opOperands o)) as [l|] eqn:E; [|done].
  apply mapM_Some in E.
  assert (mapM (termCount k' st) (opOperands o) = Some l) as ->; [|done].
  apply mapM_Some. eapply Forall2_impl; [exact E|]. intros a b. apply IH. lia.
Qed.

Lemma termCount_fun k k' st v s s' :
  termCount k st v = Some s -> termCount k' st v = Some s' -> s = s'.
Proof.
  intros H H'. apply (termCount_mono _ (k `max` k')) in H; [|lia].
  apply (termCount_mono _ (k `max` k')) in H'; [|lia]. congruence.
Qed.

Lemma termCount_pos k : forall st v s, termCount k st v = Some s -> 1 <= s.
Proof.
  induction k as [|k IH]; intros st v s H; [done|].
  destruct v as [b i|op i]; [by injection H as <-|].
  cbn [termCount] in H. destruct (getOp st op) as [o|]; [|done]. simpl in H.
  destruct (length (opOperands o) =? 0) eqn:El; [by injection H as <-|].
  destruct (mapM (termCount k st) (opOperands o)) as [l|] eqn:E; [|done].
  injection H as <-. apply mapM_Some in E. apply Nat.eqb_neq in El.
  destruct E as [|a b la lb Hab E]; [done|]. apply IH in Hab. simpl. lia.
Qed.

Lemma findState_insertState v s m w :
  findState w (insertState v s m) =
    match findState w m with
    | Some s0 => Some s0
    | None => if bool_decide (v = w) then Some s else None
    end.
Proof.
  unfold insertState. destruct (findState v m) as [s0|] eqn:E.
  - destruct (findState w m) eqn:Ew; [done|]. case_bool_decide; [congruence|done].
  - simpl. case_bool_decide as Hvw.
    + subst w. by rewrite E.
    + by destruct (findState w m).
Qed.

Lemma sizeOf_le terms : (sizeOf terms <= N.of_nat terms)%N.
Proof. unfold sizeOf. apply N.Div0.mod_le. Qed.

Lemma sizeOf_lt terms : (sizeOf terms < 2 ^ 64)%N.
Proof. unfold sizeOf. by apply N.mod_lt. Qed.

Lemma mergeState_sizeOf acc a b :
  (mergeState ((acc + N.of_nat a) mod 2 ^ 64) (sizeOf b) =
   (acc + N.of_nat (a + b)) mod 2 ^ 64)%N.
Proof.
  unfold mergeState, sizeOf.
  rewrite N.Div0.add_mod_idemp_l, N.Div0.add_mod_idemp_r.
  f_equal. lia.
Qed.

Section ExpressionState.

Context (O : Oracle) (st : IR).

Lemma mergeOperandsStates_post f
    (IH : forall m v m' s, cacheSound st m ->
            getExpressionState O f st m v = Ok (m', s) -> StatePost st m v m' s) :
  forall operands m done m' s,
  cacheSound st m ->
  foldRes (fun '(m, state) operand =>
             '(m, s) ← getExpressionState O f st m operand; Ok (m, mergeState state s))
    (m, sizeOf done) operands = Ok (m', s) ->
  (forall w s0, findState w m = Some s0 -> findState w m' = Some s0) /\
  cacheSound st m' /\
  exists l k, mapM (termCount k st) operands = Some l /\ s = sizeOf (done + foldr Nat.add 0 l).
Proof.
  induction operands as [|a operands IHl]; intros m done m' s Hm H.
  - injection H as <- <-. split; [done|]. split; [done|]. exists [], 0. split; [done|].
    simpl. by rewrite Nat.add_0_r.
  - cbn [foldRes] in H. apply bind_Ok_inv in H as ([m1 s1] & H1 & H).
    apply bind_Ok_inv in H1 as ([m1' sa] & Ha & H1). injection H1 as <- <-.
    destruct (IH _ _ _ _ Hm Ha) as (Hext1 & Hm1 & ka & ta & Hka & ->).
    assert (Hmerge : mergeState (sizeOf done) (sizeOf ta) = sizeOf (done + ta)).
    { pose proof (mergeState_sizeOf 0 done ta) as E. by rewrite !N.add_0_l in E. }
    rewrite Hmerge in H.
    destruct (IHl _ _ _ _ Hm1 H) as (Hext2 & Hm' & l & k & Hl & Hs).
    split; [by intros w s0 Hw; apply Hext2, Hext1|]. split; [done|].
    exists (ta :: l), (ka `max` k). split.
    + apply mapM_Some. constructor.
      * apply termCount_mono with ka; [lia|done].
      * apply mapM_Some in Hl. eapply Forall2_impl; [exact Hl|].
        intros x y. apply termCount_mono. lia.
    + rewrite Hs. simpl. f_equal. lia.
Qed.

Lemma getExpressionState_post fuel : forall m v m' s,
  cacheSound st m ->
  getExpressionState O fuel st m v = Ok (m', s) -> StatePost st m v m' s.
Proof.
  induction fuel as [|f IH]; intros m v m' s Hm H; [done|].
  cbn [getExpressionState] in H.
  destruct (findState v m) as [s0|] eqn:Ev.
  { injection H as <- <-. split; [done|]. split; [done|]. by apply Hm. }
  destruct v as [b i|op i].
  { injection H as <- <-. split; [done|]. split; [done|]. by exists 1, 1. }
  apply bind_Ok_inv in H as (o & Ho & H).
  destruct (getOp st op) as [o'|] eqn:Eo; [|done]. injection Ho as ->.
  destruct (isVisitedExpr O (opName o)); [|done]. cbn [negb] in H.
  apply bind_Ok_inv in H as ([m1 state] & Hs & H). injection H as <- <-.
  assert (Hpost : (forall w s0, findState w m = Some s0 -> findState w m1 = Some s0) /\
                  cacheSound st m1 /\
                  exists k terms, termCount k st (OpResult op i) = Some terms /\
                                  state = sizeOf terms).
  { destruct (length (opOperands o) =? 0) eqn:El.
    - injection Hs as <- <-. split; [done|]. split; [done|]. exists 1, 1.
      cbn [termCount]. rewrite Eo. simpl. by rewrite El.
    - destruct (mergeOperandsStates_post f IH _ _ 0 _ _ Hm Hs) as (Hext & Hm1 & l & k & Hl & ->).
      split; [done|]. split; [done|]. exists (S k), (foldr Nat.add 0 l).
      cbn [termCount]. rewrite Eo. simpl. rewrite El, Hl. done. }
  destruct Hpost as (Hext & Hm1 & k & terms & Hk & Hstate).
  split; [|split; [|by exists k, terms]].
  - intros w s0 Hw. rewrite findState_insertState. by rewrite (Hext _ _ Hw).
  - intros w s0. rewrite findState_insertState.
    destruct (findState w m1) as [s1|] eqn:Ew.
    + intros [= <-]. by apply Hm1.
    + case_bool_decide as Hvw; [|done]. intros [= <-]. subst w. by exists k, terms.
Qed.

End ExpressionState.

(** X5.  The cache of [getExpressionState] never changes an answer: from a
    cache whose entries are numbers of terms, the state returned for [v] is
    the number of terms of the expression tree of [v] ([termCount], the same
    recursion without a cache, at least 1) held in a [size_t], that is
    modulo [2^64]; the cache keeps its entries and stays sound, and asking
    again gives the same answer without changing the cache. *)
Theorem expression_state_is_term_count (O : Oracle) (fuel : nat) (st : IR)
    (m : ExpressionStates) (v : Value) (m' : ExpressionStates) (s : EmittedExpressionState) :
  cacheSound st m ->
  getExpressionState O fuel st m v = Ok (m', s) ->
  (exists k terms, termCount k st v = Some terms /\ 1 <= terms /\
     s = (N.of_nat terms mod 2 ^ 64)%N) /\
  cacheSound st m' /\
  (forall w s0, findState w m = Some s0 -> findState w m' = Some s0) /\
  (forall fuel', getExpressionState O (S fuel') st m' v = Ok (m', s)).
Proof.
  intros Hm H.
  destruct (getExpressionState_post O st fuel _ _ _ _ Hm H) as (Hext & Hm' & k & terms & Hk & Hs).
  split.
  { exists k, terms. split; [done|]. split; [by eapply termCount_pos|done]. }
  split; [done|]. split; [done|].
  intros fuel'. destruct fuel as [|f]; [done|]. cbn [getExpressionState] in *.
  destruct (findState v m) as [s0|] eqn:Ev.
  { injection H as <- <-. by rewrite Ev. }
  destruct v as [b i|op i].
  { injection H as <- <-. by rewrite Ev. }
  apply bind_Ok_inv in H as (o & Ho & H).
  destruct (isVisitedExpr O (opName o)); [|done]. cbn [negb] in H.
  apply bind_Ok_inv in H as ([m1 state] & Hstate & H). injection H as <- <-.
  rewrite findState_insertState.
  destruct (findState (OpResult op i) m1) as [s1|] eqn:E1.
  - (* the entry made on the way is the same number *)
    assert (s1 = state) as ->; [|done].
    destruct (Hm' (OpResult op i) s1) as (k1 & t1 & Hk1 & ->).
    { rewrite findState_insertState. by rewrite E1. }
    rewrite Hs. f_equal. by eapply termCount_fun.
  - by rewrite bool_decide_eq_true_2.
Qed.

Lemma expression_state_is_term_count_witness :
  (exists k terms, termCount k samplePretty (OpResult 2 0) = Some terms /\ 1 <= terms /\
     3%N = (N.of_nat terms mod 2 ^ 64)%N) /\
  cacheSound samplePretty [(OpResult 2 0, 3%N); (OpResult 1 0, 2%N)] /\
  (forall w s0, findState w [] = Some s0 ->
     findState w [(OpResult 2 0, 3%N); (OpResult 1 0, 2%N)] = Some s0) /\
  (forall fuel', getExpressionState sampleOracle (S fuel') samplePretty
                   [(OpResult 2 0, 3%N); (OpResult 1 0, 2%N)] (OpResult 2 0) =
                 Ok ([(OpResult 2 0, 3%N); (OpResult 1 0, 2%N)], 3%N)).
Proof.
  apply (expression_state_is_term_count sampleOracle 10 samplePretty [] (OpResult 2 0)).
  - intros w s Hw. discriminate.
  - vm_compute. reflexivity.
Defined.

Lemma log2_up_halves n :
  2 <= n -> Nat.log2_up n = S (Nat.log2_up (n - n / 2)).
Proof.
  intros Hn. set (c := n - n / 2).
  pose proof (Nat.div_mod_eq n 2) as Hdiv.
  pose proof (Nat.mod_upper_bound n 2 ltac:(lia)) as Hmod.
  assert (Hc : n = 2 * c \/ n + 1 = 2 * c) by (unfold c; lia).
  apply Nat.log2_up_unique; [lia|]. cbn [Nat.pred].
  destruct (decide (c = 1)) as [Hc1|Hc1].
  - rewrite Hc1. change (Nat.log2_up 1) with 0. simpl. lia.
  - destruct (Nat.log2_up_spec c ltac:(lia)) as [Hlo Hhi].
    assert (HL : 1 <= Nat.log2_up c).
    { destruct (Nat.log2_up c) eqn:E; [|lia]. simpl in Hhi. lia. }
    rewrite Nat.pow_succ_r'.
    assert (Hp : 2 ^ Nat.log2_up c = 2 * 2 ^ Nat.pred (Nat.log2_up c)).
    { rewrite <- Nat.pow_succ_r'. f_equal. lia. }
    lia.
Qed.

Lemma depthStep_halves n :
  2 <= n ->
  depthStep (Z.of_nat (Nat.log2_up (n / 2))) (Z.of_nat (Nat.log2_up (n - n / 2))) =
    Z.of_nat (Nat.log2_up n).
Proof.
  intros Hn. rewrite (log2_up_halves n Hn). unfold depthStep.
  assert (Nat.log2_up (n / 2) <= Nat.log2_up (n - n / 2)).
  { apply Nat.log2_up_le_mono.
    pose proof (Nat.div_mod_eq n 2). lia. }
  lia.
Qed.

Section BalancingDepth.
Context (op : OpId) (n0 : nat).

Lemma lowerFullyAssociativeOp_depth fuel : forall st operands newOps o,
  getOp st op = Some o -> op < n0 -> n0 <= length (irOps st) ->
  operands <> [] -> length operands <= fuel + 2 ->
  Forall (isOldValue n0) operands ->
  exists st' result newOps' k,
    lowerFullyAssociativeOp fuel st op operands newOps = Ok (st', result, newOps') /\
    treeDepth k st' n0 result = Some (Z.of_nat (Nat.log2_up (length operands))).
Proof.
  induction fuel as [|f IH]; intros st operands newOps o Ho Hlt Hn0 Hne Hlen Hold.
  all: destruct (lowerFullyAssociativeOp_post Z.add Z.add_assoc op n0 _ st operands newOps o
                   Ho Hlt Hn0 Hne Hlen) as (st' & result & added & E & P).
  all: exists st', result, (newOps ++ added).
  all: destruct operands as [|a [|b [|c rest]]]; [done| | |].
  all: try (simpl in Hlen; lia).
  (* one operand *)
  1,3: exists 0; split; [done|];
    pose proof (lfa_result _ _ _ _ _ _ _ _ _ P) as Hr;
    pose proof (lfa_len _ _ _ _ _ _ _ _ _ P) as Hl; simpl in Hl;
    destruct added; [|done]; simpl in Hr; subst result;
    apply Forall_cons in Hold as [Ha _]; unfold treeDepth; by rewrite evalValue_old.
  (* two operands *)
  1,2: exists 1; split; [done|];
    pose proof (lfa_result _ _ _ _ _ _ _ _ _ P) as Hr;
    pose proof (lfa_len _ _ _ _ _ _ _ _ _ P) as Hl;
    pose proof (lfa_ids _ _ _ _ _ _ _ _ _ P) as Hi; simpl in Hl;
    destruct added as [|n [|? ?]]; try done; simpl in Hr, Hi; subst result;
    injection Hi as ->;
    rewrite lfa_two in E;
    destruct (removeName_post op n0 st o Ho Hlt) as (Hl1 & (o1 & Ho1 & _) & _);
    fold (nameRemoved op st) in Hl1, Ho1;
    destruct (createTreeNode_post op n0 (nameRemoved op st) o1 (getAttr st op "sv.namehint")
                a b newOps Ho1 Hlt) as (st2 & Hc & _ & _ & _ & x & Hx & _ & Hxo & _); [lia|];
    rewrite Hc in E; injection E as <-; rewrite Hl1 in Hx;
    apply Forall_cons in Hold as [Ha Hold]; apply Forall_cons in Hold as [Hb _];
    unfold treeDepth;
    by rewrite (evalValue_binary depthStep 0 st2 n0 _ _ 0 x a b 0%Z 0%Z);
      [| | | |apply evalValue_old|apply evalValue_old].
  (* more operands *)
  set (operands := a :: b :: c :: rest) in *.
  assert (Hlen3 : 2 < length operands) by (simpl; lia).
  pose proof E as Ecall. rewrite lfa_many in E by done.
  set (h := length operands / 2) in *.
  assert (Hh : 1 <= h /\ h < length operands).
  { unfold h. split.
    - apply Nat.div_le_lower_bound; lia.
    - apply Nat.div_lt; lia. }
  destruct (removeName_post op n0 st o Ho Hlt) as (Hl1 & (o1 & Ho1 & _) & _).
  fold (nameRemoved op st) in Hl1, Ho1.
  assert (Hne1 : take h operands <> []).
  { intros E0. assert (length (take h operands) = 0) as E' by (by rewrite E0).
    rewrite length_take in E'. lia. }
  assert (Hne2 : drop h operands <> []).
  { intros E0. assert (length (drop h operands) = 0) as E' by (by rewrite E0).
    rewrite length_drop in E'. lia. }
  destruct (lowerFullyAssociativeOp_post Z.add Z.add_assoc op n0 f (nameRemoved op st)
              (take h operands) newOps o1) as (st1 & lhs & add1 & E1 & P1);
    [done|done|lia|done| |].
  { rewrite length_take. lia. }
  destruct (IH (nameRemoved op st) (take h operands) newOps o1)
    as (st1' & lhs' & add1' & k1 & E1' & D1); [done|done|lia|done| |by apply Forall_take|].
  { rewrite length_take. lia. }
  rewrite E1 in E1'. injection E1' as <- <- <-.
  rewrite E1 in E. cbv beta iota delta [mbind Res_bind] in E.
  destruct (lfa_op _ _ _ _ _ _ _ _ _ P1) as (o2 & Ho2 & _).
  pose proof (lfa_size _ _ _ _ _ _ _ _ _ P1) as Hs1.
  destruct (lowerFullyAssociativeOp_post Z.add Z.add_assoc op n0 f st1
              (drop h operands) (newOps ++ add1) o2) as (st2 & rhs & add2 & E2 & P2);
    [done|done|lia|done| |].
  { rewrite length_drop. lia. }
  destruct (IH st1 (drop h operands) (newOps ++ add1) o2)
    as (st2' & rhs' & add2' & k2 & E2' & D2); [done|done|lia|done| |by apply Forall_drop|].
  { rewrite length_drop. lia. }
  rewrite E2 in E2'. injection E2' as <- <- <-.
  rewrite E2 in E. cbv beta iota delta [mbind Res_bind] in E.
  destruct (lfa_op _ _ _ _ _ _ _ _ _ P2) as (o3 & Ho3 & _).
  pose proof (lfa_size _ _ _ _ _ _ _ _ _ P2) as Hs2.
  destruct (createTreeNode_post op n0 st2 o3 (getAttr st op "sv.namehint") lhs rhs
              ((newOps ++ add1) ++ add2) Ho3 Hlt)
    as (st3 & Hc & Hlen' & Hop' & Hold' & x & Hx & Hxn & Hxo & _); [lia|].
  rewrite Hc in E. injection E as <- <- _.
  exists (S (k1 `max` k2)). split; [done|].
  unfold treeDepth in *.
  assert (H1 : evalValue depthStep (k1 `max` k2) st3 n0 (fun _ => 0%Z) lhs =
                 Some (Z.of_nat (Nat.log2_up (length (take h operands))))).
  { apply evalValue_mono with k1; [lia|].
    apply evalValue_ext with st2.
    { intros n y Hn Hy. rewrite Hold'; [done|]. by apply getOp_lt in Hy. }
    apply evalValue_ext with st1; [|done].
    intros n y Hn Hy. rewrite (lfa_old _ _ _ _ _ _ _ _ _ P2); [done|done|].
    by apply getOp_lt in Hy. }
  assert (H2 : evalValue depthStep (k1 `max` k2) st3 n0 (fun _ => 0%Z) rhs =
                 Some (Z.of_nat (Nat.log2_up (length (drop h operands))))).
  { apply evalValue_mono with k2; [lia|].
    apply evalValue_ext with st2; [|done].
    intros n y Hn Hy. rewrite Hold'; [done|]. by apply getOp_lt in Hy. }
  assert (Hge : n0 <= length (irOps st2)) by lia.
  rewrite (evalValue_binary depthStep _ st3 n0 _ _ 0 x lhs rhs _ _ Hge Hx Hxo H1 H2).
  f_equal. rewrite length_take, length_drop.
  replace (h `min` length operands) with h by lia.
  apply depthStep_halves. lia.
Qed.

End BalancingDepth.

(** X6.  The tree built by [lowerFullyAssociativeOp] on the [N] operands
    of a node that passes the test of the driver is balanced: its depth is
    the ceiling of the binary logarithm of [N]. *)
Theorem balancing_depth_is_logarithmic (O : Oracle) (st : IR) (op : OpId) (o : Operation) :
  getOp st op = Some o ->
  isFullyAssociativeCandidate O st op = true ->
  Forall (isOldValue (length (irOps st))) (opOperands o) ->
  exists st' result newOps k,
    lowerFullyAssociativeOp (length (opOperands o)) st op (opOperands o) [] =
      Ok (st', result, newOps) /\
    treeDepth k st' (length (irOps st)) result =
      Some (Z.of_nat (Nat.log2_up (length (opOperands o)))).
Proof.
  intros Ho Hcand Hold.
  pose proof (candidate_operands O st op o Ho Hcand) as Hlen.
  pose proof (getOp_lt _ _ _ Ho) as Hlt.
  apply (lowerFullyAssociativeOp_depth op (length (irOps st)) _ st (opOperands o) [] o);
    [done|done|lia| |lia|done].
  intros E. rewrite E in Hlen. simpl in Hlen. lia.
Qed.

Lemma balancing_depth_is_logarithmic_witness :
  exists st' result newOps k,
    lowerFullyAssociativeOp 5 sampleAdd5 1
      [BlockArgument 0 0; BlockArgument 0 1; BlockArgument 0 2;
       BlockArgument 0 3; BlockArgument 0 4] [] = Ok (st', result, newOps) /\
    treeDepth k st' 3 result = Some 3%Z.
Proof.
  refine (balancing_depth_is_logarithmic sampleOracle sampleAdd5 1 _ eq_refl eq_refl _).
  repeat constructor.
Defined.

Lemma replaceUsesWithReads_fold st builder newWire result :
  replaceUsesWithReads st builder newWire result =
    fold_left (readStep builder newWire result) (getUses st result) st.
Proof. reflexivity. Qed.

Lemma ReadsPost_refl newWire ty st : ReadsPost newWire ty st [] st.
Proof.
  constructor; simpl.
  - lia.
  - intros n x Hx. by exists x.
  - done.
  - done.
  - by intros u ?%elem_of_nil.
  - intros k u H. done.
  - intros k H. lia.
Qed.

Lemma getResultType_same st st' o i x y :
  getOp st o = Some x -> getOp st' o = Some y -> withOperands y [] = withOperands x [] ->
  getResultType st' o i = getResultType st o i.
Proof.
  intros Hx Hy H. unfold getResultType. rewrite Hx, Hy.
  destruct x, y. unfold withOperands in H. simpl in *. by injection H as -> -> -> -> ->.
Qed.

Lemma unwired_fields x y :
  withOperands y [] = withOperands x [] ->
  opName y = opName x /\ opResultTypes y = opResultTypes x /\ opAttrs y = opAttrs x /\
  opRegions y = opRegions x /\ opBlock y = opBlock x.
Proof. destruct x, y. unfold withOperands. simpl. by intros [= -> -> -> -> ->]. Qed.

Lemma readStep_post builder newWire o i st0 uses st u x0 :
  getOp st0 o = Some x0 ->
  ReadsPost newWire (getResultType st0 o i) st0 uses st ->
  is_Some (slot st0 u) -> u ∉ uses ->
  ReadsPost newWire (getResultType st0 o i) st0 (uses ++ [u])
    (readStep builder newWire (OpResult o i) st u).
Proof.
  intros Ho R [v0 Hu] Hnin.
  pose proof (slot_lt _ _ _ Hu) as Hult.
  pose proof (rp_len _ _ _ _ _ R) as Hlen.
  unfold readStep.
  set (ty := getType st (OpResult o i)).
  assert (Hty : ty = getResultType st0 o i).
  { unfold ty. simpl. destruct (rp_old _ _ _ _ _ R _ _ Ho) as (y & Hy & Hyx & _).
    by eapply getResultType_same. }
  set (c := createOp st builder ReadInOutOp [newWire] [ty] []).
  assert (Ec : c = (fst c, length (irOps st))) by (by rewrite (surjective_pairing c)).
  rewrite Ec. cbv beta iota.
  set (m := length (irOps st)) in *.
  set (st1 := fst c) in *.
  set (st2 := setOperand st1 u (OpResult m 0)).
  set (st3 := moveBefore st2 m (fst u)).
  assert (H1len : length (irOps st1) = S m) by apply length_createOp.
  assert (H1old : forall n, n < m -> getOp st1 n = getOp st n)
    by (intros; by apply getOp_createOp_old).
  assert (H1new : getOp st1 m = Some (mkOperation ReadInOutOp [newWire] [ty] [] [] (fst <$> builder)))
    by apply getOp_createOp_new.
  assert (Hslot_u : is_Some (slot st1 u)).
  { unfold st1, c. rewrite slot_createOp_old by (fold m; lia).
    destruct (decide (u ∈ uses)) as [Hin|Hn]; [done|].
    rewrite (rp_kept _ _ _ _ _ R) by done. by eauto. }
  assert (H3 : forall n, n <> m -> getOp st3 n = getOp st2 n)
    by (intros; by apply getOp_moveBefore_ne).
  assert (H2 : forall n, n <> fst u -> getOp st2 n = getOp st1 n).
  { intros n Hn. unfold st2. rewrite getOp_setOperand. by rewrite bool_decide_eq_false_2. }
  assert (Hs3 : forall u', slot st3 u' =
            if bool_decide (u' = u) then Some (OpResult m 0)
            else if bool_decide (fst u' = m) then [newWire] !! snd u'
            else slot st u').
  { intros u'. unfold st3. rewrite slot_moveBefore. unfold st2. rewrite slot_setOperand.
    case_bool_decide as Huu.
    - destruct Hslot_u as [? ->]. done.
    - unfold st1, c. by rewrite slot_createOp. }
  constructor.
  - unfold st3. rewrite length_moveBefore. unfold st2. rewrite length_setOperand.
    rewrite H1len, length_app. simpl. lia.
  - intros n x Hx. pose proof (getOp_lt _ _ _ Hx) as Hn.
    destruct (rp_old _ _ _ _ _ R _ _ Hx) as (y & Hy & Hyx & Hyl).
    rewrite H3 by lia. unfold st2. rewrite getOp_setOperand.
    rewrite !H1old by lia. case_bool_decide as Hnu.
    + rewrite <- Hnu, Hy. simpl. eexists. split; [done|].
      split; [rewrite <- Hyx; by destruct y|simpl; by rewrite length_insert].
    + rewrite Hy. by exists y.
  - intros n Hn Hx. rewrite H3 by lia. unfold st2. rewrite getOp_setOperand.
    rewrite !H1old by lia. rewrite (rp_none _ _ _ _ _ R n Hn Hx).
    case_bool_decide as Hnu; [|done]. rewrite <- Hnu.
    by rewrite (rp_none _ _ _ _ _ R n Hn Hx).
  - intros u' Hu' Hnin'. rewrite Hs3.
    rewrite not_elem_of_app, list_elem_of_singleton in Hnin'. destruct Hnin' as [Hn1 Hn2].
    rewrite bool_decide_eq_false_2 by done.
    rewrite bool_decide_eq_false_2 by lia.
    by apply (rp_kept _ _ _ _ _ R).
  - intros u' [Hin|Hin]%elem_of_app.
    + by apply (rp_valid _ _ _ _ _ R).
    + apply list_elem_of_singleton in Hin. by subst u'.
  - intros k u' Hk. rewrite Hs3.
    apply lookup_app_Some in Hk as [Hk|[Hge Hk]].
    + assert (u' <> u) by (intros ->; apply Hnin; by eapply list_elem_of_lookup_2).
      rewrite bool_decide_eq_false_2 by done.
      assert (slot st u' = Some (OpResult (length (irOps st0) + k) 0)) as Hsl
        by (by apply (rp_set _ _ _ _ _ R)).
      assert (fst u' < length (irOps st0))
        by (apply (rp_valid _ _ _ _ _ R); by eapply list_elem_of_lookup_2).
      rewrite bool_decide_eq_false_2 by lia. done.
    + apply list_lookup_singleton_Some in Hk as [Hk ->].
      rewrite bool_decide_eq_true_2 by done. do 3 f_equal. lia.
  - intros k Hk. rewrite length_app in Hk. simpl in Hk.
    destruct (decide (k < length uses)) as [Hlt|Hge].
    + destruct (rp_reads _ _ _ _ _ R k Hlt) as (y & Hy & Hrest).
      exists y. split; [|done]. rewrite H3 by lia. rewrite H2 by lia.
      rewrite H1old by lia. done.
    + assert (k = length uses) as -> by lia.
      replace (length (irOps st0) + length uses) with m by lia.
      destruct (getOp_moveBefore st2 m (fst u) m _ ltac:(rewrite H2 by lia; exact H1new))
        as (y & Hy & Hyd).
      exists y. split; [done|]. apply detached_fields in Hyd as (-> & -> & -> & -> & _).
      by rewrite Hty.
Qed.

Lemma readSteps_post builder newWire o i st0 x0 : forall rest done st,
  getOp st0 o = Some x0 ->
  ReadsPost newWire (getResultType st0 o i) st0 done st ->
  NoDup (done ++ rest) -> (forall u, u ∈ rest -> is_Some (slot st0 u)) ->
  ReadsPost newWire (getResultType st0 o i) st0 (done ++ rest)
    (fold_left (readStep builder newWire (OpResult o i)) rest st).
Proof.
  induction rest as [|u rest IH]; intros done st Ho R Hnd Hvalid.
  - by rewrite app_nil_r.
  - cbn [fold_left]. replace (done ++ u :: rest) with ((done ++ [u]) ++ rest)
      by (by rewrite <- app_assoc).
    apply IH; [done| |by rewrite <- app_assoc|].
    + eapply readStep_post; [done|done|apply Hvalid; by left|].
      apply NoDup_app in Hnd as (_ & Hnd & _). intros Hin. apply (Hnd _ Hin). by left.
    + intros u' Hu'. apply Hvalid. by right.
Qed.

Lemma replaceUsesWithReads_post st builder newWire o i x0 :
  getOp st o = Some x0 ->
  ReadsPost newWire (getResultType st o i) st (getUses st (OpResult o i))
    (replaceUsesWithReads st builder newWire (OpResult o i)).
Proof.
  intros Ho. rewrite replaceUsesWithReads_fold.
  apply (readSteps_post builder newWire o i st x0 (getUses st (OpResult o i)) [] st Ho).
  - apply ReadsPost_refl.
  - apply NoDup_getUses.
  - intros u Hu. apply getUses_slot in Hu. by eauto.
Qed.

Lemma spillToWire_post st builder decl attrs assign o i op moveDecl x0 :
  getOp st o = Some x0 ->
  SpillPost decl attrs assign o i st
    (spillToWire st builder decl attrs assign (OpResult o i) op moveDecl).
Proof.
  intros Ho. pose proof (getOp_lt _ _ _ Ho) as Holt.
  unfold spillToWire.
  set (m := length (irOps st)).
  set (ty := getType st (OpResult o i)).
  set (c1 := createOp st builder decl [] [InOutType ty] attrs).
  assert (E1 : c1 = (fst c1, m)) by (by rewrite (surjective_pairing c1)).
  rewrite E1. cbv beta iota.
  set (st1 := fst c1) in *.
  assert (H1len : length (irOps st1) = S m) by apply length_createOp.
  assert (H1old : forall n, n < m -> getOp st1 n = getOp st n)
    by (intros; by apply getOp_createOp_old).
  assert (H1new : getOp st1 m = Some (mkOperation decl [] [InOutType ty] attrs [] (fst <$> builder)))
    by apply getOp_createOp_new.
  assert (H1uses : getUses st1 (OpResult o i) = getUses st (OpResult o i)).
  { unfold st1, c1. rewrite getUses_createOp. simpl. by rewrite app_nil_r. }
  assert (H1o : getOp st1 o = Some x0) by (by rewrite H1old).
  assert (H1ty : getResultType st1 o i = getResultType st o i).
  { unfold getResultType. by rewrite H1o, Ho. }
  pose proof (replaceUsesWithReads_post st1 builder (OpResult m 0) o i x0 H1o) as R.
  rewrite H1uses, H1ty in R.
  set (uses := getUses st (OpResult o i)) in *.
  set (st2 := replaceUsesWithReads st1 builder (OpResult m 0) (OpResult o i)) in *.
  pose proof (rp_len _ _ _ _ _ R) as H2len. rewrite H1len in H2len.
  set (c3 := createOp st2 builder assign [OpResult m 0; OpResult o i] [] []).
  assert (E3 : c3 = (fst c3, S m + length uses)).
  { rewrite (surjective_pairing c3). f_equal. unfold c3. by rewrite createOp_snd. }
  rewrite E3. cbv beta iota.
  set (st3 := fst c3) in *.
  assert (H3len : length (irOps st3) = S (S m + length uses)).
  { unfold st3, c3. by rewrite length_createOp, H2len. }
  assert (H3old : forall n, n < S m + length uses -> getOp st3 n = getOp st2 n).
  { intros n Hn. apply getOp_createOp_old. lia. }
  assert (H3new : getOp st3 (S m + length uses) =
            Some (mkOperation assign [OpResult m 0; OpResult o i] [] [] [] (fst <$> builder))).
  { rewrite <- H2len. apply getOp_createOp_new. }
  set (st4 := moveAfter st3 (S m + length uses) op).
  set (st5 := if moveDecl then moveAfter st4 m op else st4).
  assert (H4ne : forall n, n <> S m + length uses -> getOp st4 n = getOp st3 n)
    by (intros; by apply getOp_moveAfter_ne).
  assert (H5ne : forall n, n <> m -> getOp st5 n = getOp st4 n).
  { intros n Hn. unfold st5. destruct moveDecl; [|done]. by apply getOp_moveAfter_ne. }
  assert (H5same : sameOperations st3 st5).
  { unfold st5. destruct moveDecl.
    - eapply sameOperations_trans; apply sameOperations_moveAfter.
    - apply sameOperations_moveAfter. }
  assert (H5slot : forall u, slot st5 u =
            if bool_decide (fst u = S m + length uses)
            then [OpResult m 0; OpResult o i] !! snd u else slot st2 u).
  { intros u. rewrite (slot_sameOperations _ _ _ H5same). unfold st3, c3.
    rewrite slot_createOp. by rewrite H2len. }
  assert (H2slot_old : forall u, fst u < m -> u ∉ uses -> slot st2 u = slot st u).
  { intros u Hu Hn. rewrite (rp_kept _ _ _ _ _ R) by (rewrite ?H1len; done || lia).
    unfold st1, c1. by rewrite slot_createOp_old. }
  constructor; fold m; fold uses.
  - destruct H5same as [<- _]. lia.
  - intros n x Hx. pose proof (getOp_lt _ _ _ Hx) as Hn. fold m in Hn.
    rewrite H5ne, H4ne, H3old by lia.
    apply (rp_old _ _ _ _ _ R). by rewrite H1old.
  - intros n Hn Hx. rewrite H5ne, H4ne, H3old by lia.
    apply (rp_none _ _ _ _ _ R); [lia|]. by rewrite H1old.
  - intros u Hu Hn. rewrite H5slot. rewrite bool_decide_eq_false_2 by lia.
    by apply H2slot_old.
  - intros k u Hk. rewrite H5slot.
    assert (fst u < m).
    { apply list_elem_of_lookup_2, getUses_slot, slot_lt in Hk. done. }
    rewrite bool_decide_eq_false_2 by lia.
    rewrite (rp_set _ _ _ _ _ R k u Hk). rewrite H1len. do 2 f_equal. lia.
  - destruct (rp_old _ _ _ _ _ R _ _ H1new) as (y & Hy & Hyx & Hyl).
    destruct (sameOperations_getOp _ _ m y H5same) as (w & Hw & Hwd).
    { by rewrite H3old by lia. }
    exists w. split; [done|].
    apply detached_fields in Hwd as (-> & -> & -> & -> & _).
    apply unwired_fields in Hyx as (-> & -> & -> & _). simpl in *.
    destruct (opOperands y); [|done]. done.
  - intros k Hk. destruct (rp_reads _ _ _ _ _ R k Hk) as (y & Hy & Hyn & Hyo & Hyt & _).
    rewrite H1len in Hy. replace (S m + k) with (m + 1 + k) in Hy by lia.
    exists y. split; [|done]. rewrite H5ne, H4ne, H3old by lia. done.
  - destruct (sameOperations_getOp _ _ _ _ H5same H3new) as (a & Ha & Had).
    exists a. replace (m + length uses + 1) with (S m + length uses) by lia.
    split; [done|]. by apply detached_fields in Had as (-> & -> & -> & _).
Qed.

(** The spilled result has one use left, the assign. *)
Lemma SpillPost_result_use decl attrs assign o i st st' :
  o < length (irOps st) ->
  SpillPost decl attrs assign o i st st' ->
  getUses st' (OpResult o i) =
    [(length (irOps st) + length (getUses st (OpResult o i)) + 1, 1)].
Proof.
  intros Ho P. set (m := length (irOps st)) in *. set (uses := getUses st (OpResult o i)) in *.
  destruct (sp_decl _ _ _ _ _ _ _ P) as (w & Hw & _ & Hwo & _).
  destruct (sp_assign _ _ _ _ _ _ _ P) as (a & Ha & _ & Hao & _).
  fold m in Hw, Ha. fold uses in Ha.
  apply getUses_singleton. intros [n k]. split.
  - intros Hs. pose proof (slot_lt _ _ _ Hs) as Hn. simpl in Hn.
    rewrite (sp_len _ _ _ _ _ _ _ P) in Hn. fold m uses in Hn.
    destruct (decide (n < m)) as [Hlt|Hge].
    + exfalso. destruct (decide ((n, k) ∈ uses)) as [Hin|Hnin].
      * apply list_elem_of_lookup in Hin as [j Hj].
        rewrite (sp_set _ _ _ _ _ _ _ P j _ Hj) in Hs. injection Hs as Hs. fold m in Hs. lia.
      * rewrite (sp_kept _ _ _ _ _ _ _ P) in Hs by done.
        apply Hnin. by apply getUses_slot.
    + destruct (decide (n = m)) as [->|Hnm].
      { unfold slot in Hs. simpl in Hs. rewrite Hw in Hs. simpl in Hs. by rewrite Hwo in Hs. }
      destruct (decide (n = m + length uses + 1)) as [->|Hna].
      { unfold slot in Hs. simpl in Hs. rewrite Ha in Hs. simpl in Hs. rewrite Hao in Hs.
        destruct k as [|[|k]]; simpl in Hs; [|done|done].
        injection Hs as Hs. lia. }
      exfalso. destruct (sp_reads _ _ _ _ _ _ _ P (n - m - 1)) as (y & Hy & _ & Hyo & _);
        [fold uses; lia|]. fold m in Hy, Hyo.
      replace (m + 1 + (n - m - 1)) with n in Hy by lia.
      unfold slot in Hs. simpl in Hs. rewrite Hy in Hs. simpl in Hs. rewrite Hyo in Hs.
      destruct k; simpl in Hs; [|done]. injection Hs as Hs. lia.
  - intros [= -> ->]. unfold slot. simpl. rewrite Ha. simpl. by rewrite Hao.
Qed.

(** The slots that hold another value of [st] are the same. *)
Lemma SpillPost_other_slots decl attrs assign o i st st' v u :
  SpillPost decl attrs assign o i st st' ->
  isOldValue (length (irOps st)) v -> v <> OpResult o i ->
  slot st' u = Some v <-> slot st u = Some v.
Proof.
  intros P Hold Hne. set (m := length (irOps st)) in *.
  set (uses := getUses st (OpResult o i)) in *.
  destruct (sp_decl _ _ _ _ _ _ _ P) as (w & Hw & _ & Hwo & _).
  destruct (sp_assign _ _ _ _ _ _ _ P) as (a & Ha & _ & Hao & _).
  fold m in Hw, Ha. fold uses in Ha.
  assert (Hvm : forall n j, m <= n -> v <> OpResult n j).
  { intros n j Hn ->. simpl in Hold. lia. }
  destruct u as [n k].
  destruct (decide (n < m)) as [Hlt|Hge].
  - destruct (decide ((n, k) ∈ uses)) as [Hin|Hnin].
    + split; intros Hs; exfalso.
      * apply list_elem_of_lookup in Hin as [j Hj].
        rewrite (sp_set _ _ _ _ _ _ _ P j _ Hj) in Hs. injection Hs as Hs.
        symmetry in Hs. revert Hs. apply Hvm. fold m. lia.
      * apply getUses_slot in Hin. congruence.
    + by rewrite (sp_kept _ _ _ _ _ _ _ P).
  - split; intros Hs; exfalso.
    + pose proof (slot_lt _ _ _ Hs) as Hn. simpl in Hn.
      rewrite (sp_len _ _ _ _ _ _ _ P) in Hn. fold m uses in Hn.
      destruct (decide (n = m)) as [->|Hnm].
      { unfold slot in Hs. simpl in Hs. rewrite Hw in Hs. simpl in Hs. by rewrite Hwo in Hs. }
      destruct (decide (n = m + length uses + 1)) as [->|Hna].
      { unfold slot in Hs. simpl in Hs. rewrite Ha in Hs. simpl in Hs. rewrite Hao in Hs.
        destruct k as [|[|k]]; simpl in Hs; [| |done]; injection Hs as Hs.
        - symmetry in Hs. revert Hs. by apply Hvm.
        - congruence. }
      destruct (sp_reads _ _ _ _ _ _ _ P (n - m - 1)) as (y & Hy & _ & Hyo & _);
        [fold uses; lia|]. fold m in Hy, Hyo.
      replace (m + 1 + (n - m - 1)) with n in Hy by lia.
      unfold slot in Hs. simpl in Hs. rewrite Hy in Hs. simpl in Hs. rewrite Hyo in Hs.
      destruct k; simpl in Hs; [|done]. injection Hs as Hs.
      symmetry in Hs. revert Hs. by apply Hvm.
    + apply slot_lt in Hs. simpl in Hs. fold m in Hs. lia.
Qed.

Lemma slot_getOperands st u : slot st u = getOperands st (fst u) !! snd u.
Proof. unfold slot, getOperands. by destruct (getOp st (fst u)). Qed.

Lemma getUses_ext_operands st st' v :
  length (irOps st') = length (irOps st) ->
  (forall n, opOperands <$> getOp st' n = opOperands <$> getOp st n) ->
  getUses st' v = getUses st v.
Proof.
  intros Hlen H. unfold getUses. apply usesFrom_ext.
  apply Forall2_same_length_lookup. split; [done|].
  intros n a b Ha Hb. specialize (H n). unfold getOp in H.
  rewrite Ha, Hb in H. by destruct a, b.
Qed.

Lemma getUses_removeAttr st o name v : getUses (removeAttr st o name) v = getUses st v.
Proof.
  apply getUses_ext_operands; [apply length_removeAttr|].
  intros n. rewrite getOp_removeAttr. case_bool_decide as H; [|done].
  rewrite H. by destruct (getOp st o).
Qed.

Lemma createWireForResult_spillToWire st op builder isProceduralRegion emit result name :
  createWireForResult st op builder isProceduralRegion emit result name =
    spillToWire st builder (if isProceduralRegion then LogicOp else WireOp) (optAttr "name" name)
      (if isProceduralRegion then BPAssignOp else AssignOp) result op (negb emit).
Proof. reflexivity. Qed.

(** X7.  [lowerUsersToTemporaryWire] on an operation with one result
    creates one declaration (a logic in a procedural region, a wire
    otherwise) that takes the inferred name, one read of it for each use of
    the result, and one assign (blocking in a procedural region): each
    former use reads the declaration, the assign is the only use of the
    result left, the operation loses its name hint, and no other operand of
    the graph changes. *)
Theorem temporary_wire_takes_over_uses (O : Oracle) (st : IR) (op : OpId)
    (emitWireAtBlockBegin : bool) (o : Operation) (block : BlockId) (parent : OpId) :
  getOp st op = Some o ->
  length (opResultTypes o) = 1 ->
  getBlock st op = Some block ->
  getParentOp st op = Some parent ->
  let m := length (irOps st) in
  let uses := getUses st (OpResult op 0) in
  let procedural := hasProceduralRegionTrait O st parent in
  exists st',
    lowerUsersToTemporaryWire O st op emitWireAtBlockBegin = Ok st' /\
    length (irOps st') = m + length uses + 2 /\
    (exists w, getOp st' m = Some w /\
       opName w = (if procedural then LogicOp else WireOp) /\
       opOperands w = [] /\
       opResultTypes w = [InOutType (getResultType st op 0)] /\
       opAttrs w = optAttr "name" (inferStructuralNameForTemporary O st (OpResult op 0))) /\
    (forall k u, uses !! k = Some u ->
       getOperands st' (fst u) !! snd u = Some (OpResult (m + 1 + k) 0) /\
       exists r, getOp st' (m + 1 + k) = Some r /\ opName r = ReadInOutOp /\
         opOperands r = [OpResult m 0] /\ opResultTypes r = [getResultType st op 0]) /\
    (exists a, getOp st' (m + length uses + 1) = Some a /\
       opName a = (if procedural then BPAssignOp else AssignOp) /\
       opOperands a = [OpResult m 0; OpResult op 0]) /\
    getUses st' (OpResult op 0) = [(m + length uses + 1, 1)] /\
    getAttr st' op "sv.namehint" = None /\
    (forall u, fst u < m -> u ∉ uses ->
       getOperands st' (fst u) !! snd u = getOperands st (fst u) !! snd u).
Proof.
  intros Ho Hres Hblock Hparent m uses procedural.
  unfold lowerUsersToTemporaryWire. rewrite Hblock, Hparent.
  cbv beta iota delta [mbind Res_bind fromOption].
  assert (Hn : getNumResults st op = 1) by (unfold getNumResults; by rewrite Ho).
  rewrite Hn. cbn [Nat.eqb]. fold procedural.
  rewrite createWireForResult_spillToWire.
  set (st0 := removeAttr st op "sv.namehint").
  assert (H0len : length (irOps st0) = m) by apply length_removeAttr.
  assert (H0uses : getUses st0 (OpResult op 0) = uses) by apply getUses_removeAttr.
  assert (H0op : getOp st0 op = Some (withAttrs o (dropAttr "sv.namehint" (opAttrs o)))).
  { unfold st0. rewrite getOp_removeAttr, bool_decide_eq_true_2 by done. by rewrite Ho. }
  assert (H0ty : getResultType st0 op 0 = getResultType st op 0).
  { unfold getResultType. by rewrite H0op, Ho. }
  pose proof (spillToWire_post st0 (atBlockBegin st block)
                (if procedural then LogicOp else WireOp)
                (optAttr "name" (inferStructuralNameForTemporary O st (OpResult op 0)))
                (if procedural then BPAssignOp else AssignOp) op 0 op
                (negb emitWireAtBlockBegin) _ H0op) as P.
  eexists. split; [reflexivity|].
  pose proof (sp_len _ _ _ _ _ _ _ P) as Hlen. rewrite H0len, H0uses in Hlen.
  split; [done|]. split.
  { destruct (sp_decl _ _ _ _ _ _ _ P) as (w & Hw & Hrest). rewrite H0len, H0ty in *.
    by exists w. }
  split.
  { intros k u Hk. rewrite <- H0uses in Hk. rewrite <- slot_getOperands.
    rewrite (sp_set _ _ _ _ _ _ _ P k u Hk), H0len. split; [done|].
    destruct (sp_reads _ _ _ _ _ _ _ P k) as (y & Hy & Hrest).
    { by apply lookup_lt_Some in Hk. }
    rewrite H0len, H0ty in *. by exists y. }
  split.
  { destruct (sp_assign _ _ _ _ _ _ _ P) as (a & Ha & Han & Hao & _).
    rewrite H0len, H0uses in *. by exists a. }
  split.
  { rewrite (SpillPost_result_use _ _ _ _ _ _ _ ltac:(rewrite H0len; by apply getOp_lt in Ho) P).
    by rewrite H0len, H0uses. }
  split.
  { destruct (sp_old _ _ _ _ _ _ _ P _ _ H0op) as (y & Hy & Hyx & _).
    unfold getAttr. rewrite Hy. simpl.
    apply unwired_fields in Hyx as (_ & _ & -> & _). simpl.
    apply lookupAttr_dropAttr_eq. }
  intros u Hu Hnin. rewrite <- !slot_getOperands.
  rewrite (sp_kept _ _ _ _ _ _ _ P) by (rewrite ?H0len, ?H0uses; done).
  apply slot_removeAttr.
Qed.

Lemma temporary_wire_takes_over_uses_witness :
  exists st',
    lowerUsersToTemporaryWire sampleOracle sampleAdd5 1 false = Ok st' /\
    getUses sampleAdd5 (OpResult 1 0) = [(2, 0)] /\
    getOperands st' 2 !! 0 = Some (OpResult 4 0) /\
    getUses st' (OpResult 1 0) = [(5, 1)] /\
    getAttr st' 1 "sv.namehint" = None.
Proof.
  destruct (temporary_wire_takes_over_uses sampleOracle sampleAdd5 1 false _ 0 0
              eq_refl eq_refl eq_refl eq_refl)
    as (st' & H1 & _ & _ & H4 & _ & H6 & H7 & _).
  exists st'. split; [exact H1|]. split; [reflexivity|].
  split; [exact (proj1 (H4 0 (2, 0) eq_refl))|]. split; [exact H6|exact H7].
Defined.

(** A loop over the ports with their numbers, with an invariant. *)
Lemma foldRes_imap_offset {A B} (f : A -> nat * B -> Res A) (P : nat -> A -> Prop) :
  forall (l : list B) k a,
  P k a ->
  (forall i p a, l !! i = Some p -> P (k + i) a ->
     exists a', f a (k + i, p) = Ok a' /\ P (S (k + i)) a') ->
  exists a', foldRes f a (imap (fun i p => (k + i, p)) l) = Ok a' /\ P (k + length l) a'.
Proof.
  induction l as [|x l IH]; intros k a Ha Hstep.
  - exists a. split; [done|]. by rewrite Nat.add_0_r.
  - rewrite imap_cons. cbn [foldRes].
    destruct (Hstep 0 x a eq_refl) as (a1 & Hf & Ha1); [by rewrite Nat.add_0_r|].
    rewrite Hf. cbv beta iota delta [mbind Res_bind].
    rewrite Nat.add_0_r in Ha1.
    destruct (IH (S k) a1 Ha1) as (a' & Hfold & Ha').
    { intros i p a2 Hi Ha2. replace (S k + i) with (k + S i) in * by lia.
      by apply Hstep. }
    exists a'. split.
    + rewrite <- Hfold. f_equal. apply imap_ext. intros i p _. simpl. f_equal. lia.
    + by replace (k + length (x :: l)) with (S k + length l) by (simpl; lia).
Qed.

Lemma foldRes_imap {A B} (f : A -> nat * B -> Res A) (P : nat -> A -> Prop)
    (l : list B) (a : A) :
  P 0 a ->
  (forall i p a, l !! i = Some p -> P i a -> exists a', f a (i, p) = Ok a' /\ P (S i) a') ->
  exists a', foldRes f a (imap (fun i p => (i, p)) l) = Ok a' /\ P (length l) a'.
Proof.
  intros Ha Hstep.
  apply (foldRes_imap_offset f P l 0 a Ha). intros i p a0. apply Hstep.
Qed.

Lemma isa_unwired st st' n x y l :
  getOp st n = Some x -> getOp st' n = Some y -> withOperands y [] = withOperands x [] ->
  isa st' n l = isa st n l.
Proof.
  intros Hx Hy H. unfold isa. rewrite Hx, Hy.
  by apply unwired_fields in H as (-> & _).
Qed.

(** X8.  After [lowerInstanceResults] every result of the instance that
    has an output port has exactly one use, by the output of the module or by
    a continuous assign. *)
Theorem instance_results_are_anchored (O : Oracle) (st : IR) (op : OpId) (inst : Operation)
    (block : BlockId) :
  getOp st op = Some inst ->
  getModuleBodyBlock st op = Some block ->
  length (snd (getModulePortInfo O inst)) <= length (opResultTypes inst) ->
  exists st',
    lowerInstanceResults O st op = Ok st' /\
    forall i, i < length (snd (getModulePortInfo O inst)) ->
      exists u, getUses st' (OpResult op i) = [u] /\
        isa st' (fst u) [OutputOp; AssignOp] = true.
Proof.
  intros Hinst Hblock _.
  unfold lowerInstanceResults. rewrite Hblock, Hinst.
  cbv beta iota delta [mbind Res_bind fromOption].
  set (P := fun (i : nat) (s : IR) =>
    is_Some (getOp s op) /\
    forall j, j < i -> exists u, getUses s (OpResult op j) = [u] /\
      isa s (fst u) [OutputOp; AssignOp] = true).
  match goal with |- exists st', foldRes ?f _ _ = _ /\ _ =>
    destruct (foldRes_imap f P (snd (getModulePortInfo O inst)) st) as (st' & Hfold & Hst')
  end.
  - split; [by eauto|]. intros j Hj. lia.
  - intros i p s Hp [[x Hx] Hprev]. cbv beta iota.
    pose proof (getOp_lt _ _ _ Hx) as Hoplt.
    (* the earlier results after a step that keeps the operations *)
    assert (Hsame : forall s', sameOperations s s' ->
              (exists u, getUses s (OpResult op i) = [u] /\
                 isa s (fst u) [OutputOp; AssignOp] = true) ->
              P (S i) s').
    { intros s' Hs' (u & Hu & Hisa). split.
      - destruct (sameOperations_getOp _ _ _ _ Hs' Hx) as (y & Hy & _). by eauto.
      - intros j Hj. destruct (decide (j = i)) as [->|Hne].
        + exists u. by rewrite (sameOperations_getUses _ _ _ Hs'), (sameOperations_isa _ _ _ _ Hs').
        + destruct (Hprev j ltac:(lia)) as (uj & Huj & Hisaj). exists uj.
          by rewrite (sameOperations_getUses _ _ _ Hs'), (sameOperations_isa _ _ _ _ Hs'). }
    assert (Hspill :
      let s' := spillToWire s (builderAt s (blockBegin st block)) WireOp
                  [("name"%string, StringAttr (portWireName (instancePrefix O st op) p i))]
                  AssignOp (OpResult op i) op false in
      P (S i) s').
    { intros s'.
      pose proof (spillToWire_post s (builderAt s (blockBegin st block)) WireOp
                    [("name"%string, StringAttr (portWireName (instancePrefix O st op) p i))]
                    AssignOp op i op false x Hx) as Q. fold s' in Q.
      split.
      - destruct (sp_old _ _ _ _ _ _ _ Q _ _ Hx) as (y & Hy & _). by eauto.
      - intros j Hj. destruct (decide (j = i)) as [->|Hne].
        + eexists. split; [by apply (SpillPost_result_use _ _ _ _ _ _ _ Hoplt Q)|].
          destruct (sp_assign _ _ _ _ _ _ _ Q) as (a & Ha & Han & _).
          unfold isa. cbn [fst]. rewrite Ha, Han. done.
        + destruct (Hprev j ltac:(lia)) as (uj & Huj & Hisaj). exists uj.
          assert (Hslot : slot s uj = Some (OpResult op j)).
          { apply getUses_slot. rewrite Huj. by left. }
          split.
          * apply (getUses_singleton_ext s); [|done]. intros u'.
            apply (SpillPost_other_slots _ _ _ _ _ _ _ _ _ Q); [simpl; lia|congruence].
          * unfold slot in Hslot. destruct (getOp s (fst uj)) as [xj|] eqn:Exj; [|done].
            destruct (sp_old _ _ _ _ _ _ _ Q _ _ Exj) as (yj & Hyj & Hyx & _).
            by rewrite (isa_unwired s s' _ xj yj). }
    destruct (getUses s (OpResult op i)) as [|use [|use2 rest]] eqn:Euses.
    + eexists. split; [reflexivity|]. exact Hspill.
    + destruct (isa s (fst use) [OutputOp]) eqn:Eout.
      { exists s. split; [done|]. apply Hsame; [apply sameOperations_refl|].
        exists use. split; [done|]. unfold isa in *.
        destruct (getOp s (fst use)); [|done]. apply bool_decide_eq_true in Eout.
        apply bool_decide_eq_true. apply list_elem_of_singleton in Eout. rewrite Eout. by left. }
      destruct (isa s (fst use) [AssignOp]) eqn:Eassign.
      { eexists. split; [reflexivity|]. apply Hsame; [apply sameOperations_moveAfter|].
        exists use. split; [done|]. unfold isa in *.
        destruct (getOp s (fst use)); [|done]. apply bool_decide_eq_true in Eassign.
        apply bool_decide_eq_true. apply list_elem_of_singleton in Eassign. rewrite Eassign.
        right. by left. }
      eexists. split; [reflexivity|]. exact Hspill.
    + eexists. split; [reflexivity|]. exact Hspill.
  - exists st'. split; [exact Hfold|]. apply Hst'.
Qed.

Lemma instance_results_are_anchored_witness :
  exists st',
    lowerInstanceResults instanceOracle sampleInstance 1 = Ok st' /\
    forall i, i < 2 ->
      exists u, getUses st' (OpResult 1 i) = [u] /\
        isa st' (fst u) [OutputOp; AssignOp] = true.
Proof.
  apply (instance_results_are_anchored instanceOracle sampleInstance 1 _ 0 eq_refl eq_refl).
  simpl. lia.
Defined.

Lemma keepsOthers_refl op st : keepsOthers op st st.
Proof. intros n x _ Hx. by exists x. Qed.

Lemma keepsOthers_trans op st1 st2 st3 :
  keepsOthers op st1 st2 -> keepsOthers op st2 st3 -> keepsOthers op st1 st3.
Proof.
  intros H1 H2 n x Hn Hx. destruct (H1 n x Hn Hx) as (y & Hy & Hyx).
  destruct (H2 n y Hn Hy) as (z & Hz & Hzy). exists z. split; [done|]. congruence.
Qed.

Lemma isa_detached st s n x y l :
  getOp st n = Some x -> getOp s n = Some y -> detached y = detached x ->
  isa s n l = isa st n l.
Proof.
  intros Hx Hy H. unfold isa. rewrite Hx, Hy. by apply detached_fields in H as (-> & _).
Qed.

(** A simple read stays simple when the other operations are kept, [op]
    being neither a read nor a declaration. *)
Lemma isSimpleReadOrPort_kept op st s v :
  keepsOthers op st s ->
  isa st op [ReadInOutOp] = false ->
  isa st op [WireOp; RegOp; LogicOp; XMROp; XMRRefOp] = false ->
  isSimpleReadOrPort st v = true -> isSimpleReadOrPort s v = true.
Proof.
  intros Hk Hop1 Hop2. destruct v as [b j|r j]; [done|]. cbn [isSimpleReadOrPort].
  destruct (isa st r [ReadInOutOp]) eqn:Er; [|done].
  assert (Hr : r <> op) by (intros ->; congruence).
  assert (exists x, getOp st r = Some x) as [x Ex].
  { unfold isa in Er. destruct (getOp st r); [by eauto|done]. }
  destruct (Hk r x Hr Ex) as (y & Hy & Hyx).
  rewrite (isa_detached st s r x y _ Ex Hy Hyx), Er.
  unfold getOperands. rewrite Ex, Hy.
  apply detached_fields in Hyx as (_ & -> & _).
  destruct (opOperands x !! 0) as [[b' j'|src j']|]; [done| |done].
  intros Hsrc.
  assert (Hs : src <> op) by (intros ->; congruence).
  assert (exists xs, getOp st src = Some xs) as [xs Exs].
  { unfold isa in Hsrc. destruct (getOp st src); [by eauto|done]. }
  destruct (Hk src xs Hs Exs) as (ys & Hys & Hysx).
  by rewrite (isa_detached st s src xs ys _ Exs Hys Hysx).
Qed.

Lemma isa_InstanceOp_not st op inst l :
  getOp st op = Some inst -> opName inst = InstanceOp -> InstanceOp ∉ l -> isa st op l = false.
Proof.
  intros Hx Hn Hl. unfold isa. rewrite Hx, Hn. by apply bool_decide_eq_false.
Qed.

(** X9.  After [spillWiresForInstanceInputs] every input of the instance
    is a port or a read of a wire, a reg, a logic or a hierarchical
    reference; an input that was one already is left as it was, the operands
    beyond the input ports are untouched, and the other operations of the
    graph are kept. *)
Theorem instance_inputs_are_wires_or_ports (O : Oracle) (st : IR) (op : OpId)
    (inst : Operation) (block : BlockId) :
  getOp st op = Some inst ->
  opName inst = InstanceOp ->
  getModuleBodyBlock st op = Some block ->
  length (fst (getModulePortInfo O inst)) <= length (opOperands inst) ->
  exists st',
    spillWiresForInstanceInputs O st op = Ok st' /\
    (forall i, i < length (fst (getModulePortInfo O inst)) ->
       exists v, getOperands st' op !! i = Some v /\ isSimpleReadOrPort st' v = true) /\
    (forall i v, opOperands inst !! i = Some v -> isSimpleReadOrPort st v = true ->
       getOperands st' op !! i = Some v) /\
    (forall i, length (fst (getModulePortInfo O inst)) <= i ->
       getOperands st' op !! i = opOperands inst !! i) /\
    keepsOthers op st st'.
Proof.
  intros Hinst Hname Hblock Hports.
  assert (Hop1 : isa st op [ReadInOutOp] = false).
  { apply (isa_InstanceOp_not _ _ inst); [done..|].
    intros H. apply list_elem_of_singleton in H. discriminate. }
  assert (Hop2 : isa st op [WireOp; RegOp; LogicOp; XMROp; XMRRefOp] = false).
  { apply (isa_InstanceOp_not _ _ inst); [done..|].
    intros H. repeat (apply elem_of_cons in H as [H|H]; [discriminate|]).
    by apply elem_of_nil in H. }
  unfold spillWiresForInstanceInputs. rewrite Hblock, Hinst.
  cbv beta iota delta [mbind Res_bind fromOption].
  set (P := fun (i : nat) (s : IR) =>
    (exists y, getOp s op = Some y /\ opName y = InstanceOp /\
       length (opOperands y) = length (opOperands inst)) /\
    (forall j, j < i -> exists v, getOperands s op !! j = Some v /\
       isSimpleReadOrPort s v = true) /\
    (forall j v, opOperands inst !! j = Some v -> isSimpleReadOrPort st v = true ->
       getOperands s op !! j = Some v) /\
    (forall j, i <= j -> getOperands s op !! j = opOperands inst !! j) /\
    keepsOthers op st s).
  match goal with |- exists st', foldRes ?f _ _ = _ /\ _ =>
    destruct (foldRes_imap f P (fst (getModulePortInfo O inst)) st) as (st' & Hfold & Hst')
  end.
  - split; [by exists inst|]. split; [intros j Hj; lia|].
    split; [by intros j v Hj _; unfold getOperands; rewrite Hinst|].
    split; [by intros j _; unfold getOperands; rewrite Hinst|]. apply keepsOthers_refl.
  - intros i p s Hp ((y & Hy & Hyn & Hyl) & Hprev & Hsimple & Hrest & Hkeep). cbv beta iota.
    assert (Hi : i < length (opOperands inst)).
    { apply lookup_lt_Some in Hp. lia. }
    destruct (opOperands inst !! i) as [src|] eqn:Esrc; [|by apply lookup_ge_None in Esrc; lia].
    assert (Hsrc : getOperands s op !! i = Some src) by (by rewrite Hrest).
    rewrite Hsrc. cbv beta iota.
    destruct (isSimpleReadOrPort s src) eqn:Esimple.
    { exists s. split; [done|]. split; [by exists y|]. split.
      { intros j Hj. destruct (decide (j = i)) as [->|Hne]; [by exists src|]. apply Hprev. lia. }
      split; [done|]. split; [|done]. intros j Hj. apply Hrest. lia. }
    pose proof (getOp_lt _ _ _ Hy) as Hoplt.
    set (m := length (irOps s)) in *.
    set (name := portWireName (instancePrefix O st op) p i).
    set (c1 := createOp s (atBlockBegin st block) WireOp [] [InOutType (getType s src)]
                 [("name"%string, StringAttr name)]).
    assert (E1 : c1 = (fst c1, m)) by (by rewrite (surjective_pairing c1)).
    rewrite E1. cbv beta iota. set (s1 := fst c1) in *.
    assert (H1len : length (irOps s1) = S m) by apply length_createOp.
    set (c2 := createOp s1 (atBlockBegin st block) ReadInOutOp [OpResult m 0] [getType s1 src] []).
    assert (E2 : c2 = (fst c2, S m)).
    { rewrite (surjective_pairing c2). f_equal. unfold c2. by rewrite createOp_snd. }
    rewrite E2. cbv beta iota. set (s2 := fst c2) in *.
    assert (H2len : length (irOps s2) = S (S m)).
    { unfold s2, c2. by rewrite length_createOp, H1len. }
    set (c3 := createOp s2 (atBlockBegin st block) AssignOp [OpResult m 0; src] [] []).
    assert (E3 : c3 = (fst c3, S (S m))).
    { rewrite (surjective_pairing c3). f_equal. unfold c3. by rewrite createOp_snd. }
    rewrite E3. cbv beta iota. set (s3 := fst c3) in *.
    assert (H3old : forall n, n < m -> getOp s3 n = getOp s n).
    { intros n Hn. unfold s3, c3. rewrite getOp_createOp_old by lia.
      unfold s2, c2. rewrite getOp_createOp_old by lia.
      unfold s1, c1. by rewrite getOp_createOp_old. }
    assert (H3wire : exists w, getOp s3 m = Some w /\ opName w = WireOp).
    { unfold s3, c3. rewrite getOp_createOp_old by lia.
      unfold s2, c2. rewrite getOp_createOp_old by lia.
      unfold s1, c1, m. rewrite getOp_createOp_new. by eauto. }
    assert (H3read : exists r, getOp s3 (S m) = Some r /\ opName r = ReadInOutOp /\
                       opOperands r = [OpResult m 0]).
    { unfold s3, c3. rewrite getOp_createOp_old by lia.
      unfold s2, c2. rewrite <- H1len. rewrite getOp_createOp_new. by eauto. }
    set (s4 := moveBefore s3 (S m) op).
    set (s5 := moveBefore s4 (S (S m)) op).
    set (s6 := setOperand s5 (op, i) (OpResult (S m) 0)).
    assert (H35 : sameOperations s3 s5).
    { eapply sameOperations_trans; apply sameOperations_moveBefore. }
    assert (H5ne : forall n, n <> S m -> n <> S (S m) -> getOp s5 n = getOp s3 n).
    { intros n H1 H2. unfold s5. rewrite getOp_moveBefore_ne by done.
      unfold s4. by rewrite getOp_moveBefore_ne. }
    assert (H6ne : forall n, n <> op -> getOp s6 n = getOp s5 n).
    { intros n Hn. unfold s6. rewrite getOp_setOperand. by rewrite bool_decide_eq_false_2. }
    assert (H6op : getOp s6 op =
              Some (withOperands y (<[i := OpResult (S m) 0]> (opOperands y)))).
    { unfold s6. rewrite getOp_setOperand, bool_decide_eq_true_2 by done. cbn [fst snd].
      rewrite H5ne, H3old by lia. by rewrite Hy. }
    assert (Hk6 : keepsOthers op s s6).
    { intros n x Hn Hx. pose proof (getOp_lt _ _ _ Hx). fold m in H.
      exists x. rewrite H6ne, H5ne, H3old by lia. done. }
    exists s6. split; [done|].
    split; [eexists; split; [exact H6op|]; simpl; by rewrite length_insert|].
    assert (Hops6 : forall j, getOperands s6 op !! j =
              if bool_decide (j = i) then Some (OpResult (S m) 0) else getOperands s op !! j).
    { intros j. unfold getOperands. rewrite H6op, Hy. simpl. case_bool_decide as Hj.
      - subst j. apply list_lookup_insert_eq. lia.
      - by rewrite list_lookup_insert_ne. }
    assert (Hsop1 : isa s op [ReadInOutOp] = false).
    { apply (isa_InstanceOp_not _ _ y); [done..|].
      intros H. apply list_elem_of_singleton in H. discriminate. }
    assert (Hsop2 : isa s op [WireOp; RegOp; LogicOp; XMROp; XMRRefOp] = false).
    { apply (isa_InstanceOp_not _ _ y); [done..|].
      intros H. repeat (apply elem_of_cons in H as [H|H]; [discriminate|]).
      by apply elem_of_nil in H. }
    split.
    { intros j Hj. rewrite Hops6. case_bool_decide as Hji.
      - eexists. split; [done|]. simpl.
        destruct H3read as (r & Hr & Hrn & Hro). destruct H3wire as (w & Hw & Hwn).
        destruct (sameOperations_getOp _ _ _ _ H35 Hr) as (r5 & Hr5 & Hrd).
        apply detached_fields in Hrd as (Hrn5 & Hro5 & _).
        unfold isa, getOperands. rewrite !H6ne by lia. rewrite Hr5, Hrn5, Hrn, Hro5, Hro.
        simpl. rewrite H6ne, H5ne by lia. rewrite Hw, Hwn. done.
      - destruct (Hprev j ltac:(lia)) as (v & Hv & Hvs). exists v. split; [done|].
        by apply (isSimpleReadOrPort_kept op s s6). }
    split.
    { intros j v Hj Hv. rewrite Hops6. case_bool_decide as Hji; [|by apply Hsimple].
      subst j. exfalso. rewrite Esrc in Hj. injection Hj as ->.
      apply (isSimpleReadOrPort_kept op st s) in Hv; [congruence|done..]. }
    split.
    { intros j Hj. rewrite Hops6, bool_decide_eq_false_2 by lia. apply Hrest. lia. }
    by apply (keepsOthers_trans op st s s6).
  - exists st'. split; [exact Hfold|].
    destruct Hst' as (_ & H1 & H2 & H3 & H4). done.
Qed.

Lemma instance_inputs_are_wires_or_ports_witness :
  exists st',
    spillWiresForInstanceInputs instanceOracle sampleInstanceInput 2 = Ok st' /\
    isSimpleReadOrPort sampleInstanceInput (OpResult 1 0) = false /\
    exists v, getOperands st' 2 !! 0 = Some v /\ isSimpleReadOrPort st' v = true.
Proof.
  destruct (instance_inputs_are_wires_or_ports instanceOracle sampleInstanceInput 2 _ 0
              eq_refl eq_refl eq_refl ltac:(simpl; lia)) as (st' & H1 & H2 & _).
  exists st'. split; [exact H1|]. split; [reflexivity|]. apply (H2 0). simpl. lia.
Defined.

Lemma getConstantValue_lt st cst w v :
  getConstantValue st cst = Some (w, v) -> cst < length (irOps st).
Proof.
  unfold getConstantValue, getAttr. destruct (getOp st cst) eqn:E; [|done].
  intros _. by apply getOp_lt in E.
Qed.

Lemma getOpUses_nil_opUseEmpty st o : opUseEmpty st o = true <-> getOpUses st o = [].
Proof. unfold opUseEmpty. by destruct (getOpUses st o). Qed.

(** X10.  [rewriteAddWithNegativeConstant] on [add = lhs + cst] creates the
    constant [-cst] of the same width and the subtraction [lhs - (-cst)]
    with the result type and the "twoState" attribute of the sum, returns
    the new constant, points every use of the sum at the subtraction and
    erases the sum; it erases the old constant exactly when the sum was its
    only user.  The subtraction has the value of the sum modulo [2^w]. *)
Theorem negative_constant_becomes_subtraction (st : IR) (add rhsCst : OpId) (a : Operation)
    (lhs : Value) (w : nat) (v : Z) :
  getOp st add = Some a ->
  opOperands a !! 0 = Some lhs ->
  add <> rhsCst ->
  getConstantValue st rhsCst = Some (w, v) ->
  getNumResults st rhsCst = 1 ->
  let m := length (irOps st) in
  let lhs' := if bool_decide (lhs = OpResult add 0) then OpResult (S m) 0 else lhs in
  exists st',
    rewriteAddWithNegativeConstant st add rhsCst = Ok (st', m) /\
    length (irOps st') = m + 2 /\
    (exists c, getOp st' m = Some c /\ opName c = ConstantOp /\ opOperands c = [] /\
       opResultTypes c = [IntegerType w] /\
       opAttrs c = [("value"%string, IntegerAttr w (apNeg w v))]) /\
    (exists s, getOp st' (S m) = Some s /\ opName s = SubOp /\
       opOperands s = [lhs'; OpResult m 0] /\
       opResultTypes s = [getResultType st add 0] /\
       lookupAttr "twoState" (opAttrs s) = lookupAttr "twoState" (opAttrs a)) /\
    getOp st' add = None /\
    (forall u, fst u <> add -> fst u <> rhsCst ->
       getOperands st (fst u) !! snd u = Some (OpResult add 0) ->
       getOperands st' (fst u) !! snd u = Some (OpResult (S m) 0)) /\
    getUses st' (OpResult add 0) = [] /\
    (getOp st' rhsCst = None <->
       (forall u, u ∈ getUses st (OpResult rhsCst 0) -> fst u = add) /\
       lhs <> OpResult rhsCst 0) /\
    (forall x, ((x - apNeg w v) mod 2 ^ Z.of_nat w = (x + v) mod 2 ^ Z.of_nat w)%Z).
Proof.
  intros Ha Hlhs Hne Hcst Hres m lhs'.
  pose proof (getOp_lt _ _ _ Ha) as Haddlt. fold m in Haddlt.
  pose proof (getConstantValue_lt _ _ _ _ Hcst) as Hcstlt. fold m in Hcstlt.
  unfold rewriteAddWithNegativeConstant. rewrite Hcst.
  cbv beta iota delta [mbind Res_bind fromOption].
  set (c1 := createOp st (pointBefore st add) ConstantOp [] [IntegerType w]
               [("value"%string, IntegerAttr w (apNeg w v))]).
  assert (E1 : c1 = (fst c1, m)) by (by rewrite (surjective_pairing c1)).
  rewrite E1. cbv beta iota. set (st1 := fst c1) in *.
  assert (H1len : length (irOps st1) = S m) by apply length_createOp.
  assert (H1old : forall n, n < m -> getOp st1 n = getOp st n)
    by (intros; by apply getOp_createOp_old).
  assert (H1new : getOp st1 m = Some (mkOperation ConstantOp [] [IntegerType w]
            [("value"%string, IntegerAttr w (apNeg w v))] [] (fst <$> pointBefore st add)))
    by apply getOp_createOp_new.
  assert (H1add : getOp st1 add = Some a) by (by rewrite H1old).
  unfold getOperands at 1. rewrite H1add, Hlhs. cbv beta iota.
  set (twoState := match getAttr st1 add "twoState" with
                   | Some a0 => [("twoState"%string, a0)]
                   | None => []
                   end).
  assert (Htwo : lookupAttr "twoState" twoState = lookupAttr "twoState" (opAttrs a)).
  { unfold twoState, getAttr. rewrite H1add. simpl.
    destruct (lookupAttr "twoState" (opAttrs a)); reflexivity. }
  assert (H1ty : getResultType st1 add 0 = getResultType st add 0).
  { unfold getResultType. by rewrite H1add, Ha. }
  rewrite H1ty.
  set (c2 := createOp st1 (pointBefore st add) SubOp [lhs; OpResult m 0]
               [getResultType st add 0] twoState).
  assert (E2 : c2 = (fst c2, S m)).
  { rewrite (surjective_pairing c2). f_equal. unfold c2. by rewrite createOp_snd. }
  rewrite E2. cbv beta iota. set (st2 := fst c2) in *.
  assert (H2len : length (irOps st2) = S (S m)).
  { unfold st2, c2. by rewrite length_createOp, H1len. }
  assert (H2old : forall n, n < S m -> getOp st2 n = getOp st1 n).
  { intros n Hn. apply getOp_createOp_old. lia. }
  assert (H2new : getOp st2 (S m) = Some (mkOperation SubOp [lhs; OpResult m 0]
            [getResultType st add 0] twoState [] (fst <$> pointBefore st add))).
  { rewrite <- H1len. apply getOp_createOp_new. }
  set (rename := fun x : Value => if bool_decide (x = OpResult add 0) then OpResult (S m) 0 else x).
  set (st3 := replaceAllUsesWith st2 (OpResult add 0) (OpResult (S m) 0)).
  set (st4 := eraseOp st3 add).
  set (st5 := if opUseEmpty st4 rhsCst then eraseOp st4 rhsCst else st4).
  assert (H4 : forall n, n <> add ->
            getOp st4 n = (fun x => withOperands x (replaceIn (OpResult add 0) (OpResult (S m) 0)
                                                     (opOperands x))) <$> getOp st2 n).
  { intros n Hn. unfold st4. rewrite getOp_eraseOp_ne by done.
    apply getOp_replaceAllUsesWith. }
  assert (H4slot : forall u, slot st4 u =
            if bool_decide (fst u = add) then None
            else rename <$> (if bool_decide (fst u = S m) then [lhs; OpResult m 0] !! snd u
                             else if bool_decide (fst u = m) then [] !! snd u
                             else slot st u)).
  { intros u. unfold st4. rewrite slot_eraseOp. case_bool_decide; [done|].
    unfold st3. rewrite slot_replaceAllUsesWith. f_equal.
    unfold st2, c2. rewrite slot_createOp, H1len. case_bool_decide; [done|].
    unfold st1, c1. by rewrite slot_createOp. }
  assert (Hrename_c : forall x, rename x = OpResult rhsCst 0 <-> x = OpResult rhsCst 0).
  { intros x. unfold rename. case_bool_decide as Hx.
    - subst x. split; intros [= ?]; [lia|congruence].
    - done. }
  assert (H4cst : exists c, getOp st4 rhsCst = Some c /\ length (opResultTypes c) = 1).
  { rewrite H4 by done. rewrite H2old, H1old by lia.
    unfold getNumResults in Hres. destruct (getOp st rhsCst) as [c|]; [|done].
    eexists. split; [done|]. done. }
  assert (H4uses : getOpUses st4 rhsCst = [] <->
            (forall u, u ∈ getUses st (OpResult rhsCst 0) -> fst u = add) /\
            lhs <> OpResult rhsCst 0).
  { rewrite getOpUses_one.
    2: { destruct H4cst as (c & Hc & Hcl). unfold getNumResults. by rewrite Hc. }
    split.
    - intros Hnil. split.
      + intros u Hu. apply getUses_slot in Hu.
        destruct (decide (fst u = add)) as [|Hua]; [done|]. exfalso.
        apply (getUses_nil_inv _ _ u Hnil). rewrite H4slot.
        pose proof (slot_lt _ _ _ Hu). fold m in H.
        rewrite bool_decide_eq_false_2 by done.
        rewrite !(bool_decide_eq_false_2 (fst u = _)) by lia.
        rewrite Hu. simpl. f_equal. by apply (proj2 (Hrename_c _)).
      + intros ->. apply (getUses_nil_inv _ _ (S m, 0) Hnil). rewrite H4slot. cbn [fst snd].
        rewrite bool_decide_eq_false_2 by lia. rewrite bool_decide_eq_true_2 by done.
        simpl. f_equal. by apply (proj2 (Hrename_c _)).
    - intros [Hall Hl]. apply getUses_nil. intros u. rewrite H4slot.
      case_bool_decide as Hua; [done|].
      case_bool_decide as Hus.
      + destruct (snd u) as [|[|k]]; simpl; [| |done]; intros [= E]; apply (proj1 (Hrename_c _)) in E.
        * done.
        * injection E as E. lia.
      + case_bool_decide as Hum; [by destruct (snd u)|].
        destruct (slot st u) as [x|] eqn:Ex; [|done]. simpl. intros [= E].
        apply (proj1 (Hrename_c _)) in E. subst x. apply Hua, Hall. by apply getUses_slot. }
  assert (H5 : forall n, n <> rhsCst -> getOp st5 n = getOp st4 n).
  { intros n Hn. unfold st5. destruct (opUseEmpty st4 rhsCst); [|done].
    by apply getOp_eraseOp_ne. }
  assert (H5slot : forall u, fst u <> rhsCst -> slot st5 u = slot st4 u).
  { intros u Hu. unfold st5. destruct (opUseEmpty st4 rhsCst); [|done].
    rewrite slot_eraseOp. by rewrite bool_decide_eq_false_2. }
  assert (H5slot' : forall u x, slot st5 u = Some x -> slot st4 u = Some x).
  { intros u x. unfold st5. destruct (opUseEmpty st4 rhsCst); [|done].
    rewrite slot_eraseOp. by case_bool_decide. }
  exists st5. split; [done|].
  split.
  { unfold st5. destruct (opUseEmpty st4 rhsCst); rewrite ?length_eraseOp;
      unfold st4; rewrite length_eraseOp; unfold st3;
      rewrite length_replaceAllUsesWith, H2len; lia. }
  split.
  { eexists. rewrite H5, H4 by lia. rewrite H2old by lia. rewrite H1new. simpl.
    split; [done|]. done. }
  split.
  { eexists. rewrite H5, H4 by lia. rewrite H2new.
    cbn [fmap option_fmap option_map]. split; [done|].
    cbn [withOperands opName opOperands opResultTypes opAttrs replaceIn map].
    split; [done|]. split; [|done]. unfold lhs'.
    rewrite (bool_decide_eq_false_2 (OpResult m 0 = OpResult add 0)); [done|].
    intros [= E]. lia. }
  split.
  { rewrite H5 by done. unfold st4. apply getOp_eraseOp_eq. }
  split.
  { intros u Hua Huc Hu. rewrite <- slot_getOperands in *.
    pose proof (slot_lt _ _ _ Hu). fold m in H.
    rewrite H5slot, H4slot by done.
    rewrite bool_decide_eq_false_2 by done.
    rewrite !(bool_decide_eq_false_2 (fst u = _)) by lia.
    rewrite Hu. simpl. unfold rename. by rewrite bool_decide_eq_true_2. }
  split.
  { apply getUses_nil. intros u Hu. apply H5slot' in Hu. rewrite H4slot in Hu.
    case_bool_decide; [done|].
    match type of Hu with rename <$> ?s = _ => destruct s as [x|]; [|done] end.
    simpl in Hu. injection Hu as Hu. unfold rename in Hu.
    case_bool_decide; [|done]. injection Hu as Hu. lia. }
  split.
  { rewrite <- H4uses, <- getOpUses_nil_opUseEmpty. unfold st5.
    destruct (opUseEmpty st4 rhsCst) eqn:E.
    - split; [done|]. intros _. apply getOp_eraseOp_eq.
    - destruct H4cst as (c & Hc & _). rewrite Hc. split; done. }
  intros x. unfold apNeg. rewrite Zminus_mod_idemp_r. f_equal. lia.
Qed.

Lemma negative_constant_becomes_subtraction_witness :
  exists st',
    rewriteAddWithNegativeConstant sampleAddNeg3 2 1 = Ok (st', 4) /\
    (exists c, getOp st' 4 = Some c /\ opName c = ConstantOp /\
       opAttrs c = [("value"%string, IntegerAttr 8 3)]) /\
    (exists s, getOp st' 5 = Some s /\ opName s = SubOp /\
       opOperands s = [BlockArgument 0 0; OpResult 4 0]) /\
    getOp st' 2 = None /\ getOp st' 1 = None.
Proof.
  destruct (negative_constant_becomes_subtraction sampleAddNeg3 2 1 _ (BlockArgument 0 0) 8 253
              eq_refl eq_refl ltac:(lia) eq_refl eq_refl)
    as (st' & H1 & _ & (c & Hc & Hcn & _ & _ & Hca) & (s & Hs & Hsn & Hso & _) & Hadd & _ & _ &
        Hcst & _).
  exists st'. split; [exact H1|].
  split; [exists c; split; [exact Hc|]; split; [exact Hcn|exact Hca]|].
  split; [exists s; split; [exact Hs|]; split; [exact Hsn|exact Hso]|].
  split; [exact Hadd|].
  apply Hcst. split.
  - intros u Hu. vm_compute in Hu. apply list_elem_of_singleton in Hu. by subst u.
  - discriminate.
Defined.

Lemma fold_left_inv {A B} (g : A -> B -> A) (P : nat -> A -> Prop) (l : list B) (a : A) :
  P 0 a ->
  (forall i x a, l !! i = Some x -> P i a -> P (S i) (g a x)) ->
  P (length l) (fold_left g l a).
Proof.
  induction l as [|x l IH] using rev_ind; intros Ha Hstep; [done|].
  rewrite fold_left_app, length_app. simpl. rewrite Nat.add_1_r.
  apply Hstep.
  - by rewrite lookup_app_r, Nat.sub_diag.
  - apply IH; [done|]. intros i y b Hi. apply Hstep.
    apply lookup_app_l_Some. done.
Qed.

Lemma lowerStructExplodeOp_fold st op input names types :
  getOperands st op !! 0 = Some input ->
  getType st input = StructType names types ->
  lowerStructExplodeOp st op =
    let acc := fold_left (explodeStep (pointBefore st op) op input)
                 (zip (seq 0 (getNumResults st op)) (zip names types)) (st, None) in
    Ok (eraseOp (fst acc) op, snd acc).
Proof.
  intros Hin Hty. unfold lowerStructExplodeOp. rewrite Hin.
  cbv beta iota delta [mbind Res_bind fromOption]. rewrite Hty.
  cbv zeta. unfold explodeStep.
  by destruct (fold_left _ _ _).
Qed.

Lemma explodeRename_0 op m x : explodeRename op m 0 x = x.
Proof.
  destruct x as [|o j]; [done|]. cbn [explodeRename].
  rewrite bool_decide_eq_false_2; [done|lia].
Qed.

Lemma explodeRename_S op m k x :
  op < m ->
  (if bool_decide (explodeRename op m k x = OpResult op k) then OpResult (m + k) 0
   else explodeRename op m k x) = explodeRename op m (S k) x.
Proof.
  intros Hop. destruct x as [b j|o j]; cbn [explodeRename];
    [by rewrite bool_decide_eq_false_2|].
  destruct (decide (o = op /\ j < k)) as [[-> Hj]|Hn].
  - rewrite !(bool_decide_eq_true_2 (_ /\ _)) by (split; [done|lia]).
    rewrite bool_decide_eq_false_2; [done|]. intros [= E]. lia.
  - rewrite (bool_decide_eq_false_2 (o = op /\ j < k)) by done.
    destruct (decide (o = op /\ j = k)) as [[-> ->]|Hn'].
    + rewrite bool_decide_eq_true_2 by done.
      rewrite bool_decide_eq_true_2; [done|]. split; [done|lia].
    + rewrite bool_decide_eq_false_2 by (intros [= ? ?]; apply Hn'; done).
      rewrite bool_decide_eq_false_2; [done|]. intros [? ?]. destruct Hn'.
      split; [done|]. destruct (decide (j = k)); [done|]. exfalso. apply Hn. split; [done|lia].
Qed.

Lemma explodeStep_post st op input names types k acc name ty :
  op < length (irOps st) ->
  getDefiningOp input <> Some op ->
  names !! k = Some name -> types !! k = Some ty ->
  ExplodePost op input names types st k acc ->
  ExplodePost op input names types st (S k)
    (explodeStep (pointBefore st op) op input acc (k, (name, ty))).
Proof.
  intros Hop Hinput Hname Hty P. destruct acc as [s first].
  pose proof (ep_len _ _ _ _ _ _ _ P) as Hlen. simpl in Hlen.
  pose proof (ep_first _ _ _ _ _ _ _ P) as Hfirst. simpl in Hfirst.
  set (m := length (irOps st)) in *.
  unfold explodeStep.
  set (c := createOp s (pointBefore st op) StructExtractOp [input] [ty]
              [("field"%string, FieldNameAttr name)]).
  assert (Ec : c = (fst c, m + k)).
  { rewrite (surjective_pairing c). f_equal. unfold c. by rewrite createOp_snd. }
  rewrite Ec. cbv beta iota. set (s1 := fst c) in *.
  assert (H1len : length (irOps s1) = S (m + k)).
  { unfold s1, c. by rewrite length_createOp, Hlen. }
  assert (H1old : forall n, n < m + k -> getOp s1 n = getOp s n).
  { intros n Hn. apply getOp_createOp_old. lia. }
  assert (H1new : getOp s1 (m + k) = Some (mkOperation StructExtractOp [input] [ty]
            [("field"%string, FieldNameAttr name)] [] (fst <$> pointBefore st op))).
  { rewrite <- Hlen. apply getOp_createOp_new. }
  assert (Hin : replaceIn (OpResult op k) (OpResult (m + k) 0) [input] = [input]).
  { simpl. rewrite bool_decide_eq_false_2; [done|]. intros ->. by apply Hinput. }
  constructor; cbn [fst snd].
  - rewrite length_replaceAllUsesWith. lia.
  - rewrite Hfirst. destruct k; simpl; [by rewrite Nat.add_0_r|done].
  - intros n x Hx. pose proof (getOp_lt _ _ _ Hx) as Hn. fold m in Hn.
    destruct (ep_old _ _ _ _ _ _ _ P _ _ Hx) as (y & Hy & Hyx). simpl in Hy.
    rewrite getOp_replaceAllUsesWith, H1old by lia. rewrite Hy. simpl.
    eexists. split; [done|]. rewrite <- Hyx. by destruct y.
  - intros u Hu. rewrite slot_replaceAllUsesWith.
    unfold s1, c. rewrite slot_createOp_old by lia.
    pose proof (ep_slot _ _ _ _ _ _ _ P u Hu) as Hs. cbn [fst] in Hs. rewrite Hs. fold m.
    destruct (slot st u) as [x|]; [|done]. simpl. f_equal. by apply explodeRename_S.
  - intros j name' ty' Hj Hname' Hty'. rewrite getOp_replaceAllUsesWith. fold m.
    destruct (decide (j = k)) as [->|Hne].
    + rewrite H1new. simpl. rewrite Hname in Hname'. rewrite Hty in Hty'.
      injection Hname' as <-. injection Hty' as <-.
      eexists. split; [done|]. simpl. rewrite bool_decide_eq_false_2; [done|].
      intros ->. by apply Hinput.
    + destruct (ep_new _ _ _ _ _ _ _ P j name' ty') as (e & He & Hen & Heo & Het & Hea);
        [lia|done|done|].
      cbn [fst] in He. fold m in He. rewrite H1old, He by lia. simpl.
      eexists. split; [done|]. simpl. rewrite Heo, Hin. done.
Qed.

(** X11.  [lowerStructExplodeOp] creates one [hw.struct_extract] of the
    input for each field, in order, with the name and the type of the field,
    points the uses of the result [j] at the extract [j], erases the
    explode, and returns the first extract, or nothing when the structure
    has no field. *)
Theorem struct_explode_becomes_extracts (st : IR) (op : OpId) (o : Operation) (input : Value)
    (names : list string) (types : list Ty) :
  getOp st op = Some o ->
  opOperands o !! 0 = Some input ->
  getDefiningOp input <> Some op ->
  getType st input = StructType names types ->
  length names = length (opResultTypes o) ->
  length types = length (opResultTypes o) ->
  let m := length (irOps st) in
  let n := length (opResultTypes o) in
  exists st',
    lowerStructExplodeOp st op = Ok (st', if n =? 0 then None else Some m) /\
    length (irOps st') = m + n /\
    (forall j name ty, names !! j = Some name -> types !! j = Some ty ->
       exists e, getOp st' (m + j) = Some e /\ opName e = StructExtractOp /\
         opOperands e = [input] /\ opResultTypes e = [ty] /\
         opAttrs e = [("field"%string, FieldNameAttr name)]) /\
    getOp st' op = None /\
    (forall u j, j < n -> fst u <> op ->
       getOperands st (fst u) !! snd u = Some (OpResult op j) ->
       getOperands st' (fst u) !! snd u = Some (OpResult (m + j) 0)) /\
    (forall j, j < n -> getUses st' (OpResult op j) = []).
Proof.
  intros Ho Hin Hinput Hty Hnames Htypes m n.
  pose proof (getOp_lt _ _ _ Ho) as Hop. fold m in Hop.
  assert (Hnum : getNumResults st op = n) by (unfold getNumResults; by rewrite Ho).
  rewrite (lowerStructExplodeOp_fold st op input names types);
    [|by unfold getOperands; rewrite Ho|done].
  rewrite Hnum. cbv zeta.
  set (l := zip (seq 0 n) (zip names types)).
  assert (Hl : length l = n).
  { unfold l. rewrite !length_zip, length_seq. lia. }
  assert (Hlk : forall i x, l !! i = Some x ->
            exists name ty, x = (i, (name, ty)) /\ names !! i = Some name /\ types !! i = Some ty).
  { intros i [res [name ty]] Hi. unfold l in Hi.
    apply lookup_zip_with_Some in Hi as (a & b & Heq & Ha & Hb).
    apply lookup_zip_with_Some in Hb as (a' & b' & Heq' & Ha' & Hb').
    apply lookup_seq in Ha as [Ha _]. simplify_eq. simpl. by exists a', b'. }
  pose proof (fold_left_inv (explodeStep (pointBefore st op) op input)
                (ExplodePost op input names types st) l (st, None)) as P.
  rewrite Hl in P.
  set (acc := fold_left (explodeStep (pointBefore st op) op input) l (st, None)) in *.
  assert (Hacc : ExplodePost op input names types st n acc).
  { apply P.
    - constructor; cbn [fst snd].
      + lia.
      + done.
      + intros k x Hx. by exists x.
      + intros u _. destruct (slot st u) as [x|]; [|done]. simpl. by rewrite explodeRename_0.
      + intros j name ty Hj. lia.
    - intros i x a Hi Ha. destruct (Hlk i x Hi) as (name & ty & -> & Hname & Hty').
      by apply explodeStep_post. }
  clear P.
  pose proof (ep_len _ _ _ _ _ _ _ Hacc) as Hlen. fold m in Hlen.
  exists (eraseOp (fst acc) op). split.
  { by rewrite (ep_first _ _ _ _ _ _ _ Hacc). }
  split; [by rewrite length_eraseOp|].
  split.
  { intros j name ty Hname Hty'.
    destruct (ep_new _ _ _ _ _ _ _ Hacc j name ty) as (e & He & Hrest); [|done|done|].
    { apply lookup_lt_Some in Hname. lia. }
    exists e. split; [|done]. fold m in He. rewrite getOp_eraseOp_ne by lia. done. }
  split; [apply getOp_eraseOp_eq|].
  split.
  { intros u j Hj Hu Hs. rewrite <- slot_getOperands in *.
    pose proof (slot_lt _ _ _ Hs) as Hult. fold m in Hult.
    rewrite slot_eraseOp, bool_decide_eq_false_2 by done.
    rewrite (ep_slot _ _ _ _ _ _ _ Hacc u Hult), Hs. simpl.
    rewrite bool_decide_eq_true_2; done. }
  intros j Hj. apply getUses_nil. intros u Hs.
  rewrite slot_eraseOp in Hs. case_bool_decide as Hu; [done|].
  destruct (decide (fst u < m)) as [Hlt|Hge].
  - rewrite (ep_slot _ _ _ _ _ _ _ Hacc u Hlt) in Hs. fold m in Hs.
    destruct (slot st u) as [[b i|o' i]|]; simpl in Hs; try done.
    case_bool_decide as Hc.
    + injection Hs as Hs. lia.
    + injection Hs as -> ->. apply Hc. done.
  - pose proof (slot_lt _ _ _ Hs) as Hult. rewrite Hlen in Hult.
    assert (Hj' : fst u - m < n) by lia.
    destruct (lookup_lt_is_Some_2 names (fst u - m) ltac:(lia)) as [name Hname].
    destruct (lookup_lt_is_Some_2 types (fst u - m) ltac:(lia)) as [ty Hty'].
    destruct (ep_new _ _ _ _ _ _ _ Hacc (fst u - m) name ty Hj' Hname Hty')
      as (e & He & _ & Heo & _).
    fold m in He. replace (m + (fst u - m)) with (fst u) in He by lia.
    unfold slot in Hs. rewrite He in Hs. simpl in Hs. rewrite Heo in Hs.
    destruct (snd u); simpl in Hs; [|done]. injection Hs as ->. by apply Hinput.
Qed.

Lemma struct_explode_becomes_extracts_witness :
  exists st',
    lowerStructExplodeOp sampleExplode 1 = Ok (st', Some 4) /\
    getOperands st' 2 !! 0 = Some (OpResult 4 0) /\
    getOperands st' 2 !! 1 = Some (OpResult 5 0) /\
    getOp st' 1 = None.
Proof.
  destruct (struct_explode_becomes_extracts sampleExplode 1 _ (BlockArgument 0 0)
              ["a"; "b"]%string [i8; i8] eq_refl eq_refl ltac:(discriminate) eq_refl
              eq_refl eq_refl)
    as (st' & H1 & _ & _ & H4 & H5 & _).
  exists st'. split; [exact H1|].
  split; [exact (H5 (2, 0) 0 ltac:(simpl; lia) ltac:(simpl; lia) eq_refl)|].
  split; [exact (H5 (2, 1) 1 ltac:(simpl; lia) ltac:(simpl; lia) eq_refl)|exact H4].
Defined.

Lemma foldRes_const {A B} (f : A -> B -> Res A) (a : A) (l : list B) :
  (forall x, x ∈ l -> f a x = Ok a) -> foldRes f a l = Ok a.
Proof.
  induction l as [|x l IH]; intros H; [done|].
  cbn [foldRes]. rewrite H by (by left). cbv beta iota delta [mbind Res_bind].
  apply IH. intros y Hy. apply H. by right.
Qed.

Lemma lowerAlwaysInlineOperation_unfold O f st op :
  lowerAlwaysInlineOperation O (S f) st op =
    if negb (getNumResults st op =? 1) then Abort
    else if opHasOneUse st op then
      user ← fromOption (head (getUsers st op));
      handleOperands O (lowerAlwaysInlineOperation O f) (moveBefore st op user) op
    else
      use ← fromOption (head (getOpUses st op));
      let '(st1, newOp) := cloneOp st (pointBefore st (fst use)) op in
      st2 ← handleOperands O (lowerAlwaysInlineOperation O f)
              (setOperand st1 use (OpResult newOp 0)) newOp;
      lowerAlwaysInlineOperation O f st2 op.
Proof. reflexivity. Qed.

(** No operand of [o] is the result of an "always inline" operation. *)
Lemma handleOperands_leaf O rec s o :
  (forall v d, v ∈ getOperands s o -> getDefiningOp v = Some d ->
     opIs (isExpressionAlwaysInline O) s d = false) ->
  handleOperands O rec s o = Ok s.
Proof.
  intros H. unfold handleOperands. apply foldRes_const. intros i _.
  destruct (getOperands s o !! i) as [[b j|d j]|] eqn:E; [done| |done].
  rewrite (H (OpResult d j) d); [done| |done]. by eapply list_elem_of_lookup_2.
Qed.

Lemma getBlock_unwired st s n x y :
  getOp st n = Some x -> getOp s n = Some y -> withOperands y [] = withOperands x [] ->
  getBlock s n = getBlock st n.
Proof.
  intros Hx Hy H. unfold getBlock. rewrite Hx, Hy. simpl.
  by apply unwired_fields in H as (_ & _ & _ & _ & ->).
Qed.

Lemma getBlock_moveBefore st o t x b :
  getOp st o = Some x -> o <> t -> getBlock st t = Some b ->
  getBlock (moveBefore st o t) o = Some b.
Proof.
  intros Hx Hne Hb. unfold moveBefore, pointBefore. rewrite Hb. simpl.
  unfold moveToPoint. cbn [snd]. rewrite bool_decide_eq_false_2 by congruence.
  assert (exists y, getOp (unlinkOp st o) o = Some y) as [y Hy].
  { destruct (sameOperations_getOp _ _ _ _ (sameOperations_unlinkOp st o) Hx) as (y & Hy & _).
    by eauto. }
  unfold linkOp. rewrite Hy. cbn [fst snd]. unfold getBlock.
  rewrite getOp_setOp, bool_decide_eq_true_2; [done|].
  split; [done|]. rewrite length_setBlockOps. by apply getOp_lt in Hy.
Qed.

Lemma isOldValue_mono n n' v : n <= n' -> isOldValue n v -> isOldValue n' v.
Proof. intros Hle. destruct v; simpl; [done|lia]. Qed.

Section AlwaysInline.

Context (O : Oracle) (st : IR) (op : OpId) (o : Operation).
Context (Ho : getOp st op = Some o).
Context (Hself : OpResult op 0 ∉ opOperands o).
Context (Hwf : forall u v, slot st u = Some v -> isOldValue (length (irOps st)) v).
Context (Hleaf : forall v d, v ∈ opOperands o -> getDefiningOp v = Some d ->
           opIs (isExpressionAlwaysInline O) st d = false).
Context (Hname : forall x y, opName x = opName y ->
           isExpressionAlwaysInline O x = isExpressionAlwaysInline O y).

Lemma operands_old v : v ∈ opOperands o -> isOldValue (length (irOps st)) v.
Proof.
  intros Hv. apply list_elem_of_lookup in Hv as [i Hi].
  apply (Hwf (op, i)). unfold slot. cbn [fst snd]. by rewrite Ho.
Qed.

Lemma ClonesPost_refl : ClonesPost st op o st.
Proof.
  constructor.
  - done.
  - done.
  - intros n x Hx. by exists x.
  - done.
  - exact Ho.
  - exact Hwf.
  - done.
  - done.
  - intros u H H'. done.
  - intros c H1 H2. lia.
Qed.

(** The operands of [op] and of its copies are not "always inline" in [s]
    either. *)
Lemma ClonesPost_leaf s n :
  ClonesPost st op o s -> getOperands s n = opOperands o ->
  forall v d, v ∈ getOperands s n -> getDefiningOp v = Some d ->
    opIs (isExpressionAlwaysInline O) s d = false.
Proof.
  intros P Hn v d Hv Hd. rewrite Hn in Hv.
  pose proof (operands_old v Hv) as Hold. destruct v as [b j|d' j]; [done|].
  injection Hd as ->. simpl in Hold.
  pose proof (Hleaf _ d Hv eq_refl) as Hst. unfold opIs in *.
  destruct (getOp st d) as [x|] eqn:Ex.
  - destruct (cp_old _ _ _ _ P _ _ Ex) as (y & Hy & Hyx & _). rewrite Hy.
    apply unwired_fields in Hyx as (Hn' & _). by rewrite (Hname y x Hn').
  - by rewrite (cp_none _ _ _ _ P d Hold Ex).
Qed.

Lemma clone_step s use rest :
  ClonesPost st op o s ->
  getUses s (OpResult op 0) = use :: rest ->
  let s2 := setOperand (fst (cloneOp s (pointBefore s (fst use)) op)) use
              (OpResult (length (irOps s)) 0) in
  cloneOp s (pointBefore s (fst use)) op =
    (fst (cloneOp s (pointBefore s (fst use)) op), length (irOps s)) /\
  ClonesPost st op o s2 /\
  length (getUses s2 (OpResult op 0)) = length rest /\
  getOperands s2 (length (irOps s)) = opOperands o.
Proof.
  intros P Huses. cbv zeta. set (v := OpResult op 0) in *. set (m := length (irOps st)).
  set (c := length (irOps s)).
  pose proof (cp_op _ _ _ _ P) as Hop.
  pose proof (cp_len _ _ _ _ P) as Hlen. fold m c in Hlen.
  pose proof (getOp_lt _ _ _ Hop) as Hoplt. fold c in Hoplt.
  pose proof (getOp_lt _ _ _ Ho) as Hoplt0. fold m in Hoplt0.
  assert (Huse : slot s use = Some v) by (apply getUses_slot; rewrite Huses; by left).
  assert (Huse0 : slot st use = Some v) by (by apply (cp_rest _ _ _ _ P)).
  pose proof (slot_lt _ _ _ Huse0) as Huselt. fold m in Huselt.
  assert (Huseop : fst use <> op).
  { intros E. apply Hself. unfold slot in Huse0. rewrite E, Ho in Huse0. simpl in Huse0.
    by eapply list_elem_of_lookup_2. }
  unfold cloneOp. rewrite Hop.
  set (cr := createOp s (pointBefore s (fst use)) (opName o) (opOperands o)
               (opResultTypes o) (opAttrs o)).
  assert (Ecr : cr = (fst cr, c)) by (by rewrite (surjective_pairing cr)).
  split; [exact Ecr|].
  set (s1 := fst cr) in *.
  set (s2 := setOperand s1 use (OpResult c 0)).
  assert (H1len : length (irOps s1) = S c) by apply length_createOp.
  assert (H1old : forall n, n < c -> getOp s1 n = getOp s n)
    by (intros; by apply getOp_createOp_old).
  assert (H1new : getOp s1 c = Some (mkOperation (opName o) (opOperands o) (opResultTypes o)
                                      (opAttrs o) [] (fst <$> pointBefore s (fst use))))
    by apply getOp_createOp_new.
  assert (H2 : forall n, n <> fst use -> getOp s2 n = getOp s1 n).
  { intros n Hn. unfold s2. rewrite getOp_setOperand. by rewrite bool_decide_eq_false_2. }
  assert (H2len : length (irOps s2) = S c) by (unfold s2; by rewrite length_setOperand).
  assert (Hs2 : forall u, slot s2 u =
            if bool_decide (u = use) then Some (OpResult c 0)
            else if bool_decide (fst u = c) then opOperands o !! snd u
            else slot s u).
  { intros u. unfold s2. rewrite slot_setOperand. unfold s1, cr. rewrite !slot_createOp.
    fold c. rewrite (bool_decide_eq_false_2 (fst use = c)) by lia. rewrite Huse.
    by case_bool_decide. }
  assert (Hnotv : forall k, opOperands o !! k <> Some v).
  { intros k Hk. apply Hself. by eapply list_elem_of_lookup_2. }
  assert (Hnotnew : forall k c', m <= c' -> opOperands o !! k <> Some (OpResult c' 0)).
  { intros k c' Hc' Hk. apply list_elem_of_lookup_2, operands_old in Hk. simpl in Hk.
    fold m in Hk. lia. }
  assert (Hmem : forall u, slot s2 u = Some v <-> u ∈ rest).
  { intros u. rewrite Hs2.
    pose proof (NoDup_getUses s v) as Hnd. rewrite Huses in Hnd.
    apply NoDup_cons in Hnd as [Hnin _].
    case_bool_decide as Hu.
    - subst u. split; [intros [= E]; lia|done].
    - case_bool_decide as Huc.
      + split; [by intros ?%Hnotv|]. intros Hin.
        assert (slot s u = Some v) as Hsl by (apply getUses_slot; rewrite Huses; by right).
        apply slot_lt in Hsl. fold c in Hsl. lia.
      + rewrite <- getUses_slot, Huses. rewrite elem_of_cons.
        split; [by intros [?|?]|by right]. }
  assert (Hperm : getUses s2 v ≡ₚ rest).
  { apply NoDup_Permutation; [apply NoDup_getUses| |].
    - pose proof (NoDup_getUses s v) as Hnd. rewrite Huses in Hnd.
      by apply NoDup_cons in Hnd as [_ Hnd].
    - intros u. by rewrite getUses_slot. }
  split; [|split; [by rewrite Hperm|]].
  2: { unfold getOperands. rewrite H2 by lia. by rewrite H1new. }
  constructor; fold m v.
  - lia.
  - rewrite H2len, Hperm. pose proof (cp_count _ _ _ _ P) as Hc. fold m c v in Hc.
    rewrite Huses in Hc. simpl in Hc. lia.
  - intros n x Hx. pose proof (getOp_lt _ _ _ Hx) as Hn. fold m in Hn.
    destruct (cp_old _ _ _ _ P _ _ Hx) as (y & Hy & Hyx & Hyl).
    unfold s2. rewrite getOp_setOperand. rewrite !H1old by lia.
    case_bool_decide as Hnu.
    + rewrite <- Hnu, Hy. simpl. eexists. split; [done|].
      split; [rewrite <- Hyx; by destruct y|simpl; by rewrite length_insert].
    + rewrite Hy. by exists y.
  - intros n Hn Hx. unfold s2. rewrite getOp_setOperand. rewrite !H1old by lia.
    rewrite (cp_none _ _ _ _ P n Hn Hx). case_bool_decide as Hnu; [|done].
    rewrite <- Hnu. by rewrite (cp_none _ _ _ _ P n Hn Hx).
  - rewrite H2 by done. rewrite H1old; [done|]. apply getOp_lt in Hop. done.
  - intros u x. rewrite Hs2. case_bool_decide as Hu.
    { intros [= <-]. simpl. lia. }
    case_bool_decide as Huc.
    + intros Hx. rewrite H2len. apply isOldValue_mono with m; [lia|].
      apply operands_old. by eapply list_elem_of_lookup_2.
    + intros Hx. rewrite H2len. apply isOldValue_mono with c; [lia|].
      by apply (cp_wf _ _ _ _ P u).
  - intros u Hu. apply Hmem in Hu. apply (cp_rest _ _ _ _ P).
    apply getUses_slot. fold v. rewrite Huses. by right.
  - intros u Hu Hnv. rewrite Hs2.
    rewrite bool_decide_eq_false_2 by (intros ->; done).
    rewrite bool_decide_eq_false_2 by lia. by apply (cp_kept _ _ _ _ P).
  - intros u Hu Hnv. pose proof (slot_lt _ _ _ Hu) as Hult. fold m in Hult.
    destruct (decide (u = use)) as [->|Hne].
    + exists c. eexists. split; [lia|]. split.
      { rewrite Hs2. by rewrite bool_decide_eq_true_2. }
      split.
      { intros u'. rewrite Hs2. case_bool_decide as Hu'; [done|].
        case_bool_decide as Huc.
        - split; [|done]. intros Hk. exfalso. by apply (Hnotnew (snd u') c).
        - split; [|done]. intros Hk. exfalso.
          apply (cp_wf _ _ _ _ P) in Hk. simpl in Hk. fold c in Hk. lia. }
      rewrite H2 by lia. rewrite H1new. split; [done|]. simpl.
      repeat (split; [done|]).
      unfold pointBefore. destruct (getOp st (fst use)) as [x|] eqn:Ex.
      * destruct (cp_old _ _ _ _ P _ _ Ex) as (y & Hy & Hyx & _).
        rewrite <- (getBlock_unwired st s (fst use) x y) by done.
        by destruct (getBlock s (fst use)).
      * unfold slot in Huse0. by rewrite Ex in Huse0.
    + assert (Hsu : slot s2 u = slot s u).
      { rewrite Hs2. rewrite bool_decide_eq_false_2 by done.
        by rewrite bool_decide_eq_false_2 by lia. }
      rewrite Hsu in Hnv.
      destruct (cp_served _ _ _ _ P u Hu Hnv)
        as (c' & y & Hc' & Hsl & Huniq & Hy & Hrest).
      fold m in Hc'. pose proof (getOp_lt _ _ _ Hy) as Hc'lt. fold c in Hc'lt.
      exists c', y. split; [done|]. split; [by rewrite Hsu|]. split.
      { intros u'. rewrite Hs2. case_bool_decide as Hu'.
        - subst u'. split; [intros [= E]; lia|]. intros ->. done.
        - case_bool_decide as Huc.
          + split; [intros Hk; exfalso; by apply (Hnotnew (snd u') c')|].
            intros ->. lia.
          + apply Huniq. }
      rewrite H2 by lia. rewrite H1old by lia. done.
  - intros c' Hc'1 Hc'2. rewrite H2len in Hc'2.
    rewrite H2 by lia.
    destruct (decide (c' = c)) as [->|Hne].
    + rewrite H1new. eexists. split; [done|]. done.
    + rewrite H1old by lia. apply (cp_new _ _ _ _ P); [done|fold c; lia].
Qed.

Lemma lowerAlwaysInlineOperation_leaf fuel : forall s,
  length (opResultTypes o) = 1 ->
  ClonesPost st op o s ->
  1 <= length (getUses s (OpResult op 0)) <= fuel ->
  exists s' kept,
    ClonesPost st op o s' /\ getUses s' (OpResult op 0) = [kept] /\
    lowerAlwaysInlineOperation O fuel s op = Ok (moveBefore s' op (fst kept)).
Proof.
  intros s Hres. revert s.
  induction fuel as [|f IH]; intros s P Hk; [lia|].
  pose proof (cp_op _ _ _ _ P) as Hop.
  assert (Hnum : getNumResults s op = 1) by (unfold getNumResults; by rewrite Hop).
  rewrite lowerAlwaysInlineOperation_unfold. rewrite Hnum. cbn [Nat.eqb negb].
  unfold opHasOneUse, getUsers. rewrite (getOpUses_one _ _ Hnum).
  destruct (getUses s (OpResult op 0)) as [|use [|use2 rest]] eqn:Huses; [simpl in Hk; lia| |].
  - (* one use: the operation joins its user *)
    cbn [map head fromOption]. cbv beta iota delta [mbind Res_bind].
    exists s, use. split; [done|]. split; [done|].
    apply handleOperands_leaf.
    assert (Hsame := sameOperations_moveBefore s op (fst use)).
    intros v d Hv Hd.
    rewrite (sameOperations_getOperands _ _ _ Hsame) in Hv.
    rewrite (sameOperations_opIs _ _ _ _ (fun x y H => Hname y x
               (proj1 (detached_fields _ _ H))) Hsame).
    assert (Hops : getOperands s op = opOperands o) by (unfold getOperands; by rewrite Hop).
    exact (ClonesPost_leaf s op P Hops v d Hv Hd).
  - (* several uses: a copy for the first one *)
    cbn [head fromOption]. cbv beta iota delta [mbind Res_bind].
    destruct (clone_step s use (use2 :: rest) P Huses) as (Ec & P2 & Hlen2 & Hops2).
    rewrite Ec. cbv beta iota.
    rewrite handleOperands_leaf by (by apply (ClonesPost_leaf _ _ P2)).
    apply IH; [done|]. rewrite Hlen2. simpl in *. lia.
Qed.

End AlwaysInline.

(** X12.  [lowerAlwaysInlineOperation] on an operation with one result
    whose operands are not themselves "always inline": with [n >= 1] uses it
    creates [n - 1] copies of the operation, each placed in the block of the
    use it serves and used by that use alone; the operation keeps one use
    and lands in the block of its user; no other operand of the graph
    changes.  The operands of the graph are values of the graph, the
    operation does not use its own result, and the classification of an
    operation as "always inline" depends on its name only. *)
Theorem always_inline_gets_one_copy_per_use (O : Oracle) (fuel : nat) (st : IR) (op : OpId)
    (o : Operation) :
  getOp st op = Some o ->
  length (opResultTypes o) = 1 ->
  OpResult op 0 ∉ opOperands o ->
  (forall n k v, getOperands st n !! k = Some v -> isOldValue (length (irOps st)) v) ->
  (forall v d, v ∈ opOperands o -> getDefiningOp v = Some d ->
     opIs (isExpressionAlwaysInline O) st d = false) ->
  (forall x y, opName x = opName y ->
     isExpressionAlwaysInline O x = isExpressionAlwaysInline O y) ->
  1 <= length (getUses st (OpResult op 0)) <= fuel ->
  exists st' kept,
    lowerAlwaysInlineOperation O fuel st op = Ok st' /\
    length (irOps st') = length (irOps st) + length (getUses st (OpResult op 0)) - 1 /\
    kept ∈ getUses st (OpResult op 0) /\
    getUses st' (OpResult op 0) = [kept] /\
    (forall b, getBlock st (fst kept) = Some b -> getBlock st' op = Some b) /\
    (forall u, u ∈ getUses st (OpResult op 0) -> u <> kept ->
       exists c y, length (irOps st) <= c /\
         getOperands st' (fst u) !! snd u = Some (OpResult c 0) /\
         getUses st' (OpResult c 0) = [u] /\
         getOp st' c = Some y /\ opName y = opName o /\ opOperands y = opOperands o /\
         opResultTypes y = opResultTypes o /\ opAttrs y = opAttrs o /\
         opBlock y = getBlock st (fst u)) /\
    (forall u, fst u < length (irOps st) -> u ∉ getUses st (OpResult op 0) ->
       getOperands st' (fst u) !! snd u = getOperands st (fst u) !! snd u).
Proof.
  intros Ho Hres Hself Hwf Hleaf Hname Hk.
  assert (Hwf' : forall u v, slot st u = Some v -> isOldValue (length (irOps st)) v).
  { intros u v. rewrite slot_getOperands. apply Hwf. }
  destruct (lowerAlwaysInlineOperation_leaf O st op o Ho Hself Hwf' Hleaf Hname fuel st Hres
              (ClonesPost_refl st op o Ho Hwf') Hk) as (s & kept & P & Huses & Hrun).
  set (v := OpResult op 0) in *. set (m := length (irOps st)) in *.
  set (st' := moveBefore s op (fst kept)) in *.
  assert (Hsame : sameOperations s st') by apply sameOperations_moveBefore.
  assert (Hslot : forall u, slot st' u = slot s u)
    by (intros; by apply slot_sameOperations).
  pose proof (cp_op _ _ _ _ P) as Hop.
  pose proof (getOp_lt _ _ _ Ho) as Hoplt. fold m in Hoplt.
  assert (Hkept : slot st kept = Some v).
  { apply (cp_rest _ _ _ _ P). apply getUses_slot. fold v. rewrite Huses. by left. }
  assert (Hkeptop : fst kept <> op).
  { intros E. apply Hself. unfold slot in Hkept. rewrite E, Ho in Hkept. simpl in Hkept.
    by eapply list_elem_of_lookup_2. }
  exists st', kept. split; [done|].
  split.
  { destruct Hsame as [<- _]. pose proof (cp_count _ _ _ _ P) as Hc. fold v m in Hc.
    rewrite Huses in Hc. simpl in Hc. lia. }
  split; [by apply getUses_slot|].
  split; [by rewrite (sameOperations_getUses _ _ _ Hsame)|].
  split.
  { intros b Hb. apply (getBlock_moveBefore s op (fst kept) o b); [done|done|].
    unfold slot in Hkept. destruct (getOp st (fst kept)) as [x|] eqn:Ex; [|done].
    destruct (cp_old _ _ _ _ P _ _ Ex) as (y & Hy & Hyx & _).
    by rewrite (getBlock_unwired st s _ x y). }
  split.
  { intros u Hu Hne. apply getUses_slot in Hu.
    assert (Hnv : slot s u <> Some v).
    { intros Hs. apply getUses_slot in Hs. fold v in Huses. rewrite Huses in Hs.
      by apply list_elem_of_singleton in Hs. }
    destruct (cp_served _ _ _ _ P u Hu Hnv) as (c & y & Hc & Hsl & Huniq & Hy & Hrest).
    fold m in Hc.
    exists c, y. split; [done|]. split; [by rewrite <- slot_getOperands, Hslot|].
    split.
    { apply getUses_singleton. intros u'. rewrite Hslot. apply Huniq. }
    split; [|done]. unfold st'. rewrite getOp_moveBefore_ne by lia. done. }
  intros u Hu Hnin. rewrite <- !slot_getOperands, Hslot.
  apply (cp_kept _ _ _ _ P); [done|]. intros Hs. apply Hnin. by apply getUses_slot.
Qed.

Lemma sampleSharedRead_operands n k v :
  getOperands sampleSharedRead n !! k = Some v -> isOldValue 7 v.
Proof.
  intros H.
  do 7 (destruct n as [|n];
        [do 3 (destruct k as [|k];
               [vm_compute in H; try discriminate; injection H as <-; simpl; lia || done|]);
         vm_compute in H; discriminate|]).
  vm_compute in H. discriminate.
Qed.

Lemma sampleOracle_inline_by_name x y :
  opName x = opName y ->
  isExpressionAlwaysInline sampleOracle x = isExpressionAlwaysInline sampleOracle y.
Proof. intros H. simpl. by rewrite H. Qed.

Lemma sampleSharedRead_leaf v d :
  v ∈ [OpResult 1 0] -> getDefiningOp v = Some d ->
  opIs (isExpressionAlwaysInline sampleOracle) sampleSharedRead d = false.
Proof.
  intros Hv Hd. apply list_elem_of_singleton in Hv. subst v. injection Hd as <-. reflexivity.
Qed.

Lemma sampleSharedRead_no_self_use : OpResult 2 0 ∉ [OpResult 1 0].
Proof. intros H. apply list_elem_of_singleton in H. discriminate. Qed.

Lemma always_inline_gets_one_copy_per_use_witness :
  exists st' kept,
    lowerAlwaysInlineOperation sampleOracle 3 sampleSharedRead 2 = Ok st' /\
    length (irOps st') = 9 /\
    kept ∈ [(3, 0); (3, 1); (5, 0)] /\
    getUses st' (OpResult 2 0) = [kept].
Proof.
  destruct (always_inline_gets_one_copy_per_use sampleOracle 3 sampleSharedRead 2 _
              eq_refl eq_refl sampleSharedRead_no_self_use sampleSharedRead_operands
              sampleSharedRead_leaf sampleOracle_inline_by_name ltac:(simpl; lia))
    as (st' & kept & H1 & H2 & H3 & H4 & _).
  exists st', kept. split; [exact H1|]. split; [exact H2|]. split; [exact H3|exact H4].
Defined.

(** X13.  The decision of [shouldSpillWireBasedOnState], in closed form.
    From a sound cache the decision is false, and the cache untouched, for
    an operation without result, of an inout type, a read, a constant, or
    used only by an assignment; for any other operation it depends on the
    number of terms of its expression tree alone, through the [size_t] that
    holds it ([size], the number modulo [2^64]): true when [size] is greater
    than the maximum, or when the heuristic of the name hints is on and the
    operation has a hint that has no prefix "_" or, with the prefix, when
    [size] has reached the limit for name hints.  The cache stays sound and
    keeps its entries. *)
Theorem spill_decision_by_term_count (O : Oracle) (fuel : nat) (options : LoweringOptions)
    (st : IR) (m : ExpressionStates) (op : OpId) (m' : ExpressionStates) (spill : bool) :
  cacheSound st m ->
  shouldSpillWireBasedOnState O fuel options st m op = Ok (m', spill) ->
  cacheSound st m' /\
  (forall w s0, findState w m = Some s0 -> findState w m' = Some s0) /\
  if (getNumResults st op =? 0) || isInOutType (getResultType st op 0) ||
     isa st op [ReadInOutOp; ConstantOp] || usedOnlyByAssignment st op
  then spill = false /\ m' = m
  else exists k terms size,
    termCount k st (OpResult op 0) = Some terms /\
    size = (N.of_nat terms mod 2 ^ 64)%N /\
    spill = (N.of_nat (maximumNumberOfTermsPerExpression options) <? size)%N ||
            (spillLargeTermsWithNamehints options &&
             match getNamehint st op with
             | Some hint =>
                 negb (String.prefix "_" hint) ||
                 (N.of_nat (wireSpillingNamehintTermLimit options) <=? size)%N
             | None => false
             end).
Proof.
  intros Hm H. unfold shouldSpillWireBasedOnState in H.
  destruct ((getNumResults st op =? 0) || isInOutType (getResultType st op 0) ||
            isa st op [ReadInOutOp; ConstantOp]) eqn:E1.
  { injection H as <- <-. cbn [orb]. done. }
  cbn [orb]. destruct (usedOnlyByAssignment st op) eqn:E2.
  { injection H as <- <-. done. }
  apply bind_Ok_inv in H as ([m1 size] & Hsize & H).
  destruct (getExpressionState_post O st fuel _ _ _ _ Hm Hsize)
    as (Hext1 & Hm1 & k & terms & Hk & Hs).
  cut (cacheSound st m' /\
       (forall w s0, findState w m = Some s0 -> findState w m' = Some s0) /\
       spill = (N.of_nat (maximumNumberOfTermsPerExpression options) <? size)%N ||
               (spillLargeTermsWithNamehints options &&
                match getNamehint st op with
                | Some hint =>
                    negb (String.prefix "_" hint) ||
                    (N.of_nat (wireSpillingNamehintTermLimit options) <=? size)%N
                | None => false
                end)).
  { intros (? & ? & ?). split; [done|]. split; [done|]. by exists k, terms, size. }
  destruct (N.of_nat (maximumNumberOfTermsPerExpression options) <? size)%N eqn:Emax.
  { by injection H as <- <-. }
  unfold dispatchHeuristic in H. cbn [orb].
  destruct (spillLargeTermsWithNamehints options) eqn:Eh.
  2: { by injection H as <- <-. }
  cbn [andb].
  destruct (getNamehint st op) as [hint|] eqn:Ehint.
  2: { by injection H as <- <-. }
  destruct (negb (String.prefix "_" hint)) eqn:Eprefix.
  { by injection H as <- <-. }
  apply bind_Ok_inv in H as ([m2 size2] & Hsize2 & H).
  destruct (getExpressionState_post O st fuel _ _ _ _ Hm1 Hsize2)
    as (Hext2 & Hm2 & k2 & terms2 & Hk2 & Hs2).
  assert (size2 = size) as ->.
  { rewrite Hs, Hs2. f_equal. by eapply termCount_fun. }
  assert (Hext : forall w s0, findState w m = Some s0 -> findState w m2 = Some s0)
    by (intros w s0 Hw; by apply Hext2, Hext1).
  cbn [orb].
  destruct (N.of_nat (wireSpillingNamehintTermLimit options) <=? size)%N eqn:Elim;
    by injection H as <- <-.
Qed.

Lemma spill_decision_by_term_count_witness :
  exists k terms size,
    termCount k samplePretty (OpResult 2 0) = Some terms /\
    size = (N.of_nat terms mod 2 ^ 64)%N /\
    true = (N.of_nat (maximumNumberOfTermsPerExpression sampleOptions) <? size)%N ||
           (spillLargeTermsWithNamehints sampleOptions &&
            match getNamehint samplePretty 2 with
            | Some hint =>
                negb (String.prefix "_" hint) ||
                (N.of_nat (wireSpillingNamehintTermLimit sampleOptions) <=? size)%N
            | None => false
            end).
Proof.
  refine (proj2 (proj2 (spill_decision_by_term_count sampleOracle 10 sampleOptions samplePretty []
                          2 _ true _ _))).
  - intros w s Hw. discriminate.
  - vm_compute. reflexivity.
Defined.

(** ** The prettification when nothing is worth a spill *)

Section Quiet.

Context (O : Oracle) (options : LoweringOptions) (st : IR).
Context (Hoff : spillLargeTermsWithNamehints options = false).
Context (Hsmall : forall v k s, termCount k st v = Some s ->
                    s <= maximumNumberOfTermsPerExpression options).

Lemma shouldSpill_quiet fuel m op m' spill :
  cacheSound st m ->
  shouldSpillWireBasedOnState O fuel options st m op = Ok (m', spill) ->
  spill = false /\ cacheSound st m'.
Proof.
  intros Hm H. unfold shouldSpillWireBasedOnState in H.
  destruct ((getNumResults st op =? 0) || isInOutType (getResultType st op 0) ||
            isa st op [ReadInOutOp; ConstantOp]).
  { by injection H as <- <-. }
  destruct (usedOnlyByAssignment st op).
  { by injection H as <- <-. }
  apply bind_Ok_inv in H as ([m1 size] & Hsize & H).
  destruct (getExpressionState_post O st fuel _ _ _ _ Hm Hsize)
    as (_ & Hm1 & k & terms & Hk & ->).
  apply Hsmall in Hk.
  assert (Hle : (sizeOf terms <= N.of_nat (maximumNumberOfTermsPerExpression options))%N).
  { etrans; [apply sizeOf_le|lia]. }
  rewrite (proj2 (N.ltb_ge _ _) Hle) in H.
  unfold dispatchHeuristic in H. rewrite Hoff in H. by injection H as <- <-.
Qed.

Lemma spillScan_quiet block fuel : forall m it st' m',
  cacheSound st m ->
  spillScan O fuel options block st m it = Ok (st', m') ->
  st' = st /\ cacheSound st m'.
Proof.
  induction fuel as [|f IH]; intros m it st' m' Hm H.
  - destruct it; simpl in H; [discriminate|]. by injection H as <- <-.
  - destruct it as [op|]; cbn [spillScan] in H.
    2: { by injection H as <- <-. }
    apply bind_Ok_inv in H as (next & Hnext & H).
    destruct (negb (opIs (isVerilogExpression O) st op)); [by apply IH in H|].
    apply bind_Ok_inv in H as ([m1 spill] & Hspill & H).
    destruct (shouldSpill_quiet _ _ _ _ _ Hm Hspill) as [-> Hm1].
    by apply IH in H.
Qed.

Section QuietRegions.

Context (rec : IR -> ExpressionStates -> BlockId -> Res (IR * ExpressionStates)).
Context (rec_quiet : forall m b st' m', cacheSound st m -> rec st m b = Ok (st', m') ->
                       st' = st /\ cacheSound st m').

Lemma prettifyBlocks_quiet l : forall m st' m',
  cacheSound st m ->
  foldRes (fun '(st, m) b => rec st m b) (st, m) l = Ok (st', m') ->
  st' = st /\ cacheSound st m'.
Proof.
  induction l as [|b l IH]; intros m st' m' Hm H.
  - by injection H as <- <-.
  - cbn [foldRes] in H. apply bind_Ok_inv in H as ([st1 m1] & Hrec & H).
    destruct (rec_quiet _ _ _ _ Hm Hrec) as [-> Hm1]. by apply IH in H.
Qed.

Lemma prettifyRegions_quiet block fuel : forall m it st' m',
  cacheSound st m ->
  prettifyRegions rec fuel block st m it = Ok (st', m') ->
  st' = st /\ cacheSound st m'.
Proof.
  induction fuel as [|f IH]; intros m it st' m' Hm H.
  - destruct it; simpl in H; [discriminate|]. by injection H as <- <-.
  - destruct it as [op|]; cbn [prettifyRegions] in H.
    2: { by injection H as <- <-. }
    apply bind_Ok_inv in H as ([st1 m1] & Hblocks & H).
    destruct (prettifyBlocks_quiet _ _ _ _ Hm Hblocks) as [-> Hm1].
    apply bind_Ok_inv in H as (next & Hnext & H). by apply IH in H.
Qed.

End QuietRegions.

Lemma prettifyAfterLegalization_quiet fuel : forall m block st' m',
  cacheSound st m ->
  prettifyAfterLegalization O fuel options st m block = Ok (st', m') ->
  st' = st /\ cacheSound st m'.
Proof.
  induction fuel as [|f IH]; intros m block st' m' Hm H; [discriminate|].
  cbn [prettifyAfterLegalization] in H.
  apply bind_Ok_inv in H as (parent & Hparent & H).
  destruct (hasProceduralRegionTrait O st parent).
  { by injection H as <- <-. }
  apply bind_Ok_inv in H as ([st1 m1] & Hscan & H).
  destruct (spillScan_quiet _ _ _ _ _ _ Hm Hscan) as [-> Hm1].
  by apply (prettifyRegions_quiet _ IH) in H.
Qed.

End Quiet.

(** X14.  The prettification changes nothing when nothing is worth a
    spill: with the heuristic of the name hints off and no expression of
    more terms than [maximumNumberOfTermsPerExpression], whenever
    [prettifyAfterLegalization] returns, the graph is the one it was given
    (only the cache has grown). *)
Theorem prettification_is_quiet_below_the_maximum (O : Oracle) (fuel : nat)
    (options : LoweringOptions) (st : IR) (block : BlockId) (st' : IR) (m' : ExpressionStates) :
  spillLargeTermsWithNamehints options = false ->
  (forall v k s, termCount k st v = Some s -> s <= maximumNumberOfTermsPerExpression options) ->
  prettifyAfterLegalization O fuel options st [] block = Ok (st', m') ->
  st' = st /\ cacheSound st m'.
Proof.
  intros Hoff Hsmall H.
  apply (prettifyAfterLegalization_quiet O options st Hoff Hsmall fuel [] block); [|done].
  intros w s Hw. discriminate.
Qed.

Lemma samplePretty_small v k s :
  termCount k samplePretty v = Some s -> s <= maximumNumberOfTermsPerExpression quietOptions.
Proof.
  intros H. destruct v as [b i|op i].
  - destruct k; [done|]. injection H as <-. simpl. lia.
  - do 6 (destruct op as [|op];
          [match type of H with
           | termCount _ _ (OpResult ?n _) = _ =>
               let E := fresh in
               assert (E : exists c, termCount 10 samplePretty (OpResult n i) = Some c /\ c <= 8)
                 by (eexists; split; [vm_compute; reflexivity|lia]);
               destruct E as (c & E & Hc); rewrite (termCount_fun _ _ _ _ _ _ H E); exact Hc
           end|]).
    destruct k; [done|]. discriminate.
Qed.

Lemma prettification_is_quiet_below_the_maximum_witness :
  exists m', prettifyAfterLegalization sampleOracle 10 quietOptions samplePretty [] 0 =
               Ok (samplePretty, m') /\ cacheSound samplePretty m'.
Proof.
  destruct (prettifyAfterLegalization sampleOracle 10 quietOptions samplePretty [] 0)
    as [[st' m']| |] eqn:E.
  - destruct (prettification_is_quiet_below_the_maximum sampleOracle 10 quietOptions
                samplePretty 0 st' m' eq_refl samplePretty_small E) as [-> Hm].
    exists m'. split; [reflexivity|exact Hm].
  - vm_compute in E. discriminate.
  - vm_compute in E. discriminate.
Defined.

Lemma getUses_perm st st' v v' :
  (forall u, slot st' u = Some v' <-> slot st u = Some v) ->
  getUses st' v' ≡ₚ getUses st v.
Proof.
  intros H. apply NoDup_Permutation; [apply NoDup_getUses..|].
  intros u. by rewrite !getUses_slot.
Qed.

Lemma isSimpleReadOrPort_read st c k y w j rest z :
  getOp st c = Some y -> opName y = ReadInOutOp -> opOperands y = OpResult w j :: rest ->
  getOp st w = Some z -> opName z = WireOp ->
  isSimpleReadOrPort st (OpResult c k) = true.
Proof.
  intros Hy Hn Ho Hz Hw. cbn [isSimpleReadOrPort]. unfold isa, getOperands.
  rewrite Hy, Hn, Ho. cbn [lookup list_lookup]. rewrite bool_decide_eq_true_2 by (by left).
  rewrite Hz, Hw. apply bool_decide_eq_true_2. by left.
Qed.

Ltac slot_absurd :=
  cbn [lookup list_lookup]; rewrite ?lookup_nil; intros [=]; first [congruence | lia | done].

(** X15.  [enforceWire] on an operand [expr] of [op] that is neither a
    port, a read of a declaration nor a result of an instance: it creates a
    wire in the body of the module and an assignment of [expr] to it, which
    becomes the only use of [expr]; every operand that held [expr] now holds
    a read of that wire of its own, for which [isSimpleReadOrPort] holds; no
    other operand of the graph changes.  The operands of the graph are
    values of the graph, and the classification of an operation as "always
    inline" depends on its name only and excludes the wires. *)
Theorem event_control_expression_becomes_wire_read (O : Oracle) (fuel : nat) (st : IR)
    (op : OpId) (expr : Value) (block : BlockId) (i : nat) :
  getOperands st op !! i = Some expr ->
  isSimpleReadOrPort st expr = false ->
  (forall inst, getDefiningOp expr = Some inst -> isa st inst [InstanceOp] = false) ->
  getModuleBodyBlock st op = Some block ->
  (forall n k v, getOperands st n !! k = Some v -> isOldValue (length (irOps st)) v) ->
  (forall x, opName x = WireOp -> isExpressionAlwaysInline O x = false) ->
  (forall x y, opName x = opName y ->
     isExpressionAlwaysInline O x = isExpressionAlwaysInline O y) ->
  length (getUses st expr) <= fuel ->
  exists st',
    enforceWire O fuel st op expr = Ok st' /\
    length (irOps st') = length (irOps st) + 2 + length (getUses st expr) /\
    (exists w, getOp st' (length (irOps st)) = Some w /\ opName w = WireOp /\
       opOperands w = [] /\ opResultTypes w = [InOutType (getType st expr)] /\
       opBlock w = Some block) /\
    (exists a, getOp st' (length (irOps st) + 2) = Some a /\ opName a = AssignOp /\
       opOperands a = [OpResult (length (irOps st)) 0; expr]) /\
    getUses st' expr = [(length (irOps st) + 2, 1)] /\
    (forall u, u ∈ getUses st expr ->
       exists c, getOperands st' (fst u) !! snd u = Some (OpResult c 0) /\
         isSimpleReadOrPort st' (OpResult c 0) = true /\
         getOperands st' c = [OpResult (length (irOps st)) 0] /\
         getUses st' (OpResult c 0) = [u]) /\
    (forall u, fst u < length (irOps st) -> u ∉ getUses st expr ->
       getOperands st' (fst u) !! snd u = getOperands st (fst u) !! snd u).
Proof.
  intros Hi Hsimple Hinst Hblock Hwf Hwire Hname Hfuel.
  set (m := length (irOps st)).
  replace (m + 2) with (S (S m)) by lia.
  assert (Hwf' : forall u v, slot st u = Some v -> isOldValue m v).
  { intros u v. rewrite slot_getOperands. apply Hwf. }
  assert (Hexpr_slot : slot st (op, i) = Some expr) by (by rewrite slot_getOperands).
  assert (Hold : isOldValue m expr) by (by eapply Hwf').
  assert (Hstlt : forall u v, slot st u = Some v -> fst u < m) by apply slot_lt.
  unfold enforceWire. rewrite Hsimple.
  assert (Hi2 : match getDefiningOp expr with
                | Some inst => isa st inst [InstanceOp]
                | None => false
                end = false).
  { destruct (getDefiningOp expr) as [inst|] eqn:E; [by apply Hinst|done]. }
  rewrite Hi2, Hblock. cbv beta iota delta [mbind Res_bind fromOption].
  set (ty := getType st expr).
  set (c1 := createOp st (atBlockBegin st block) WireOp [] [InOutType ty] []).
  assert (E1 : c1 = (fst c1, m)) by (by rewrite (surjective_pairing c1)).
  rewrite E1. cbv beta iota.
  set (s1 := fst c1) in *.
  set (wire := OpResult m 0).
  assert (H1len : length (irOps s1) = S m) by apply length_createOp.
  set (c2 := createOp s1 (pointBefore s1 op) ReadInOutOp [wire] [getType s1 expr] []).
  assert (E2 : c2 = (fst c2, S m)).
  { rewrite (surjective_pairing c2). f_equal. unfold c2. by rewrite createOp_snd. }
  rewrite E2. cbv beta iota.
  set (s2 := fst c2) in *.
  set (read := OpResult (S m) 0).
  assert (H2len : length (irOps s2) = S (S m)).
  { unfold s2, c2. by rewrite length_createOp, H1len. }
  set (s3 := replaceAllUsesWith s2 expr read).
  assert (H3len : length (irOps s3) = S (S m)).
  { unfold s3. by rewrite length_replaceAllUsesWith. }
  set (c4 := createOp s3 (pointBefore s3 op) AssignOp [wire; expr] [] []).
  rewrite (surjective_pairing c4). cbv beta iota.
  set (s4 := fst c4).
  assert (H4len : length (irOps s4) = S (S (S m))).
  { unfold s4, c4. by rewrite length_createOp, H3len. }
  (* the values *)
  assert (Hne1 : wire <> expr).
  { intros <-. simpl in Hold. lia. }
  assert (Hne2 : read <> expr).
  { intros <-. simpl in Hold. lia. }
  assert (Hne3 : wire <> read) by (unfold wire, read; intros [=]; lia).
  (* the operand slots *)
  assert (H4slot : forall u, slot s4 u =
            if bool_decide (fst u = S (S m)) then [wire; expr] !! snd u
            else if bool_decide (fst u = S m) then [wire] !! snd u
            else if bool_decide (fst u = m) then None
            else (fun x => if bool_decide (x = expr) then read else x) <$> slot st u).
  { intros u. unfold s4, c4. rewrite slot_createOp, H3len.
    case_bool_decide as Hu4; [done|].
    unfold s3. rewrite slot_replaceAllUsesWith. unfold s2, c2. rewrite slot_createOp, H1len.
    case_bool_decide as Hu2.
    { destruct (snd u) as [|[|k]]; cbn [lookup list_lookup fmap option_fmap option_map]; [|done..].
      by rewrite (bool_decide_eq_false_2 (wire = expr)). }
    unfold s1, c1. rewrite slot_createOp. fold m.
    case_bool_decide as Hu1; [|done]. by destruct (snd u). }
  assert (Hs4_read : forall u, slot s4 u = Some read <-> slot st u = Some expr).
  { intros u. rewrite H4slot. case_bool_decide as Hu4.
    { split.
      - destruct (snd u) as [|[|k]]; slot_absurd.
      - intros Hs. apply Hstlt in Hs. lia. }
    case_bool_decide as Hu2.
    { split.
      - destruct (snd u) as [|k]; slot_absurd.
      - intros Hs. apply Hstlt in Hs. lia. }
    case_bool_decide as Hu1.
    { split; [done|]. intros Hs. apply Hstlt in Hs. lia. }
    destruct (slot st u) as [v|] eqn:Ev; [|done].
    cbn [fmap option_fmap option_map]. case_bool_decide as Hv.
    - by subst v.
    - split; [|congruence]. intros [= ->]. apply Hwf' in Ev. simpl in Ev. lia. }
  assert (Hs4_expr : forall u, slot s4 u = Some expr <-> u = (S (S m), 1)).
  { intros u. rewrite H4slot. split.
    - case_bool_decide as Hu4.
      { destruct u as [n [|[|k]]]; cbn [fst snd lookup list_lookup] in *; intros [=];
          [congruence|by subst]. }
      case_bool_decide as Hu2.
      { destruct (snd u) as [|k]; slot_absurd. }
      case_bool_decide as Hu1; [done|].
      destruct (slot st u) as [v|]; [|done]. cbn [fmap option_fmap option_map].
      case_bool_decide as Hv; intros [=]; congruence.
    - intros ->. cbn [fst snd]. by rewrite bool_decide_eq_true_2. }
  assert (Hs4_other : forall u, fst u < m -> slot st u <> Some expr -> slot s4 u = slot st u).
  { intros u Hu Hn. rewrite H4slot. rewrite !bool_decide_eq_false_2 by lia.
    destruct (slot st u) as [v|]; [|done]. cbn [fmap option_fmap option_map].
    rewrite bool_decide_eq_false_2; [done|congruence]. }
  assert (Hs4_wf : forall u v, slot s4 u = Some v -> isOldValue (length (irOps s4)) v).
  { intros u v. rewrite H4slot, H4len. case_bool_decide as Hu4.
    { destruct (snd u) as [|[|k]]; cbn [lookup list_lookup]; intros [=]; subst v.
      - simpl. lia.
      - eapply isOldValue_mono; [|done]. lia. }
    case_bool_decide as Hu2.
    { destruct (snd u) as [|k]; cbn [lookup list_lookup]; intros [=]; subst v. simpl. lia. }
    case_bool_decide as Hu1; [done|].
    destruct (slot st u) as [v'|] eqn:Ev; [|done]. cbn [fmap option_fmap option_map].
    case_bool_decide as Hv; intros [=]; subst v.
    - simpl. lia.
    - eapply isOldValue_mono; [|by eapply Hwf']. lia. }
  (* the operations created *)
  set (o4 := mkOperation ReadInOutOp [wire] [getType s1 expr] [] [] (fst <$> pointBefore s1 op)).
  assert (H4read : getOp s4 (S m) = Some o4).
  { unfold s4, c4. rewrite getOp_createOp_old by lia.
    unfold s3. rewrite getOp_replaceAllUsesWith.
    unfold s2, c2. rewrite <- H1len at 1. rewrite getOp_createOp_new.
    cbn [fmap option_fmap option_map withOperands opOperands replaceIn map].
    by rewrite (bool_decide_eq_false_2 (wire = expr)). }
  assert (H4wire : getOp s4 m = Some (mkOperation WireOp [] [InOutType ty] [] [] (Some block))).
  { unfold s4, c4. rewrite getOp_createOp_old by lia.
    unfold s3. rewrite getOp_replaceAllUsesWith.
    unfold s2, c2. rewrite getOp_createOp_old by lia.
    unfold s1, c1, m. rewrite getOp_createOp_new. done. }
  assert (H4assign : getOp s4 (S (S m)) =
            Some (mkOperation AssignOp [wire; expr] [] [] [] (fst <$> pointBefore s3 op))).
  { unfold s4, c4. rewrite <- H3len. apply getOp_createOp_new. }
  assert (Hself : read ∉ opOperands o4).
  { intros H%list_elem_of_singleton. by apply Hne3. }
  assert (Hleaf : forall v d, v ∈ opOperands o4 -> getDefiningOp v = Some d ->
            opIs (isExpressionAlwaysInline O) s4 d = false).
  { intros v d Hv%list_elem_of_singleton Hd. subst v. injection Hd as <-.
    unfold opIs. rewrite H4wire. by apply Hwire. }
  assert (Hperm : getUses s4 read ≡ₚ getUses st expr) by (by apply getUses_perm).
  assert (Hn1 : 1 <= length (getUses st expr)).
  { apply getUses_slot in Hexpr_slot. destruct (getUses st expr); [|simpl; lia].
    by apply elem_of_nil in Hexpr_slot. }
  assert (Hk : 1 <= length (getUses s4 (OpResult (S m) 0)) <= fuel).
  { fold read. rewrite Hperm. lia. }
  destruct (lowerAlwaysInlineOperation_leaf O s4 (S m) o4 H4read Hself Hs4_wf Hleaf Hname fuel
              s4 eq_refl (ClonesPost_refl s4 (S m) o4 H4read Hs4_wf) Hk)
    as (s' & kept & P & Huses & Hrun).
  fold read in Huses.
  set (st' := moveBefore s' (S m) (fst kept)) in *.
  exists st'. split; [done|].
  assert (Hsame : sameOperations s' st') by apply sameOperations_moveBefore.
  assert (Hslot : forall u, slot st' u = slot s' u)
    by (intros; by apply slot_sameOperations).
  assert (Hne : forall n, n <> S m -> getOp st' n = getOp s' n)
    by (intros; by apply getOp_moveBefore_ne).
  assert (Hkept4 : forall u, fst u < S (S (S m)) -> slot s4 u <> Some read ->
            slot s' u = slot s4 u).
  { intros u Hu Hn. apply (cp_kept _ _ _ _ P); [by rewrite H4len|done]. }
  destruct (getOp_moveBefore s' (S m) (fst kept) (S m) o4 (cp_op _ _ _ _ P))
    as (r & Hr & Hrdet).
  fold st' in Hr.
  destruct (detached_fields _ _ Hrdet) as (Hrname & Hrops & _).
  destruct (cp_old _ _ _ _ P _ _ H4wire) as (w & Hw & Hwx & Hwlen).
  destruct (unwired_fields _ _ Hwx) as (Hwname & Hwty & _ & _ & Hwblock).
  rewrite <- Hne in Hw by lia.
  split.
  { destruct Hsame as [<- _]. pose proof (cp_count _ _ _ _ P) as Hc. fold read in Hc.
    rewrite Huses, H4len, Hperm in Hc. simpl in Hc. lia. }
  split.
  { exists w. split; [done|]. split; [done|]. split; [by apply nil_length_inv|]. done. }
  split.
  { destruct (cp_old _ _ _ _ P _ _ H4assign) as (a & Ha & Hax & Halen).
    destruct (unwired_fields _ _ Hax) as (Haname & _).
    exists a. split; [by rewrite Hne by lia|]. split; [done|].
    assert (H0 : slot s' (S (S m), 0) = Some wire).
    { rewrite Hkept4; cbn [fst]; [|lia|].
      - rewrite H4slot. cbn [fst snd]. by rewrite bool_decide_eq_true_2.
      - rewrite Hs4_read. intros Hs. apply Hstlt in Hs. cbn [fst] in Hs. lia. }
    assert (H1 : slot s' (S (S m), 1) = Some expr).
    { rewrite Hkept4; cbn [fst]; [|lia|].
      - by apply Hs4_expr.
      - rewrite Hs4_read. intros Hs. apply Hstlt in Hs. cbn [fst] in Hs. lia. }
    unfold slot in H0, H1. cbn [fst snd] in H0, H1. rewrite Ha in H0, H1. simpl in H0, H1.
    simpl in Halen. destruct (opOperands a) as [|x0 [|x1 [|x2 l]]]; try done.
    simpl in H0, H1. injection H0 as ->. injection H1 as ->. done. }
  split.
  { apply getUses_singleton. intros u. rewrite Hslot. split.
    - intros Hu. destruct (decide (fst u < S (S (S m)))) as [Hlt|Hge].
      + destruct (decide (slot s4 u = Some read)) as [Hrd4|Hnrd].
        * destruct (cp_served _ _ _ _ P u Hrd4) as (c & y & Hc & Hsl & _).
          { rewrite Hu. intros [= E]. apply Hne2. by rewrite E. }
          rewrite Hsl in Hu. injection Hu as <-. rewrite H4len in Hc. simpl in Hold. lia.
        * rewrite Hkept4 in Hu by done. by apply Hs4_expr.
      + pose proof (slot_lt _ _ _ Hu) as Hlt.
        destruct (cp_new _ _ _ _ P (fst u)) as (y & Hy & Hyops); [rewrite H4len; lia|done|].
        unfold slot in Hu. rewrite Hy in Hu. simpl in Hu. rewrite Hyops in Hu.
        destruct (snd u) as [|k]; cbn [opOperands o4 lookup list_lookup] in Hu; [|done].
        congruence.
    - intros ->. rewrite Hkept4; cbn [fst]; [|lia|].
      + by apply Hs4_expr.
      + rewrite Hs4_read. intros Hs. apply Hstlt in Hs. cbn [fst] in Hs. lia. }
  split.
  { intros u Hu. apply getUses_slot in Hu. pose proof (Hstlt _ _ Hu) as Hult.
    assert (Hu4 : slot s4 u = Some read) by (by apply Hs4_read).
    destruct (decide (slot s' u = Some read)) as [Hrd|Hnrd].
    - assert (u = kept) as ->.
      { apply getUses_slot in Hrd. rewrite Huses in Hrd. by apply list_elem_of_singleton in Hrd. }
      exists (S m). split; [by rewrite <- slot_getOperands, Hslot|].
      split; [by eapply (isSimpleReadOrPort_read st' (S m) 0 r m 0 [])|].
      split; [unfold getOperands; by rewrite Hr|].
      by rewrite (sameOperations_getUses _ _ _ Hsame).
    - destruct (cp_served _ _ _ _ P u Hu4 Hnrd)
        as (c & y & Hc & Hsl & Huniq & Hy & Hyname & Hyops & _).
      rewrite H4len in Hc. rewrite <- Hne in Hy by lia.
      exists c. split; [by rewrite <- slot_getOperands, Hslot|].
      split; [by eapply (isSimpleReadOrPort_read st' c 0 y m 0 [])|].
      split; [unfold getOperands; by rewrite Hy|].
      apply getUses_singleton. intros u'. rewrite Hslot. apply Huniq. }
  intros u Hu Hnin. rewrite <- !slot_getOperands, Hslot.
  assert (Hn : slot st u <> Some expr) by (intros Hs; by apply Hnin, getUses_slot).
  rewrite Hkept4 by (lia || by rewrite Hs4_read).
  by apply Hs4_other.
Qed.

Lemma sampleClock_operands n k v :
  getOperands sampleClock n !! k = Some v -> isOldValue 4 v.
Proof.
  intros H.
  do 4 (destruct n as [|n];
        [do 2 (destruct k as [|k];
               [vm_compute in H; try discriminate; injection H as <-; simpl; lia || done|]);
         vm_compute in H; discriminate|]).
  vm_compute in H. discriminate.
Qed.

Lemma sampleClock_not_instance inst :
  getDefiningOp (OpResult 1 0) = Some inst -> isa sampleClock inst [InstanceOp] = false.
Proof. intros [= <-]. reflexivity. Qed.

Lemma sampleOracle_wire_not_inline x :
  opName x = WireOp -> isExpressionAlwaysInline sampleOracle x = false.
Proof. intros H. simpl. by rewrite H. Qed.

Lemma event_control_expression_becomes_wire_read_witness :
  exists st',
    enforceWire sampleOracle 2 sampleClock 2 (OpResult 1 0) = Ok st' /\
    length (irOps st') = 8 /\
    getUses st' (OpResult 1 0) = [(6, 1)] /\
    (forall u, u ∈ [(2, 0); (3, 0)] ->
       exists c, getOperands st' (fst u) !! snd u = Some (OpResult c 0) /\
         isSimpleReadOrPort st' (OpResult c 0) = true /\
         getOperands st' c = [OpResult 4 0] /\
         getUses st' (OpResult c 0) = [u]).
Proof.
  destruct (event_control_expression_becomes_wire_read sampleOracle 2 sampleClock 2
              (OpResult 1 0) 0 0 eq_refl eq_refl sampleClock_not_instance eq_refl
              sampleClock_operands sampleOracle_wire_not_inline sampleOracle_inline_by_name
              ltac:(simpl; lia))
    as (st' & H1 & H2 & _ & _ & H3 & H4 & _).
  exists st'. split; [exact H1|]. split; [exact H2|]. split; [exact H3|exact H4].
Defined.

Lemma nextInList_lookup l : forall p op,
  NoDup l -> l !! p = Some op -> nextInList op l = l !! S p.
Proof.
  induction l as [|x l IH]; intros p op Hnd Hp; [done|].
  apply NoDup_cons in Hnd as [Hx Hnd]. cbn [nextInList].
  destruct p as [|p].
  - injection Hp as ->. rewrite bool_decide_eq_true_2 by done. by destruct l.
  - cbn [lookup list_lookup] in Hp. rewrite bool_decide_eq_false_2.
    + by apply IH.
    + intros ->. apply Hx. by eapply list_elem_of_lookup_2.
Qed.

Lemma advance_lookup st block l p op :
  getBlockOps st block = l -> NoDup l -> getBlock st op = Some block ->
  l !! p = Some op -> advance st block op = Ok (l !! S p).
Proof.
  intros Hl Hnd Hb Hp. unfold advance, getNextNode. rewrite Hb, Hl.
  rewrite (nextInList_lookup l p op Hnd Hp).
  destruct (l !! S p); [done|]. by rewrite bool_decide_eq_true_2.
Qed.

Lemma haveAnyOutOfOrderUses_none st block seen users :
  (forall user, user ∈ users ->
     exists w, zipUp (length (irOps st)) st block user = Ok w /\ w ∉ seen) ->
  haveAnyOutOfOrderUses st block seen users = Ok false.
Proof.
  induction users as [|user rest IH]; intros H; [done|].
  cbn [haveAnyOutOfOrderUses].
  destruct (H user) as (w & Hw & Hn); [by left|]. rewrite Hw.
  cbv beta iota delta [mbind Res_bind]. rewrite bool_decide_eq_false_2 by done.
  apply IH. intros u Hu. apply H. by right.
Qed.

(** X16.  A block whose operations are used only at or below their own
    place is left alone by [resolveUseBeforeDef]: when every user of every
    operation of the block, zipped up to the block, is an operation that
    does not come before it, the walk returns the graph it was given. *)
Theorem ordered_block_is_left_alone (O : Oracle) (fuel : nat) (st : IR) (block : BlockId)
    (l : list OpId) :
  getBlockOps st block = l ->
  NoDup l ->
  (forall op, op ∈ l -> getBlock st op = Some block) ->
  (forall p op user, l !! p = Some op -> user ∈ getUsers st op ->
     exists w, zipUp (length (irOps st)) st block user = Ok w /\ w ∉ take p l) ->
  length l <= fuel ->
  resolveUseBeforeDef O fuel st block [] (head l) = Ok st.
Proof.
  intros Hl Hnd Hblock Hord Hfuel.
  cut (forall f p seen, length l <= p + f -> (forall w, w ∈ seen <-> w ∈ take p l) ->
         resolveUseBeforeDef O f st block seen (l !! p) = Ok st).
  { intros H. rewrite head_lookup. apply H; [lia|]. intros w. by rewrite take_0. }
  clear Hfuel. induction f as [|f IH]; intros p seen Hf Hseen.
  - rewrite lookup_ge_None_2 by lia. done.
  - destruct (l !! p) as [op|] eqn:Hp; [|done].
    cbn [resolveUseBeforeDef].
    rewrite (advance_lookup st block l p op Hl Hnd) by (done || by eapply Hblock, list_elem_of_lookup_2).
    cbv beta iota delta [mbind Res_bind].
    rewrite haveAnyOutOfOrderUses_none.
    2: { intros user Hu. destruct (Hord p op user Hp Hu) as (w & Hw & Hn).
         exists w. split; [done|]. by rewrite Hseen. }
    cbv beta iota delta [negb]. apply IH; [lia|].
    intros w. rewrite (take_S_r _ _ _ Hp), elem_of_cons, elem_of_app, list_elem_of_singleton.
    rewrite Hseen. tauto.
Qed.

Lemma samplePretty_ordered p op user :
  [1; 2; 3; 4; 5] !! p = Some op -> user ∈ getUsers samplePretty op ->
  exists w, zipUp (length (irOps samplePretty)) samplePretty 0 user = Ok w /\
            w ∉ take p [1; 2; 3; 4; 5].
Proof.
  intros Hp Hu.
  do 5 (destruct p as [|p];
        [injection Hp as <-; vm_compute in Hu;
         repeat (apply elem_of_cons in Hu as [->|Hu];
                 [eexists; split; [vm_compute; reflexivity|];
                  cbn [take]; rewrite ?elem_of_cons, elem_of_nil; lia|]);
         by apply elem_of_nil in Hu|]).
  done.
Qed.

Lemma samplePretty_blocks op : op ∈ [1; 2; 3; 4; 5] -> getBlock samplePretty op = Some 0.
Proof.
  intros H. repeat (apply elem_of_cons in H as [->|H]; [reflexivity|]).
  by apply elem_of_nil in H.
Qed.

Lemma ordered_block_is_left_alone_witness :
  resolveUseBeforeDef sampleOracle 5 samplePretty 0 [] (Some 1) = Ok samplePretty.
Proof.
  apply (ordered_block_is_left_alone sampleOracle 5 samplePretty 0 [1; 2; 3; 4; 5] eq_refl).
  - repeat (apply NoDup_cons; split; [rewrite ?elem_of_cons, elem_of_nil; lia|]).
    apply NoDup_nil_2.
  - exact samplePretty_blocks.
  - exact samplePretty_ordered.
  - simpl. lia.
Defined.

Lemma removeId_app o l1 l2 : removeId o (l1 ++ l2) = removeId o l1 ++ removeId o l2.
Proof. unfold removeId. apply filter_app. Qed.

Lemma removeId_notin o l : o ∉ l -> removeId o l = l.
Proof.
  induction l as [|x l IH]; intros H; [done|].
  apply not_elem_of_cons in H as [Hne H]. unfold removeId in *.
  rewrite filter_cons. destruct (decide (x <> o)); [|done]. by rewrite IH.
Qed.

Lemma removeId_cons_eq o l : removeId o (o :: l) = removeId o l.
Proof. unfold removeId. rewrite filter_cons. by destruct (decide (o <> o)). Qed.

Lemma nextInList_middle l1 x l2 :
  NoDup (l1 ++ x :: l2) -> nextInList x (l1 ++ x :: l2) = head l2.
Proof.
  induction l1 as [|y l1 IH]; intros Hnd; cbn [app nextInList].
  - by rewrite bool_decide_eq_true_2.
  - apply NoDup_cons in Hnd as [Hy Hnd]. rewrite bool_decide_eq_false_2; [by apply IH|].
    intros ->. apply Hy. apply elem_of_app. right. by left.
Qed.

Lemma advance_middle s b l1 x l2 :
  getBlockOps s b = l1 ++ x :: l2 -> NoDup (l1 ++ x :: l2) -> getBlock s x = Some b ->
  advance s b x = Ok (head l2) /\ getNextNode s x = head l2.
Proof.
  intros Hl Hnd Hb. unfold advance, getNextNode. rewrite Hb, Hl, nextInList_middle by done.
  split; [|done]. destruct (head l2); [done|]. by rewrite bool_decide_eq_true_2.
Qed.

(** A move of [x] before [n0], an earlier operation of the same block. *)
Lemma moveToPoint_front s x n0 b D1 D2 rest :
  getBlock s x = Some b -> is_Some (irBlocks s !! b) ->
  getBlockOps s b = D1 ++ n0 :: D2 ++ x :: rest ->
  NoDup (D1 ++ n0 :: D2 ++ x :: rest) ->
  getBlockOps (moveToPoint s x (b, Some n0)) b = (D1 ++ [x]) ++ n0 :: D2 ++ rest /\
  getBlock (moveToPoint s x (b, Some n0)) x = Some b /\
  is_Some (irBlocks (moveToPoint s x (b, Some n0)) !! b) /\
  (forall b', b' <> b ->
     getBlockOps (moveToPoint s x (b, Some n0)) b' = getBlockOps s b').
Proof.
  intros Hx Hblk Hl Hnd.
  assert (Hparts : (n0 ∉ D1) /\ (x ∉ D1) /\ x <> n0 /\ (x ∉ D2) /\ (x ∉ rest)).
  { apply NoDup_app in Hnd as (_ & H1 & Hnd). apply NoDup_cons in Hnd as [Hn0 Hnd].
    apply NoDup_app in Hnd as (_ & H2 & Hnd). apply NoDup_cons in Hnd as [Hxr _].
    split; [intros H; apply (H1 _ H); by left|].
    split; [intros H; apply (H1 _ H); right; apply elem_of_app; right; by left|].
    split; [intros ->; apply Hn0, elem_of_app; right; by left|].
    split; [intros H; apply (H2 _ H); by left|done]. }
  destruct Hparts as (Hn0 & HxD1 & Hxn0 & HxD2 & Hxrest).
  unfold moveToPoint. cbn [snd]. rewrite bool_decide_eq_false_2 by congruence.
  unfold getBlock in Hx. destruct (getOp s x) as [y|] eqn:Ey; [|done]. simpl in Hx.
  pose proof (getOp_lt _ _ _ Ey) as Hlt.
  unfold unlinkOp. rewrite Ey, Hx, Hl.
  assert (Hrem : removeId x (D1 ++ n0 :: D2 ++ x :: rest) = D1 ++ n0 :: D2 ++ rest).
  { rewrite removeId_app, (removeId_notin x D1) by done.
    change (n0 :: D2 ++ x :: rest) with ([n0] ++ D2 ++ x :: rest).
    rewrite !removeId_app, removeId_cons_eq, (removeId_notin x D2), (removeId_notin x rest)
      by done.
    rewrite (removeId_notin x [n0]); [done|].
    intros H%list_elem_of_singleton. done. }
  rewrite Hrem.
  set (s1 := setOp (setBlockOps s b (D1 ++ n0 :: D2 ++ rest)) x (withBlock y None)).
  assert (H1 : getOp s1 x = Some (withBlock y None)).
  { unfold s1. rewrite getOp_setOp, bool_decide_eq_true_2; [done|].
    by rewrite irOps_setBlockOps. }
  assert (H1b : getBlockOps s1 b = D1 ++ n0 :: D2 ++ rest).
  { unfold s1. rewrite getBlockOps_setOp. by apply getBlockOps_setBlockOps_eq. }
  assert (H1s : is_Some (irBlocks s1 !! b)).
  { unfold s1. simpl. by apply irBlocks_setBlockOps_is_Some. }
  unfold linkOp. rewrite H1. cbn [fst snd]. rewrite H1b, insertBeforeId_app by done.
  split.
  { rewrite getBlockOps_setOp, getBlockOps_setBlockOps_eq by done. by rewrite <- app_assoc. }
  split.
  { unfold getBlock. rewrite getOp_setOp, bool_decide_eq_true_2; [done|].
    rewrite irOps_setBlockOps. unfold s1. by rewrite length_setOp, irOps_setBlockOps. }
  split.
  { simpl. by apply irBlocks_setBlockOps_is_Some. }
  intros b' Hb'. rewrite getBlockOps_setOp, getBlockOps_setBlockOps_ne by done.
  unfold s1. rewrite getBlockOps_setOp. by apply getBlockOps_setBlockOps_ne.
Qed.

Section LogicOps.

Context (st : IR) (block : BlockId).

Let logic (x : OpId) : bool := isa st x [LogicOp].

(** The rounds of [moveLogicOps] after the first operation [n0] that is not
    a declaration: the declarations met go before [n0], in their order. *)
Lemma moveLogicOps_tail : forall rest f s D1 n0 D2,
  length rest <= f ->
  sameOperations st s ->
  is_Some (irBlocks s !! block) ->
  getBlockOps s block = D1 ++ n0 :: D2 ++ rest ->
  NoDup (D1 ++ n0 :: D2 ++ rest) ->
  (forall x, x ∈ D1 ++ n0 :: D2 ++ rest -> getBlock s x = Some block) ->
  exists s',
    moveLogicOps f s block (block, Some n0) (head rest) = Ok s' /\
    sameOperations st s' /\
    getBlockOps s' block =
      D1 ++ List.filter logic rest ++ n0 :: D2 ++ List.filter (fun x => negb (logic x)) rest /\
    (forall x, x ∈ D1 ++ n0 :: D2 ++ rest -> getBlock s' x = Some block) /\
    (forall b', b' <> block -> getBlockOps s' b' = getBlockOps s b').
Proof.
  induction rest as [|x rest IH]; intros f s D1 n0 D2 Hf Hsame Hblk Hl Hnd Hblocks.
  { exists s. split; [by destruct f|]. split; [done|]. split; [by rewrite Hl|]. done. }
  destruct f as [|f]; [simpl in Hf; lia|].
  assert (Hxin : x ∈ D1 ++ n0 :: D2 ++ x :: rest).
  { apply elem_of_app. right. right. apply elem_of_app. right. by left. }
  pose proof (Hblocks x Hxin) as Hxb.
  assert (Hlx : getBlockOps s block = (D1 ++ n0 :: D2) ++ x :: rest)
    by (by rewrite <- app_assoc).
  assert (Hndx : NoDup ((D1 ++ n0 :: D2) ++ x :: rest)) by (by rewrite <- app_assoc).
  destruct (advance_middle s block _ x rest Hlx Hndx Hxb) as [Hadv _].
  cbn [head moveLogicOps]. rewrite Hadv. cbv beta iota delta [mbind Res_bind].
  rewrite (sameOperations_isa _ _ x [LogicOp] Hsame). fold (logic x).
  cbn [List.filter]. destruct (logic x) eqn:Ex; cbn [negb].
  - (* a declaration: moved before [n0] *)
    assert (Hxn0 : x <> n0).
    { intros ->. apply NoDup_app in Hnd as (_ & _ & Hnd). apply NoDup_cons in Hnd as [Hn _].
      apply Hn, elem_of_app. right. by left. }
    cbn [snd]. rewrite bool_decide_eq_false_2 by congruence.
    destruct (moveToPoint_front s x n0 block D1 D2 rest Hxb Hblk Hl Hnd)
      as (Hl2 & Hxb2 & Hblk2 & Hother2).
    set (s2 := moveToPoint s x (block, Some n0)) in *.
    assert (Hsame2 : sameOperations st s2).
    { eapply sameOperations_trans; [done|apply sameOperations_moveToPoint]. }
    assert (Hnd2 : NoDup ((D1 ++ [x]) ++ n0 :: D2 ++ rest)).
    { assert (Hperm : (D1 ++ [x]) ++ n0 :: D2 ++ rest ≡ₚ D1 ++ n0 :: D2 ++ x :: rest).
      { rewrite <- app_assoc. cbn [app]. apply Permutation_app_head.
        rewrite <- (Permutation_middle D2 rest x). apply perm_swap. }
      by rewrite Hperm. }
    assert (Hblocks2 : forall z, z ∈ (D1 ++ [x]) ++ n0 :: D2 ++ rest ->
              getBlock s2 z = Some block).
    { intros z Hz. destruct (decide (z = x)) as [->|Hne]; [done|].
      unfold getBlock, s2. rewrite getOp_moveToPoint_ne by done. apply Hblocks.
      rewrite !elem_of_app, !elem_of_cons, !elem_of_app, ?elem_of_cons in *.
      rewrite elem_of_nil in Hz. tauto. }
    destruct (IH f s2 (D1 ++ [x]) n0 D2 ltac:(simpl in Hf; lia) Hsame2 Hblk2 Hl2 Hnd2 Hblocks2)
      as (s' & Hrun & Hsame' & Hl' & Hblocks' & Hother').
    exists s'. split; [done|]. split; [done|].
    split; [by rewrite Hl', <- app_assoc|].
    split.
    + intros z Hz. apply Hblocks'.
      rewrite !elem_of_app, !elem_of_cons, !elem_of_app, ?elem_of_cons in *. tauto.
    + intros b' Hb'. rewrite Hother' by done. by apply Hother2.
  - (* another operation: left in place *)
    assert (Hl3 : getBlockOps s block = D1 ++ n0 :: (D2 ++ [x]) ++ rest).
    { rewrite Hl. by rewrite <- app_assoc. }
    assert (Hnd3 : NoDup (D1 ++ n0 :: (D2 ++ [x]) ++ rest)) by (by rewrite <- app_assoc).
    assert (Hblocks3 : forall z, z ∈ D1 ++ n0 :: (D2 ++ [x]) ++ rest ->
              getBlock s z = Some block).
    { intros z Hz. apply Hblocks. by rewrite <- app_assoc in Hz. }
    destruct (IH f s D1 n0 (D2 ++ [x]) ltac:(simpl in Hf; lia) Hsame Hblk Hl3 Hnd3 Hblocks3)
      as (s' & Hrun & Hsame' & Hl' & Hblocks' & Hother').
    exists s'. split; [done|]. split; [done|].
    split; [by rewrite Hl', <- !app_assoc|].
    split; [|done]. intros z Hz. apply Hblocks'. by rewrite <- app_assoc.
Qed.

Context (l : list OpId).
Context (Hl : getBlockOps st block = l).
Context (Hnd : NoDup l).
Context (Hblocks : forall x, x ∈ l -> getBlock st x = Some block).

(** The rounds before: the declarations at the front of the block stay. *)
Lemma moveLogicOps_head : forall rest f pre,
  l = pre ++ rest ->
  Forall (fun x => logic x = true) pre ->
  length rest <= f ->
  exists s',
    moveLogicOps f st block (block, head rest) (head rest) = Ok s' /\
    sameOperations st s' /\
    getBlockOps s' block =
      List.filter logic l ++ List.filter (fun x => negb (logic x)) l /\
    (forall x, x ∈ l -> getBlock s' x = Some block) /\
    (forall b', b' <> block -> getBlockOps s' b' = getBlockOps st b').
Proof.
  assert (Hpre : forall pre, Forall (fun x => logic x = true) pre ->
            List.filter logic pre = pre /\ List.filter (fun x => negb (logic x)) pre = []).
  { induction pre as [|y pre IHp]; intros H; [done|].
    apply Forall_cons in H as [Hy H]. destruct (IHp H) as [E1 E2].
    cbn [List.filter]. rewrite Hy. cbn [negb]. by rewrite E1, E2. }
  induction rest as [|x rest IH]; intros f pre Epre Hlogic Hf.
  { exists st. split; [by destruct f|]. split; [apply sameOperations_refl|].
    rewrite app_nil_r in Epre. subst pre. destruct (Hpre l Hlogic) as [-> ->].
    rewrite app_nil_r. done. }
  destruct f as [|f]; [simpl in Hf; lia|].
  assert (Hxin : x ∈ l) by (rewrite Epre; apply elem_of_app; right; by left).
  assert (Hl' : getBlockOps st block = pre ++ x :: rest) by (by rewrite Hl).
  assert (Hnd' : NoDup (pre ++ x :: rest)) by (by rewrite <- Epre).
  destruct (advance_middle st block pre x rest Hl' Hnd' (Hblocks x Hxin)) as [Hadv Hnext].
  cbn [head moveLogicOps]. rewrite Hadv. cbv beta iota delta [mbind Res_bind].
  fold (logic x). destruct (logic x) eqn:Ex.
  - (* a declaration at the insertion point: the point moves on *)
    cbn [snd fst]. rewrite bool_decide_eq_true_2 by done. rewrite Hnext.
    apply (IH f (pre ++ [x])); [by rewrite <- app_assoc| |simpl in Hf; lia].
    apply Forall_app. split; [done|]. by apply Forall_singleton.
  - (* the first operation that is not a declaration *)
    assert (Hblk : is_Some (irBlocks st !! block)).
    { unfold getBlockOps in Hl'. destruct (irBlocks st !! block); [done|].
      by destruct pre. }
    destruct (moveLogicOps_tail rest f st pre x [] ltac:(simpl in Hf; lia)
                (sameOperations_refl st) Hblk Hl' Hnd')
      as (s' & Hrun & Hsame' & Hl2 & Hblocks' & Hother').
    { intros z Hz. apply Hblocks. by rewrite Epre. }
    exists s'. split; [done|]. split; [done|].
    split.
    { rewrite Hl2, Epre, !List.filter_app. cbn [List.filter app]. rewrite Ex. cbn [negb].
      destruct (Hpre pre Hlogic) as [-> ->]. by rewrite <- app_assoc. }
    split; [|done]. intros z Hz. apply Hblocks'. cbn [app]. by rewrite <- Epre.
Qed.

End LogicOps.

(** X17.  [moveLogicOps] from the begin of a block is a stable partition:
    the declarations [sv.logic] of the block come first, then the other
    operations, both in the order they had; the operations themselves, the
    blocks they belong to and the other blocks are unchanged. *)
Theorem logic_declarations_move_to_the_front (fuel : nat) (st : IR) (block : BlockId)
    (l : list OpId) :
  getBlockOps st block = l ->
  NoDup l ->
  (forall x, x ∈ l -> getBlock st x = Some block) ->
  length l <= fuel ->
  exists st',
    moveLogicOps fuel st block (blockBegin st block) (head l) = Ok st' /\
    getBlockOps st' block =
      List.filter (fun x => isa st x [LogicOp]) l ++
      List.filter (fun x => negb (isa st x [LogicOp])) l /\
    sameOperations st st' /\
    (forall x, x ∈ l -> getBlock st' x = Some block) /\
    (forall b', b' <> block -> getBlockOps st' b' = getBlockOps st b').
Proof.
  intros Hl Hnd Hblocks Hfuel.
  destruct (moveLogicOps_head st block l Hl Hnd Hblocks l fuel [] eq_refl (Forall_nil_2 _) Hfuel)
    as (s' & Hrun & Hsame & Hl' & Hblocks' & Hother).
  exists s'. unfold blockBegin. rewrite Hl. done.
Qed.

Lemma sampleLogic_blocks x : x ∈ [2; 3; 4; 5] -> getBlock sampleLogic x = Some 1.
Proof.
  intros H. repeat (apply elem_of_cons in H as [->|H]; [reflexivity|]).
  by apply elem_of_nil in H.
Qed.

Lemma sampleLogic_NoDup : NoDup [2; 3; 4; 5].
Proof.
  repeat (apply NoDup_cons; split; [rewrite ?elem_of_cons, elem_of_nil; lia|]).
  apply NoDup_nil_2.
Qed.

Lemma logic_declarations_move_to_the_front_witness :
  exists st',
    moveLogicOps 4 sampleLogic 1 (blockBegin sampleLogic 1) (Some 2) = Ok st' /\
    getBlockOps st' 1 = [3; 5; 2; 4].
Proof.
  destruct (logic_declarations_move_to_the_front 4 sampleLogic 1 [2; 3; 4; 5] eq_refl
              sampleLogic_NoDup sampleLogic_blocks ltac:(simpl; lia))
    as (st' & H1 & H2 & _).
  exists st'. split; [exact H1|exact H2].
Defined.

(** * The legalization of a module that needs no rewrite *)

(** ** The walk over the region tree *)

Lemma blockIn_trans st root b b' : blockIn st root b -> blockIn st b b' -> blockIn st root b'.
Proof.
  intros Hb H. induction H as [|b1 op b2 H1 IH Hop Hb2]; [done|].
  by eapply blockIn_region.
Qed.

Lemma blockIn_inv st b b'' :
  blockIn st b b'' ->
  b'' = b \/ exists op b', op ∈ getBlockOps st b /\ b' ∈ regionBlocks st op /\ blockIn st b' b''.
Proof.
  intros H. induction H as [|b1 op1 b2 H1 IH Hop Hb2]; [by left|]. right.
  destruct IH as [->|(op & b' & Hop' & Hb' & Hin)].
  - exists op1, b2. split; [done|]. split; [done|]. constructor.
  - exists op, b'. split; [done|]. split; [done|]. by eapply blockIn_region.
Qed.

Lemma opIn_inv st b op :
  opIn st b op <->
  op ∈ getBlockOps st b \/
  exists op' b', op' ∈ getBlockOps st b /\ b' ∈ regionBlocks st op' /\ opIn st b' op.
Proof.
  split.
  - intros (b'' & Hb'' & Hop). apply blockIn_inv in Hb'' as [->|(op' & b' & H1 & H2 & H3)].
    + by left.
    + right. exists op', b'. split; [done|]. split; [done|]. by exists b''.
  - intros [Hop|(op' & b' & H1 & H2 & b'' & H3 & H4)].
    + exists b. split; [constructor|done].
    + exists b''. split; [|done]. eapply blockIn_trans; [|exact H3].
      eapply blockIn_region; [constructor|done..].
Qed.

Lemma getBlock_getOp st op b : getBlock st op = Some b -> is_Some (getOp st op).
Proof. unfold getBlock. by destruct (getOp st op). Qed.

Lemma moveLogicOps_no_logic st b ip : forall rest pre fuel,
  getBlockOps st b = pre ++ rest -> NoDup (pre ++ rest) ->
  (forall op, op ∈ rest -> getBlock st op = Some b) ->
  Forall (fun op => isa st op [LogicOp] = false) rest ->
  length rest <= fuel ->
  moveLogicOps fuel st b ip (head rest) = Ok st.
Proof.
  induction rest as [|x rest IH]; intros pre fuel Hl Hnd Hb Hno Hf.
  { by destruct fuel. }
  destruct fuel as [|f]; [simpl in Hf; lia|].
  apply Forall_cons in Hno as [Hx Hno].
  destruct (advance_middle st b pre x rest Hl Hnd) as [Hadv _]; [apply Hb; by left|].
  cbn [head moveLogicOps]. rewrite Hadv. cbv beta iota delta [mbind Res_bind]. rewrite Hx.
  apply (IH (pre ++ [x])).
  - by rewrite <- app_assoc.
  - by rewrite <- app_assoc.
  - intros op Hop. apply Hb. by right.
  - done.
  - simpl in Hf. lia.
Qed.

Lemma resolveUseBeforeDef_idle O st b l :
  getBlockOps st b = l -> NoDup l ->
  (forall op, op ∈ l -> getBlock st op = Some b) ->
  (forall i op user, l !! i = Some op -> user ∈ getUsers st op ->
     exists w, zipUp (length (irOps st)) st b user = Ok w /\ w ∉ take i l) ->
  forall fuel i seen, length l <= i + fuel -> (forall w, w ∈ seen <-> w ∈ take i l) ->
  resolveUseBeforeDef O fuel st b seen (l !! i) = Ok st.
Proof.
  intros Hl Hnd Hb Hord. induction fuel as [|f IH]; intros i seen Hf Hseen.
  - rewrite lookup_ge_None_2 by lia. done.
  - destruct (l !! i) as [op|] eqn:Hi; [|done].
    cbn [resolveUseBeforeDef].
    rewrite (advance_lookup st b l i op Hl Hnd)
      by (done || by eapply Hb, list_elem_of_lookup_2).
    cbv beta iota delta [mbind Res_bind].
    rewrite haveAnyOutOfOrderUses_none.
    2: { intros user Hu. destruct (Hord i op user Hi Hu) as (w & Hw & Hn).
         exists w. split; [done|]. by rewrite Hseen. }
    cbv beta iota delta [negb]. apply IH; [lia|].
    intros w. rewrite (take_S_r _ _ _ Hi), elem_of_cons, elem_of_app, list_elem_of_singleton.
    rewrite Hseen. tauto.
Qed.

Section SettledWalk.

Context (O : Oracle) (options : LoweringOptions) (st : IR) (root : BlockId).
Context (rank : BlockId -> nat) (len : nat).
Context (Htree : TreeOk st root rank len).
Context (Hsettled : Settled O options st root).
Context (Hloaded : forall op o, opIn st root op -> getOp st op = Some o ->
                     hasLoadedDialect O (opName o) = true).

(** Some operation under [b] is of a foreign dialect. *)
Let foreignUnder (b : BlockId) : Prop := exists op, opIn st b op /\ isForeign st op.

Lemma walkOperations_settled b p : blockIn st root b -> blockParent st b = Some p ->
  forall rest pre fuel visited encountered,
  getBlockOps st b = pre ++ rest -> length rest <= fuel ->
  exists r encountered',
    walkOperations O fuel options b (hasProceduralRegionTrait O st p) st visited encountered
      (head rest) = Ok (r, st, encountered') /\
    (r = failure <-> exists op, op ∈ rest /\ isForeign st op).
Proof.
  intros Hb Hp. induction rest as [|x rest IH]; intros pre fuel visited encountered Hl Hf.
  { exists success, encountered. split; [by destruct fuel|].
    split; [done|]. intros (op & Hop & _). by apply elem_of_nil in Hop. }
  destruct fuel as [|f]; [simpl in Hf; lia|].
  assert (Hx : x ∈ getBlockOps st b) by (rewrite Hl; apply elem_of_app; right; by left).
  pose proof (tree_block _ _ _ _ Htree b x Hb Hx) as Hxb.
  destruct (getBlock_getOp _ _ _ Hxb) as [o Ho].
  assert (Hnd : NoDup (pre ++ x :: rest)) by (rewrite <- Hl; by eapply tree_nodup).
  destruct (advance_middle st b pre x rest Hl Hnd Hxb) as [Hadv _].
  cbn [head walkOperations]. rewrite Ho. cbv beta iota delta [mbind Res_bind fromOption].
  rewrite Hadv. cbv beta iota.
  rewrite (Hloaded x o) by (done || by exists b). cbn [negb].
  destruct (isKnownDialect (opName o)) eqn:Ek; cbn [negb].
  - destruct (settled_step _ _ _ _ Hsettled b p x o f visited (head rest) Hb Hp Hx Ho Ek)
      as [visited' ->].
    cbv beta iota.
    destruct (IH (pre ++ [x]) f visited' (opName o :: encountered)) as (r & e & Hrun & Hiff).
    { by rewrite <- app_assoc. }
    { simpl in Hf. lia. }
    exists r, e. split; [done|]. rewrite Hiff. split.
    + intros (op & Hop & Hfor). exists op. split; [by right|done].
    + intros (op & Hop & Hfor). apply elem_of_cons in Hop as [->|Hop]; [|by exists op].
      destruct Hfor as (o' & Ho' & Hk). congruence.
  - exists failure, (opName o :: encountered). split; [done|]. split; [|done].
    intros _. exists x. split; [by left|]. by exists o.
Qed.

Section Regions.

Context (rec : IR -> list OpName -> BlockId -> Res (LogicalResult * IR * list OpName)).

Lemma legalizeRegions_settled : forall l encountered,
  (forall b' encountered, b' ∈ l ->
     exists r encountered', rec st encountered b' = Ok (r, st, encountered') /\
       (r = failure <-> foreignUnder b')) ->
  exists r encountered',
    legalizeRegions rec st encountered l = Ok (r, st, encountered') /\
    (r = failure <-> exists b', b' ∈ l /\ foreignUnder b').
Proof.
  induction l as [|b' l IH]; intros encountered Hrec.
  { exists success, encountered. split; [done|]. split; [done|].
    intros (b' & Hb' & _). by apply elem_of_nil in Hb'. }
  cbn [legalizeRegions].
  destruct (Hrec b' encountered) as (r1 & e1 & -> & Hiff1); [by left|].
  cbv beta iota delta [mbind Res_bind].
  destruct r1.
  - destruct (IH e1) as (r & e & Hrun & Hiff).
    { intros b'' e' Hb''. apply Hrec. by right. }
    exists r, e. split; [done|]. rewrite Hiff. split.
    + intros (b'' & Hb'' & Hf). exists b''. split; [by right|done].
    + intros (b'' & Hb'' & Hf). apply elem_of_cons in Hb'' as [->|Hb'']; [|by exists b''].
      by apply Hiff1 in Hf.
  - exists failure, e1. split; [done|]. split; [|done]. intros _.
    exists b'. split; [by left|]. by apply Hiff1.
Qed.

Lemma legalizeNested_settled b : blockIn st root b ->
  forall rest pre fuel encountered,
  getBlockOps st b = pre ++ rest -> length rest <= fuel ->
  (forall op b' encountered, op ∈ rest -> b' ∈ regionBlocks st op ->
     exists r encountered', rec st encountered b' = Ok (r, st, encountered') /\
       (r = failure <-> foreignUnder b')) ->
  exists r encountered',
    legalizeNested rec fuel b st encountered (head rest) = Ok (r, st, encountered') /\
    (r = failure <->
     exists op b', op ∈ rest /\ b' ∈ regionBlocks st op /\ foreignUnder b').
Proof.
  intros Hb. induction rest as [|x rest IH]; intros pre fuel encountered Hl Hf Hrec.
  { exists success, encountered. split; [by destruct fuel|]. split; [done|].
    intros (op & b' & Hop & _). by apply elem_of_nil in Hop. }
  destruct fuel as [|f]; [simpl in Hf; lia|].
  assert (Hx : x ∈ getBlockOps st b) by (rewrite Hl; apply elem_of_app; right; by left).
  pose proof (tree_block _ _ _ _ Htree b x Hb Hx) as Hxb.
  assert (Hnd : NoDup (pre ++ x :: rest)) by (rewrite <- Hl; by eapply tree_nodup).
  destruct (advance_middle st b pre x rest Hl Hnd Hxb) as [Hadv _].
  cbn [head legalizeNested].
  destruct (legalizeRegions_settled (regionBlocks st x) encountered) as (r1 & e1 & -> & Hiff1).
  { intros b' e' Hb'. apply (Hrec x); [by left|done]. }
  cbv beta iota delta [mbind Res_bind].
  destruct r1.
  - rewrite Hadv. cbv beta iota.
    destruct (IH (pre ++ [x]) f e1) as (r & e & Hrun & Hiff).
    { by rewrite <- app_assoc. }
    { simpl in Hf. lia. }
    { intros op b' e' Hop Hb'. apply (Hrec op); [by right|done]. }
    exists r, e. split; [done|]. rewrite Hiff. split.
    + intros (op & b' & Hop & Hb' & Hfor). exists op, b'. split; [by right|done].
    + intros (op & b' & Hop & Hb' & Hfor).
      apply elem_of_cons in Hop as [->|Hop]; [|by exists op, b'].
      assert (success = failure); [|done]. apply Hiff1. by exists b'.
  - exists failure, e1. split; [done|]. split; [|done]. intros _.
    destruct (proj1 Hiff1 eq_refl) as (b' & Hb' & Hfor). exists x, b'.
    split; [by left|done].
Qed.

End Regions.

Lemma legalizeHWModule_settled : forall n b fuel encountered,
  blockIn st root b -> rank b <= n -> n + len < fuel ->
  exists r encountered',
    legalizeHWModule O fuel options st encountered b = Ok (r, st, encountered') /\
    (r = failure <-> foreignUnder b).
Proof.
  induction n as [n IHn] using lt_wf_ind. intros b fuel encountered Hb Hrank Hfuel.
  destruct fuel as [|f]; [lia|].
  pose proof (tree_len _ _ _ _ Htree b Hb) as Hlen.
  pose proof (tree_nodup _ _ _ _ Htree b Hb) as Hnd.
  destruct (tree_parent _ _ _ _ Htree b Hb) as [p Hp].
  cbn [legalizeHWModule].
  remember (getBlockOps st b) as l eqn:El. symmetry in El.
  destruct (legalizeNested_settled (legalizeHWModule O f options) b Hb l [] f encountered)
    as (r1 & e1 & -> & Hiff1); [done|lia| |].
  { intros op b' e' Hop Hb'. rewrite <- El in Hop.
    assert (Hr : rank b' < rank b) by (by eapply (tree_rank _ _ _ _ Htree b op b')).
    apply (IHn (rank b')); [lia| |lia|lia]. by eapply blockIn_region. }
  cbv beta iota delta [mbind Res_bind].
  assert (Hsplit : foreignUnder b <->
            (exists op b', op ∈ l /\ b' ∈ regionBlocks st op /\ foreignUnder b') \/
            (exists op, op ∈ l /\ isForeign st op)).
  { unfold foreignUnder. rewrite <- El. split.
    - intros (op & Hop & Hfor). apply opIn_inv in Hop as [Hop|(op' & b' & H1 & H2 & H3)].
      + right. by exists op.
      + left. exists op', b'. split; [done|]. split; [done|]. by exists op.
    - intros [(op' & b' & H1 & H2 & op & H3 & H4)|(op & Hop & Hfor)].
      + exists op. split; [|done]. apply opIn_inv. right. by exists op', b'.
      + exists op. split; [|done]. apply opIn_inv. by left. }
  destruct r1.
  2: { exists failure, e1. split; [done|]. split; [|done]. intros _.
       apply Hsplit. left. by apply Hiff1. }
  cbv beta iota.
  assert (Hp' := Hp). unfold blockParent in Hp'.
  destruct (irBlocks st !! b) as [blk|] eqn:Eblk; [|done]. cbn [mbind option_bind] in Hp'.
  cbv beta iota delta [fromOption mbind Res_bind option_bind]. rewrite Hp'. cbv beta iota.
  rewrite El.
  destruct (walkOperations_settled b p Hb Hp l [] f [] e1) as (r2 & e2 & -> & Hiff2);
    [done|lia|].
  cbv beta iota. rewrite ?El.
  destruct r2.
  2: { exists failure, e2. split; [done|]. split; [|done]. intros _.
       apply Hsplit. right. by apply Hiff2. }
  assert (Hnone : ~ foreignUnder b).
  { intros [H|H]%Hsplit; [by apply Hiff1 in H|by apply Hiff2 in H]. }
  assert (Hblocks : forall op, op ∈ l -> getBlock st op = Some b).
  { intros op Hop. eapply tree_block; [done..|]. by rewrite El. }
  destruct (hasProceduralRegionTrait O st p) eqn:Eproc.
  - destruct (head l) as [front|] eqn:Ehead.
    2: { exists success, e2. split; [done|]. split; [done|]. intros H. by apply Hnone in H. }
    destruct (settled_logic _ _ _ _ Hsettled b p front Hb Hp Eproc) as [[ip ->] Hno].
    { by rewrite El. }
    rewrite El in Hno. cbv beta iota.
    rewrite <- Ehead.
    rewrite (moveLogicOps_no_logic st b ip l [] f) by (done || lia).
    exists success, e2. split; [done|]. split; [done|]. intros H. by apply Hnone in H.
  - rewrite head_lookup.
    rewrite (resolveUseBeforeDef_idle O st b l El Hnd Hblocks) with (i := 0).
    2: { intros i op user Hi Hu. rewrite <- El in Hi |- *.
         by eapply (settled_order _ _ _ _ Hsettled b p i op user). }
    2: lia.
    2: { intros w. by rewrite take_0. }
    exists success, e2. split; [done|]. split; [done|]. intros H. by apply Hnone in H.
Qed.

End SettledWalk.

(** *** The source of a failure *)

Lemma walkOperations_failure O options block isProceduralRegion fuel :
  forall st visited encountered opIterator st' encountered',
  walkOperations O fuel options block isProceduralRegion st visited encountered opIterator =
    Ok (failure, st', encountered') ->
  exists op o, getOp st' op = Some o /\ isKnownDialect (opName o) = false /\
               hasLoadedDialect O (opName o) = true.
Proof.
  induction fuel as [|k IH]; intros st visited encountered opIterator st' encountered' H.
  - destruct opIterator; simpl in H; discriminate.
  - destruct opIterator as [op|]; cbn [walkOperations] in H; [|discriminate].
    apply bind_Ok_inv in H as (o & Ho & H).
    apply bind_Ok_inv in H as (it & Hit & H).
    destruct (hasLoadedDialect O (opName o)) eqn:El; [|discriminate]. cbn [negb] in H.
    destruct (isKnownDialect (opName o)) eqn:Ek; cbn [negb] in H.
    + apply bind_Ok_inv in H as ([[st1 it1] visited1] & Hstep & H). by apply IH in H.
    + injection H as <- <-. exists op, o. split; [|done].
      by destruct (getOp st op) as [o'|]; [injection Ho as ->|].
Qed.

Section Failure.

Context (O : Oracle).
Context (rec : IR -> list OpName -> BlockId -> Res (LogicalResult * IR * list OpName)).
Context (rec_failure : forall st encountered b st' encountered',
  rec st encountered b = Ok (failure, st', encountered') ->
  exists op o, getOp st' op = Some o /\ isKnownDialect (opName o) = false /\
               hasLoadedDialect O (opName o) = true).

Lemma legalizeRegions_failure l : forall st encountered st' encountered',
  legalizeRegions rec st encountered l = Ok (failure, st', encountered') ->
  exists op o, getOp st' op = Some o /\ isKnownDialect (opName o) = false /\
               hasLoadedDialect O (opName o) = true.
Proof.
  induction l as [|b l IH]; intros st encountered st' encountered' H; [discriminate|].
  cbn [legalizeRegions] in H.
  apply bind_Ok_inv in H as ([[r1 st1] e1] & Hrec & H). destruct r1.
  - by apply IH in H.
  - injection H as <- <-. by eapply rec_failure.
Qed.

Lemma legalizeNested_failure block fuel : forall st encountered it st' encountered',
  legalizeNested rec fuel block st encountered it = Ok (failure, st', encountered') ->
  exists op o, getOp st' op = Some o /\ isKnownDialect (opName o) = false /\
               hasLoadedDialect O (opName o) = true.
Proof.
  induction fuel as [|k IH]; intros st encountered it st' encountered' H.
  - destruct it; simpl in H; discriminate.
  - destruct it as [op|]; cbn [legalizeNested] in H; [|discriminate].
    apply bind_Ok_inv in H as ([[r1 st1] e1] & Hregions & H). destruct r1.
    + apply bind_Ok_inv in H as (next & Hnext & H). by apply IH in H.
    + injection H as <- <-. by eapply legalizeRegions_failure.
Qed.

End Failure.

Lemma legalizeHWModule_failure O options fuel :
  forall st encountered block st' encountered',
  legalizeHWModule O fuel options st encountered block = Ok (failure, st', encountered') ->
  exists op o, getOp st' op = Some o /\ isKnownDialect (opName o) = false /\
               hasLoadedDialect O (opName o) = true.
Proof.
  induction fuel as [|k IH]; intros st encountered block st' encountered' H; [discriminate|].
  cbn [legalizeHWModule] in H.
  apply bind_Ok_inv in H as ([[r1 st1] e1] & Hnested & H).
  destruct r1.
  2: { injection H as <- <-. by eapply (legalizeNested_failure O _ IH). }
  apply bind_Ok_inv in H as (parent & Hparent & H).
  apply bind_Ok_inv in H as ([[r2 st2] e2] & Hwalk & H).
  destruct r2.
  2: { injection H as <- <-. by eapply walkOperations_failure. }
  destruct (hasProceduralRegionTrait O st1 parent).
  - destruct (head (getBlockOps st2 block)) as [front|]; [|discriminate].
    apply bind_Ok_inv in H as (ip & Hip & H).
    apply bind_Ok_inv in H as (st3 & Hmove & H). discriminate.
  - apply bind_Ok_inv in H as (st3 & Hresolve & H). discriminate.
Qed.



Lemma sampleNestedForeign_blocks b :
  blockIn sampleNestedForeign 0 b -> b = 0 \/ b = 1.
Proof.
  intros H. induction H as [|b op b' H IH Hop Hb']; [by left|].
  destruct IH as [->| ->].
  - apply elem_of_cons in Hop as [->|Hop].
    + apply list_elem_of_singleton in Hb'. by right.
    + apply list_elem_of_singleton in Hop. subst op. by apply elem_of_nil in Hb'.
  - apply list_elem_of_singleton in Hop. subst op. by apply elem_of_nil in Hb'.
Qed.

Lemma sampleNestedForeign_tree :
  TreeOk sampleNestedForeign 0 (fun b => 1 - b) 2.
Proof.
  constructor.
  - intros b [->| ->]%sampleNestedForeign_blocks.
    + repeat (apply NoDup_cons; split; [rewrite ?elem_of_cons, elem_of_nil; lia|]).
      apply NoDup_nil_2.
    + apply NoDup_singleton.
  - intros b op [->| ->]%sampleNestedForeign_blocks Hop.
    + repeat (apply elem_of_cons in Hop as [->|Hop]; [reflexivity|]).
      by apply elem_of_nil in Hop.
    + apply list_elem_of_singleton in Hop. by subst op.
  - intros b [->| ->]%sampleNestedForeign_blocks; by eexists.
  - intros b op b' [->| ->]%sampleNestedForeign_blocks Hop Hb'.
    + apply elem_of_cons in Hop as [->|Hop].
      * apply list_elem_of_singleton in Hb'. subst b'. simpl. lia.
      * apply list_elem_of_singleton in Hop. subst op. by apply elem_of_nil in Hb'.
    + apply list_elem_of_singleton in Hop. subst op. by apply elem_of_nil in Hb'.
  - intros b [->| ->]%sampleNestedForeign_blocks; simpl; lia.
Qed.

Lemma sampleNestedForeign_settled :
  Settled sampleOracleSeq sampleOptions sampleNestedForeign 0.
Proof.
  constructor.
  - intros b p op o fuel visited opIterator [->| ->]%sampleNestedForeign_blocks Hp Hop Ho Hk.
    + injection Hp as <-.
      apply elem_of_cons in Hop as [->|Hop].
      * by exists visited.
      * apply list_elem_of_singleton in Hop. subst op. by exists visited.
    + apply list_elem_of_singleton in Hop. subst op. injection Ho as <-. discriminate.
  - intros b p front [->| ->]%sampleNestedForeign_blocks Hp Hproc Hfront.
    + injection Hp as <-. discriminate.
    + injection Hfront as <-. split; [by eexists|]. by repeat constructor.
  - intros b p i op user [->| ->]%sampleNestedForeign_blocks Hp Hproc Hi Hu.
    + destruct i as [|[|i]]; [injection Hi as <-|injection Hi as <-|done];
        by apply elem_of_nil in Hu.
    + injection Hp as <-. discriminate.
Qed.

Lemma sampleNestedForeign_loaded op o :
  opIn sampleNestedForeign 0 op -> getOp sampleNestedForeign op = Some o ->
  hasLoadedDialect sampleOracleSeq (opName o) = true.
Proof.
  intros _ Ho.
  do 4 (destruct op as [|op]; [by injection Ho as <-|]).
  apply getOp_lt in Ho. simpl in Ho. lia.
Qed.


(** * The reuse of a declaration, whatever the destination *)

Lemma mapValue_agree h h' n v :
  (forall m, m < n -> h' m = h m) -> isOldValue n v -> mapValue h' v = mapValue h v.
Proof. intros H Hv. destruct v as [b i|d j]; [done|]. simpl in *. by rewrite H. Qed.

Lemma Unfolds_refl O st :
  (forall u v, slot st u = Some v -> isOldValue (length (irOps st)) v) ->
  Unfolds O st (fun n => n) st.
Proof.
  intros Hwf. constructor.
  - done.
  - done.
  - intros n _. by destruct (getOp st n).
  - intros n k v H. rewrite H. f_equal. by destruct v.
  - exact Hwf.
  - intros n H1 H2. lia.
Qed.

Lemma Unfolds_sameOperations O st h s s' :
  Unfolds O st h s -> sameOperations s s' -> Unfolds O st h s'.
Proof.
  intros U Hsame. pose proof Hsame as [Hlen Hshape]. constructor.
  - rewrite <- Hlen. apply U.
  - apply U.
  - intros n Hn. rewrite <- Hlen in Hn. pose proof (uf_op _ _ _ _ U n Hn) as H.
    specialize (Hshape n). unfold shapeOf in Hshape.
    destruct (getOp s n) as [y|], (getOp s' n) as [y'|]; simpl in Hshape; try done.
    assert (Hd : detached y' = detached y) by congruence.
    apply detached_fields in Hd as (Hn1 & Hn2 & _).
    destruct (getOp st (h n)); [|done]. by rewrite Hn1, Hn2.
  - intros n k v H. rewrite (slot_sameOperations _ _ _ Hsame) in H. by apply U.
  - intros u v H. rewrite (slot_sameOperations _ _ _ Hsame) in H. rewrite <- Hlen.
    by apply (uf_wf _ _ _ _ U u).
  - intros n H1 H2. rewrite <- Hlen in H2. by apply U.
Qed.

Section Unfolding.

Context (O : Oracle) (st : IR).
Context (Hname : forall x y, opName x = opName y ->
           isExpressionAlwaysInline O x = isExpressionAlwaysInline O y).

Lemma Unfolds_opIs h s n :
  Unfolds O st h s -> n < length (irOps s) ->
  opIs (isExpressionAlwaysInline O) s n = opIs (isExpressionAlwaysInline O) st (h n).
Proof.
  intros U Hn. pose proof (uf_op _ _ _ _ U n Hn) as H. unfold opIs.
  destruct (getOp s n) as [y|], (getOp st (h n)) as [x|]; try done.
  apply Hname, H.
Qed.

(** A step of the loop: a copy of [op] for one of its uses. *)
Lemma Unfolds_clone h s op use ip :
  Unfolds O st h s ->
  getNumResults s op = 1 ->
  opIs (isExpressionAlwaysInline O) s op = true ->
  use ∈ getOpUses s op ->
  let c := length (irOps s) in
  cloneOp s ip op = (fst (cloneOp s ip op), c) /\
  length (irOps (setOperand (fst (cloneOp s ip op)) use (OpResult c 0))) = S c /\
  Unfolds O st (fun n => if bool_decide (n = c) then h op else h n)
    (setOperand (fst (cloneOp s ip op)) use (OpResult c 0)).
Proof.
  intros U Hnum Hai Huse c.
  unfold opIs in Hai. destruct (getOp s op) as [o|] eqn:Hop; [|done].
  pose proof (getOp_lt _ _ _ Hop) as Hoplt. fold c in Hoplt.
  rewrite (getOpUses_one _ _ Hnum) in Huse. apply getUses_slot in Huse.
  pose proof (slot_lt _ _ _ Huse) as Huselt. fold c in Huselt.
  unfold cloneOp. rewrite Hop.
  set (cr := createOp s ip (opName o) (opOperands o) (opResultTypes o) (opAttrs o)).
  assert (Ecr : cr = (fst cr, c)) by (by rewrite (surjective_pairing cr)).
  split; [exact Ecr|].
  set (s1 := fst cr). set (s2 := setOperand s1 use (OpResult c 0)).
  set (h' := fun n => if bool_decide (n = c) then h op else h n).
  assert (H2len0 : length (irOps s2) = S c).
  { unfold s2. rewrite length_setOperand. apply length_createOp. }
  split; [exact H2len0|].
  assert (Hh' : forall n, n < c -> h' n = h n).
  { intros n Hn. unfold h'. by rewrite bool_decide_eq_false_2 by lia. }
  assert (H1len : length (irOps s1) = S c) by apply length_createOp.
  assert (H1old : forall n, n < c -> getOp s1 n = getOp s n)
    by (intros; by apply getOp_createOp_old).
  assert (H1new : getOp s1 c = Some (mkOperation (opName o) (opOperands o) (opResultTypes o)
                                      (opAttrs o) [] (fst <$> ip)))
    by apply getOp_createOp_new.
  assert (H2len : length (irOps s2) = S c) by (unfold s2; by rewrite length_setOperand).
  assert (Hs2 : forall u, slot s2 u =
            if bool_decide (u = use) then Some (OpResult c 0)
            else if bool_decide (fst u = c) then opOperands o !! snd u
            else slot s u).
  { intros u. unfold s2. rewrite slot_setOperand. unfold s1, cr. rewrite !slot_createOp.
    fold c. rewrite (bool_decide_eq_false_2 (fst use = c)) by lia. rewrite Huse.
    by case_bool_decide. }
  pose proof (uf_len _ _ _ _ U) as Hlen. fold c in Hlen.
  pose proof (uf_op _ _ _ _ U op Hoplt) as Hoph. rewrite Hop in Hoph.
  destruct (getOp st (h op)) as [xo|] eqn:Hxo; [|done].
  constructor.
  - rewrite H2len. lia.
  - intros n Hn. rewrite Hh' by lia. by apply U.
  - intros n Hn. rewrite H2len in Hn. unfold s2. rewrite getOp_setOperand.
    destruct (decide (n = c)) as [->|Hnc].
    + rewrite bool_decide_eq_false_2 by lia. rewrite H1new.
      unfold h'. rewrite bool_decide_eq_true_2 by done. rewrite Hxo. exact Hoph.
    + rewrite Hh' by lia.
      pose proof (uf_op _ _ _ _ U n ltac:(fold c; lia)) as Hn'.
      rewrite !H1old by lia. case_bool_decide as Hu.
      * subst n. destruct (getOp s (fst use)) as [y|]; simpl; [|done].
        destruct (getOp st (h (fst use))); [|done]. by rewrite length_insert.
      * done.
  - intros n k v. rewrite Hs2. cbn [fst snd]. case_bool_decide as Hu.
    + intros [= <-]. subst use. cbn [fst] in Huselt. rewrite Hh' by lia.
      rewrite (uf_slot _ _ _ _ U _ _ _ Huse). simpl. unfold h'.
      by rewrite bool_decide_eq_true_2.
    + case_bool_decide as Hnc.
      * intros Hv. subst n. unfold h' at 1. rewrite bool_decide_eq_true_2 by done.
        assert (Hsl : slot s (op, k) = Some v).
        { unfold slot. cbn [fst snd]. by rewrite Hop. }
        rewrite (uf_slot _ _ _ _ U _ _ _ Hsl). f_equal. symmetry.
        apply (mapValue_agree h h' c); [exact Hh'|]. by apply (uf_wf _ _ _ _ U (op, k)).
      * intros Hv. pose proof (slot_lt _ _ _ Hv) as Hlt. cbn [fst] in Hlt. fold c in Hlt.
        rewrite Hh' by lia. rewrite (uf_slot _ _ _ _ U _ _ _ Hv). f_equal. symmetry.
        apply (mapValue_agree h h' c); [exact Hh'|]. by apply (uf_wf _ _ _ _ U (n, k)).
  - intros u v. rewrite Hs2, H2len. case_bool_decide as Hu.
    + intros [= <-]. simpl. lia.
    + case_bool_decide as Hnc.
      * intros Hv. apply isOldValue_mono with c; [lia|].
        apply (uf_wf _ _ _ _ U (op, snd u)). unfold slot. cbn [fst snd]. by rewrite Hop.
      * intros Hv. apply isOldValue_mono with c; [lia|]. by apply (uf_wf _ _ _ _ U u).
  - intros n Hn1 Hn2. rewrite H2len in Hn2. unfold h'. case_bool_decide as Hnc.
    + unfold opIs. rewrite Hxo. rewrite (Hname xo o); [done|]. symmetry. apply Hoph.
    + apply U; [done|]. fold c. lia.
Qed.

Definition Extends (h : OpId -> OpId) (s : IR) (h' : OpId -> OpId) (s' : IR) : Prop :=
  Unfolds O st h' s' /\ (forall n, n < length (irOps s) -> h' n = h n) /\
  length (irOps s) <= length (irOps s').

Lemma handleOperands_unfolds (rec : IR -> OpId -> Res IR) :
  (forall s op h s', Unfolds O st h s -> opIs (isExpressionAlwaysInline O) s op = true ->
     rec s op = Ok s' -> exists h', Extends h s h' s') ->
  forall s o h s', Unfolds O st h s -> handleOperands O rec s o = Ok s' ->
    exists h', Extends h s h' s'.
Proof.
  intros Hrec s o h s' U. unfold handleOperands.
  generalize (seq 0 (getNumOperands s o)). intros l. revert s h U.
  induction l as [|i l IH]; intros s h U; cbn [foldRes].
  - intros [= <-]. exists h. by split.
  - intros H. apply bind_Ok_inv in H as (s1 & H1 & H2).
    assert (exists h1, Extends h s h1 s1) as (h1 & U1 & Hext1 & Hlen1).
    { destruct (getOperands s o !! i) as [[b j|d j]|].
      - injection H1 as <-. exists h. by split.
      - destruct (opIs (isExpressionAlwaysInline O) s d) eqn:Ed.
        + by apply (Hrec s d).
        + injection H1 as <-. exists h. by split.
      - injection H1 as <-. exists h. by split. }
    destruct (IH s1 h1 U1 H2) as (h2 & U2 & Hext2 & Hlen2).
    exists h2. split; [done|]. split; [|lia].
    intros n Hn. rewrite Hext2 by lia. by apply Hext1.
Qed.

Lemma lowerAlwaysInlineOperation_unfolds fuel : forall s op h s',
  Unfolds O st h s -> opIs (isExpressionAlwaysInline O) s op = true ->
  lowerAlwaysInlineOperation O fuel s op = Ok s' ->
  exists h', Extends h s h' s'.
Proof.
  induction fuel as [|f IH]; intros s op h s' U Hai; [discriminate|].
  rewrite lowerAlwaysInlineOperation_unfold.
  destruct (getNumResults s op =? 1) eqn:Hnum; [|discriminate].
  apply Nat.eqb_eq in Hnum. cbn [negb].
  destruct (opHasOneUse s op) eqn:Hone.
  - intros H. apply bind_Ok_inv in H as (user & _ & H).
    apply (handleOperands_unfolds _ IH _ _ h) in H as (h' & U' & Hext & Hlen).
    + exists h'. split; [done|].
      pose proof (sameOperations_moveBefore s op user) as [El _]. rewrite El. by split.
    + apply (Unfolds_sameOperations O st h s); [done|apply sameOperations_moveBefore].
  - intros H. apply bind_Ok_inv in H as (use & Huse & H).
    assert (Hin : use ∈ getOpUses s op).
    { destruct (getOpUses s op) as [|u l]; [discriminate|]. injection Huse as <-. by left. }
    destruct (Unfolds_clone h s op use (pointBefore s (fst use)) U Hnum Hai Hin)
      as (Ec & Hlen2 & U2).
    rewrite Ec in H. cbv beta iota in H.
    apply bind_Ok_inv in H as (s3 & H3 & H).
    set (c := length (irOps s)) in *.
    set (h2 := fun n => if bool_decide (n = c) then h op else h n) in *.
    set (s2 := setOperand _ use (OpResult c 0)) in *.
    apply (handleOperands_unfolds _ IH _ _ h2) in H3 as (h3 & U3 & Hext3 & Hlen3); [|done].
    assert (Hoplt : op < c).
    { unfold opIs in Hai. destruct (getOp s op) eqn:E; [|done]. by apply getOp_lt in E. }
    assert (Hai3 : opIs (isExpressionAlwaysInline O) s3 op = true).
    { rewrite (Unfolds_opIs h3 s3) by (done || lia). rewrite Hext3 by lia.
      unfold h2. rewrite bool_decide_eq_false_2 by lia.
      by rewrite <- (Unfolds_opIs h s) by done. }
    destruct (IH _ _ _ _ U3 Hai3 H) as (h4 & U4 & Hext4 & Hlen4).
    exists h4. split; [done|]. split; [|lia].
    intros n Hn. rewrite Hext4 by lia. rewrite Hext3 by lia.
    unfold h2. by rewrite bool_decide_eq_false_2 by (fold c in Hn; lia).
Qed.

End Unfolding.

Lemma redirectUses_wf dest uses : forall s,
  isOldValue (length (irOps s)) dest ->
  (forall u v, slot s u = Some v -> isOldValue (length (irOps s)) v) ->
  forall u v, slot (redirectUses s dest uses) u = Some v ->
    isOldValue (length (irOps (redirectUses s dest uses))) v.
Proof.
  induction uses as [|use uses IH]; intros s Hdest Hwf; [by rewrite redirectUses_nil|].
  rewrite redirectUses_cons.
  set (s1 := setOperand _ use _).
  assert (Hlen : length (irOps s1) = S (length (irOps s))).
  { unfold s1. rewrite length_setOperand. apply length_createOp. }
  apply IH.
  - rewrite Hlen. by apply isOldValue_mono with (length (irOps s)); [lia|].
  - intros u v. rewrite Hlen. unfold s1. rewrite slot_setOperand, !slot_createOp.
    case_bool_decide as Hu.
    + destruct (if bool_decide (fst use = length (irOps s)) then _ else _); [|done].
      intros [= <-]. simpl. lia.
    + case_bool_decide as Hn.
      * destruct (snd u) as [|k]; [|done]. intros [= <-].
        by apply isOldValue_mono with (length (irOps s)); [lia|].
      * intros Hv. apply isOldValue_mono with (length (irOps s)); [lia|]. by apply (Hwf u).
Qed.

Lemma Unfolds_reads O st st1 st' h dest u :
  Redirected dest st st1 -> Unfolds O st1 h st' ->
  isOldValue (length (irOps st)) dest ->
  RedirectedUse st st1 u ->
  exists r x w, length (irOps st) <= r /\
    getOperands st' (fst u) !! snd u = Some (OpResult r 0) /\
    getOp st' r = Some x /\ opName x = ReadInOutOp /\ opOperands x = [w] /\
    isCopyOf st st' dest w.
Proof.
  intros R U Hdest (r & Hr1 & Hr2 & Hr3).
  pose proof (rd_len _ _ _ R) as HlenR.
  pose proof (uf_len _ _ _ _ U) as Hlen.
  rewrite <- slot_getOperands in Hr3.
  pose proof (slot_lt _ _ _ Hr3) as Hult.
  pose proof (uf_id _ _ _ _ U (fst u) Hult) as Hhu.
  pose proof (uf_op _ _ _ _ U (fst u) ltac:(lia)) as Hop. rewrite Hhu in Hop.
  pose proof Hr3 as Hr3'. unfold slot in Hr3'.
  destruct (getOp st1 (fst u)) as [x1|] eqn:Ex1; [|done]. simpl in Hr3'.
  destruct (getOp st' (fst u)) as [y1|] eqn:Ey1; [|done]. destruct Hop as [_ Hl].
  assert (is_Some (opOperands y1 !! snd u)) as [v Hv].
  { apply lookup_lt_is_Some. rewrite Hl. by apply lookup_lt_Some in Hr3'. }
  assert (Hsv : slot st' (fst u, snd u) = Some v).
  { unfold slot. cbn [fst snd]. by rewrite Ey1. }
  pose proof (uf_slot _ _ _ _ U _ _ _ Hsv) as Hm. rewrite Hhu in Hm.
  rewrite <- surjective_pairing in Hm. rewrite Hr3 in Hm.
  destruct v as [b i|r' j]; [done|]. simpl in Hm. injection Hm as Hr' Hj. subst j.
  pose proof (uf_wf _ _ _ _ U _ _ Hsv) as Hr'lt. simpl in Hr'lt.
  assert (Hr'ge : length (irOps st) <= r').
  { destruct (decide (r' < length (irOps st1))) as [Hlt|Hge]; [|lia].
    rewrite (uf_id _ _ _ _ U) in Hr' by done. lia. }
  destruct (rd_new _ _ _ R r Hr1 Hr2) as (xr & Hxr & Hxrn & Hxro).
  pose proof (uf_op _ _ _ _ U r' Hr'lt) as Hop'. rewrite <- Hr', Hxr in Hop'.
  destruct (getOp st' r') as [y|] eqn:Ey; [|done]. destruct Hop' as [Hyn Hyl].
  rewrite Hxro in Hyl. destruct (opOperands y) as [|w [|w' l]] eqn:Eops; [done| |done].
  exists r', y, w. split; [done|]. split.
  { unfold getOperands. by rewrite Ey1. }
  split; [done|]. split; [congruence|]. split; [done|].
  assert (Hsw : slot st' (r', 0) = Some w).
  { unfold slot. cbn [fst snd]. rewrite Ey. simpl. by rewrite Eops. }
  pose proof (uf_slot _ _ _ _ U _ _ _ Hsw) as Hmw. rewrite <- Hr' in Hmw.
  unfold slot in Hmw. cbn [fst snd] in Hmw. rewrite Hxr in Hmw. simpl in Hmw.
  rewrite Hxro in Hmw. injection Hmw as Hmw.
  pose proof (uf_wf _ _ _ _ U _ _ Hsw) as Hwlt.
  unfold isCopyOf. destruct dest as [b i|d j].
  - destruct w as [b' i'|c j']; [done|discriminate].
  - destruct w as [b' i'|c j']; [discriminate|]. simpl in Hmw. injection Hmw as Hd Hj.
    simpl in Hwlt, Hdest. split; [done|].
    assert (Hcd : c = d \/ length (irOps st) <= c).
    { destruct (decide (c < length (irOps st1))) as [Hlt|Hge]; [|right; lia].
      left. rewrite (uf_id _ _ _ _ U) in Hd by done. done. }
    split; [done|].
    pose proof (uf_op _ _ _ _ U c Hwlt) as Hopc. rewrite <- Hd in Hopc.
    destruct (getOp st d) as [xd|] eqn:Exd.
    + destruct (rd_old _ _ _ R _ _ Exd) as (yd & Hyd & Hydn & _). rewrite Hyd in Hopc.
      destruct (getOp st' c); [|done]. simpl. f_equal. destruct Hopc. congruence.
    + rewrite (rd_none _ _ _ R d Hdest Exd) in Hopc. by destruct (getOp st' c).
Qed.

Lemma Unfolds_declarations O st st1 st' h dest :
  Redirected dest st st1 -> Unfolds O st1 h st' ->
  (forall x, opName x ∈ [WireOp; RegOp; LogicOp] -> isExpressionAlwaysInline O x = false) ->
  forall n, isDeclaration st' n = true -> isDeclaration st n = true.
Proof.
  intros R U HO n Hn. apply (isDeclaration_Redirected dest st st1); [done|].
  unfold isDeclaration, isa in *.
  destruct (getOp st' n) as [y|] eqn:Ey; [|done].
  pose proof (getOp_lt _ _ _ Ey) as Hlt.
  pose proof (uf_op _ _ _ _ U n Hlt) as Hop. rewrite Ey in Hop.
  destruct (getOp st1 (h n)) as [x|] eqn:Ex; [|done]. destruct Hop as [Hname _].
  destruct (decide (n < length (irOps st1))) as [Hold|Hnew].
  - rewrite (uf_id _ _ _ _ U) in Ex by done. rewrite Ex. by rewrite <- Hname.
  - pose proof (uf_new _ _ _ _ U n ltac:(lia) Hlt) as Hai. unfold opIs in Hai.
    rewrite Ex in Hai. rewrite HO in Hai; [done|].
    rewrite <- Hname. by apply bool_decide_eq_true in Hn.
Qed.



Lemma sampleReuseIndex_operands n k v :
  getOperands sampleReuseIndex n !! k = Some v -> isOldValue 6 v.
Proof.
  intros H.
  do 6 (destruct n as [|n];
        [do 3 (destruct k as [|k];
               [vm_compute in H; try discriminate; injection H as <-; simpl; lia || done|]);
         vm_compute in H; discriminate|]).
  vm_compute in H. discriminate.
Qed.

